(** * The reactivity core (dep.ts, effect.ts, ref.ts, computed.ts,
      baseHandlers.ts): a shallow embedding and its properties.

    JavaScript objects live in heaps indexed by natural numbers (an object's
    identity is its index); module-level variables are fields of [state];
    user closures ([fn], schedulers, getters) are terms of a small command
    language [prog] that can call the public API. *)

From Stdlib Require Import Strings.Ascii Strings.String.

From stdpp Require Import base numbers option list gmap strings.

Local Open Scope Z_scope.

(** ** 32-bit integer operations of the host language *)

(** [ToInt32]: the result of every bitwise operator is wrapped to a signed
    32-bit integer. *)
Definition to_int32 (z : Z) : Z := (z + 2 ^ 31) `mod` 2 ^ 32 - 2 ^ 31.

(** [a | b] *)
Definition js_or (a b : Z) : Z := to_int32 (Z.lor a b).

(** [a & b] *)
Definition js_and (a b : Z) : Z := to_int32 (Z.land a b).

(** [~a] *)
Definition js_not (a : Z) : Z := to_int32 (Z.lnot a).

(** [a << k]: the shift count is taken modulo 32. *)
Definition js_shl (a : Z) (k : nat) : Z := to_int32 (Z.shiftl a (Z.of_nat k `mod` 32)).

(** ** Values and property keys *)

(** The four wrap-kinds of reactive proxies (one proxy cache each). *)
Inductive wrapKind := Reactive | ShallowReactive | Readonly | ShallowReadonly.

(** JavaScript values.  Numbers are restricted to the integers and NaN.
    An object is named by its index in the heap it lives in.  A reactive
    proxy is named by its wrap-kind and its raw target, which is how the
    proxy caches identify it; proxies laid over other proxies are outside
    the model.  Each [new Proxy(obj, shallowUnwrapHandlers)] is a fresh
    object, named by a serial number. *)
Inductive value :=
| VUndefined
| VBool (b : bool)
| VNum (z : Z)
| VNaN
| VStr (s : string)
| VObject (o : nat)
| VProxy (k : wrapKind) (o : nat)
| VUnwrapProxy (serial : nat) (target : value)
| VRef (r : nat)
| VComputed (c : nat)
| VRunner (e : nat)
| VInstrumented (name : string).

(** Property keys: strings, and symbols ([wellKnown] marks the built-in
    symbols that are properties of [Symbol]). *)
Inductive key :=
| KStr (s : string)
| KSym (wellKnown : bool) (id : nat).

Global Instance wrapKind_eq_dec : EqDecision wrapKind.
Proof. solve_decision. Defined.

Global Instance value_eq_dec : EqDecision value.
Proof. solve_decision. Defined.

Global Instance key_eq_dec : EqDecision key.
Proof. solve_decision. Defined.

Definition ITERATE_KEY : key := KSym false 0.

Definition MAP_KEY_ITERATE_KEY : key := KSym false 1.

Inductive TrackOpTypes := GET | HAS | ITERATE.

Inductive TriggerOpTypes := SET | ADD | DELETE | CLEAR.

(** ** User code

    The closures handed to the library ([fn], [scheduler], [onStop], a
    computed's getter) are commands over the public API, in
    continuation-passing style: the continuation receives what the call
    returns.  [Log v] stands for a side effect of the closure on its own
    variables ([log.push(v)], [calls++]).  [Invalidate c] is the one
    closure the library builds itself: the scheduler that the
    [ComputedRefImpl] constructor gives to the effect of computed [c]. *)

#[local] Set Warnings "-register-all".

Inductive prog :=
| Return (v : value)
| Log (v : value) (k : prog)
| Effect (fn : prog) (lazy : bool) (scheduler : option prog)
    (allowRecurse : bool) (onStop : option prog) (k : nat → prog)
| CallRunner (e : nat) (k : value → prog)
| Stop (e : nat) (k : prog)
| Ref (v : value) (shallow : bool) (k : value → prog)
| GetValue (r : value) (k : value → prog)
| SetValue (r : value) (v : value) (k : prog)
| TriggerRef (r : value) (k : prog)
| Computed (getter : prog) (setter : option (value → prog)) (isSSR : bool)
    (k : value → prog)
| Track (target : nat) (type : TrackOpTypes) (key : key) (k : prog)
| Trigger (target : nat) (type : TriggerOpTypes) (key : option key)
    (newValue : value) (k : prog)
| PauseTracking (k : prog)
| EnableTracking (k : prog)
| ResetTracking (k : prog)
| NewObject (isArr isMp : bool) (entries : list (key * value)) (k : value → prog)
| MakeProxy (kind : wrapKind) (target : value) (k : value → prog)
| ProxyRefs (objectWithRefs : value) (k : value → prog)
| Get (obj : value) (key : key) (k : value → prog)
| Set_ (obj : value) (key : key) (v : value) (k : bool → prog)
| DeleteProperty (obj : value) (key : key) (k : bool → prog)
| Has (obj : value) (key : key) (k : bool → prog)
| OwnKeys (obj : value) (k : list key → prog)
| Invalidate (c : nat).

(** ** The data model *)

(** [type Dep = Set<ReactiveEffect> & TrackedMarkers].  A JavaScript [Set]
    iterates in insertion order, so the members are a duplicate-free list. *)
Record Dep := mkDep {
  members : list nat;
  w : Z;  (* wasTracked *)
  n : Z   (* newTracked *)
}.

(** [class ReactiveEffect]. *)
Record ReactiveEffect := mkEffect {
  active : bool;
  deps : list nat;
  parent : option nat;
  computed : option nat;
  allowRecurse : bool;
  deferStop : bool;
  onStop : option prog;
  fn : prog;
  scheduler : option prog
}.

(** [class RefImpl]. *)
Record RefImpl := mkRef {
  _value : value;
  _rawValue : value;
  ref_dep : option nat;
  __v_isShallow : bool
}.

(** [class ComputedRefImpl]. *)
Record ComputedRefImpl := mkComputed {
  c_dep : option nat;
  c_value : value;
  effect : nat;
  c_isReadonly : bool;
  _dirty : bool;
  _cacheable : bool;
  _setter : option (value → prog)
}.

(** A raw target: an ordinary object, an array ([isArr]) or a [Map]
    ([isMp]) with its own data properties; arrays keep [length] apart.
    Prototype chains and accessor properties are not modelled. *)
Record JSObject := mkObject {
  isArr : bool;
  isMp : bool;
  props : list (key * value);
  len : Z
}.

(** Calls recorded for stating properties; no operation reads them. *)
Inductive event :=
| EvTrack (e d : nat)   (* [trackEffects(d)] entered while [e] was the active effect *)
| EvRun (e : nat)       (* [e.run()] called [e.fn()] *)
| EvFire (e : nat)      (* [triggerEffect(e)] went on to the scheduler or to [run] *).

Global Instance event_eq_dec : EqDecision event.
Proof. solve_decision. Defined.

(** The heaps and the module-level variables of effect.ts. *)
Record state := mkState {
  depHeap : list Dep;
  effectHeap : list ReactiveEffect;
  refHeap : list RefImpl;
  computedHeap : list ComputedRefImpl;
  objHeap : list JSObject;
  proxySerial : nat;
  targetMap : gmap nat (list (key * nat));  (* WeakMap target → Map key → Dep *)
  activeEffect : option nat;
  effectTrackDepth : nat;
  trackOpBit : Z;
  shouldTrack : bool;
  trackStack : list bool;
  out : list value;          (* what user closures logged *)
  warnings : list string;    (* what went to the [warn] sink *)
  trace : list event;
  dev : bool                 (* the build flag [__DEV__]; never assigned *)
}.

Definition initial_state (isDev : bool) : state :=
  {| depHeap := []; effectHeap := []; refHeap := []; computedHeap := [];
     objHeap := []; proxySerial := 0%nat; targetMap := ∅;
     activeEffect := None; effectTrackDepth := 0%nat; trackOpBit := 1;
     shouldTrack := true; trackStack := []; out := []; warnings := [];
     trace := []; dev := isDev |}.

Definition set_depHeap (h : list Dep) (s : state) : state :=
  {| depHeap := h; effectHeap := effectHeap s; refHeap := refHeap s;
     computedHeap := computedHeap s; objHeap := objHeap s;
     proxySerial := proxySerial s; targetMap := targetMap s;
     activeEffect := activeEffect s; effectTrackDepth := effectTrackDepth s;
     trackOpBit := trackOpBit s; shouldTrack := shouldTrack s;
     trackStack := trackStack s; out := out s; warnings := warnings s;
     trace := trace s; dev := dev s |}.

Definition set_effectHeap (h : list ReactiveEffect) (s : state) : state :=
  {| depHeap := depHeap s; effectHeap := h; refHeap := refHeap s;
     computedHeap := computedHeap s; objHeap := objHeap s;
     proxySerial := proxySerial s; targetMap := targetMap s;
     activeEffect := activeEffect s; effectTrackDepth := effectTrackDepth s;
     trackOpBit := trackOpBit s; shouldTrack := shouldTrack s;
     trackStack := trackStack s; out := out s; warnings := warnings s;
     trace := trace s; dev := dev s |}.

Definition set_refHeap (h : list RefImpl) (s : state) : state :=
  {| depHeap := depHeap s; effectHeap := effectHeap s; refHeap := h;
     computedHeap := computedHeap s; objHeap := objHeap s;
     proxySerial := proxySerial s; targetMap := targetMap s;
     activeEffect := activeEffect s; effectTrackDepth := effectTrackDepth s;
     trackOpBit := trackOpBit s; shouldTrack := shouldTrack s;
     trackStack := trackStack s; out := out s; warnings := warnings s;
     trace := trace s; dev := dev s |}.

Definition set_computedHeap (h : list ComputedRefImpl) (s : state) : state :=
  {| depHeap := depHeap s; effectHeap := effectHeap s; refHeap := refHeap s;
     computedHeap := h; objHeap := objHeap s;
     proxySerial := proxySerial s; targetMap := targetMap s;
     activeEffect := activeEffect s; effectTrackDepth := effectTrackDepth s;
     trackOpBit := trackOpBit s; shouldTrack := shouldTrack s;
     trackStack := trackStack s; out := out s; warnings := warnings s;
     trace := trace s; dev := dev s |}.

Definition set_objHeap (h : list JSObject) (s : state) : state :=
  {| depHeap := depHeap s; effectHeap := effectHeap s; refHeap := refHeap s;
     computedHeap := computedHeap s; objHeap := h;
     proxySerial := proxySerial s; targetMap := targetMap s;
     activeEffect := activeEffect s; effectTrackDepth := effectTrackDepth s;
     trackOpBit := trackOpBit s; shouldTrack := shouldTrack s;
     trackStack := trackStack s; out := out s; warnings := warnings s;
     trace := trace s; dev := dev s |}.

Definition set_proxySerial (x : nat) (s : state) : state :=
  {| depHeap := depHeap s; effectHeap := effectHeap s; refHeap := refHeap s;
     computedHeap := computedHeap s; objHeap := objHeap s;
     proxySerial := x; targetMap := targetMap s;
     activeEffect := activeEffect s; effectTrackDepth := effectTrackDepth s;
     trackOpBit := trackOpBit s; shouldTrack := shouldTrack s;
     trackStack := trackStack s; out := out s; warnings := warnings s;
     trace := trace s; dev := dev s |}.

Definition set_targetMap (m : gmap nat (list (key * nat))) (s : state) : state :=
  {| depHeap := depHeap s; effectHeap := effectHeap s; refHeap := refHeap s;
     computedHeap := computedHeap s; objHeap := objHeap s;
     proxySerial := proxySerial s; targetMap := m;
     activeEffect := activeEffect s; effectTrackDepth := effectTrackDepth s;
     trackOpBit := trackOpBit s; shouldTrack := shouldTrack s;
     trackStack := trackStack s; out := out s; warnings := warnings s;
     trace := trace s; dev := dev s |}.

Definition set_activeEffect (a : option nat) (s : state) : state :=
  {| depHeap := depHeap s; effectHeap := effectHeap s; refHeap := refHeap s;
     computedHeap := computedHeap s; objHeap := objHeap s;
     proxySerial := proxySerial s; targetMap := targetMap s;
     activeEffect := a; effectTrackDepth := effectTrackDepth s;
     trackOpBit := trackOpBit s; shouldTrack := shouldTrack s;
     trackStack := trackStack s; out := out s; warnings := warnings s;
     trace := trace s; dev := dev s |}.

Definition set_depth (d : nat) (bit : Z) (s : state) : state :=
  {| depHeap := depHeap s; effectHeap := effectHeap s; refHeap := refHeap s;
     computedHeap := computedHeap s; objHeap := objHeap s;
     proxySerial := proxySerial s; targetMap := targetMap s;
     activeEffect := activeEffect s; effectTrackDepth := d;
     trackOpBit := bit; shouldTrack := shouldTrack s;
     trackStack := trackStack s; out := out s; warnings := warnings s;
     trace := trace s; dev := dev s |}.

Definition set_shouldTrack (b : bool) (s : state) : state :=
  {| depHeap := depHeap s; effectHeap := effectHeap s; refHeap := refHeap s;
     computedHeap := computedHeap s; objHeap := objHeap s;
     proxySerial := proxySerial s; targetMap := targetMap s;
     activeEffect := activeEffect s; effectTrackDepth := effectTrackDepth s;
     trackOpBit := trackOpBit s; shouldTrack := b;
     trackStack := trackStack s; out := out s; warnings := warnings s;
     trace := trace s; dev := dev s |}.

Definition set_trackStack (l : list bool) (s : state) : state :=
  {| depHeap := depHeap s; effectHeap := effectHeap s; refHeap := refHeap s;
     computedHeap := computedHeap s; objHeap := objHeap s;
     proxySerial := proxySerial s; targetMap := targetMap s;
     activeEffect := activeEffect s; effectTrackDepth := effectTrackDepth s;
     trackOpBit := trackOpBit s; shouldTrack := shouldTrack s;
     trackStack := l; out := out s; warnings := warnings s;
     trace := trace s; dev := dev s |}.

Definition set_out (l : list value) (s : state) : state :=
  {| depHeap := depHeap s; effectHeap := effectHeap s; refHeap := refHeap s;
     computedHeap := computedHeap s; objHeap := objHeap s;
     proxySerial := proxySerial s; targetMap := targetMap s;
     activeEffect := activeEffect s; effectTrackDepth := effectTrackDepth s;
     trackOpBit := trackOpBit s; shouldTrack := shouldTrack s;
     trackStack := trackStack s; out := l; warnings := warnings s;
     trace := trace s; dev := dev s |}.

Definition set_warnings (l : list string) (s : state) : state :=
  {| depHeap := depHeap s; effectHeap := effectHeap s; refHeap := refHeap s;
     computedHeap := computedHeap s; objHeap := objHeap s;
     proxySerial := proxySerial s; targetMap := targetMap s;
     activeEffect := activeEffect s; effectTrackDepth := effectTrackDepth s;
     trackOpBit := trackOpBit s; shouldTrack := shouldTrack s;
     trackStack := trackStack s; out := out s; warnings := l;
     trace := trace s; dev := dev s |}.

Definition set_trace (l : list event) (s : state) : state :=
  {| depHeap := depHeap s; effectHeap := effectHeap s; refHeap := refHeap s;
     computedHeap := computedHeap s; objHeap := objHeap s;
     proxySerial := proxySerial s; targetMap := targetMap s;
     activeEffect := activeEffect s; effectTrackDepth := effectTrackDepth s;
     trackOpBit := trackOpBit s; shouldTrack := shouldTrack s;
     trackStack := trackStack s; out := out s; warnings := warnings s;
     trace := l; dev := dev s |}.

Definition record (ev : event) (s : state) : state := set_trace (trace s ++ [ev]) s.

(** ** Heap access *)

Definition dep_at (s : state) (d : nat) : Dep :=
  default (mkDep [] 0 0) (depHeap s !! d).

Definition effect_at (s : state) (e : nat) : ReactiveEffect :=
  default (mkEffect false [] None None false false None (Return VUndefined) None)
          (effectHeap s !! e).

Definition ref_at (s : state) (r : nat) : RefImpl :=
  default (mkRef VUndefined VUndefined None false) (refHeap s !! r).

Definition computed_at (s : state) (c : nat) : ComputedRefImpl :=
  default (mkComputed None VUndefined 0%nat true true true None) (computedHeap s !! c).

Definition object_at (s : state) (o : nat) : JSObject :=
  default (mkObject false false [] 0) (objHeap s !! o).

Definition upd_dep (d : nat) (f : Dep → Dep) (s : state) : state :=
  set_depHeap (alter f d (depHeap s)) s.

Definition upd_effect (e : nat) (f : ReactiveEffect → ReactiveEffect) (s : state) : state :=
  set_effectHeap (alter f e (effectHeap s)) s.

Definition upd_ref (r : nat) (f : RefImpl → RefImpl) (s : state) : state :=
  set_refHeap (alter f r (refHeap s)) s.

Definition upd_computed (c : nat) (f : ComputedRefImpl → ComputedRefImpl) (s : state) : state :=
  set_computedHeap (alter f c (computedHeap s)) s.

Definition upd_object (o : nat) (f : JSObject → JSObject) (s : state) : state :=
  set_objHeap (alter f o (objHeap s)) s.

Definition with_members (l : list nat) (D : Dep) : Dep := mkDep l (w D) (n D).

Definition with_w (x : Z) (D : Dep) : Dep := mkDep (members D) x (n D).

Definition with_n (x : Z) (D : Dep) : Dep := mkDep (members D) (w D) x.

Definition with_active (b : bool) (E : ReactiveEffect) : ReactiveEffect :=
  mkEffect b (deps E) (parent E) (computed E) (allowRecurse E) (deferStop E)
           (onStop E) (fn E) (scheduler E).

Definition with_deps (l : list nat) (E : ReactiveEffect) : ReactiveEffect :=
  mkEffect (active E) l (parent E) (computed E) (allowRecurse E) (deferStop E)
           (onStop E) (fn E) (scheduler E).

Definition with_parent (p : option nat) (E : ReactiveEffect) : ReactiveEffect :=
  mkEffect (active E) (deps E) p (computed E) (allowRecurse E) (deferStop E)
           (onStop E) (fn E) (scheduler E).

Definition with_deferStop (b : bool) (E : ReactiveEffect) : ReactiveEffect :=
  mkEffect (active E) (deps E) (parent E) (computed E) (allowRecurse E) b
           (onStop E) (fn E) (scheduler E).

(** [Set.prototype.add], [delete] and [has] on the insertion-ordered members. *)
Definition set_add (x : nat) (l : list nat) : list nat :=
  if bool_decide (x ∈ l) then l else l ++ [x].

Definition set_delete (x : nat) (l : list nat) : list nat :=
  filter (λ y, y ≠ x) l.

Definition set_has (x : nat) (l : list nat) : bool := bool_decide (x ∈ l).

(** ** dep.ts *)

(** [createDep(effects)]: [new Set(effects)] with both markers zero. *)
Definition createDep (effects : list nat) : Dep :=
  mkDep (foldl (λ acc e, set_add e acc) [] effects) 0 0.

Definition wasTracked (s : state) (dep : Dep) : bool :=
  bool_decide (0 < js_and (w dep) (trackOpBit s)).

Definition newTracked (s : state) (dep : Dep) : bool :=
  bool_decide (0 < js_and (n dep) (trackOpBit s)).

(** [initDepMarkers]: [deps[i].w |= trackOpBit] for every [i]. *)
Definition initDepMarkers (e : nat) (s : state) : state :=
  foldl (λ s d, upd_dep d (λ D, with_w (js_or (w D) (trackOpBit s)) D) s)
        s (deps (effect_at s e)).

(** The loop of [finalizeDepMarkers] over [deps[i..]]; [kept] is
    [deps[0..ptr)]. *)
Fixpoint finalize_loop (e : nat) (l : list nat) (kept : list nat) (s : state)
  : list nat * state :=
  match l with
  | [] => (kept, s)
  | d :: l' =>
      let dep := dep_at s d in
      let '(kept1, s1) :=
        if wasTracked s dep && negb (newTracked s dep)
        then (kept, upd_dep d (λ D, with_members (set_delete e (members D)) D) s)
        else (kept ++ [d], s) in
      let s2 := upd_dep d (λ D, with_w (js_and (w D) (js_not (trackOpBit s1))) D) s1 in
      let s3 := upd_dep d (λ D, with_n (js_and (n D) (js_not (trackOpBit s2))) D) s2 in
      finalize_loop e l' kept1 s3
  end.

Definition finalizeDepMarkers (e : nat) (s : state) : state :=
  let '(kept, s') := finalize_loop e (deps (effect_at s e)) [] s in
  upd_effect e (with_deps kept) s'.

(** ** effect.ts: the parts that call no closure *)

Definition maxMarkerBits : nat := 30.

(** [cleanupEffect]: [deps[i].delete(effect)] for every [i], then
    [deps.length = 0]. *)
Definition cleanupEffect (e : nat) (s : state) : state :=
  let s' := foldl (λ s d, upd_dep d (λ D, with_members (set_delete e (members D)) D) s)
                  s (deps (effect_at s e)) in
  upd_effect e (with_deps []) s'.

Definition pauseTracking (s : state) : state :=
  set_shouldTrack false (set_trackStack (trackStack s ++ [shouldTrack s]) s).

Definition enableTracking (s : state) : state :=
  set_shouldTrack true (set_trackStack (trackStack s ++ [shouldTrack s]) s).

(** [resetTracking]: [trackStack.pop()], [true] when the stack is empty. *)
Definition resetTracking (s : state) : state :=
  match last (trackStack s) with
  | None => set_shouldTrack true s
  | Some b => set_shouldTrack b
                (set_trackStack (take (length (trackStack s) - 1) (trackStack s)) s)
  end.

(** [trackEffects(dep)].  Both callers test [activeEffect] first, and a
    [dep] is always an object of the heap; in the other cases, which cannot
    occur, the model leaves the state alone. *)
Definition trackEffects (d : nat) (s : state) : state :=
  match activeEffect s, depHeap s !! d with
  | Some a, Some _ =>
      let s := record (EvTrack a d) s in
      let '(shouldTrack, s1) :=
        if bool_decide (effectTrackDepth s ≤ maxMarkerBits)%nat then
          if negb (newTracked s (dep_at s d)) then
            let s1 := upd_dep d (λ D, with_n (js_or (n D) (trackOpBit s)) D) s in
            (negb (wasTracked s1 (dep_at s1 d)), s1)
          else (false, s)
        else (negb (set_has a (members (dep_at s d))), s) in
      if shouldTrack then
        let s2 := upd_dep d (λ D, with_members (set_add a (members D)) D) s1 in
        upd_effect a (λ E, with_deps (deps E ++ [d]) E) s2
      else s1
  | _, _ => s
  end.

(** Allocation of a new [Dep] object in the heap. *)
Definition alloc_dep (D : Dep) (s : state) : nat * state :=
  (length (depHeap s), set_depHeap (depHeap s ++ [D]) s).

(** [Map.prototype.get] and [set] on a [key → Dep] map that keeps
    insertion order. *)
Fixpoint map_get (k : key) (m : list (key * nat)) : option nat :=
  match m with
  | [] => None
  | (k', d) :: m' => if bool_decide (k' = k) then Some d else map_get k m'
  end.

Definition depsMap_of (s : state) (target : nat) : option (list (key * nat)) :=
  targetMap s !! target.

(** [track(target, type, key)]. *)
Definition track (target : nat) (type : TrackOpTypes) (k : key) (s : state) : state :=
  if shouldTrack s && bool_decide (is_Some (activeEffect s)) then
    let depsMap := default [] (depsMap_of s target) in
    let s1 := set_targetMap (<[target := depsMap]> (targetMap s)) s in
    match map_get k depsMap with
    | Some d => trackEffects d s1
    | None =>
        let '(d, s2) := alloc_dep (createDep []) s1 in
        let s3 := set_targetMap (<[target := depsMap ++ [(k, d)]]> (targetMap s2)) s2 in
        trackEffects d s3
    end
  else s.

(** ** Outcomes *)

Inductive failure :=
| OutOfFuel    (* no result within the fuel given *)
| TypeError    (* the host raised a TypeError *)
| Unmodelled   (* the run left the fragment of the language modelled here *).

Inductive res (A : Type) :=
| Done (a : A) (s : state)
| Fail (f : failure).

Arguments Done {A} a s.

Arguments Fail {A} f.

Definition bind {A B : Type} (r : res A) (k : A → state → res B) : res B :=
  match r with
  | Done a s => k a s
  | Fail f => Fail f
  end.

(** ** Coercions of the host language *)

Definition digit_val (a : ascii) : option Z :=
  let c := Z.of_nat (nat_of_ascii a) in
  if bool_decide (48 ≤ c ≤ 57) then Some (c - 48) else None.

Fixpoint digits_val (s : string) (acc : Z) : option Z :=
  match s with
  | EmptyString => Some acc
  | String a s' =>
      match digit_val a with
      | Some d => digits_val s' (acc * 10 + d)
      | None => None
      end
  end.

(** What [ToNumber] gives for a string: NaN, an infinity, or the finite
    double [± m · 2 ^ t]; [-0] is [DFin true 0 0]. *)
Inductive double :=
| DNaN
| DInf (negative : bool)
| DFin (negative : bool) (m t : Z).

(** [n / d < 2 ^ e], for [0 < d]. *)
Definition below_pow2 (n d e : Z) : bool :=
  if bool_decide (0 ≤ e) then bool_decide (n < d * 2 ^ e)
  else bool_decide (n * 2 ^ (- e) < d).

(** The exponent [e] with [2 ^ e ≤ n / d < 2 ^ (e + 1)], for [0 < n] and
    [0 < d]. *)
Definition binary_exponent (n d : Z) : Z :=
  let e := Z.log2 n - Z.log2 d in
  if below_pow2 n d e then e - 1 else e.

(** [num / den] rounded to the nearest integer, a tie to the even one. *)
Definition round_half_even (num den : Z) : Z :=
  let q := num `div` den in
  let r := num `mod` den in
  if bool_decide (2 * r < den) then q
  else if bool_decide (den < 2 * r) then q + 1
  else if Z.even q then q else q + 1.

(** The Number value for [± n / d]: the double nearest to it, a tie to
    the one with the even significand; 53 bits of significand down to
    the exponent [-1074] of the subnormals, an infinity from [2 ^ 1024]
    on. *)
Definition round_to_double (negative : bool) (n d : Z) : double :=
  if bool_decide (n = 0) then DFin negative 0 0
  else
    let t := Z.max (binary_exponent n d - 52) (- 1074) in
    let m := if bool_decide (0 ≤ t) then round_half_even n (d * 2 ^ t)
             else round_half_even (n * 2 ^ (- t)) d in
    if bool_decide (0 ≤ t) && bool_decide (2 ^ 1024 ≤ m * 2 ^ t) then DInf negative
    else DFin negative m t.

(** The white space of [StrWhiteSpaceChar] within ASCII: TAB, LF, VT, FF,
    CR and the space. *)
Definition is_white_space (a : ascii) : bool :=
  bool_decide (nat_of_ascii a ∈ [9; 10; 11; 12; 13; 32]%nat).

Fixpoint trim_start (l : list ascii) : list ascii :=
  match l with
  | a :: l' => if is_white_space a then trim_start l' else l
  | [] => []
  end.

Definition trim (l : list ascii) : list ascii := rev (trim_start (rev (trim_start l))).

(** The value of a digit in a base up to 16. *)
Definition digit_in (base : Z) (a : ascii) : option Z :=
  let c := Z.of_nat (nat_of_ascii a) in
  let v := if bool_decide (48 ≤ c ≤ 57) then Some (c - 48)
           else if bool_decide (97 ≤ c ≤ 102) then Some (c - 87)
           else if bool_decide (65 ≤ c ≤ 70) then Some (c - 55)
           else None in
  match v with
  | Some d => if bool_decide (d < base) then Some d else None
  | None => None
  end.

(** The longest prefix of digits: its value, its length and the rest. *)
Fixpoint span_digits (base : Z) (l : list ascii) (acc : Z) (count : nat)
  : Z * nat * list ascii :=
  match l with
  | a :: l' =>
      match digit_in base a with
      | Some d => span_digits base l' (acc * base + d) (S count)
      | None => (acc, count, l)
      end
  | [] => (acc, count, [])
  end.

(** The number of significant digits of a significand of at most [fuel]
    digits: those from its first to its last digit other than [0]. *)
Fixpoint strip_zeros (fuel : nat) (m : Z) : Z :=
  match fuel with
  | O => m
  | S fuel' =>
      if bool_decide (m ≠ 0) && bool_decide (m `mod` 10 = 0)
      then strip_zeros fuel' (m `div` 10) else m
  end.

Fixpoint count_digits (fuel : nat) (m : Z) : nat :=
  match fuel with
  | O => O
  | S fuel' => if bool_decide (m = 0) then O else S (count_digits fuel' (m `div` 10))
  end.

Definition significant_digits (fuel : nat) (m : Z) : nat :=
  count_digits fuel (strip_zeros fuel m).

(** [RoundMVResult] for the value [± m · 10 ^ k] of a significand of
    [digits] digits: the Number value for it when it has at most 20
    significant digits; with more, the host may choose between two
    roundings, which is outside the model ([None]). *)
Definition decimal_value (negative : bool) (m : Z) (digits : nat) (k : Z)
  : option double :=
  if bool_decide (significant_digits digits m ≤ 20)%nat then
    Some (if bool_decide (0 ≤ k) then round_to_double negative (m * 10 ^ k) 1
          else round_to_double negative m (10 ^ (- k)))
  else None.

(** [ExponentPart], when the literal has one, and nothing after it. *)
Definition exponent_part (negative : bool) (m : Z) (digits : nat) (fraction : nat)
    (l : list ascii) : option double :=
  match l with
  | [] => decimal_value negative m digits (- Z.of_nat fraction)
  | a :: l' =>
      if bool_decide (a = "e"%char) || bool_decide (a = "E"%char) then
        let '(minus, l'') :=
          match l' with
          | b :: l'' =>
              if bool_decide (b = "-"%char) then (true, l'')
              else if bool_decide (b = "+"%char) then (false, l'')
              else (false, l')
          | [] => (false, l')
          end in
        match span_digits 10 l'' 0 0 with
        | (e, S _, []) =>
            decimal_value negative m digits
              ((if minus then - e else e) - Z.of_nat fraction)
        | _ => Some DNaN
        end
      else Some DNaN
  end.

(** [StrUnsignedDecimalLiteral]: [Infinity], [digits], [digits.],
    [digits.digits] and [.digits], each of the last four with an
    optional exponent. *)
Definition unsigned_decimal (negative : bool) (l : list ascii) : option double :=
  if bool_decide (l = list_ascii_of_string "Infinity") then Some (DInf negative)
  else
    let '(i, ni, r) := span_digits 10 l 0 0 in
    match r with
    | a :: r' =>
        if bool_decide (a = "."%char) then
          let '(m, n, r'') := span_digits 10 r' i ni in
          if bool_decide (n = 0%nat) then Some DNaN
          else exponent_part negative m n (n - ni) r''
        else if bool_decide (ni = 0%nat) then Some DNaN
        else exponent_part negative i ni 0 r
    | [] => if bool_decide (ni = 0%nat) then Some DNaN
            else decimal_value negative i ni 0
    end.

(** [NonDecimalIntegerLiteral]: the digits after [0x], [0o] or [0b]. *)
Definition non_decimal (base : Z) (l : list ascii) : double :=
  match span_digits base l 0 0 with
  | (v, S _, []) => round_to_double false v 1
  | _ => DNaN
  end.

(** [StringToNumber]: [ToNumber] on a string of ASCII characters; a
    string with another character is outside the model ([None]). *)
Definition StringToNumber (s : string) : option double :=
  let l := list_ascii_of_string s in
  if bool_decide (Forall (λ a, nat_of_ascii a < 128)%nat l) then
    match trim l with
    | [] => Some (DFin false 0 0)
    | a :: l' =>
        let radix :=
          match l' with
          | b :: _ =>
              if bool_decide (a = "0"%char) then
                if bool_decide (b = "x"%char) || bool_decide (b = "X"%char) then Some 16
                else if bool_decide (b = "o"%char) || bool_decide (b = "O"%char) then Some 8
                else if bool_decide (b = "b"%char) || bool_decide (b = "B"%char) then Some 2
                else None
              else None
          | [] => None
          end in
        match radix with
        | Some base => Some (non_decimal base (tail l'))
        | None =>
            if bool_decide (a = "-"%char) then unsigned_decimal true l'
            else if bool_decide (a = "+"%char) then unsigned_decimal false l'
            else unsigned_decimal false (a :: l')
        end
    end
  else None.

(** [x >= z] for a Number [x] and an integer [z]. *)
Definition double_ge (x : double) (z : Z) : bool :=
  match x with
  | DNaN => false
  | DInf negative => negb negative
  | DFin negative m t =>
      let v := if negative then - m else m in
      if bool_decide (0 ≤ t) then bool_decide (z ≤ v * 2 ^ t)
      else bool_decide (z * 2 ^ (- t) ≤ v)
  end.

(** [key >= newValue] as [trigger] evaluates it, for a new value that is
    an integer of at most 53 bits, a boolean, NaN or [undefined]: a string
    key is converted by [ToNumber], a symbol key raises a TypeError. *)
Definition key_ge (k : key) (newValue : value) : failure + bool :=
  match k with
  | KSym _ _ => inl TypeError
  | KStr s =>
      let against (z : Z) :=
        if bool_decide (- 2 ^ 53 ≤ z ≤ 2 ^ 53) then
          match StringToNumber s with
          | Some x => inr (double_ge x z)
          | None => inl Unmodelled
          end
        else inl Unmodelled in
      match newValue with
      | VNum z => against z
      | VBool b => against (if b then 1 else 0)
      | VNaN | VUndefined =>
          match StringToNumber s with
          | Some _ => inr false
          | None => inl Unmodelled
          end
      | _ => inl Unmodelled
      end
  end.

(** Modelled from the spec: [isIntegerKey] of the shared package, which is
    not part of the sources at hand ("[add], target is array, key is
    integer"): the key is the decimal numeral of a natural number. *)
Definition isIntegerKey (k : key) : bool :=
  match k with
  | KStr s =>
      match s with
      | EmptyString => false
      | String a s' =>
          bool_decide (is_Some (digits_val s 0))
          && (bool_decide (s' = EmptyString) || negb (bool_decide (a = "0"%char)))
      end
  | KSym _ _ => false
  end.

(** Modelled from the spec: [hasChanged] of the shared package ("Identity
    comparison uses same value or both NaN"). *)
Definition hasChanged (value oldValue : value) : bool :=
  negb (bool_decide (value = oldValue)).

(** [isArray(target)] and [isMap(target)] for a raw target. *)
Definition isArray (s : state) (target : nat) : bool := isArr (object_at s target).

Definition isMap (s : state) (target : nat) : bool := isMp (object_at s target).

(** ** effect.ts: [trigger], its collection of Deps *)

(** The [depsMap.forEach] of the ["length"] branch. *)
Fixpoint collect_length (newValue : value) (depsMap : list (key * nat))
  : failure + list (option nat) :=
  match depsMap with
  | [] => inr []
  | (k, dep) :: m =>
      let push :=
        if bool_decide (k = KStr "length") then inr true else key_ge k newValue in
      match push with
      | inl f => inl f
      | inr b =>
          match collect_length newValue m with
          | inl f => inl f
          | inr l => inr (if b then Some dep :: l else l)
          end
      end
  end.

(** The array [deps] that [trigger] assembles, given the [depsMap] of the
    target. *)
Definition trigger_deps (s : state) (target : nat) (type : TriggerOpTypes)
    (k : option key) (newValue : value) (depsMap : list (key * nat))
  : failure + list (option nat) :=
  match type with
  | CLEAR => inr (map (λ kd, Some (snd kd)) depsMap)
  | _ =>
      if bool_decide (k = Some (KStr "length")) && isArray s target then
        collect_length newValue depsMap
      else
        let deps0 := match k with Some k' => [map_get k' depsMap] | None => [] end in
        inr (deps0 ++
          match type with
          | ADD =>
              if negb (isArray s target) then
                [map_get ITERATE_KEY depsMap]
                ++ (if isMap s target then [map_get MAP_KEY_ITERATE_KEY depsMap] else [])
              else if match k with Some k' => isIntegerKey k' | None => false end then
                [map_get (KStr "length") depsMap]
              else []
          | DELETE =>
              if negb (isArray s target) then
                [map_get ITERATE_KEY depsMap]
                ++ (if isMap s target then [map_get MAP_KEY_ITERATE_KEY depsMap] else [])
              else []
          | SET =>
              if isMap s target then [map_get ITERATE_KEY depsMap] else []
          | CLEAR => []
          end)
  end.

(** The effects [trigger] hands to [triggerEffects]: the members of the
    only Dep, or the members of all Deps merged by [createDep];
    [None] when the only entry is [undefined]. *)
Definition trigger_effects (s : state) (deps : list (option nat)) : option (list nat) :=
  match deps with
  | [d0] =>
      match d0 with
      | Some d => Some (members (dep_at s d))
      | None => None
      end
  | _ =>
      Some (members (createDep
        (flat_map (λ od, match od with
                         | Some d => members (dep_at s d)
                         | None => []
                         end) deps)))
  end.

(** ** reactive.ts, as far as ref.ts and the handlers use it *)

Definition kindReadonly (k : wrapKind) : bool :=
  match k with Readonly | ShallowReadonly => true | _ => false end.

Definition kindShallow (k : wrapKind) : bool :=
  match k with ShallowReactive | ShallowReadonly => true | _ => false end.

(** Modelled from the spec: [toRaw] of reactive.ts, which is not part of the
    sources at hand ("[toRaw(reactive(x)) === x]"): the raw target of a
    reactive proxy, and any other value itself. *)
Definition toRaw (v : value) : value :=
  match v with
  | VProxy _ o => VObject o
  | _ => v
  end.

(** Modelled from the spec: [isReactive], [isReadonly] and [isShallow] of
    reactive.ts read the flags that the [get] trap of the proxy answers
    ("special sentinel keys report reactivity flags"). *)
Definition isReactive (v : value) : bool :=
  match v with VProxy k _ => negb (kindReadonly k) | _ => false end.

Definition isReadonly (s : state) (v : value) : bool :=
  match v with
  | VProxy k _ => kindReadonly k
  | VComputed c => c_isReadonly (computed_at s c)
  | _ => false
  end.

Definition isShallow (s : state) (v : value) : bool :=
  match v with
  | VProxy k _ => kindShallow k
  | VRef r => __v_isShallow (ref_at s r)
  | _ => false
  end.

(** [isObject] of the shared package: [val !== null && typeof val === 'object']. *)
Definition isObject (v : value) : bool :=
  match v with
  | VObject _ | VProxy _ _ | VUnwrapProxy _ _ | VRef _ | VComputed _ => true
  | _ => false
  end.

(** Modelled from the spec: [reactive], [shallowReactive], [readonly] and
    [shallowReadonly] of reactive.ts, which is not part of the sources at
    hand ("two calls with the same underlying target yield the same proxy
    identity", "[reactive(reactive(x)) === reactive(x)]"): a raw target gets
    its cached proxy of the wanted kind, a proxy and a primitive are returned
    as they are.  A readonly proxy over a reactive one, and proxies over refs
    or over ref-unwrapping proxies, are outside the model ([None]). *)
Definition createReactiveObject (kind : wrapKind) (v : value) : option value :=
  match v with
  | VObject o => Some (VProxy kind o)
  | VProxy k _ => if kindReadonly kind && negb (kindReadonly k) then None else Some v
  | VRef _ | VComputed _ | VUnwrapProxy _ _ => None
  | _ => Some v
  end.

Definition reactive (v : value) : option value := createReactiveObject Reactive v.

Definition readonly (v : value) : option value := createReactiveObject Readonly v.

(** [toReactive]: [isObject(value) ? reactive(value) : value]. *)
Definition toReactive (v : value) : option value :=
  if isObject v then reactive v else Some v.

(** ** ref.ts: tracking *)

(** A [RefBase]: anything with an optional [dep], here a [RefImpl] or a
    [ComputedRefImpl]. *)
Inductive refBase := OfRef (r : nat) | OfComputed (c : nat).

Definition dep_of (s : state) (rb : refBase) : option nat :=
  match rb with
  | OfRef r => ref_dep (ref_at s r)
  | OfComputed c => c_dep (computed_at s c)
  end.

Definition with_ref_dep (d : option nat) (R : RefImpl) : RefImpl :=
  mkRef (_value R) (_rawValue R) d (__v_isShallow R).

Definition with_ref_values (v raw : value) (R : RefImpl) : RefImpl :=
  mkRef v raw (ref_dep R) (__v_isShallow R).

Definition with_c_dep (d : option nat) (C : ComputedRefImpl) : ComputedRefImpl :=
  mkComputed d (c_value C) (effect C) (c_isReadonly C) (_dirty C) (_cacheable C) (_setter C).

Definition with_dirty (b : bool) (C : ComputedRefImpl) : ComputedRefImpl :=
  mkComputed (c_dep C) (c_value C) (effect C) (c_isReadonly C) b (_cacheable C) (_setter C).

Definition with_c_value (v : value) (C : ComputedRefImpl) : ComputedRefImpl :=
  mkComputed (c_dep C) v (effect C) (c_isReadonly C) (_dirty C) (_cacheable C) (_setter C).

Definition set_dep_of (rb : refBase) (d : nat) (s : state) : state :=
  match rb with
  | OfRef r => upd_ref r (with_ref_dep (Some d)) s
  | OfComputed c => upd_computed c (with_c_dep (Some d)) s
  end.

(** [trackRefValue(ref)]: [trackEffects(ref.dep || (ref.dep = createDep()))]. *)
Definition trackRefValue (rb : refBase) (s : state) : state :=
  if shouldTrack s && bool_decide (is_Some (activeEffect s)) then
    match dep_of s rb with
    | Some d => trackEffects d s
    | None =>
        let '(d, s1) := alloc_dep (createDep []) s in
        trackEffects d (set_dep_of rb d s1)
    end
  else s.

(** ** effect.ts and ref.ts: the parts that call closures

    [call] runs a closure; the interpreter below passes itself with less
    fuel. *)

Section WithCall.
Variable call : prog → state → res value.

(** The walk up the [parent] chain at the head of [run]: [Some true] when it
    meets [e].  A chain without repetition is no longer than the heap; a
    longer walk is in a cycle and never ends ([None]). *)
Fixpoint in_parent_chain (fuel : nat) (s : state) (p : option nat) (e : nat)
  : option bool :=
  match p with
  | None => Some false
  | Some x =>
      if bool_decide (x = e) then Some true
      else match fuel with
           | O => None
           | S fuel' => in_parent_chain fuel' s (parent (effect_at s x)) e
           end
  end.

(** [ReactiveEffect.stop]. *)
Definition stop (e : nat) (s : state) : res unit :=
  if bool_decide (activeEffect s = Some e) then
    Done tt (upd_effect e (with_deferStop true) s)
  else if active (effect_at s e) then
    let s1 := cleanupEffect e s in
    bind (match onStop (effect_at s1 e) with
          | Some p => call p s1
          | None => Done VUndefined s1
          end)
         (λ _ s2, Done tt (upd_effect e (with_active false) s2))
  else Done tt s.

(** [run], from [this.parent = activeEffect] up to the call of [this.fn]. *)
Definition run_enter (e : nat) (s : state) : state :=
  let s1 := upd_effect e (with_parent (activeEffect s)) s in
  let s2 := set_activeEffect (Some e) s1 in
  let s3 := set_shouldTrack true s2 in
  let depth := S (effectTrackDepth s3) in
  let s4 := set_depth depth (js_shl 1 depth) s3 in
  if bool_decide (depth ≤ maxMarkerBits)%nat then initDepMarkers e s4
  else cleanupEffect e s4.

(** The [finally] block of [run], up to [this.parent = undefined]. *)
Definition run_leave (e : nat) (lastShouldTrack : bool) (s : state) : state :=
  let s1 := if bool_decide (effectTrackDepth s ≤ maxMarkerBits)%nat
            then finalizeDepMarkers e s else s in
  let depth := pred (effectTrackDepth s1) in
  let s2 := set_depth depth (js_shl 1 depth) s1 in
  let s3 := set_activeEffect (parent (effect_at s2 e)) s2 in
  let s4 := set_shouldTrack lastShouldTrack s3 in
  upd_effect e (with_parent None) s4.

(** [ReactiveEffect.run]. *)
Definition run (e : nat) (s : state) : res value :=
  if negb (active (effect_at s e)) then
    call (fn (effect_at s e)) (record (EvRun e) s)
  else
    let lastShouldTrack := shouldTrack s in
    match in_parent_chain (length (effectHeap s)) s (activeEffect s) e with
    | None => Fail OutOfFuel
    | Some true => Done VUndefined s
    | Some false =>
        let s1 := run_enter e s in
        bind (call (fn (effect_at s1 e)) (record (EvRun e) s1))
             (λ v s2,
                let s3 := run_leave e lastShouldTrack s2 in
                if deferStop (effect_at s3 e)
                then bind (stop e s3) (λ _ s4, Done v s4)
                else Done v s3)
    end.

(** [triggerEffect]. *)
Definition triggerEffect (e : nat) (s : state) : res unit :=
  if negb (bool_decide (Some e = activeEffect s)) || allowRecurse (effect_at s e) then
    let s1 := record (EvFire e) s in
    match scheduler (effect_at s1 e) with
    | Some p => bind (call p s1) (λ _ s2, Done tt s2)
    | None => bind (run e s1) (λ _ s2, Done tt s2)
    end
  else Done tt s.

(** One [for (const effect of effects)] loop of [triggerEffects]: it fires
    the effects for which [effect.computed] is set ([wantComputed]) or is
    not set. *)
Fixpoint fire_loop (fire : nat → state → res unit) (wantComputed : bool)
    (effects : list nat) (s : state) : res unit :=
  match effects with
  | [] => Done tt s
  | e :: rest =>
      if bool_decide (bool_decide (is_Some (computed (effect_at s e))) = wantComputed)
      then bind (fire e s) (λ _ s1, fire_loop fire wantComputed rest s1)
      else fire_loop fire wantComputed rest s
  end.

(** [triggerEffects], on the array [effects] it spreads its argument into;
    [fire] is [triggerEffect]. *)
Definition triggerEffects_with (fire : nat → state → res unit)
    (effects : list nat) (s : state) : res unit :=
  bind (fire_loop fire true effects s) (λ _ s1, fire_loop fire false effects s1).

Definition triggerEffects (effects : list nat) (s : state) : res unit :=
  triggerEffects_with triggerEffect effects s.

(** [trigger(target, type, key, newValue)]. *)
Definition trigger (target : nat) (type : TriggerOpTypes) (k : option key)
    (newValue : value) (s : state) : res unit :=
  match depsMap_of s target with
  | None => Done tt s
  | Some depsMap =>
      match trigger_deps s target type k newValue depsMap with
      | inl f => Fail f
      | inr deps =>
          match trigger_effects s deps with
          | Some effects => triggerEffects effects s
          | None => Done tt s
          end
      end
  end.

(** [triggerRefValue(ref)]. *)
Definition triggerRefValue (rb : refBase) (s : state) : res unit :=
  match dep_of s rb with
  | Some d => triggerEffects (members (dep_at s d)) s
  | None => Done tt s
  end.

(** [createRef(rawValue, shallow)] with the constructor of [RefImpl]. *)
Definition isRef (v : value) : bool :=
  match v with VRef _ | VComputed _ => true | _ => false end.

Definition createRef (rawValue : value) (shallow : bool) (s : state) : res value :=
  if isRef rawValue then Done rawValue s
  else
    match (if shallow then Some rawValue else toReactive rawValue) with
    | None => Fail Unmodelled
    | Some v =>
        let R := mkRef v (if shallow then rawValue else toRaw rawValue) None shallow in
        Done (VRef (length (refHeap s))) (set_refHeap (refHeap s ++ [R]) s)
    end.

(** [RefImpl]'s [get value]. *)
Definition RefImpl_get (r : nat) (s : state) : res value :=
  let s1 := trackRefValue (OfRef r) s in
  Done (_value (ref_at s1 r)) s1.

(** [RefImpl]'s [set value]. *)
Definition RefImpl_set (r : nat) (newVal : value) (s : state) : res unit :=
  let newVal := if __v_isShallow (ref_at s r) then newVal else toRaw newVal in
  if hasChanged newVal (_rawValue (ref_at s r)) then
    match (if __v_isShallow (ref_at s r) then Some newVal else toReactive newVal) with
    | None => Fail Unmodelled
    | Some v =>
        let s1 := upd_ref r (with_ref_values v newVal) s in
        triggerRefValue (OfRef r) s1
    end
  else Done tt s.

(** ** computed.ts *)

(** The constructor of [ComputedRefImpl]: the effect is built from the
    getter and the scheduler closure, and is not run. *)
Definition new_ComputedRefImpl (getter : prog) (setter : option (value → prog))
    (isReadonly isSSR : bool) (s : state) : nat * state :=
  let c := length (computedHeap s) in
  let e := length (effectHeap s) in
  let E := mkEffect (negb isSSR) [] None (Some c) false false None getter
                    (Some (Invalidate c)) in
  let C := mkComputed None VUndefined e isReadonly true (negb isSSR) setter in
  (c, set_computedHeap (computedHeap s ++ [C]) (set_effectHeap (effectHeap s ++ [E]) s)).

(** The scheduler closure of the constructor:
    [if (!this._dirty) { this._dirty = true; triggerRefValue(this) }]. *)
Definition computed_scheduler (c : nat) (s : state) : res unit :=
  if negb (_dirty (computed_at s c)) then
    triggerRefValue (OfComputed c) (upd_computed c (with_dirty true) s)
  else Done tt s.

(** [ComputedRefImpl]'s [get value]. *)
Definition ComputedRefImpl_get (c : nat) (s : state) : res value :=
  let s1 := trackRefValue (OfComputed c) s in
  if _dirty (computed_at s1 c) || negb (_cacheable (computed_at s1 c)) then
    let s2 := upd_computed c (with_dirty false) s1 in
    bind (run (effect (computed_at s2 c)) s2)
         (λ v s3, let s4 := upd_computed c (with_c_value v) s3 in
                  Done (c_value (computed_at s4 c)) s4)
  else Done (c_value (computed_at s1 c)) s1.

(** [ComputedRefImpl]'s [set value]: [this._setter(newValue)]; the setter
    that [computed] installs for a getter alone warns in a development
    build and does nothing otherwise. *)
Definition ComputedRefImpl_set (c : nat) (newValue : value) (s : state) : res unit :=
  match _setter (computed_at s c) with
  | Some f => bind (call (f newValue) s) (λ _ s1, Done tt s1)
  | None =>
      Done tt (if dev s
               then set_warnings (warnings s ++ ["Write operation failed: computed value is readonly"%string]) s
               else s)
  end.

(** [computed(getterOrOptions, debugOptions, isSSR)]; [setter] is [None]
    when a getter alone is passed. *)
Definition computed_ (getter : prog) (setter : option (value → prog)) (isSSR : bool)
    (s : state) : nat * state :=
  new_ComputedRefImpl getter setter
    (match setter with None => true | Some _ => false end) isSSR s.

End WithCall.

(** ** Raw targets *)

Fixpoint alist_get (k : key) (l : list (key * value)) : option value :=
  match l with
  | [] => None
  | (k', v) :: l' => if bool_decide (k' = k) then Some v else alist_get k l'
  end.

Fixpoint alist_set (k : key) (v : value) (l : list (key * value)) : list (key * value) :=
  match l with
  | [] => [(k, v)]
  | (k', v') :: l' =>
      if bool_decide (k' = k) then (k, v) :: l' else (k', v') :: alist_set k v l'
  end.

Definition alist_delete (k : key) (l : list (key * value)) : list (key * value) :=
  filter (λ kv, fst kv ≠ k) l.

(** [Number(key)] for a key with [isIntegerKey(key)]. *)
Definition index_of_key (k : key) : option Z :=
  match k with
  | KStr s => if isIntegerKey k then digits_val s 0 else None
  | KSym _ _ => None
  end.

(** The array index a key denotes, if it is one: the canonical numeral of
    an integer below [2 ^ 32 - 1]. *)
Definition array_index (k : key) : option Z :=
  match index_of_key k with
  | Some i => if bool_decide (i < 2 ^ 32 - 1) then Some i else None
  | None => None
  end.

Definition with_props (l : list (key * value)) (O : JSObject) : JSObject :=
  mkObject (isArr O) (isMp O) l (len O).

Definition with_len (z : Z) (O : JSObject) : JSObject :=
  mkObject (isArr O) (isMp O) (props O) z.

(** [hasOwn(target, key)]. *)
Definition hasOwn (s : state) (target : nat) (k : key) : bool :=
  let O := object_at s target in
  (isArr O && bool_decide (k = KStr "length"))
  || bool_decide (is_Some (alist_get k (props O))).

(** [target[key]] on a raw target. *)
Definition raw_get (s : state) (target : nat) (k : key) : value :=
  let O := object_at s target in
  if isArr O && bool_decide (k = KStr "length") then VNum (len O)
  else default VUndefined (alist_get k (props O)).

(** [Reflect.set] on a raw target: an assignment to [length] of an array
    drops the elements from the new length on, an assignment past the end
    grows [length].  A new length that is no number below [2^32] is
    outside the model. *)
Definition raw_set (target : nat) (k : key) (v : value) (s : state) : option state :=
  let O := object_at s target in
  if isArr O && bool_decide (k = KStr "length") then
    match v with
    | VNum z =>
        if bool_decide (0 ≤ z < 2 ^ 32) then
          Some (upd_object target
                  (λ O, with_len z (with_props
                     (filter (λ kv, match array_index (fst kv) with
                                    | Some i => bool_decide (i < z)
                                    | None => true
                                    end = true) (props O)) O)) s)
        else None
    | _ => None
    end
  else
    let s1 := upd_object target (λ O, with_props (alist_set k v (props O)) O) s in
    match array_index k with
    | Some i =>
        if isArr O && bool_decide (len O ≤ i)
        then Some (upd_object target (with_len (i + 1)) s1)
        else Some s1
    | None => Some s1
    end.

(** [Reflect.deleteProperty] on a raw target; [length] of an array cannot
    be deleted. *)
Definition raw_delete (target : nat) (k : key) (s : state) : bool * state :=
  let O := object_at s target in
  if isArr O && bool_decide (k = KStr "length") then (false, s)
  else (true, upd_object target (λ O, with_props (alist_delete k (props O)) O) s).

(** Insertion of a key into the ascending run of array indices. *)
Fixpoint insert_index (i : Z) (k : key) (l : list (Z * key)) : list (Z * key) :=
  match l with
  | [] => [(i, k)]
  | (j, k') :: l' => if bool_decide (i < j) then (i, k) :: l else (j, k') :: insert_index i k l'
  end.

(** [Reflect.ownKeys] on a raw target: array indices ascending, then the
    other strings, then the symbols, both in creation order. *)
Definition raw_ownKeys (s : state) (target : nat) : list key :=
  let O := object_at s target in
  let ks := map fst (props O) in
  let indices :=
    foldl (λ acc k, match array_index k with
                    | Some i => insert_index i k acc
                    | None => acc
                    end) [] ks in
  map snd indices
  ++ (if isArr O then [KStr "length"] else [])
  ++ filter (λ k, match k with
                  | KStr _ => negb (bool_decide (is_Some (array_index k)))
                  | KSym _ _ => false
                  end = true) ks
  ++ filter (λ k, match k with KStr _ => false | KSym _ _ => true end = true) ks.

(** ** baseHandlers.ts and the ref-unwrapping handlers of ref.ts *)

(** [isNonTrackableKeys]: [makeMap("__proto__,__v_isRef,__isVue")]. *)
Definition isNonTrackableKeys (k : key) : bool :=
  bool_decide (k = KStr "__proto__") || bool_decide (k = KStr "__v_isRef")
  || bool_decide (k = KStr "__isVue").

(** [isSymbol(key) ? builtInSymbols.has(key) : isNonTrackableKeys(key)]. *)
Definition skips_tracking (k : key) : bool :=
  match k with
  | KSym wellKnown _ => wellKnown
  | KStr _ => isNonTrackableKeys k
  end.

(** [hasOwn(arrayInstrumentations, key)]. *)
Definition instrumented (k : key) : option string :=
  match k with
  | KStr name =>
      if bool_decide (name ∈ ["includes"; "indexOf"; "lastIndexOf";
                              "push"; "pop"; "shift"; "unshift"; "splice"]%string)
      then Some name else None
  | KSym _ _ => None
  end.

(** [String(key)] inside the warnings. *)
Definition key_to_string (k : key) : string :=
  match k with
  | KStr s => s
  | KSym _ _ => "Symbol()"
  end.

(** The quotation mark inside the warnings. *)
Definition dquote : string := String (ascii_of_nat 34) EmptyString.

(** [warn(msg)]: the sink is written in a development build only. *)
Definition warn (msg : string) (s : state) : state :=
  set_warnings (warnings s ++ [msg]) s.

Section Handlers.
Variable call : prog → state → res value.

(** [r.value] and [r.value = v] for a value [r] with [isRef(r)]. *)
Definition read_value (r : value) (s : state) : res value :=
  match r with
  | VRef r => RefImpl_get r s
  | VComputed c => ComputedRefImpl_get call c s
  | _ => Fail Unmodelled
  end.

Definition write_value (r : value) (v : value) (s : state) : res unit :=
  match r with
  | VRef r => RefImpl_set call r v s
  | VComputed c => ComputedRefImpl_set call c v s
  | _ => Fail Unmodelled
  end.

(** [createGetter(isReadonly, shallow)], called with [receiver]; [kind] is
    the wrap-kind whose proxy cache the [__v_raw] test looks into. *)
Definition createGetter (kind : wrapKind) (target : nat) (k : key) (receiver : value)
    (s : state) : res value :=
  let isReadonly := kindReadonly kind in
  let shallow := kindShallow kind in
  if bool_decide (k = KStr "__v_isReactive") then Done (VBool (negb isReadonly)) s
  else if bool_decide (k = KStr "__v_isReadonly") then Done (VBool isReadonly) s
  else if bool_decide (k = KStr "__v_isShallow") then Done (VBool shallow) s
  else if bool_decide (k = KStr "__v_raw") && bool_decide (receiver = VProxy kind target)
  then Done (VObject target) s
  else
    let targetIsArray := isArray s target in
    match (if negb isReadonly && targetIsArray then instrumented k else None) with
    | Some name => Done (VInstrumented name) s
    | None =>
        let res := raw_get s target k in
        if skips_tracking k then Done res s
        else
          let s1 := if negb isReadonly then track target GET k s else s in
          if shallow then Done res s1
          else if isRef res then
            if targetIsArray && isIntegerKey k then Done res s1 else read_value res s1
          else if isObject res then
            match (if isReadonly then readonly res else reactive res) with
            | Some v => Done v s1
            | None => Fail Unmodelled
            end
          else Done res s1
    end.

(** [createSetter(shallow)]; the receiver is the proxy of [target] itself,
    so [target === toRaw(receiver)] holds. *)
Definition createSetter (shallow : bool) (target : nat) (k : key) (v : value)
    (s : state) : res bool :=
  let oldValue := raw_get s target k in
  if isReadonly s oldValue && isRef oldValue && negb (isRef v) then Done false s
  else
    let unwrap := negb shallow && negb (isReadonly s v) in
    let '(v, oldValue) :=
      if unwrap && negb (isShallow s v) then (toRaw v, toRaw oldValue) else (v, oldValue) in
    if unwrap && negb (isArray s target) && isRef oldValue && negb (isRef v) then
      bind (write_value oldValue v s) (λ _ s1, Done true s1)
    else
      let hadKey :=
        if isArray s target && isIntegerKey k
        then match index_of_key k with
             | Some i => bool_decide (i < len (object_at s target))
             | None => false
             end
        else hasOwn s target k in
      match raw_set target k v s with
      | None => Fail Unmodelled
      | Some s1 =>
          if negb hadKey then
            bind (trigger call target ADD (Some k) v s1) (λ _ s2, Done true s2)
          else if hasChanged v oldValue then
            bind (trigger call target SET (Some k) v s1) (λ _ s2, Done true s2)
          else Done true s1
      end.

(** [deleteProperty] of the mutable handlers. *)
Definition deleteProperty (target : nat) (k : key) (s : state) : res bool :=
  let hadKey := hasOwn s target k in
  let '(result, s1) := raw_delete target k s in
  if result && hadKey then
    bind (trigger call target DELETE (Some k) VUndefined s1) (λ _ s2, Done result s2)
  else Done result s1.

(** [has] of the mutable handlers. *)
Definition has (target : nat) (k : key) (s : state) : res bool :=
  let result := hasOwn s target k in
  if negb (match k with KSym wellKnown _ => wellKnown | KStr _ => false end)
  then Done result (track target HAS k s)
  else Done result s.

(** [ownKeys] of the mutable handlers. *)
Definition ownKeys (target : nat) (s : state) : res (list key) :=
  let s1 := track target ITERATE (if isArray s target then KStr "length" else ITERATE_KEY) s in
  Done (raw_ownKeys s1 target) s1.

(** [readonlyHandlers.set]; [shallowReadonlyHandlers] takes it over. *)
Definition readonly_set (target : nat) (k : key) (s : state) : res bool :=
  Done true
    (if dev s
     then warn ("Set operation on key " ++ dquote ++ key_to_string k ++ dquote
                ++ " failed: target is readonly.") s
     else s).

(** [readonlyHandlers.deleteProperty]; [shallowReadonlyHandlers] takes it
    over. *)
Definition readonly_deleteProperty (target : nat) (k : key) (s : state) : res bool :=
  Done true
    (if dev s
     then warn ("Delete operation on key " ++ dquote ++ key_to_string k ++ dquote
                ++ " failed: target is readonly.") s
     else s).

(** The traps of the four handler objects, chosen by the wrap-kind of the
    proxy: [mutableHandlers], [shallowReactiveHandlers], [readonlyHandlers]
    and [shallowReadonlyHandlers]. *)
Definition proxy_get (kind : wrapKind) (target : nat) (k : key) (receiver : value)
    (s : state) : res value :=
  createGetter kind target k receiver s.

Definition proxy_set (kind : wrapKind) (target : nat) (k : key) (v : value)
    (s : state) : res bool :=
  match kind with
  | Reactive => createSetter false target k v s
  | ShallowReactive => createSetter true target k v s
  | Readonly | ShallowReadonly => readonly_set target k s
  end.

Definition proxy_deleteProperty (kind : wrapKind) (target : nat) (k : key)
    (s : state) : res bool :=
  match kind with
  | Reactive | ShallowReactive => deleteProperty target k s
  | Readonly | ShallowReadonly => readonly_deleteProperty target k s
  end.

(** [Reflect.get(target, key, receiver)], [Reflect.set] and
    [target[key]] for a target that is raw or a reactive proxy. *)
Definition Reflect_get (target : value) (k : key) (receiver : value) (s : state)
  : res value :=
  match target with
  | VObject o => Done (raw_get s o k) s
  | VProxy kind o => proxy_get kind o k receiver s
  | _ => Fail Unmodelled
  end.

Definition Reflect_set (target : value) (k : key) (v : value) (s : state) : res bool :=
  match target with
  | VObject o =>
      match raw_set o k v s with
      | Some s1 => Done true s1
      | None => Fail Unmodelled
      end
  | VProxy kind o => proxy_set kind o k v s
  | _ => Fail Unmodelled
  end.

(** [unref]. *)
Definition unref (v : value) (s : state) : res value :=
  if isRef v then read_value v s else Done v s.

(** [shallowUnwrapHandlers.get] and [.set]. *)
Definition shallowUnwrap_get (target : value) (k : key) (receiver : value) (s : state)
  : res value :=
  bind (Reflect_get target k receiver s) unref.

Definition shallowUnwrap_set (target : value) (k : key) (v : value) (s : state)
  : res bool :=
  bind (Reflect_get target k target s)
       (λ oldValue s1,
          if isRef oldValue && negb (isRef v)
          then bind (write_value oldValue v s1) (λ _ s2, Done true s2)
          else Reflect_set target k v s1).

(** [proxyRefs]. *)
Definition proxyRefs (objectWithRefs : value) (s : state) : res value :=
  if isReactive objectWithRefs then Done objectWithRefs s
  else if isObject objectWithRefs then
    Done (VUnwrapProxy (proxySerial s) objectWithRefs)
         (set_proxySerial (S (proxySerial s)) s)
  else Fail TypeError.

End Handlers.

(** ** Running user code *)

Definition refBase_of (v : value) : option refBase :=
  match v with
  | VRef r => Some (OfRef r)
  | VComputed c => Some (OfComputed c)
  | _ => None
  end.

(** [new ReactiveEffect(fn)] followed by [extend(_effect, options)].
    No effect scope is ever active in the model, so [recordEffectScope]
    has nothing to record. *)
Definition new_ReactiveEffect (fn : prog) (scheduler : option prog)
    (allowRecurse : bool) (onStop : option prog) (s : state) : nat * state :=
  (length (effectHeap s),
   set_effectHeap (effectHeap s
                   ++ [mkEffect true [] None None allowRecurse false onStop fn scheduler]) s).

(** An object or array literal: the entries are assigned in turn. *)
Definition new_object (isArr isMp : bool) (entries : list (key * value)) (s : state)
  : option (nat * state) :=
  let o := length (objHeap s) in
  let s0 := set_objHeap (objHeap s ++ [mkObject isArr isMp [] 0]) s in
  foldl (λ acc kv, match acc with
                   | Some (o, s) =>
                       match raw_set o (fst kv) (snd kv) s with
                       | Some s' => Some (o, s')
                       | None => None
                       end
                   | None => None
                   end) (Some (o, s0)) entries.

Section Access.
Variable call : prog → state → res value.

(** [obj[key]], [obj[key] = v], [delete obj[key]], [key in obj] and
    [Reflect.ownKeys(obj)] on a raw target or on one of the proxies. *)
Definition get_property (obj : value) (k : key) (s : state) : res value :=
  match obj with
  | VUnwrapProxy _ t => shallowUnwrap_get call t k obj s
  | _ => Reflect_get call obj k obj s
  end.

Definition set_property (obj : value) (k : key) (v : value) (s : state) : res bool :=
  match obj with
  | VUnwrapProxy _ t => shallowUnwrap_set call t k v s
  | _ => Reflect_set call obj k v s
  end.

Definition delete_on (target : value) (k : key) (s : state) : res bool :=
  match target with
  | VObject o => let '(b, s1) := raw_delete o k s in Done b s1
  | VProxy kind o => proxy_deleteProperty call kind o k s
  | _ => Fail Unmodelled
  end.

Definition delete_property (obj : value) (k : key) (s : state) : res bool :=
  match obj with
  | VUnwrapProxy _ t => delete_on t k s
  | _ => delete_on obj k s
  end.

Definition has_on (target : value) (k : key) (s : state) : res bool :=
  match target with
  | VObject o => Done (hasOwn s o k) s
  | VProxy kind o => if kindReadonly kind then Done (hasOwn s o k) s else has o k s
  | _ => Fail Unmodelled
  end.

Definition has_property (obj : value) (k : key) (s : state) : res bool :=
  match obj with
  | VUnwrapProxy _ t => has_on t k s
  | _ => has_on obj k s
  end.

Definition ownKeys_on (target : value) (s : state) : res (list key) :=
  match target with
  | VObject o => Done (raw_ownKeys s o) s
  | VProxy kind o => if kindReadonly kind then Done (raw_ownKeys s o) s else ownKeys o s
  | _ => Fail Unmodelled
  end.

Definition own_keys (obj : value) (s : state) : res (list key) :=
  match obj with
  | VUnwrapProxy _ t => ownKeys_on t s
  | _ => ownKeys_on obj s
  end.

(** [effect(fn, options)]; the runner it returns is named by its effect. *)
Definition effect_ (fn : prog) (lazy : bool) (scheduler : option prog)
    (allowRecurse : bool) (onStop : option prog) (s : state) : res nat :=
  let '(e, s1) := new_ReactiveEffect fn scheduler allowRecurse onStop s in
  if negb lazy then bind (run call e s1) (λ _ s2, Done e s2)
  else Done e s1.

(** [triggerRef(ref)]: a development build reads [ref.value] for the
    debugger event. *)
Definition triggerRef (r : value) (s : state) : res unit :=
  match refBase_of r with
  | Some rb =>
      bind (if dev s then read_value call r s else Done VUndefined s)
           (λ _ s1, triggerRefValue call rb s1)
  | None => Fail Unmodelled
  end.

(** One command of a closure; [call] continues with the rest. *)
Definition step (p : prog) (s : state) : res value :=
  match p with
  | Return v => Done v s
  | Log v k => call k (set_out (out s ++ [v]) s)
  | Effect fn lazy scheduler allowRecurse onStop k =>
      bind (effect_ fn lazy scheduler allowRecurse onStop s) (λ e s1, call (k e) s1)
  | CallRunner e k => bind (run call e s) (λ v s1, call (k v) s1)
  | Stop e k => bind (stop call e s) (λ _ s1, call k s1)
  | Ref v shallow k => bind (createRef v shallow s) (λ r s1, call (k r) s1)
  | GetValue r k => bind (read_value call r s) (λ v s1, call (k v) s1)
  | SetValue r v k => bind (write_value call r v s) (λ _ s1, call k s1)
  | TriggerRef r k => bind (triggerRef r s) (λ _ s1, call k s1)
  | Computed getter setter isSSR k =>
      let '(c, s1) := computed_ getter setter isSSR s in call (k (VComputed c)) s1
  | Track target type key k => call k (track target type key s)
  | Trigger target type key newValue k =>
      bind (trigger call target type key newValue s) (λ _ s1, call k s1)
  | PauseTracking k => call k (pauseTracking s)
  | EnableTracking k => call k (enableTracking s)
  | ResetTracking k => call k (resetTracking s)
  | NewObject isArr isMp entries k =>
      match new_object isArr isMp entries s with
      | Some (o, s1) => call (k (VObject o)) s1
      | None => Fail Unmodelled
      end
  | MakeProxy kind target k =>
      match createReactiveObject kind target with
      | Some v => call (k v) s
      | None => Fail Unmodelled
      end
  | ProxyRefs objectWithRefs k => bind (proxyRefs objectWithRefs s) (λ v s1, call (k v) s1)
  | Get obj key k => bind (get_property obj key s) (λ v s1, call (k v) s1)
  | Set_ obj key v k => bind (set_property obj key v s) (λ b s1, call (k b) s1)
  | DeleteProperty obj key k => bind (delete_property obj key s) (λ b s1, call (k b) s1)
  | Has obj key k => bind (has_property obj key s) (λ b s1, call (k b) s1)
  | OwnKeys obj k => bind (own_keys obj s) (λ l s1, call (k l) s1)
  | Invalidate c => bind (computed_scheduler call c s) (λ _ s1, Done VUndefined s1)
  end.

End Access.

(** The interpreter: every command and every call of a closure costs one
    unit of fuel. *)
Fixpoint exec (fuel : nat) (p : prog) (s : state) : res value :=
  match fuel with
  | O => Fail OutOfFuel
  | S fuel' => step (exec fuel') p s
  end.

(** The library entry points as a caller outside any closure sees them. *)
Definition run_effect (fuel : nat) : nat → state → res value := run (exec fuel).

Definition stop_effect (fuel : nat) : nat → state → res unit := stop (exec fuel).

Definition fire_effect (fuel : nat) : nat → state → res unit := triggerEffect (exec fuel).

Definition fire_effects (fuel : nat) : list nat → state → res unit :=
  triggerEffects (exec fuel).

(** * What a run does to the graph of effects and Deps

    [Exec s s'] lists, in the order and nesting in which the library makes
    them, the changes that lead from [s] to [s'] in the Deps, the effects,
    the active-effect stack and the recorded calls.  The interpreter stays
    inside [Exec], so an invariant of [Exec] is an invariant of every
    run. *)

Definition same_graph (s s' : state) : Prop :=
  depHeap s' = depHeap s ∧ effectHeap s' = effectHeap s
  ∧ activeEffect s' = activeEffect s ∧ effectTrackDepth s' = effectTrackDepth s
  ∧ trackOpBit s' = trackOpBit s ∧ trace s' = trace s.

(** The fields of a computed that are set when it is built. *)
Definition cstatic (C : ComputedRefImpl) : nat * bool * bool * option (value → prog) :=
  (effect C, _cacheable C, c_isReadonly C, _setter C).

(** [keeps_computed s s']: the computeds of [s] are still there in [s'],
    with the same effect, the same setter and the same flags. *)
Definition keeps_computed (s s' : state) : Prop :=
  (length (computedHeap s) ≤ length (computedHeap s'))%nat
  ∧ ∀ c, (c < length (computedHeap s))%nat →
         cstatic (computed_at s' c) = cstatic (computed_at s c).

Inductive Exec : state → state → Prop :=
| Exec_refl s : Exec s s
| Exec_trans s1 s2 s3 : Exec s1 s2 → Exec s2 s3 → Exec s1 s3
| Exec_other s s' : same_graph s s' → keeps_computed s s' → Exec s s'
| Exec_fire e s : Exec s (record (EvFire e) s)
| Exec_plain_call e s :
    active (effect_at s e) = false → Exec s (record (EvRun e) s)
| Exec_alloc_dep s : Exec s (snd (alloc_dep (createDep []) s))
| Exec_alloc_effect E s :
    deps E = [] → parent E = None →
    Exec s (set_effectHeap (effectHeap s ++ [E]) s)
| Exec_track d s : Exec s (trackEffects d s)
| Exec_cleanup e s : Exec s (cleanupEffect e s)
| Exec_inactive e s : Exec s (upd_effect e (with_active false) s)
| Exec_deferStop e s : Exec s (upd_effect e (with_deferStop true) s)
| Exec_run e b s s2 :
    active (effect_at s e) = true →
    in_parent_chain (length (effectHeap s)) s (activeEffect s) e = Some false →
    Exec (record (EvRun e) (run_enter e s)) s2 →
    Exec s (run_leave e b s2).

(** * Reading the heaps after an update *)

(** Marker bits at one level of recursion. *)
Definition wbit (s : state) (d k : nat) : bool := Z.testbit (w (dep_at s d)) (Z.of_nat k).

Definition nbit (s : state) (d k : nat) : bool := Z.testbit (n (dep_at s d)) (Z.of_nat k).

(** * The invariant of the graph *)

(** Every effect is a member of exactly the Deps listed in its [deps]. *)
Definition linked (s : state) : Prop :=
  ∀ e d, e ∈ members (dep_at s d) ↔ d ∈ deps (effect_at s e).

(** [is_stack s p l]: following [parent] from [p] visits the effects [l],
    each once, and ends. *)
Inductive is_stack (s : state) : option nat → list nat → Prop :=
| is_stack_nil : is_stack s None []
| is_stack_cons e l :
    (e < length (effectHeap s))%nat →
    is_stack s (parent (effect_at s e)) l → e ∉ l →
    is_stack s (Some e) (e :: l).

(** The effect running at level [k], if [k] is a level of the markers, has
    every Dep of its [deps] marked at that level: tracked before or tracked
    anew. *)
Fixpoint marks (s : state) (l : list nat) : Prop :=
  match l with
  | [] => True
  | e :: l' =>
      ((length l ≤ 30)%nat →
       ∀ d, d ∈ deps (effect_at s e) → wbit s d (length l) || nbit s d (length l) = true)
      ∧ marks s l'
  end.

Record WF (s : state) : Prop := {
  wf_linked : linked s;
  wf_nodup : ∀ e, NoDup (deps (effect_at s e));
  wf_bit : trackOpBit s = js_shl 1 (effectTrackDepth s);
  wf_stack : ∃ l, is_stack s (activeEffect s) l
                  ∧ length l = effectTrackDepth s ∧ marks s l
}.

(** What a balanced run keeps: the stack of running effects. *)
Record frame (s s' : state) : Prop := {
  fr_active : activeEffect s' = activeEffect s;
  fr_depth : effectTrackDepth s' = effectTrackDepth s;
  fr_heap : (length (effectHeap s) ≤ length (effectHeap s'))%nat;
  fr_stack : ∀ l, is_stack s (activeEffect s) l → is_stack s' (activeEffect s) l
}.

(** ** [finalizeDepMarkers] and the exit of [run] *)

(** Present in the last pass and absent from this one. *)
Definition dropped (s : state) (K d : nat) : bool := wbit s d K && negb (nbit s d K).

(** * Which Deps an effect read during a pass *)

(** [runs_at s e K]: effect [e] is running at level [K] of the stack. *)
Definition runs_at (s : state) (e K : nat) : Prop :=
  ∃ l, is_stack s (activeEffect s) l ∧ rev l !! (K - 1)%nat = Some e ∧ (1 ≤ K)%nat.

(** While [e] runs at level [K], the new-tracked bit of level [K] is set
    on a Dep only by a [trackEffects] of [e] on that Dep. *)
Definition tracked_since (T0 : nat) (e K : nat) (s : state) : Prop :=
  (T0 ≤ length (trace s))%nat
  ∧ ∀ d, nbit s d K = true → EvTrack e d ∈ drop T0 (trace s).

(** An effect becomes a member of a Dep only by a [trackEffects] of its
    own on that Dep. *)
Definition subscribed_since (T0 : nat) (e : nat) (P : nat → Prop) (s : state) : Prop :=
  (T0 ≤ length (trace s))%nat
  ∧ ∀ d, e ∈ members (dep_at s d) → P d ∨ EvTrack e d ∈ drop T0 (trace s).

(** [running s e]: [e] is on the stack of running effects. *)
Definition running (s : state) (e : nat) : Prop :=
  ∃ l, is_stack s (activeEffect s) l ∧ e ∈ l.

(** * Scenarios *)

Definition final_of (r : res value) : state :=
  match r with
  | Done _ s => s
  | Fail _ => initial_state false
  end.

(** The effect of Scenario 2: [log.push(o.c ? o.a : o.b)]. *)
Definition read_c_then_a_or_b (o : value) : prog :=
  Get o (KStr "c") (λ c,
    match c with
    | VBool true => Get o (KStr "a") (λ v, Log v (Return VUndefined))
    | _ => Get o (KStr "b") (λ v, Log v (Return VUndefined))
    end).

(** [let o = reactive({a:1, b:2, c:true}); effect(() => log.push(o.c ? o.a : o.b))],
    then what [next] does with the raw object and its proxy. *)
Definition dynamic_deps_setup (next : value → value → prog) : prog :=
  NewObject false false [(KStr "a", VNum 1); (KStr "b", VNum 2); (KStr "c", VBool true)]
    (λ raw, MakeProxy Reactive raw (λ o,
       Effect (read_c_then_a_or_b o) false None false None (λ _, next raw o))).

(** Scenario 2: [o.c = false; o.a = 10]. *)
Definition dynamic_deps : prog :=
  dynamic_deps_setup (λ _ o,
    Set_ o (KStr "c") (VBool false) (λ _,
    Set_ o (KStr "a") (VNum 10) (λ _, Return VUndefined))).

(** The set-up followed by a change of [c] behind the proxy's back, so
    that no effect has run again yet, and the state it leaves. *)
Definition dynamic_deps_raw_write : prog :=
  dynamic_deps_setup (λ raw _,
    Set_ raw (KStr "c") (VBool false) (λ _, Return VUndefined)).

Definition dynamic_deps_before_rerun : state :=
  final_of (exec 20 dynamic_deps_raw_write (initial_state false)).

Definition dynamic_deps_after_rerun : state :=
  final_of (run_effect 20 0 dynamic_deps_before_rerun).

(** * What no run changes in an effect *)

(** The fields of an effect that are set when it is built. *)
Definition static (E : ReactiveEffect)
  : option nat * bool * option prog * prog * option prog :=
  (computed E, allowRecurse E, scheduler E, fn E, onStop E).

(** [keeps s s']: the effects of [s] are still there in [s'], with the same
    static fields, and none that was stopped is active again. *)
Definition keeps (s s' : state) : Prop :=
  (length (effectHeap s) ≤ length (effectHeap s'))%nat
  ∧ ∀ e, (e < length (effectHeap s))%nat →
         static (effect_at s' e) = static (effect_at s e)
         ∧ (active (effect_at s' e) = true → active (effect_at s e) = true).

(** * C3: the order in which [triggerEffects] fires *)

(** Firing the effects of a list one after the other, in the order of the
    list. *)
Fixpoint fire_in_order (fire : nat → state → res unit) (effects : list nat) (s : state)
  : res unit :=
  match effects with
  | [] => Done tt s
  | e :: rest => bind (fire e s) (λ _ s1, fire_in_order fire rest s1)
  end.

(** The effect owns a computed: [effect.computed] is set. *)
Definition owns_computed (s : state) (e : nat) : bool :=
  bool_decide (is_Some (computed (effect_at s e))).

(** [r = ref(1)]; a plain effect that logs [r.value]; [c = computed(() =>
    r.value)], read once so that its effect subscribes to [r] after the
    plain one. *)
Definition plain_then_computed : prog :=
  Ref (VNum 1) false (λ r,
  Effect (GetValue r (λ v, Log v (Return VUndefined))) false None false None (λ _,
  Computed (GetValue r (λ v, Return v)) None false (λ c,
  GetValue c (λ _, Return r)))).

Definition plain_then_computed_state : state :=
  final_of (exec 20 plain_then_computed (initial_state false)).

(** * C4: an effect does not re-enter itself *)

(** Two lazy effects: an outer one that logs and an inner one. *)
Definition two_lazy_effects : prog :=
  Effect (Log (VStr "fn") (Return VUndefined)) true None false None (λ _,
  Effect (Return VUndefined) true None false None (λ _, Return VUndefined)).

(** The outer effect (0) is running. *)
Definition outer_running : state :=
  run_enter 0 (final_of (exec 5 two_lazy_effects (initial_state false))).

(** The inner effect (1) is running inside the outer one. *)
Definition inner_running : state := run_enter 1 outer_running.

(** The inner effect has stopped the outer one, which is still running. *)
Definition outer_stopped_while_running : state :=
  match stop_effect 5 0 inner_running with
  | Done _ s => s
  | Fail _ => inner_running
  end.

(** The same in a run from the initial state: the effect (0) logs, and on
    its first run creates an inner effect that stops it and calls its
    runner; [fn] runs twice although the first run has not returned. *)
Definition stop_then_rerun : prog :=
  Ref (VNum 0) false (λ flag,
  Effect
    (Log (VStr "fn") (GetValue flag (λ v,
       match v with
       | VNum 0 =>
           SetValue flag (VNum 1)
             (Effect (Stop 0 (CallRunner 0 (λ _, Return VUndefined)))
                     false None false None (λ _, Return VUndefined))
       | _ => Return VUndefined
       end)))
    true None false None (λ e, CallRunner e (λ _, Return VUndefined))).

(** * Readonly proxies *)

(** [s'] is [s] but for the warnings written to the console. *)
Definition warned (s s' : state) : Prop := s' = set_warnings (warnings s') s.

(** A readonly proxy of an array in a development build. *)
Definition readonly_array_state : state :=
  set_objHeap [mkObject true false [(KStr "0", VNum 7)] 1] (initial_state true).

(** * [trigger] on the [length] of an array *)

(** The test [key === 'length' || key >= newValue] of the [forEach] in
    [trigger], for a new length that is a number: a string key is compared
    by its numeric value. *)
Definition length_or_at_least (newLength : Z) (k : key) : bool :=
  bool_decide (k = KStr "length")
  || match k with
     | KStr name =>
         match StringToNumber name with
         | Some x => double_ge x newLength
         | None => false
         end
     | KSym _ _ => false
     end.

(** The rule in the words of the specification: the Dep under ["length"]
    and the Deps whose key is an integer index not below the new length. *)
Definition length_or_index_at_least (newLength : Z) (k : key) : bool :=
  bool_decide (k = KStr "length")
  || match index_of_key k with
     | Some i => bool_decide (newLength ≤ i)
     | None => false
     end.

Definition collected_by (test : key → bool) (depsMap : list (key * nat))
  : list (option nat) :=
  map (λ kd, Some (snd kd)) (filter (λ kd, test (fst kd) = true) depsMap).

(** [const arr = reactive([10, 20, 30])], an effect that reads the keys
    [keys] of [arr], then what [next] does with the proxy. *)
Fixpoint read_keys (arr : value) (keys : list key) : prog :=
  match keys with
  | [] => Log (VStr "read") (Return VUndefined)
  | k :: keys' => Get arr k (λ _, read_keys arr keys')
  end.

Definition array_reader (keys : list key) (next : value → prog) : prog :=
  NewObject true false [(KStr "0", VNum 10); (KStr "1", VNum 20); (KStr "2", VNum 30)]
    (λ raw, MakeProxy Reactive raw (λ arr,
       Effect (read_keys arr keys) false None false None (λ _, next arr))).

Definition array_read (keys : list key) : state :=
  final_of (exec 20 (array_reader keys (λ _, Return VUndefined)) (initial_state false)).

Definition depsMap_read (keys : list key) : list (key * nat) :=
  default [] (depsMap_of (array_read keys) 0).

(** * Effects created inside an effect *)

(** [effect(() => { r1.value; log.push("outer");
                    effect(() => { r2.value; log.push("inner") }) })]
    for [r1 = ref(a)] and [r2 = ref(b)], then what [next] does with the
    two refs. *)
Definition inner_fn (r2 : value) : prog :=
  GetValue r2 (λ _, Log (VStr "inner") (Return VUndefined)).

Definition outer_fn (r1 r2 : value) : prog :=
  GetValue r1 (λ _, Log (VStr "outer")
    (Effect (inner_fn r2) false None false None (λ _, Return VUndefined))).

Definition nested_effects (a b : Z) (next : value → value → prog) : prog :=
  Ref (VNum a) false (λ r1,
  Ref (VNum b) false (λ r2,
  Effect (outer_fn r1 r2) false None false None (λ _, next r1 r2))).

(** The state once the outer effect, its first inner effect and the two
    refs exist: the outer effect is effect 0 and reads ref 0, the inner
    effect is effect 1 and reads ref 1. *)
Definition nested_effects_created (a b : Z) : state :=
  final_of (exec 30 (nested_effects a b (λ _ _, Return VUndefined)) (initial_state false)).

(** [r.value = v] from outside any effect. *)
Definition write_ref (fuel : nat) (r : nat) (v : value) (s : state) : res value :=
  exec fuel (SetValue (VRef r) v (Return VUndefined)) s.

(** [r1.value = 10; r2.value = 20] after the set-up with [ref(1)] and
    [ref(2)]. *)
Definition nested_effects_rerun : prog :=
  nested_effects 1 2 (λ r1 r2,
    SetValue r1 (VNum 10) (SetValue r2 (VNum 20) (Return VUndefined))).

(** * Counting the calls of an effect's function *)

(** How often [e.fn()] has been called by [e.run()]. *)
Definition run_count (e : nat) (s : state) : nat :=
  length (filter (λ ev, ev = EvRun e) (trace s)).

(** * Computed values *)

(** [c.value] read from outside a closure, and read [times] times in a
    row with nothing in between. *)
Definition read_computed (fuel : nat) (c : nat) (s : state) : res value :=
  ComputedRefImpl_get (exec fuel) c s.

Fixpoint read_again (fuel : nat) (c : nat) (times : nat) (s : state) : res (list value) :=
  match times with
  | O => Done [] s
  | S m =>
      bind (read_computed fuel c s)
           (λ v s1, bind (read_again fuel c m s1) (λ vs s2, Done (v :: vs) s2))
  end.

(** The fields of a computed that [trackRefValue] leaves alone. *)
Definition cached (C : ComputedRefImpl) : value * bool * bool * nat :=
  (c_value C, _dirty C, _cacheable C, effect C).

(** [r = ref(2); c = computed(() => { log.push("call"); return r.value })],
    then what [next] does with them. *)
Definition logging_getter (r : value) : prog :=
  Log (VStr "call") (GetValue r (λ v, Return v)).

Definition computed_setup (next : value → value → prog) : prog :=
  Ref (VNum 2) false (λ r, Computed (logging_getter r) None false (λ c, next r c)).

Definition computed_created : state :=
  final_of (exec 20 (computed_setup (λ _ _, Return VUndefined)) (initial_state false)).

Definition computed_read_once : state :=
  final_of (read_computed 20 0 computed_created).

(** * Writes to a ref *)

(** The test of [triggerEffect]: [effect !== activeEffect || effect.allowRecurse]. *)
Definition fires_on (s : state) (e : nat) : Prop :=
  Some e ≠ activeEffect s ∨ allowRecurse (effect_at s e) = true.

(** The value the setter compares and stores as [_rawValue]:
    [this.__v_isShallow ? newVal : toRaw(newVal)]. *)
Definition assigned_raw (s : state) (r : nat) (newVal : value) : value :=
  if __v_isShallow (ref_at s r) then newVal else toRaw newVal.

(** [r = ref(init); effect(() => log.push(r.value))], then what [next]
    does with the ref. *)
Definition ref_logger (init : value) (next : value → prog) : prog :=
  Ref init false (λ r,
  Effect (GetValue r (λ v, Log v (Return VUndefined))) false None false None (λ _, next r)).

Definition ref_logged : state :=
  final_of (exec 20 (ref_logger (VNum 1) (λ _, Return VUndefined)) (initial_state false)).

(** * A new-tracked marker left behind by [stop]

    [stop] defers the cleanup of an effect that is the active one; an effect
    that is running further up the stack is cleaned up at once, and the
    new-tracked bits it has set on the Deps it read stay behind, since
    [finalizeDepMarkers] clears the bits of the Deps still listed in
    [deps] only. *)

(** [c = effect(() => { if (flag.value) r1.value; log.push("C") })]. *)
Definition reads_flag_then_r1 (flag r1 : value) : prog :=
  GetValue flag (λ f,
    match f with
    | VBool true => GetValue r1 (λ _, Log (VStr "C") (Return VUndefined))
    | _ => Log (VStr "C") (Return VUndefined)
    end).

(** [r1 = ref(1); flag = ref(true)]; the effect [c] above (effect 0);
    [b = effect(() => stop(a), { lazy: true })] (effect 1);
    [a = effect(() => { r1.value; b() }, { lazy: true })] (effect 2),
    or without the call of [b] when [stops] is [false]; then [a()], and
    what [next] does with the two refs. *)
Definition stale_marker (stops : bool) (next : value → value → prog) : prog :=
  Ref (VNum 1) false (λ r1,
  Ref (VBool true) false (λ flag,
  Effect (reads_flag_then_r1 flag r1) false None false None (λ _,
  Effect (Stop 2 (Return VUndefined)) true None false None (λ _,
  Effect (GetValue r1 (λ _, if stops then CallRunner 1 (λ _, Return VUndefined)
                            else Return VUndefined))
         true None false None (λ _,
  CallRunner 2 (λ _, next r1 flag)))))).

(** * Passes beyond the marker levels *)

(** [count] lazy effects with the function [fn], then [next]. *)
Fixpoint lazy_effects (count : nat) (fn : prog) (next : prog) : prog :=
  match count with
  | O => next
  | S count' => Effect fn true None false None (λ _, lazy_effects count' fn next)
  end.

(** The entry of [run] for each effect of the list in turn, each inside
    the one before. *)
Fixpoint enter_all (es : list nat) (s : state) : state :=
  match es with
  | [] => s
  | e :: es' => enter_all es' (record (EvRun e) (run_enter e s))
  end.

(** [r = ref(1)], thirty lazy effects that do nothing (effects 0 to 29),
    and a lazy effect that reads [r] (effect 30). *)
Definition deep_setup : prog :=
  Ref (VNum 1) false (λ r,
  lazy_effects 30 (Return VUndefined)
    (Effect (GetValue r (λ v, Return v)) true None false None (λ _, Return VUndefined))).

(** Inside effects 0 to 29, each run by the one before. *)
Definition deep_state : state :=
  enter_all (seq 0 30) (final_of (exec 40 deep_setup (initial_state false))).

Definition deep_final : state := final_of (run_effect 10 30 deep_state).

(** * Stopping an effect *)

(** [r = ref(1)]; an effect that logs [r.value]; [stop]; then what [next]
    does with the ref. *)
Definition stop_logger (next : value → prog) : prog :=
  ref_logger (VNum 1) (λ r, Stop 0 (next r)).

Definition logger_stopped : state :=
  final_of (exec 20 (stop_logger (λ _, Return VUndefined)) (initial_state false)).

(** After the [stop]: [r.value = 2], and a call of the runner. *)
Definition write_then_call_runner : prog :=
  SetValue (VRef 0) (VNum 2) (CallRunner 0 (λ _, Return VUndefined)).

(** [r = ref(1)] and a lazy effect that reads [r] and stops itself. *)
Definition self_stopper : prog :=
  Ref (VNum 1) false (λ r,
  Effect (GetValue r (λ _, Stop 0 (Return VUndefined))) true None false None
         (λ _, Return VUndefined)).

Definition self_stopper_created : state :=
  final_of (exec 20 self_stopper (initial_state false)).

(** * The marker bits of dep.ts *)

(** The module variables [effectTrackDepth] and [trackOpBit] at level
    [k]: [trackOpBit = 1 << effectTrackDepth]. *)
Definition at_level (k : nat) (s : state) : state := set_depth k (js_shl 1 k) s.

(** [dep.w |= trackOpBit] and [dep.w &= ~trackOpBit], and the same for
    [dep.n], at the level of [s]. *)
Definition mark_w (s : state) (D : Dep) : Dep := with_w (js_or (w D) (trackOpBit s)) D.

Definition clear_w (s : state) (D : Dep) : Dep :=
  with_w (js_and (w D) (js_not (trackOpBit s))) D.

Definition mark_n (s : state) (D : Dep) : Dep := with_n (js_or (n D) (trackOpBit s)) D.

Definition clear_n (s : state) (D : Dep) : Dep :=
  with_n (js_and (n D) (js_not (trackOpBit s))) D.

(** * The registry of Deps *)

(** Effect 0 of the scenario [ref_logged] at the entry of its function. *)
Definition tracking_state : state := run_enter 0 ref_logged.

(** * The members of a Dep are a set *)

(** No effect occurs twice among the members of a Dep. *)
Definition members_nodup (s : state) : Prop :=
  Forall (λ D, NoDup (members D)) (depHeap s).

(** * What [trigger] fires *)

(** [o = reactive({a: 1}); effect(() => { Object.keys(o); log.push(o.a) })],
    then what [next] does with the proxy. *)
Definition keys_reader (next : value → prog) : prog :=
  NewObject false false [(KStr "a", VNum 1)] (λ raw,
  MakeProxy Reactive raw (λ o,
  Effect (OwnKeys o (λ _, Get o (KStr "a") (λ v, Log v (Return VUndefined))))
         false None false None (λ _, next o))).

Definition keys_read : state :=
  final_of (exec 20 (keys_reader (λ _, Return VUndefined)) (initial_state false)).

(** * Writes through a reactive proxy *)

(** [s'] is [s] but for the raw objects; the objects keep their kind. *)
Definition only_objects (s s' : state) : Prop :=
  s' = set_objHeap (objHeap s') s
  ∧ ∀ o, isArr (object_at s' o) = isArr (object_at s o)
         ∧ isMp (object_at s' o) = isMp (object_at s o).

(** [hadKey] of the [set] trap. *)
Definition hadKey (s : state) (target : nat) (k : key) : bool :=
  if isArray s target && isIntegerKey k
  then match index_of_key k with
       | Some i => bool_decide (i < len (object_at s target))
       | None => false
       end
  else hasOwn s target k.

(** The old value as the [set] trap compares it: taken raw unless the
    proxy is shallow. *)
Definition compared_old (shallow : bool) (s : state) (target : nat) (k : key) : value :=
  if shallow then raw_get s target k else toRaw (raw_get s target k).

(** * Notifying the subscribers of a ref or a computed *)

(** [r = ref(1); c = computed(() => r.value); effect(() => log.push(c.value))],
    then what [next] does with the ref and the computed. *)
Definition computed_watcher (next : value → value → prog) : prog :=
  Ref (VNum 1) false (λ r,
  Computed (GetValue r (λ v, Return v)) None false (λ c,
  Effect (GetValue c (λ v, Log v (Return VUndefined))) false None false None
         (λ _, next r c))).

Definition computed_watched : state :=
  final_of (exec 20 (computed_watcher (λ _ _, Return VUndefined)) (initial_state false)).

(** * [trigger] on a collection *)

(** [m = new Map(); effect(() => { track(m, "iterate", ITERATE_KEY); log.push("size") })],
    the effect of reading [m.size] through the collection handlers. *)
Definition map_size_reader (next : prog) : prog :=
  NewObject false true [] (λ _,
  Effect (Track 0 ITERATE ITERATE_KEY (Log (VStr "size") (Return VUndefined)))
         false None false None (λ _, next)).

Definition map_size_read : state :=
  final_of (exec 20 (map_size_reader (Return VUndefined)) (initial_state false)).

(** * A tracked read subscribes the running effect *)

(** The effect of the scenario of [Object.keys], entered a second time. *)
Definition keys_rerun : state := record (EvRun 0) (run_enter 0 keys_read).

(** * A computed that does not cache *)

(** [r = ref(2); c = computed(() => { log.push("call"); return r.value })]
    built with [isSSR], then what [next] does with them. *)
Definition ssr_computed_setup (next : value → value → prog) : prog :=
  Ref (VNum 2) false (λ r, Computed (logging_getter r) None true (λ c, next r c)).

Definition ssr_computed_created : state :=
  final_of (exec 20 (ssr_computed_setup (λ _ _, Return VUndefined)) (initial_state false)).

(** * ref.ts: [toRef] and [ObjectRefImpl] *)






(** * Facts about the host language and the heaps *)

(** ** 32-bit integer operations of the host language *)

Lemma to_int32_testbit z i : 0 ≤ i < 32 → Z.testbit (to_int32 z) i = Z.testbit z i.
Proof.
  intros Hi. unfold to_int32.
  assert (H : (z + 2 ^ 31) `mod` 2 ^ 32 - 2 ^ 31
              = z + 2 ^ 32 * (- ((z + 2 ^ 31) `div` 2 ^ 32))).
  { pose proof (Z.div_mod (z + 2 ^ 31) (2 ^ 32)) as Hd. lia. }
  rewrite H. set (c := - ((z + 2 ^ 31) `div` 2 ^ 32)).
  rewrite <- (Z.mod_pow2_bits_low (z + 2 ^ 32 * c) 32 i) by lia.
  replace (z + 2 ^ 32 * c) with (z + c * 2 ^ 32) by lia.
  rewrite Z_mod_plus_full.
  apply Z.mod_pow2_bits_low. lia.
Qed.

Lemma to_int32_small z : - 2 ^ 31 ≤ z < 2 ^ 31 → to_int32 z = z.
Proof. intros H. unfold to_int32. rewrite Z.mod_small; lia. Qed.

Lemma js_shl_1 (k : nat) : (k ≤ 30)%nat → js_shl 1 k = 2 ^ Z.of_nat k.
Proof.
  intros Hk. unfold js_shl. rewrite Z.mod_small by lia.
  rewrite Z.shiftl_1_l. apply to_int32_small.
  split.
  - pose proof (Z.pow_pos_nonneg 2 (Z.of_nat k)). lia.
  - apply Z.pow_lt_mono_r; lia.
Qed.

(** Testing one marker bit: [(m & bit) > 0]. *)
Lemma js_and_pow2_pos m (k : nat) :
  (k ≤ 30)%nat → bool_decide (0 < js_and m (2 ^ Z.of_nat k)) = Z.testbit m (Z.of_nat k).
Proof.
  intros Hk. unfold js_and.
  assert (Hl : Z.land m (2 ^ Z.of_nat k) = if Z.testbit m (Z.of_nat k) then 2 ^ Z.of_nat k else 0).
  { apply Z.bits_inj'. intros i Hi. rewrite Z.land_spec.
    destruct (decide (i = Z.of_nat k)) as [->|Hne].
    - rewrite Z.pow2_bits_true by lia. rewrite andb_true_r.
      destruct (Z.testbit m (Z.of_nat k)); [by rewrite Z.pow2_bits_true by lia|by rewrite Z.bits_0].
    - rewrite Z.pow2_bits_false by lia. rewrite andb_false_r.
      destruct (Z.testbit m (Z.of_nat k)); [by rewrite Z.pow2_bits_false by lia|by rewrite Z.bits_0]. }
  rewrite Hl. pose proof (Z.pow_pos_nonneg 2 (Z.of_nat k)).
  assert (2 ^ Z.of_nat k < 2 ^ 31) by (apply Z.pow_lt_mono_r; lia).
  destruct (Z.testbit m (Z.of_nat k)).
  - rewrite to_int32_small by lia. apply bool_decide_eq_true. lia.
  - rewrite to_int32_small by lia. apply bool_decide_eq_false. lia.
Qed.

Lemma js_or_pow2_testbit m (k : nat) i :
  (k ≤ 30)%nat → 0 ≤ i < 32 →
  Z.testbit (js_or m (2 ^ Z.of_nat k)) i = Z.testbit m i || bool_decide (i = Z.of_nat k).
Proof.
  intros Hk Hi. unfold js_or. rewrite to_int32_testbit by done.
  rewrite Z.lor_spec. f_equal.
  case_bool_decide as Heq.
  - subst. apply Z.pow2_bits_true. lia.
  - apply Z.pow2_bits_false. lia.
Qed.

Lemma js_and_not_pow2_testbit m (k : nat) i :
  (k ≤ 30)%nat → 0 ≤ i < 32 →
  Z.testbit (js_and m (js_not (2 ^ Z.of_nat k))) i
  = Z.testbit m i && negb (bool_decide (i = Z.of_nat k)).
Proof.
  intros Hk Hi. unfold js_and, js_not. rewrite to_int32_testbit by done.
  rewrite Z.land_spec, to_int32_testbit by done.
  rewrite Z.lnot_spec by lia. f_equal. f_equal.
  case_bool_decide as Heq.
  - subst. apply Z.pow2_bits_true. lia.
  - apply Z.pow2_bits_false. lia.
Qed.

(** * What a run does to the graph of effects and Deps *)

Lemma same_graph_refl s : same_graph s s.
Proof. by repeat split. Qed.

Lemma bind_Done {A B : Type} (r : res A) (k : A → state → res B) b s' :
  bind r k = Done b s' → ∃ a s1, r = Done a s1 ∧ k a s1 = Done b s'.
Proof. destruct r as [a s1|f]; simpl; [eauto|discriminate]. Qed.

Ltac inv_bind H :=
  let a := fresh "a" in
  let s1 := fresh "s" in
  let H1 := fresh H in
  apply bind_Done in H as (a & s1 & H1 & H).

Ltac inv_done :=
  repeat match goal with
         | H : Done _ _ = Done _ _ |- _ => injection H as ?; subst
         | H : Fail _ = Done _ _ |- _ => discriminate H
         end.

Lemma keeps_computed_refl s : keeps_computed s s.
Proof. split; [lia|done]. Qed.

Lemma keeps_computed_trans s1 s2 s3 :
  keeps_computed s1 s2 → keeps_computed s2 s3 → keeps_computed s1 s3.
Proof.
  intros [Hl1 H1] [Hl2 H2]. split; [lia|]. intros c Hc.
  rewrite H2 by lia. by apply H1.
Qed.

Lemma keeps_computed_heap s s' : computedHeap s' = computedHeap s → keeps_computed s s'.
Proof.
  intros H. split; [by rewrite H|]. intros c _. unfold computed_at. by rewrite H.
Qed.

Lemma keeps_computed_upd c f s :
  (∀ C, cstatic (f C) = cstatic C) → keeps_computed s (upd_computed c f s).
Proof.
  intros Hf. assert (Hh : computedHeap (upd_computed c f s) = alter f c (computedHeap s))
    by (by destruct s).
  split; [by rewrite Hh, length_alter|]. intros c' Hc'. unfold computed_at. rewrite Hh.
  destruct (decide (c' = c)) as [->|Hne].
  - rewrite list_lookup_alter_eq. destruct (computedHeap s !! c); simpl; [apply Hf|done].
  - by rewrite list_lookup_alter_ne.
Qed.

Lemma keeps_computed_alloc C s :
  keeps_computed s (set_computedHeap (computedHeap s ++ [C]) s).
Proof.
  assert (Hh : computedHeap (set_computedHeap (computedHeap s ++ [C]) s)
               = computedHeap s ++ [C]) by (by destruct s).
  split; [rewrite Hh, length_app; lia|]. intros c Hc. unfold computed_at.
  by rewrite Hh, lookup_app_l.
Qed.

Ltac other :=
  apply Exec_other;
  [repeat split; done
  |first [by apply keeps_computed_heap
         |by apply keeps_computed_upd
         |by apply keeps_computed_alloc]].

Section Soundness.
Variable call : prog → state → res value.
Hypothesis call_Exec : ∀ p s v s', call p s = Done v s' → Exec s s'.

Lemma track_Exec target type k s : Exec s (track target type k s).
Proof.
  unfold track. destruct (_ && _); [|apply Exec_refl].
  destruct (map_get _ _).
  - eapply Exec_trans; [|apply Exec_track]. other.
  - simpl. eapply Exec_trans; [|apply Exec_track].
    eapply Exec_trans; [|eapply Exec_trans; [apply Exec_alloc_dep|]]; other.
Qed.

Lemma trackRefValue_Exec rb s : Exec s (trackRefValue rb s).
Proof.
  unfold trackRefValue. destruct (_ && _); [|apply Exec_refl].
  destruct (dep_of _ _); [apply Exec_track|]. simpl.
  eapply Exec_trans; [|apply Exec_track].
  eapply Exec_trans; [apply Exec_alloc_dep|].
  destruct rb; other.
Qed.

Lemma stop_Exec e s u s' : stop call e s = Done u s' → Exec s s'.
Proof.
  unfold stop. intros H. case_bool_decide.
  - inv_done. apply Exec_deferStop.
  - destruct (active _); [|inv_done; apply Exec_refl].
    inv_bind H. inv_done.
    eapply Exec_trans; [apply Exec_cleanup|].
    eapply Exec_trans; [|apply Exec_inactive].
    destruct (onStop _); [eauto|inv_done; apply Exec_refl].
Qed.

Lemma run_Exec e s v s' : run call e s = Done v s' → Exec s s'.
Proof.
  unfold run. intros H. destruct (active (effect_at s e)) eqn:Hact; simpl in H.
  - destruct (in_parent_chain _ _ _ _) as [[]|] eqn:Hchain; [| |done].
    + inv_done. apply Exec_refl.
    + inv_bind H.
      assert (Exec s (run_leave e (shouldTrack s) s0)) as Hrun
        by (eapply Exec_run; eauto).
      destruct (deferStop _).
      * inv_bind H. inv_done. eapply Exec_trans; [done|]. by eapply stop_Exec.
      * by inv_done.
  - eapply Exec_trans; [by apply Exec_plain_call|]. eauto.
Qed.

Lemma triggerEffect_Exec e s u s' : triggerEffect call e s = Done u s' → Exec s s'.
Proof.
  unfold triggerEffect. intros H. destruct (_ || _); [|inv_done; apply Exec_refl].
  eapply Exec_trans; [apply (Exec_fire e)|].
  destruct (scheduler _); inv_bind H; inv_done; eauto using run_Exec.
Qed.

Lemma fire_loop_Exec (fire : nat → state → res unit) want effects :
  (∀ e s u s', fire e s = Done u s' → Exec s s') →
  ∀ s u s', fire_loop fire want effects s = Done u s' → Exec s s'.
Proof.
  intros Hfire. induction effects as [|e rest IH]; simpl; intros s u s' H.
  - inv_done. apply Exec_refl.
  - case_bool_decide; [|eauto]. inv_bind H. eapply Exec_trans; eauto.
Qed.

Lemma triggerEffects_Exec effects s u s' :
  triggerEffects call effects s = Done u s' → Exec s s'.
Proof.
  unfold triggerEffects, triggerEffects_with. intros H. inv_bind H.
  eapply Exec_trans; eapply fire_loop_Exec; eauto using triggerEffect_Exec.
Qed.

Lemma trigger_Exec target type k newValue s u s' :
  trigger call target type k newValue s = Done u s' → Exec s s'.
Proof.
  unfold trigger. intros H.
  destruct (depsMap_of _ _); [|inv_done; apply Exec_refl].
  destruct (trigger_deps _ _ _ _ _ _); [done|].
  destruct (trigger_effects _ _); [by eapply triggerEffects_Exec|].
  inv_done. apply Exec_refl.
Qed.

Lemma triggerRefValue_Exec rb s u s' :
  triggerRefValue call rb s = Done u s' → Exec s s'.
Proof.
  unfold triggerRefValue. intros H.
  destruct (dep_of _ _); [by eapply triggerEffects_Exec|].
  inv_done. apply Exec_refl.
Qed.

Lemma createRef_Exec v shallow s r s' : createRef v shallow s = Done r s' → Exec s s'.
Proof.
  unfold createRef. intros H. destruct (isRef _); [inv_done; apply Exec_refl|].
  destruct (if shallow then _ else _); inv_done. other.
Qed.

Lemma RefImpl_get_Exec r s v s' : RefImpl_get r s = Done v s' → Exec s s'.
Proof. unfold RefImpl_get. intros H. inv_done. apply trackRefValue_Exec. Qed.

Lemma RefImpl_set_Exec r newVal s u s' :
  RefImpl_set call r newVal s = Done u s' → Exec s s'.
Proof.
  unfold RefImpl_set. intros H. destruct (hasChanged _ _); [|inv_done; apply Exec_refl].
  destruct (if __v_isShallow _ then _ else _); [|done].
  eapply Exec_trans; [|by eapply triggerRefValue_Exec]. other.
Qed.

Lemma computed_scheduler_Exec c s u s' :
  computed_scheduler call c s = Done u s' → Exec s s'.
Proof.
  unfold computed_scheduler. intros H. destruct (negb _); [|inv_done; apply Exec_refl].
  eapply Exec_trans; [|by eapply triggerRefValue_Exec]. other.
Qed.

Lemma ComputedRefImpl_get_Exec c s v s' :
  ComputedRefImpl_get call c s = Done v s' → Exec s s'.
Proof.
  unfold ComputedRefImpl_get. intros H.
  eapply Exec_trans; [apply (trackRefValue_Exec (OfComputed c))|].
  destruct (_ || _); [|inv_done; apply Exec_refl].
  inv_bind H. inv_done.
  eapply Exec_trans; [|eapply Exec_trans; [by eapply run_Exec|]]; other.
Qed.

Lemma ComputedRefImpl_set_Exec c v s u s' :
  ComputedRefImpl_set call c v s = Done u s' → Exec s s'.
Proof.
  unfold ComputedRefImpl_set. intros H. destruct (_setter _).
  - inv_bind H. inv_done. eauto.
  - inv_done. destruct (dev s); [other|apply Exec_refl].
Qed.

Lemma computed_Exec getter setter isSSR s :
  Exec s (snd (computed_ getter setter isSSR s)).
Proof.
  unfold computed_, new_ComputedRefImpl. cbv zeta. unfold snd.
  match goal with |- Exec s (set_computedHeap _ ?s1) => apply Exec_trans with s1 end.
  - by apply Exec_alloc_effect.
  - apply Exec_other; [repeat split; done|].
    match goal with
    | |- keeps_computed ?s1 (set_computedHeap (_ ++ [?C]) _) =>
        exact (keeps_computed_alloc C s1)
    end.
Qed.

Lemma read_value_Exec r s v s' : read_value call r s = Done v s' → Exec s s'.
Proof.
  destruct r; simpl; try done; eauto using RefImpl_get_Exec, ComputedRefImpl_get_Exec.
Qed.

Lemma write_value_Exec r v s u s' : write_value call r v s = Done u s' → Exec s s'.
Proof.
  destruct r; simpl; try done; eauto using RefImpl_set_Exec, ComputedRefImpl_set_Exec.
Qed.

Lemma raw_set_Exec o k v s s' : raw_set o k v s = Some s' → Exec s s'.
Proof.
  unfold raw_set. intros H.
  destruct (_ && _).
  - destruct v; try done. case_bool_decide; [|done]. simplify_eq. other.
  - destruct (array_index k); [destruct (_ && _)|]; simplify_eq; other.
Qed.

Lemma createGetter_Exec kind target k receiver s v s' :
  createGetter call kind target k receiver s = Done v s' → Exec s s'.
Proof.
  unfold createGetter. intros H.
  repeat (case_bool_decide; [inv_done; apply Exec_refl|]).
  destruct (_ && _); [inv_done; apply Exec_refl|].
  destruct (if _ && _ then _ else _); [inv_done; apply Exec_refl|].
  destruct (skips_tracking _); [inv_done; apply Exec_refl|].
  assert (Exec s (if negb (kindReadonly kind) then track target GET k s else s)) as Ht
    by (destruct (negb _); [apply track_Exec|apply Exec_refl]).
  destruct (kindShallow _); [by inv_done|].
  destruct (isRef _).
  - destruct (_ && _); [by inv_done|].
    eapply Exec_trans; [done|]. by eapply read_value_Exec.
  - destruct (isObject _); [|by inv_done].
    destruct (if kindReadonly kind then _ else _); by inv_done.
Qed.

Lemma createSetter_Exec shallow target k v s b s' :
  createSetter call shallow target k v s = Done b s' → Exec s s'.
Proof.
  unfold createSetter. intros H.
  destruct (_ && _ && _); [inv_done; apply Exec_refl|].
  destruct (if _ && _ then _ else _) as [v' oldValue'].
  destruct (_ && _ && _ && _).
  - inv_bind H. inv_done. by eapply write_value_Exec.
  - destruct (raw_set _ _ _ _) eqn:Hset; [|done]. apply raw_set_Exec in Hset.
    eapply Exec_trans; [done|].
    destruct (negb _).
    + inv_bind H. inv_done. by eapply trigger_Exec.
    + destruct (hasChanged _ _).
      * inv_bind H. inv_done. by eapply trigger_Exec.
      * inv_done. apply Exec_refl.
Qed.

Lemma raw_delete_Exec o k s : Exec s (snd (raw_delete o k s)).
Proof. unfold raw_delete. destruct (_ && _); simpl; [apply Exec_refl|other]. Qed.

Lemma deleteProperty_Exec target k s b s' :
  deleteProperty call target k s = Done b s' → Exec s s'.
Proof.
  unfold deleteProperty. intros H.
  pose proof (raw_delete_Exec target k s) as Hd.
  destruct (raw_delete _ _ _) as [result s1]. simpl in Hd.
  destruct (_ && _).
  - inv_bind H. inv_done. eapply Exec_trans; [done|]. by eapply trigger_Exec.
  - by inv_done.
Qed.

Lemma proxy_set_Exec kind target k v s b s' :
  proxy_set call kind target k v s = Done b s' → Exec s s'.
Proof.
  destruct kind; simpl; eauto using createSetter_Exec;
    unfold readonly_set, warn; intros; inv_done; destruct (dev s);
    (other || apply Exec_refl).
Qed.

Lemma proxy_deleteProperty_Exec kind target k s b s' :
  proxy_deleteProperty call kind target k s = Done b s' → Exec s s'.
Proof.
  destruct kind; simpl; eauto using deleteProperty_Exec;
    unfold readonly_deleteProperty, warn; intros; inv_done; destruct (dev s);
    (other || apply Exec_refl).
Qed.

Lemma Reflect_get_Exec target k receiver s v s' :
  Reflect_get call target k receiver s = Done v s' → Exec s s'.
Proof.
  destruct target; simpl; try done.
  - intros; inv_done. apply Exec_refl.
  - apply createGetter_Exec.
Qed.

Lemma Reflect_set_Exec target k v s b s' :
  Reflect_set call target k v s = Done b s' → Exec s s'.
Proof.
  destruct target; simpl; try done.
  - destruct (raw_set _ _ _ _) eqn:Hset; [|done]. intros; inv_done.
    by eapply raw_set_Exec.
  - apply proxy_set_Exec.
Qed.

Lemma get_property_Exec obj k s v s' :
  get_property call obj k s = Done v s' → Exec s s'.
Proof.
  unfold get_property. destruct obj; try apply Reflect_get_Exec.
  unfold shallowUnwrap_get, unref. intros H. inv_bind H.
  eapply Exec_trans; [by eapply Reflect_get_Exec|].
  destruct (isRef _); [by eapply read_value_Exec|inv_done; apply Exec_refl].
Qed.

Lemma set_property_Exec obj k v s b s' :
  set_property call obj k v s = Done b s' → Exec s s'.
Proof.
  unfold set_property. destruct obj; try apply Reflect_set_Exec.
  unfold shallowUnwrap_set. intros H. inv_bind H.
  eapply Exec_trans; [by eapply Reflect_get_Exec|].
  destruct (_ && _); [|by eapply Reflect_set_Exec].
  inv_bind H. inv_done. by eapply write_value_Exec.
Qed.

Lemma delete_on_Exec target k s b s' : delete_on call target k s = Done b s' → Exec s s'.
Proof.
  destruct target; simpl; try done.
  - pose proof (raw_delete_Exec o k s) as Hd. destruct (raw_delete _ _ _).
    intros; by inv_done.
  - apply proxy_deleteProperty_Exec.
Qed.

Lemma has_on_Exec target k s b s' : has_on target k s = Done b s' → Exec s s'.
Proof.
  destruct target; simpl; try done.
  - intros; inv_done. apply Exec_refl.
  - destruct (kindReadonly _); [intros; inv_done; apply Exec_refl|].
    unfold has. destruct (negb _); intros; inv_done;
      [apply track_Exec|apply Exec_refl].
Qed.

Lemma ownKeys_on_Exec target s l s' : ownKeys_on target s = Done l s' → Exec s s'.
Proof.
  destruct target; simpl; try done.
  - intros; inv_done. apply Exec_refl.
  - destruct (kindReadonly _); [intros; inv_done; apply Exec_refl|].
    unfold ownKeys. intros; inv_done. apply track_Exec.
Qed.

Lemma new_object_Exec isArr isMp entries s o s' :
  new_object isArr isMp entries s = Some (o, s') → Exec s s'.
Proof.
  unfold new_object.
  set (s0 := set_objHeap _ s). assert (Exec s s0) as H0 by other.
  generalize (length (objHeap s)). revert H0. generalize s0. clear s0.
  induction entries as [|[k v] entries IH]; simpl; intros s0 H0 o0 H.
  - by simplify_eq.
  - destruct (raw_set o0 k v s0) eqn:Hset.
    + eapply IH; [|done]. eapply Exec_trans; [done|]. by eapply raw_set_Exec.
    + exfalso. clear -H. induction entries; simpl in *; [done|auto].
Qed.

Lemma step_Exec p s v s' : step call p s = Done v s' → Exec s s'.
Proof.
  destruct p; intros H; unfold step in H.
  - inv_done. apply Exec_refl.
  - eapply Exec_trans; [|eauto]. other.
  - inv_bind H. eapply Exec_trans; [|eauto].
    unfold effect_, new_ReactiveEffect in H0.
    set (s1 := set_effectHeap _ s) in H0.
    assert (Exec s s1) by (by apply Exec_alloc_effect).
    eapply Exec_trans; [done|].
    destruct lazy; simpl in H0.
    + inv_done. apply Exec_refl.
    + inv_bind H0. inv_done. by eapply run_Exec.
  - inv_bind H. eapply Exec_trans; [by eapply run_Exec|eauto].
  - inv_bind H. eapply Exec_trans; [by eapply stop_Exec|eauto].
  - inv_bind H. eapply Exec_trans; [by eapply createRef_Exec|eauto].
  - inv_bind H. eapply Exec_trans; [by eapply read_value_Exec|eauto].
  - inv_bind H. eapply Exec_trans; [by eapply write_value_Exec|eauto].
  - inv_bind H. eapply Exec_trans; [|eauto].
    unfold triggerRef in H0. destruct (refBase_of r); [|done].
    inv_bind H0. eapply Exec_trans; [|by eapply triggerRefValue_Exec].
    destruct (dev s); [by eapply read_value_Exec|inv_done; apply Exec_refl].
  - match type of H with
    | context [computed_ ?g ?st ?ssr s] => pose proof (computed_Exec g st ssr s) as Hc
    end.
    destruct (computed_ _ _ _ _). eapply Exec_trans; [done|eauto].
  - eapply Exec_trans; [apply track_Exec|eauto].
  - inv_bind H. eapply Exec_trans; [by eapply trigger_Exec|eauto].
  - eapply Exec_trans; [|eauto]. unfold pauseTracking. other.
  - eapply Exec_trans; [|eauto]. unfold enableTracking. other.
  - eapply Exec_trans; [|eauto]. unfold resetTracking. destruct (last _); other.
  - destruct (new_object _ _ _ _) as [[o s1]|] eqn:Hn; [|done].
    eapply Exec_trans; [by eapply new_object_Exec|eauto].
  - destruct (createReactiveObject _ _); [eauto|done].
  - inv_bind H. eapply Exec_trans; [|eauto].
    unfold proxyRefs in H0. destruct (isReactive _); [inv_done; apply Exec_refl|].
    destruct (isObject _); inv_done. other.
  - inv_bind H. eapply Exec_trans; [by eapply get_property_Exec|eauto].
  - inv_bind H. eapply Exec_trans; [by eapply set_property_Exec|eauto].
  - inv_bind H. eapply Exec_trans; [|eauto].
    unfold delete_property in H0. destruct obj; eauto using delete_on_Exec.
  - inv_bind H. eapply Exec_trans; [|eauto].
    unfold has_property in H0. destruct obj; eauto using has_on_Exec.
  - inv_bind H. eapply Exec_trans; [|eauto].
    unfold own_keys in H0. destruct obj; eauto using ownKeys_on_Exec.
  - inv_bind H. inv_done. by eapply computed_scheduler_Exec.
Qed.

End Soundness.

Lemma exec_Exec fuel : ∀ p s v s', exec fuel p s = Done v s' → Exec s s'.
Proof.
  induction fuel as [|fuel IH]; simpl; intros p s v s' H; [done|].
  by eapply step_Exec.
Qed.

(** * Reading the heaps after an update *)

Lemma dep_at_upd_dep_ne d f s d' : d' ≠ d → dep_at (upd_dep d f s) d' = dep_at s d'.
Proof.
  intros Hne. unfold dep_at, upd_dep. simpl. by rewrite list_lookup_alter_ne.
Qed.

Lemma dep_at_upd_dep_eq d f s :
  (d < length (depHeap s))%nat → dep_at (upd_dep d f s) d = f (dep_at s d).
Proof.
  intros Hlt. unfold dep_at, upd_dep. simpl. rewrite list_lookup_alter_eq.
  destruct (lookup_lt_is_Some_2 _ _ Hlt) as [D ->]. done.
Qed.

Lemma upd_dep_out d f s : (length (depHeap s) ≤ d)%nat → depHeap (upd_dep d f s) = depHeap s.
Proof.
  intros Hge. unfold upd_dep. simpl. apply list_eq. intros i.
  destruct (decide (i = d)) as [->|Hne].
  - rewrite list_lookup_alter_eq. by rewrite (lookup_ge_None_2 _ _ Hge).
  - by rewrite list_lookup_alter_ne.
Qed.

Lemma dep_at_out s d : (length (depHeap s) ≤ d)%nat → dep_at s d = mkDep [] 0 0.
Proof. intros Hge. unfold dep_at. by rewrite (lookup_ge_None_2 _ _ Hge). Qed.

(** A field that [f] keeps is kept by [upd_dep d f], whether or not [d] is
    in the heap. *)
Lemma dep_field_upd_dep {A} (proj : Dep → A) d f s d' :
  (∀ D, proj (f D) = proj D) → proj (dep_at (upd_dep d f s) d') = proj (dep_at s d').
Proof.
  intros Hf. destruct (decide (d' = d)) as [->|Hne]; [|by rewrite dep_at_upd_dep_ne].
  destruct (decide (d < length (depHeap s))%nat) as [Hlt|Hge].
  - by rewrite dep_at_upd_dep_eq.
  - unfold dep_at. rewrite upd_dep_out by lia. done.
Qed.

Lemma effect_at_upd_effect_ne e f s e' :
  e' ≠ e → effect_at (upd_effect e f s) e' = effect_at s e'.
Proof.
  intros Hne. unfold effect_at, upd_effect. simpl. by rewrite list_lookup_alter_ne.
Qed.

Lemma effect_at_upd_effect_eq e f s :
  (e < length (effectHeap s))%nat → effect_at (upd_effect e f s) e = f (effect_at s e).
Proof.
  intros Hlt. unfold effect_at, upd_effect. simpl. rewrite list_lookup_alter_eq.
  destruct (lookup_lt_is_Some_2 _ _ Hlt) as [D ->]. done.
Qed.

Lemma upd_effect_out e f s :
  (length (effectHeap s) ≤ e)%nat → effectHeap (upd_effect e f s) = effectHeap s.
Proof.
  intros Hge. unfold upd_effect. simpl. apply list_eq. intros i.
  destruct (decide (i = e)) as [->|Hne].
  - rewrite list_lookup_alter_eq. by rewrite (lookup_ge_None_2 _ _ Hge).
  - by rewrite list_lookup_alter_ne.
Qed.

Lemma effect_field_upd_effect {A} (proj : ReactiveEffect → A) e f s e' :
  (∀ E, proj (f E) = proj E) → proj (effect_at (upd_effect e f s) e') = proj (effect_at s e').
Proof.
  intros Hf. destruct (decide (e' = e)) as [->|Hne]; [|by rewrite effect_at_upd_effect_ne].
  destruct (decide (e < length (effectHeap s))%nat) as [Hlt|Hge].
  - by rewrite effect_at_upd_effect_eq.
  - unfold effect_at. rewrite upd_effect_out by lia. done.
Qed.

Lemma effect_at_out s e :
  (length (effectHeap s) ≤ e)%nat →
  effect_at s e = mkEffect false [] None None false false None (Return VUndefined) None.
Proof. intros Hge. unfold effect_at. by rewrite (lookup_ge_None_2 _ _ Hge). Qed.

Lemma active_allocated s e : active (effect_at s e) = true → (e < length (effectHeap s))%nat.
Proof.
  intros Hact. destruct (decide (e < length (effectHeap s))%nat); [done|].
  rewrite effect_at_out in Hact by lia. done.
Qed.

Lemma deps_allocated s e d : d ∈ deps (effect_at s e) → (e < length (effectHeap s))%nat.
Proof.
  intros Hin. destruct (decide (e < length (effectHeap s))%nat); [done|].
  rewrite effect_at_out in Hin by lia. by apply elem_of_nil in Hin.
Qed.

Lemma members_allocated s e d : e ∈ members (dep_at s d) → (d < length (depHeap s))%nat.
Proof.
  intros Hin. destruct (decide (d < length (depHeap s))%nat); [done|].
  rewrite dep_at_out in Hin by lia. by apply elem_of_nil in Hin.
Qed.

(** Updates of one heap leave the other alone. *)
Lemma effect_at_upd_dep d f s e : effect_at (upd_dep d f s) e = effect_at s e.
Proof. done. Qed.

Lemma dep_at_upd_effect e f s d : dep_at (upd_effect e f s) d = dep_at s d.
Proof. done. Qed.

Lemma dep_at_record ev s d : dep_at (record ev s) d = dep_at s d.
Proof. done. Qed.

Lemma effect_at_record ev s e : effect_at (record ev s) e = effect_at s e.
Proof. done. Qed.

Lemma activeEffect_record ev s : activeEffect (record ev s) = activeEffect s.
Proof. done. Qed.

Lemma effectTrackDepth_record ev s : effectTrackDepth (record ev s) = effectTrackDepth s.
Proof. done. Qed.

Lemma trackOpBit_record ev s : trackOpBit (record ev s) = trackOpBit s.
Proof. done. Qed.

Lemma effectHeap_record ev s : effectHeap (record ev s) = effectHeap s.
Proof. done. Qed.

Lemma depHeap_record ev s : depHeap (record ev s) = depHeap s.
Proof. done. Qed.

Lemma trace_record ev s : trace (record ev s) = trace s ++ [ev].
Proof. done. Qed.

Lemma length_depHeap_upd_dep d f s : length (depHeap (upd_dep d f s)) = length (depHeap s).
Proof. unfold upd_dep. simpl. apply length_alter. Qed.

Lemma length_effectHeap_upd_effect e f s :
  length (effectHeap (upd_effect e f s)) = length (effectHeap s).
Proof. unfold upd_effect. simpl. apply length_alter. Qed.

(** [Set] operations. *)
Lemma elem_of_set_add x y l : x ∈ set_add y l ↔ x = y ∨ x ∈ l.
Proof.
  unfold set_add. case_bool_decide as Hin.
  - split; [auto|]. intros [->|]; done.
  - rewrite elem_of_app, list_elem_of_singleton. tauto.
Qed.

Lemma elem_of_set_delete x y l : x ∈ set_delete y l ↔ x ≠ y ∧ x ∈ l.
Proof. unfold set_delete. by rewrite list_elem_of_filter. Qed.

Lemma wasTracked_wbit s D :
  (effectTrackDepth s ≤ 30)%nat → trackOpBit s = js_shl 1 (effectTrackDepth s) →
  wasTracked s D = Z.testbit (w D) (Z.of_nat (effectTrackDepth s)).
Proof.
  intros Hk Hbit. unfold wasTracked. rewrite Hbit, js_shl_1 by done.
  by apply js_and_pow2_pos.
Qed.

Lemma newTracked_nbit s D :
  (effectTrackDepth s ≤ 30)%nat → trackOpBit s = js_shl 1 (effectTrackDepth s) →
  newTracked s D = Z.testbit (n D) (Z.of_nat (effectTrackDepth s)).
Proof.
  intros Hk Hbit. unfold newTracked. rewrite Hbit, js_shl_1 by done.
  by apply js_and_pow2_pos.
Qed.

(** * The invariant of the graph *)

Lemma frame_refl s : frame s s.
Proof. by split. Qed.

Lemma frame_trans s1 s2 s3 : frame s1 s2 → frame s2 s3 → frame s1 s3.
Proof.
  intros [Ha Hd Hh Hs] [Ha' Hd' Hh' Hs']. split; try congruence; [lia|].
  intros l Hl. rewrite <- Ha. apply Hs'. rewrite Ha. by apply Hs.
Qed.

Lemma is_stack_ext s s' p l :
  is_stack s p l →
  (length (effectHeap s) ≤ length (effectHeap s'))%nat →
  (∀ e, e ∈ l → parent (effect_at s' e) = parent (effect_at s e)) →
  is_stack s' p l.
Proof.
  intros Hst Hlen. induction Hst as [|e l Halloc Hst IH Hnin]; intros Hpar.
  - constructor.
  - constructor; [lia| |done].
    rewrite Hpar by apply list_elem_of_here.
    apply IH. intros e' He'. apply Hpar. by apply list_elem_of_further.
Qed.

Lemma is_stack_inj s p l l' : is_stack s p l → is_stack s p l' → l = l'.
Proof.
  intros Hst. revert l'. induction Hst as [|e l Halloc Hst IH Hnin]; intros l' Hst'.
  - by inversion Hst'.
  - inversion Hst'; subst. f_equal. by apply IH.
Qed.

Lemma marks_ext s s' l :
  marks s l →
  (∀ e d, e ∈ l → d ∈ deps (effect_at s' e) → d ∈ deps (effect_at s e)) →
  (∀ e d k, e ∈ l → d ∈ deps (effect_at s e) → (k ≤ 30)%nat → (k ≤ length l)%nat →
            wbit s d k || nbit s d k = true → wbit s' d k || nbit s' d k = true) →
  marks s' l.
Proof.
  induction l as [|e l IH]; simpl; [done|]. intros [Hm Hl] Hdeps Hbits. split.
  - intros Hk d Hd. apply Hdeps in Hd; [|apply list_elem_of_here].
    eapply Hbits; [apply list_elem_of_here|done|done|done|by apply Hm].
  - apply IH; [done| |].
    + intros e' d He'. apply Hdeps. by apply list_elem_of_further.
    + intros e' d k He' Hd Hk Hkl.
      apply (Hbits e' d k); [by apply list_elem_of_further|done|done|lia].
Qed.

(** A change that keeps every Dep and the [deps] and [parent] of every
    effect keeps the invariant. *)
Lemma WF_ext s s' :
  (∀ d, dep_at s' d = dep_at s d) →
  (∀ e, deps (effect_at s' e) = deps (effect_at s e)) →
  (∀ e, parent (effect_at s' e) = parent (effect_at s e)) →
  (length (effectHeap s) ≤ length (effectHeap s'))%nat →
  activeEffect s' = activeEffect s →
  effectTrackDepth s' = effectTrackDepth s →
  trackOpBit s' = trackOpBit s →
  WF s → WF s' ∧ frame s s'.
Proof.
  intros Hdep Hdeps Hpar Hlen Ha Hd Hb [Hl Hn Hbit (l & Hst & Hlen' & Hm)]. split.
  - split.
    + intros e d. rewrite Hdep, Hdeps. apply Hl.
    + intros e. rewrite Hdeps. apply Hn.
    + congruence.
    + exists l. split_and!.
      * rewrite Ha. eapply is_stack_ext; eauto.
      * congruence.
      * eapply marks_ext; [done| |].
        -- intros e d _. by rewrite Hdeps.
        -- intros e d k _ _ _ _. unfold wbit, nbit. by rewrite Hdep.
  - split; [done|done|done|]. intros l' Hl'. eapply is_stack_ext; eauto.
Qed.

Lemma dep_at_alloc_dep s d : dep_at (snd (alloc_dep (createDep []) s)) d = dep_at s d.
Proof.
  unfold dep_at, alloc_dep. simpl.
  destruct (decide (d < length (depHeap s))%nat) as [Hlt|Hge].
  - by rewrite lookup_app_l.
  - rewrite (lookup_ge_None_2 (depHeap s)) by lia.
    destruct (decide (d = length (depHeap s))) as [->|Hne].
    + by rewrite list_lookup_middle.
    + rewrite lookup_ge_None_2; [done|]. rewrite length_app. simpl. lia.
Qed.

Lemma effect_at_alloc E s e :
  e ≠ length (effectHeap s) →
  effect_at (set_effectHeap (effectHeap s ++ [E]) s) e = effect_at s e.
Proof.
  intros Hne. unfold effect_at. simpl.
  destruct (decide (e < length (effectHeap s))%nat) as [Hlt|Hge].
  - by rewrite lookup_app_l.
  - rewrite (lookup_ge_None_2 (effectHeap s)) by lia.
    rewrite lookup_ge_None_2; [done|]. rewrite length_app. simpl. lia.
Qed.

Lemma effect_at_alloc_new E s :
  effect_at (set_effectHeap (effectHeap s ++ [E]) s) (length (effectHeap s)) = E.
Proof. unfold effect_at. simpl. by rewrite list_lookup_middle. Qed.

Lemma WF_alloc_effect E s :
  deps E = [] → parent E = None →
  WF s → WF (set_effectHeap (effectHeap s ++ [E]) s)
         ∧ frame s (set_effectHeap (effectHeap s ++ [E]) s).
Proof.
  intros HE1 HE2. apply WF_ext; try done.
  - intros e. destruct (decide (e = length (effectHeap s))) as [->|Hne].
    + rewrite effect_at_alloc_new, effect_at_out by lia. done.
    + by rewrite effect_at_alloc.
  - intros e. destruct (decide (e = length (effectHeap s))) as [->|Hne].
    + rewrite effect_at_alloc_new, effect_at_out by lia. done.
    + by rewrite effect_at_alloc.
  - simpl. rewrite length_app. lia.
Qed.

(** ** [trackEffects] *)

(** What [trackEffects(d)] changes: it may set the new-tracked bit of [d]
    at the current level ([setn]) and may subscribe the active effect [a]
    ([added]). *)
Lemma trackEffects_spec d a s :
  activeEffect s = Some a → (a < length (effectHeap s))%nat →
  (d < length (depHeap s))%nat →
  trackOpBit s = js_shl 1 (effectTrackDepth s) →
  ∃ setn added : bool,
    (setn = true → (effectTrackDepth s ≤ 30)%nat ∧ nbit s d (effectTrackDepth s) = false)
    ∧ (added = true →
       ((effectTrackDepth s ≤ 30)%nat → setn = true ∧ wbit s d (effectTrackDepth s) = false)
       ∧ ((30 < effectTrackDepth s)%nat → a ∉ members (dep_at s d)))
    ∧ ((effectTrackDepth s ≤ 30)%nat →
       nbit (trackEffects d s) d (effectTrackDepth s) = true)
    ∧ (∀ d', members (dep_at (trackEffects d s) d')
             = if added && bool_decide (d' = d) then set_add a (members (dep_at s d))
               else members (dep_at s d'))
    ∧ (∀ e, deps (effect_at (trackEffects d s) e)
            = if added && bool_decide (e = a) then deps (effect_at s a) ++ [d]
              else deps (effect_at s e))
    ∧ (∀ d', w (dep_at (trackEffects d s) d') = w (dep_at s d'))
    ∧ (∀ d', n (dep_at (trackEffects d s) d')
             = if setn && bool_decide (d' = d)
               then js_or (n (dep_at s d)) (2 ^ Z.of_nat (effectTrackDepth s))
               else n (dep_at s d'))
    ∧ (∀ e, parent (effect_at (trackEffects d s) e) = parent (effect_at s e))
    ∧ (∀ e, active (effect_at (trackEffects d s) e) = active (effect_at s e))
    ∧ length (effectHeap (trackEffects d s)) = length (effectHeap s)
    ∧ length (depHeap (trackEffects d s)) = length (depHeap s)
    ∧ activeEffect (trackEffects d s) = activeEffect s
    ∧ effectTrackDepth (trackEffects d s) = effectTrackDepth s
    ∧ trackOpBit (trackEffects d s) = trackOpBit s
    ∧ trace (trackEffects d s) = trace s ++ [EvTrack a d].
Proof.
  intros Ha Hla Hld Hbit. unfold trackEffects. rewrite Ha.
  destruct (lookup_lt_is_Some_2 _ _ Hld) as [D0 HD0]. rewrite HD0.
  set (s0 := record (EvTrack a d) s).
  assert (Hd0 : ∀ d', dep_at s0 d' = dep_at s d') by done.
  assert (He0 : ∀ e, effect_at s0 e = effect_at s e) by done.
  assert (Hbit0 : trackOpBit s0 = js_shl 1 (effectTrackDepth s0)) by done.
  assert (Hld0 : (d < length (depHeap s0))%nat) by done.
  assert (Hla0 : (a < length (effectHeap s0))%nat) by done.
  assert (Hk0 : effectTrackDepth s0 = effectTrackDepth s) by done.
  assert (Hadd : ∀ s1,
    (∀ d', members (dep_at s1 d') = members (dep_at s d')) →
    (∀ e, effect_at s1 e = effect_at s e) →
    (d < length (depHeap s1))%nat → (a < length (effectHeap s1))%nat →
    let s3 := upd_effect a (λ E, with_deps (deps E ++ [d]) E)
                (upd_dep d (λ D, with_members (set_add a (members D)) D) s1) in
    (∀ d', members (dep_at s3 d')
          = if true && bool_decide (d' = d) then set_add a (members (dep_at s d))
            else members (dep_at s d'))
    ∧ (∀ e, deps (effect_at s3 e)
          = if true && bool_decide (e = a) then deps (effect_at s a) ++ [d]
            else deps (effect_at s e))
    ∧ (∀ d', w (dep_at s3 d') = w (dep_at s1 d'))
    ∧ (∀ d', n (dep_at s3 d') = n (dep_at s1 d'))
    ∧ (∀ e, parent (effect_at s3 e) = parent (effect_at s e))
    ∧ (∀ e, active (effect_at s3 e) = active (effect_at s e))).
  { intros s1 Hm1 He1 Hld1 Hla1 s3. subst s3. split_and!.
    - intros d'. rewrite dep_at_upd_effect. simpl. case_bool_decide as Hdd.
      + subst d'. rewrite dep_at_upd_dep_eq by done. simpl. by rewrite Hm1.
      + rewrite dep_at_upd_dep_ne by done. apply Hm1.
    - intros e. simpl. case_bool_decide as Hee.
      + subst e. rewrite effect_at_upd_effect_eq by done.
        simpl. rewrite effect_at_upd_dep. by rewrite He1.
      + rewrite effect_at_upd_effect_ne by done. rewrite effect_at_upd_dep. by rewrite He1.
    - intros d'. rewrite dep_at_upd_effect. by rewrite (dep_field_upd_dep w).
    - intros d'. rewrite dep_at_upd_effect. by rewrite (dep_field_upd_dep n).
    - intros e. rewrite (effect_field_upd_effect parent) by done.
      rewrite effect_at_upd_dep. by rewrite He1.
    - intros e. rewrite (effect_field_upd_effect active) by done.
      rewrite effect_at_upd_dep. by rewrite He1. }
  unfold maxMarkerBits. rewrite Hk0. case_bool_decide as Hk.
  - (* marker bits *)
    rewrite newTracked_nbit by (by rewrite ?Hk0). rewrite Hd0, Hk0.
    destruct (Z.testbit (n (dep_at s d)) (Z.of_nat (effectTrackDepth s))) eqn:Hn; simpl.
    + exists false, false. simpl. split_and!; try done.
    + set (s1 := upd_dep d _ s0).
      assert (Hw1 : ∀ d', w (dep_at s1 d') = w (dep_at s d')).
      { intros d'. unfold s1. by rewrite (dep_field_upd_dep w). }
      assert (Hm1 : ∀ d', members (dep_at s1 d') = members (dep_at s d')).
      { intros d'. unfold s1. by rewrite (dep_field_upd_dep members). }
      assert (Hn1 : ∀ d', n (dep_at s1 d')
                = if bool_decide (d' = d)
                  then js_or (n (dep_at s d)) (2 ^ Z.of_nat (effectTrackDepth s))
                  else n (dep_at s d')).
      { intros d'. unfold s1. case_bool_decide as Hdd.
        - subst d'. rewrite dep_at_upd_dep_eq by done. simpl.
          rewrite Hbit, Hd0. by rewrite js_shl_1.
        - by rewrite dep_at_upd_dep_ne. }
      assert (Hnk : nbit s1 d (effectTrackDepth s) = true).
      { unfold nbit. rewrite Hn1, bool_decide_eq_true_2 by done.
        rewrite js_or_pow2_testbit by lia. rewrite bool_decide_eq_true_2 by done.
        apply orb_true_r. }
      rewrite wasTracked_wbit by done. change (effectTrackDepth s1) with (effectTrackDepth s).
      rewrite Hw1.
      destruct (Z.testbit (w (dep_at s d)) (Z.of_nat (effectTrackDepth s))) eqn:Hw; simpl.
      * exists true, false. simpl. split_and!; try done. apply length_alter.
      * destruct (Hadd s1) as (A1 & A2 & A3 & A4 & A5 & A6); try done.
        { unfold s1. by rewrite length_depHeap_upd_dep. }
        exists true, true. split_and!; try done.
        -- intros _. split; [by intros _|lia].
        -- intros _. unfold nbit. rewrite A4. apply Hnk.
        -- intros d'. rewrite A3. apply Hw1.
        -- intros d'. rewrite A4. apply Hn1.
        -- simpl. by rewrite length_alter.
        -- simpl. by rewrite !length_alter.
  - (* full cleanup mode *)
    unfold set_has. rewrite Hd0.
    case_bool_decide as Hin; simpl.
    + exists false, false. simpl. split_and!; try done; lia.
    + destruct (Hadd s0) as (A1 & A2 & A3 & A4 & A5 & A6); try done.
      exists false, true. split_and!; try done.
      all: by rewrite !length_alter.
Qed.

Lemma trackEffects_noop d s :
  activeEffect s = None ∨ depHeap s !! d = None → trackEffects d s = s.
Proof.
  unfold trackEffects. intros [->| ->]; [done|]. by destruct (activeEffect s).
Qed.

Lemma WF_refl_frame s : WF s → WF s ∧ frame s s.
Proof. intros H. split; [done|apply frame_refl]. Qed.

Lemma WF_track d s : WF s → WF (trackEffects d s) ∧ frame s (trackEffects d s).
Proof.
  intros HWF.
  destruct (activeEffect s) as [a|] eqn:Ha;
    [|rewrite trackEffects_noop by auto; by apply WF_refl_frame].
  destruct (depHeap s !! d) as [D0|] eqn:HD0;
    [|rewrite trackEffects_noop by auto; by apply WF_refl_frame].
  destruct HWF as [Hl Hn Hbit (l & Hst & Hlen & Hm)]. unfold linked in Hl.
  rewrite Ha in Hst. inversion Hst as [|a' l' Hla Hst' Hnin]; subst a' l.
  assert (Hld : (d < length (depHeap s))%nat) by (by eapply lookup_lt_Some).
  destruct (trackEffects_spec d a s Ha Hla Hld Hbit)
    as (setn & added & Hsetn & Hadded & Hnk & Hmem & Hdeps & Hw & Hn' & Hpar & _
        & Hle & Hld' & Ha' & Hk' & Hb' & _).
  set (s' := trackEffects d s) in *.
  assert (Hmono : ∀ d' j, (j ≤ 30)%nat →
            wbit s d' j || nbit s d' j = true → wbit s' d' j || nbit s' d' j = true).
  { intros d' j Hj. unfold wbit, nbit. rewrite Hw, Hn'.
    destruct (setn && bool_decide (d' = d)) eqn:Hc; [|done].
    apply andb_true_iff in Hc as [-> Hdd]. apply bool_decide_eq_true in Hdd. subst d'.
    destruct Hsetn as [Hk _]; [done|].
    rewrite js_or_pow2_testbit by lia. intros H.
    apply orb_true_iff in H as [H|H]; rewrite H; simpl; [done|]. apply orb_true_r. }
  assert (Hfresh : added = true → d ∉ deps (effect_at s a)).
  { intros Hadd Hin. destruct (Hadded Hadd) as [Hlow Hhigh].
    destruct (decide (effectTrackDepth s ≤ 30)%nat) as [Hk|Hk].
    - destruct (Hlow Hk) as [Hs Hwb]. destruct (Hsetn Hs) as [_ Hnb].
      simpl in Hm, Hlen. destruct Hm as [Hm _]. rewrite Hlen in Hm.
      specialize (Hm Hk d Hin). rewrite Hwb, Hnb in Hm. done.
    - apply (Hhigh ltac:(lia)). by apply Hl. }
  split.
  - split.
    + intros e d'. rewrite Hmem, Hdeps. destruct added; simpl; [|apply Hl].
      repeat case_bool_decide; subst.
      * rewrite elem_of_set_add, elem_of_app, list_elem_of_singleton. tauto.
      * rewrite elem_of_set_add. rewrite Hl. tauto.
      * rewrite elem_of_app, list_elem_of_singleton. rewrite Hl. tauto.
      * apply Hl.
    + intros e. rewrite Hdeps. destruct added; simpl; [|apply Hn].
      case_bool_decide; [|apply Hn]. subst e.
      apply NoDup_app. split_and!; [apply Hn| |apply NoDup_singleton].
      intros x Hx Hx'. apply list_elem_of_singleton in Hx'. subst x. by apply Hfresh.
    + by rewrite Hb', Hk'.
    + exists (a :: l'). rewrite Ha'. split_and!.
      * rewrite Ha. eapply is_stack_ext; [done|lia|]. intros e _. apply Hpar.
      * by rewrite Hk'.
      * simpl in *. destruct Hm as [Hma Hml]. split.
        -- intros Hk d' Hd'. rewrite Hdeps in Hd'.
           destruct (added && bool_decide (a = a)) eqn:Hc.
           ++ apply elem_of_app in Hd' as [Hd'|Hd'].
              ** apply Hmono; [done|]. by apply Hma.
              ** apply list_elem_of_singleton in Hd'. subst d'.
                 rewrite Hlen in *. rewrite (Hnk Hk). apply orb_true_r.
           ++ apply Hmono; [done|]. by apply Hma.
        -- eapply marks_ext; [done| |].
           ++ intros e d' He. rewrite Hdeps.
              destruct (added && bool_decide (e = a)) eqn:Hc; [|done].
              apply andb_true_iff in Hc as [_ Hc]. apply bool_decide_eq_true in Hc.
              by subst e.
           ++ intros e d' j _ _ Hj _. by apply Hmono.
  - split; [done|done|lia|].
    intros l Hl'. eapply is_stack_ext; [done|lia|]. intros e _. apply Hpar.
Qed.

(** ** [cleanupEffect] *)

Lemma members_upd_dep_delete d0 e s d :
  members (dep_at (upd_dep d0 (λ D, with_members (set_delete e (members D)) D) s) d)
  = if bool_decide (d = d0) then set_delete e (members (dep_at s d))
    else members (dep_at s d).
Proof.
  case_bool_decide as Hd; [subst d|by rewrite dep_at_upd_dep_ne].
  destruct (decide (d0 < length (depHeap s))%nat) as [Hlt|Hge].
  - by rewrite dep_at_upd_dep_eq.
  - unfold dep_at at 1. rewrite upd_dep_out by lia. fold (dep_at s d0).
    rewrite dep_at_out by lia. done.
Qed.

Lemma set_delete_idemp e l : set_delete e (set_delete e l) = set_delete e l.
Proof.
  unfold set_delete. induction l as [|x l IH]; [done|].
  rewrite filter_cons. case_decide; [|done].
  rewrite filter_cons. rewrite decide_True by done. by rewrite IH.
Qed.

Lemma cleanup_loop_spec e l s :
  let s' := foldl (λ s d, upd_dep d (λ D, with_members (set_delete e (members D)) D) s) s l in
  (∀ d, members (dep_at s' d)
        = if bool_decide (d ∈ l) then set_delete e (members (dep_at s d))
          else members (dep_at s d))
  ∧ (∀ d, w (dep_at s' d) = w (dep_at s d))
  ∧ (∀ d, n (dep_at s' d) = n (dep_at s d))
  ∧ effectHeap s' = effectHeap s
  ∧ length (depHeap s') = length (depHeap s)
  ∧ activeEffect s' = activeEffect s
  ∧ effectTrackDepth s' = effectTrackDepth s
  ∧ trackOpBit s' = trackOpBit s
  ∧ trace s' = trace s.
Proof.
  revert s. induction l as [|d0 l IH]; intros s; simpl.
  - split_and!; try done.
  - destruct (IH (upd_dep d0 (λ D, with_members (set_delete e (members D)) D) s))
      as (Hm & Hw & Hn & He & Hl & Ha & Hk & Hb & Ht).
    split_and!; try done.
    + intros d. rewrite Hm, members_upd_dep_delete.
      destruct (decide (d = d0)) as [->|Hne].
      * rewrite (bool_decide_eq_true_2 (d0 ∈ d0 :: l)) by apply list_elem_of_here.
        rewrite (bool_decide_eq_true_2 (d0 = d0)) by done. rewrite set_delete_idemp.
        by case_bool_decide.
      * rewrite (bool_decide_eq_false_2 (d = d0)) by done.
        destruct (decide (d ∈ l)) as [Hin|Hnin].
        -- rewrite !bool_decide_eq_true_2; [done|by apply list_elem_of_further|done].
        -- rewrite !bool_decide_eq_false_2; [done| |done].
           intros Hx. apply elem_of_cons in Hx as [?|?]; done.
    + intros d. rewrite Hw. by rewrite (dep_field_upd_dep w).
    + intros d. rewrite Hn. by rewrite (dep_field_upd_dep n).
    + rewrite Hl. apply length_depHeap_upd_dep.
Qed.

Lemma cleanupEffect_spec e s :
  let s' := cleanupEffect e s in
  (∀ d, members (dep_at s' d)
        = if bool_decide (d ∈ deps (effect_at s e)) then set_delete e (members (dep_at s d))
          else members (dep_at s d))
  ∧ (∀ d, w (dep_at s' d) = w (dep_at s d))
  ∧ (∀ d, n (dep_at s' d) = n (dep_at s d))
  ∧ (∀ e', deps (effect_at s' e')
           = if bool_decide (e' = e) then [] else deps (effect_at s e'))
  ∧ (∀ e', parent (effect_at s' e') = parent (effect_at s e'))
  ∧ (∀ e', active (effect_at s' e') = active (effect_at s e'))
  ∧ length (effectHeap s') = length (effectHeap s)
  ∧ length (depHeap s') = length (depHeap s)
  ∧ activeEffect s' = activeEffect s
  ∧ effectTrackDepth s' = effectTrackDepth s
  ∧ trackOpBit s' = trackOpBit s
  ∧ trace s' = trace s.
Proof.
  unfold cleanupEffect.
  destruct (cleanup_loop_spec e (deps (effect_at s e)) s)
    as (Hm & Hw & Hn & He & Hl & Ha & Hk & Hb & Ht).
  set (s1 := foldl _ s _) in *.
  assert (Heq : ∀ e', effect_at s1 e' = effect_at s e').
  { intros e'. unfold effect_at. by rewrite He. }
  cbv zeta. split_and!; try done.
  - intros e'. case_bool_decide as Hee.
    + subst e'. destruct (decide (e < length (effectHeap s1))%nat).
      * by rewrite effect_at_upd_effect_eq.
      * unfold effect_at at 1. rewrite upd_effect_out by lia. fold (effect_at s1 e).
        rewrite effect_at_out by lia. done.
    + rewrite effect_at_upd_effect_ne by done. by rewrite Heq.
  - intros e'. rewrite (effect_field_upd_effect parent) by done. by rewrite Heq.
  - intros e'. rewrite (effect_field_upd_effect active) by done. by rewrite Heq.
  - rewrite length_effectHeap_upd_effect. by rewrite He.
Qed.

Lemma WF_cleanup e s : WF s → WF (cleanupEffect e s) ∧ frame s (cleanupEffect e s).
Proof.
  intros [Hl Hn Hbit (l & Hst & Hlen & Hm)]. unfold linked in Hl.
  destruct (cleanupEffect_spec e s)
    as (Hmem & Hw & Hn' & Hdeps & Hpar & _ & Hle & Hld & Ha & Hk & Hb & _).
  set (s' := cleanupEffect e s) in *.
  split.
  - split.
    + intros e' d. rewrite Hmem, Hdeps.
      destruct (decide (e' = e)) as [->|Hee].
      * rewrite (bool_decide_eq_true_2 (e = e)) by done.
        split; [|by intros ?%elem_of_nil].
        case_bool_decide as Hd.
        -- rewrite elem_of_set_delete. tauto.
        -- rewrite Hl. done.
      * rewrite (bool_decide_eq_false_2 (e' = e)) by done.
        case_bool_decide as Hd; [|apply Hl].
        rewrite elem_of_set_delete. rewrite Hl. tauto.
    + intros e'. rewrite Hdeps. case_bool_decide; [apply NoDup_nil_2|apply Hn].
    + by rewrite Hb, Hk.
    + exists l. rewrite Ha, Hk. split_and!; [|done|].
      * eapply is_stack_ext; [done|lia|]. intros e' _. apply Hpar.
      * eapply marks_ext; [done| |].
        -- intros e' d _. rewrite Hdeps. case_bool_decide; [by intros ?%elem_of_nil|done].
        -- intros e' d k _ _ _ _. unfold wbit, nbit. by rewrite Hw, Hn'.
  - split; [done|done|lia|].
    intros l' Hl'. eapply is_stack_ext; [done|lia|]. intros e' _. apply Hpar.
Qed.

(** ** [initDepMarkers] and the entry of [run] *)

Lemma init_loop_spec (k : nat) l s :
  (k ≤ 30)%nat → trackOpBit s = 2 ^ Z.of_nat k →
  let s' := foldl (λ s d, upd_dep d (λ D, with_w (js_or (w D) (trackOpBit s)) D) s) s l in
  (∀ d, members (dep_at s' d) = members (dep_at s d))
  ∧ (∀ d, n (dep_at s' d) = n (dep_at s d))
  ∧ (∀ d j, (j ≤ 30)%nat → wbit s d j = true → wbit s' d j = true)
  ∧ (∀ d, d ∈ l → (d < length (depHeap s))%nat → wbit s' d k = true)
  ∧ effectHeap s' = effectHeap s
  ∧ length (depHeap s') = length (depHeap s)
  ∧ activeEffect s' = activeEffect s
  ∧ effectTrackDepth s' = effectTrackDepth s
  ∧ trackOpBit s' = trackOpBit s
  ∧ trace s' = trace s.
Proof.
  intros Hk. revert s. induction l as [|d0 l IH]; intros s Hbit; simpl.
  - split_and!; try done. by intros d ?%elem_of_nil.
  - set (s1 := upd_dep d0 _ s).
    assert (Hw1 : ∀ d j, (j ≤ 30)%nat →
              wbit s1 d j = wbit s d j
                || (bool_decide (d = d0 ∧ (d0 < length (depHeap s))%nat)
                    && bool_decide (j = k))).
    { intros d j Hj. unfold wbit, s1.
      destruct (decide (d = d0)) as [->|Hne].
      - destruct (decide (d0 < length (depHeap s))%nat) as [Hlt|Hge].
        + rewrite dep_at_upd_dep_eq by done. simpl. rewrite Hbit.
          rewrite js_or_pow2_testbit by lia. f_equal.
          rewrite (bool_decide_eq_true_2 (_ ∧ _)) by done. simpl.
          apply bool_decide_ext. lia.
        + unfold dep_at at 1. rewrite upd_dep_out by lia. fold (dep_at s d0).
          rewrite (bool_decide_eq_false_2 (_ ∧ _)) by tauto. simpl.
          by rewrite orb_false_r.
      - rewrite dep_at_upd_dep_ne by done.
        rewrite (bool_decide_eq_false_2 (_ ∧ _)) by tauto. simpl.
        by rewrite orb_false_r. }
    destruct (IH s1) as (Hm & Hn & Hmono & Hset & He & Hl & Ha & Hd & Hb & Ht); [done|].
    split_and!; try done.
    + intros d. rewrite Hm. unfold s1. by rewrite (dep_field_upd_dep members).
    + intros d. rewrite Hn. unfold s1. by rewrite (dep_field_upd_dep n).
    + intros d j Hj Hw. apply Hmono; [done|]. rewrite Hw1 by done. by rewrite Hw.
    + intros d Hd' Hlt. apply elem_of_cons in Hd' as [->|Hd'].
      * apply Hmono; [done|]. rewrite Hw1 by done.
        rewrite !bool_decide_eq_true_2 by done. apply orb_true_r.
      * apply Hset; [done|]. unfold s1. by rewrite length_depHeap_upd_dep.
    + rewrite Hl. unfold s1. apply length_depHeap_upd_dep.
Qed.

Lemma is_stack_head s p l : is_stack s p l → p = head l.
Proof. by destruct 1. Qed.

Lemma in_parent_chain_false fuel s p l e :
  is_stack s p l → in_parent_chain fuel s p e = Some false → e ∉ l.
Proof.
  intros Hst. revert fuel. induction Hst as [|x l Hx Hst IH Hnin]; intros fuel Hc.
  - apply not_elem_of_nil.
  - destruct fuel as [|fuel]; simpl in Hc; case_bool_decide as Hxe; try done.
    apply IH in Hc. rewrite not_elem_of_cons. split; [congruence|done].
Qed.

Lemma in_parent_chain_true fuel s p l e :
  is_stack s p l → e ∈ l → (length l ≤ S fuel)%nat →
  in_parent_chain fuel s p e = Some true.
Proof.
  intros Hst. revert fuel. induction Hst as [|x l Hx Hst IH Hnin]; intros fuel He Hlen.
  - by apply elem_of_nil in He.
  - destruct fuel as [|fuel]; simpl.
    + case_bool_decide as Hxe; [done|].
      apply elem_of_cons in He as [?|He]; [congruence|].
      simpl in Hlen. destruct l; [by apply elem_of_nil in He|simpl in Hlen; lia].
    + case_bool_decide as Hxe; [done|].
      apply elem_of_cons in He as [?|He]; [congruence|].
      apply IH; [done|]. simpl in Hlen. lia.
Qed.

Lemma is_stack_length s p l : is_stack s p l → (length l ≤ length (effectHeap s))%nat.
Proof.
  intros Hst.
  assert (Hnd : NoDup l) by (induction Hst; constructor; done).
  assert (Hlt : ∀ e, e ∈ l → e ∈ seq 0 (length (effectHeap s))).
  { induction Hst as [|x l Hx Hst IH Hnin]; intros e He.
    - by apply elem_of_nil in He.
    - apply elem_of_cons in He as [->|He]; [|by apply IH; [eapply NoDup_cons_1_2|]].
      apply elem_of_seq. lia. }
  assert (Hsub : l ⊆+ seq 0 (length (effectHeap s))) by (by apply NoDup_submseteq).
  apply submseteq_length in Hsub. by rewrite length_seq in Hsub.
Qed.

(** The state in which [run] calls [fn]. *)
Lemma WF_run_enter e s l :
  WF s → is_stack s (activeEffect s) l →
  (e < length (effectHeap s))%nat → e ∉ l →
  let s1 := record (EvRun e) (run_enter e s) in
  WF s1 ∧ is_stack s1 (Some e) (e :: l)
  ∧ activeEffect s1 = Some e
  ∧ effectTrackDepth s1 = S (effectTrackDepth s)
  ∧ length (effectHeap s1) = length (effectHeap s)
  ∧ parent (effect_at s1 e) = activeEffect s
  ∧ (∀ e', e' ≠ e → parent (effect_at s1 e') = parent (effect_at s e')).
Proof.
  intros [Hl Hn Hbit (l0 & Hst0 & Hlen & Hm)] Hst Halloc Hnin. unfold linked in Hl.
  assert (l0 = l) by (by eapply is_stack_inj). subst l0.
  unfold run_enter. cbv zeta.
  set (s4 := set_depth _ _ _).
  assert (Hd4 : ∀ d, dep_at s4 d = dep_at s d) by done.
  assert (He4 : ∀ e', effect_at s4 e'
                      = effect_at (upd_effect e (with_parent (activeEffect s)) s) e') by done.
  assert (Hdeps4 : ∀ e', deps (effect_at s4 e') = deps (effect_at s e')).
  { intros e'. rewrite He4. by rewrite (effect_field_upd_effect deps). }
  assert (Hpar4e : parent (effect_at s4 e) = activeEffect s).
  { rewrite He4. by rewrite effect_at_upd_effect_eq. }
  assert (Hpar4 : ∀ e', e' ≠ e → parent (effect_at s4 e') = parent (effect_at s e')).
  { intros e' Hne. rewrite He4. by rewrite effect_at_upd_effect_ne. }
  assert (Hlen4 : length (effectHeap s4) = length (effectHeap s)).
  { unfold s4. simpl. apply length_alter. }
  assert (Hbit4 : trackOpBit s4 = js_shl 1 (S (effectTrackDepth s))) by done.
  assert (Hst4 : is_stack s4 (Some e) (e :: l)).
  { constructor; [lia| |done]. rewrite Hpar4e.
    eapply is_stack_ext; [done|lia|]. intros e' He'. apply Hpar4. congruence. }
  change (effectTrackDepth (set_shouldTrack _ _)) with (effectTrackDepth s).
  unfold maxMarkerBits. case_bool_decide as Hk.
  - (* markers *)
    rewrite js_shl_1 in Hbit4 by done.
    unfold initDepMarkers.
    destruct (init_loop_spec (S (effectTrackDepth s)) (deps (effect_at s4 e)) s4 Hk Hbit4)
      as (Hm' & Hn' & Hmono & Hset & He' & Hl' & Ha' & Hd' & Hb' & Ht').
    set (s5 := foldl _ s4 _) in *.
    assert (Heq5 : ∀ e', effect_at (record (EvRun e) s5) e' = effect_at s4 e').
    { intros e'. unfold effect_at. simpl. by rewrite He'. }
    split_and!.
    + split.
      * intros e' d. rewrite dep_at_record, Hm', Hd4, Heq5, Hdeps4. apply Hl.
      * intros e'. rewrite Heq5, Hdeps4. apply Hn.
      * simpl. rewrite Hb', Hd'. rewrite Hbit4. by rewrite js_shl_1.
      * exists (e :: l). simpl activeEffect. rewrite Ha'. split_and!.
        -- eapply is_stack_ext; [apply Hst4|simpl; by rewrite He'|].
           intros e' _. by rewrite Heq5.
        -- simpl. rewrite Hd'. simpl. by rewrite Hlen.
        -- simpl. split.
           ++ intros _ d Hd. rewrite Heq5, Hdeps4 in Hd. rewrite Hlen.
              unfold wbit at 1. rewrite dep_at_record. fold (wbit s5 d (S (effectTrackDepth s))).
              rewrite Hset; [done|by rewrite Hdeps4|].
              change (length (depHeap s4)) with (length (depHeap s)).
              eapply members_allocated. by apply Hl.
           ++ eapply marks_ext; [done| |].
              ** intros e' d _. by rewrite Heq5, Hdeps4.
              ** intros e' d j _ _ Hj _. unfold wbit, nbit.
                 rewrite !dep_at_record, Hn', Hd4.
                 intros H. apply orb_true_iff in H as [H|H]; [|by rewrite H, orb_true_r].
                 fold (wbit s5 d j). rewrite Hmono; [done|done|by rewrite <- Hd4 in H].
    + eapply is_stack_ext; [apply Hst4|simpl; by rewrite He'|].
      intros e' _. by rewrite Heq5.
    + simpl. by rewrite Ha'.
    + simpl. by rewrite Hd'.
    + simpl. by rewrite He'.
    + by rewrite Heq5.
    + intros e' Hne. rewrite Heq5. by apply Hpar4.
  - (* full cleanup *)
    destruct (cleanupEffect_spec e s4)
      as (Hmem & Hw & Hn' & Hdeps & Hpar & _ & Hle & Hld & Ha & Hk' & Hb & _).
    set (s5 := cleanupEffect e s4) in *.
    rewrite activeEffect_record, effectTrackDepth_record, effectHeap_record, effect_at_record.
    split_and!.
    + split.
      * intros e' d. rewrite dep_at_record, effect_at_record, Hmem, Hdeps, !Hdeps4, !Hd4.
        destruct (decide (e' = e)) as [->|Hee].
        -- rewrite (bool_decide_eq_true_2 (e = e)) by done.
           split; [|by intros ?%elem_of_nil].
           case_bool_decide as Hd.
           ++ rewrite elem_of_set_delete. tauto.
           ++ rewrite Hl. done.
        -- rewrite (bool_decide_eq_false_2 (e' = e)) by done.
           case_bool_decide as Hd; [|apply Hl].
           rewrite elem_of_set_delete. rewrite Hl. tauto.
      * intros e'. rewrite effect_at_record, Hdeps, Hdeps4.
        case_bool_decide; [apply NoDup_nil_2|apply Hn].
      * rewrite trackOpBit_record, effectTrackDepth_record. by rewrite Hb, Hk'.
      * exists (e :: l). rewrite activeEffect_record, effectTrackDepth_record, Ha.
        split_and!.
        -- eapply is_stack_ext; [apply Hst4|rewrite effectHeap_record; lia|].
           intros e' _. rewrite effect_at_record. apply Hpar.
        -- rewrite Hk'. simpl. by rewrite Hlen.
        -- simpl. split.
           ++ intros Hk2. rewrite Hlen in Hk2. lia.
           ++ eapply marks_ext; [done| |].
              ** intros e' d _. rewrite effect_at_record, Hdeps, !Hdeps4.
                 case_bool_decide; [by intros ?%elem_of_nil|done].
              ** intros e' d j _ _ _ _. unfold wbit, nbit.
                 by rewrite !dep_at_record, Hw, Hn', Hd4.
    + eapply is_stack_ext; [apply Hst4|rewrite effectHeap_record; lia|].
      intros e' _. rewrite effect_at_record. apply Hpar.
    + by rewrite Ha.
    + by rewrite Hk'.
    + lia.
    + by rewrite Hpar.
    + intros e' Hne. rewrite effect_at_record, Hpar. by apply Hpar4.
Qed.

(** ** [finalizeDepMarkers] and the exit of [run] *)

Lemma js_and_0_l x : js_and 0 x = 0.
Proof. unfold js_and. by rewrite Z.land_0_l. Qed.

Lemma dep_at_upd_dep_fix d f s :
  f (mkDep [] 0 0) = mkDep [] 0 0 → dep_at (upd_dep d f s) d = f (dep_at s d).
Proof.
  intros Hf. destruct (decide (d < length (depHeap s))%nat) as [Hlt|Hge].
  - by rewrite dep_at_upd_dep_eq.
  - unfold dep_at at 1. rewrite upd_dep_out by lia. fold (dep_at s d).
    rewrite dep_at_out by lia. by rewrite Hf.
Qed.

Lemma filter_ext_in {A : Type} (P Q : A → Prop)
    `{∀ x, Decision (P x)} `{∀ x, Decision (Q x)} (l : list A) :
  (∀ x, x ∈ l → (P x ↔ Q x)) → filter P l = filter Q l.
Proof.
  induction l as [|x l IH]; intros HPQ; [done|].
  rewrite !filter_cons.
  rewrite IH by (intros y Hy; apply HPQ; by apply list_elem_of_further).
  destruct (HPQ x (list_elem_of_here _ _)).
  repeat case_decide; tauto.
Qed.

Lemma finalize_loop_spec e (K : nat) l : ∀ kept s,
  (K ≤ 30)%nat → trackOpBit s = 2 ^ Z.of_nat K → NoDup l →
  let r := finalize_loop e l kept s in
  fst r = kept ++ filter (λ d, dropped s K d = false) l
  ∧ (∀ d, members (dep_at (snd r) d)
          = if bool_decide (d ∈ l) && dropped s K d
            then set_delete e (members (dep_at s d)) else members (dep_at s d))
  ∧ (∀ d j, (j ≤ 30)%nat →
       wbit (snd r) d j = wbit s d j && negb (bool_decide (d ∈ l) && bool_decide (j = K)))
  ∧ (∀ d j, (j ≤ 30)%nat →
       nbit (snd r) d j = nbit s d j && negb (bool_decide (d ∈ l) && bool_decide (j = K)))
  ∧ effectHeap (snd r) = effectHeap s
  ∧ length (depHeap (snd r)) = length (depHeap s)
  ∧ activeEffect (snd r) = activeEffect s
  ∧ effectTrackDepth (snd r) = effectTrackDepth s
  ∧ trackOpBit (snd r) = trackOpBit s
  ∧ trace (snd r) = trace s.
Proof.
  induction l as [|d0 l IH]; intros kept s HK Hbit Hnd; simpl.
  - rewrite app_nil_r. split_and!; try done.
    + intros d j _. by rewrite andb_true_r.
    + intros d j _. by rewrite andb_true_r.
  - apply NoDup_cons in Hnd as [Hnin Hnd].
    assert (Hdrop : wasTracked s (dep_at s d0) && negb (newTracked s (dep_at s d0))
                    = dropped s K d0).
    { unfold dropped, wbit, nbit, wasTracked, newTracked. rewrite Hbit.
      by rewrite !js_and_pow2_pos. }
    rewrite Hdrop.
    set (s1 := if dropped s K d0
               then upd_dep d0 (λ D, with_members (set_delete e (members D)) D) s else s).
    set (kept1 := if dropped s K d0 then kept else kept ++ [d0]).
    replace (if dropped s K d0
             then (kept, upd_dep d0 (λ D, with_members (set_delete e (members D)) D) s)
             else (kept ++ [d0], s)) with (kept1, s1)
      by (unfold kept1, s1; by destruct (dropped s K d0)).
    assert (Hb1 : trackOpBit s1 = 2 ^ Z.of_nat K)
      by (unfold s1; by destruct (dropped s K d0)).
    set (s2 := upd_dep d0 _ s1). set (s3 := upd_dep d0 _ s2).
    assert (Hother : ∀ d, d ≠ d0 → dep_at s3 d = dep_at s d).
    { intros d Hne. unfold s3, s2. rewrite !dep_at_upd_dep_ne by done.
      unfold s1. destruct (dropped s K d0); [by rewrite dep_at_upd_dep_ne|done]. }
    assert (Hmem0 : members (dep_at s3 d0)
                    = if dropped s K d0 then set_delete e (members (dep_at s d0))
                      else members (dep_at s d0)).
    { unfold s3, s2. rewrite !(dep_field_upd_dep members) by done.
      unfold s1. destruct (dropped s K d0); [|done].
      rewrite members_upd_dep_delete. by rewrite bool_decide_eq_true_2. }
    assert (Hw1 : w (dep_at s1 d0) = w (dep_at s d0)).
    { unfold s1. destruct (dropped s K d0); [|done]. by rewrite (dep_field_upd_dep w). }
    assert (Hn1 : n (dep_at s1 d0) = n (dep_at s d0)).
    { unfold s1. destruct (dropped s K d0); [|done]. by rewrite (dep_field_upd_dep n). }
    assert (Hw0 : ∀ j, (j ≤ 30)%nat → wbit s3 d0 j = wbit s d0 j && negb (bool_decide (j = K))).
    { intros j Hj. unfold wbit, s3. rewrite (dep_field_upd_dep w) by done.
      unfold s2. rewrite dep_at_upd_dep_fix by (simpl; by rewrite js_and_0_l).
      simpl. rewrite Hb1, js_and_not_pow2_testbit by lia. rewrite Hw1. f_equal. f_equal.
      apply bool_decide_ext. lia. }
    assert (Hn0 : ∀ j, (j ≤ 30)%nat → nbit s3 d0 j = nbit s d0 j && negb (bool_decide (j = K))).
    { intros j Hj. unfold nbit, s3.
      rewrite dep_at_upd_dep_fix by (simpl; by rewrite js_and_0_l).
      simpl. change (trackOpBit s2) with (trackOpBit s1).
      rewrite Hb1, js_and_not_pow2_testbit by lia.
      unfold s2. rewrite (dep_field_upd_dep n) by done. rewrite Hn1. f_equal. f_equal.
      apply bool_decide_ext. lia. }
    assert (Hb3 : trackOpBit s3 = 2 ^ Z.of_nat K) by done.
    assert (Hdrop3 : ∀ d, d ≠ d0 → dropped s3 K d = dropped s K d).
    { intros d Hne. unfold dropped, wbit, nbit. by rewrite Hother. }
    destruct (IH kept1 s3 HK Hb3 Hnd) as (Hk & Hm & Hw & Hn & He & Hl & Ha & Hd & Hb & Ht).
    split_and!.
    + rewrite Hk. unfold kept1. rewrite filter_cons.
      assert (Hf : filter (λ d, dropped s3 K d = false) l
                   = filter (λ d, dropped s K d = false) l).
      { apply filter_ext_in. intros d Hd'.
        rewrite Hdrop3; [done|]. intros ->. done. }
      rewrite Hf. destruct (dropped s K d0) eqn:Hdr.
      * rewrite decide_False by done. done.
      * rewrite decide_True by done. by rewrite <- app_assoc.
    + intros d. rewrite Hm. destruct (decide (d = d0)) as [->|Hne].
      * rewrite (bool_decide_eq_false_2 (d0 ∈ l)) by done. simpl.
        rewrite (bool_decide_eq_true_2 (d0 ∈ d0 :: l)) by apply list_elem_of_here.
        simpl. apply Hmem0.
      * rewrite Hdrop3, Hother by done.
        assert (Hiff : bool_decide (d ∈ l) = bool_decide (d ∈ d0 :: l)).
        { apply bool_decide_ext. rewrite elem_of_cons. tauto. }
        by rewrite Hiff.
    + intros d j Hj. rewrite Hw by done. destruct (decide (d = d0)) as [->|Hne].
      * rewrite (bool_decide_eq_false_2 (d0 ∈ l)) by done. simpl.
        rewrite (bool_decide_eq_true_2 (d0 ∈ d0 :: l)) by apply list_elem_of_here.
        simpl. rewrite andb_true_r. by apply Hw0.
      * unfold wbit at 1. rewrite Hother by done.
        assert (Hiff : bool_decide (d ∈ l) = bool_decide (d ∈ d0 :: l)).
        { apply bool_decide_ext. rewrite elem_of_cons. tauto. }
        by rewrite Hiff.
    + intros d j Hj. rewrite Hn by done. destruct (decide (d = d0)) as [->|Hne].
      * rewrite (bool_decide_eq_false_2 (d0 ∈ l)) by done. simpl.
        rewrite (bool_decide_eq_true_2 (d0 ∈ d0 :: l)) by apply list_elem_of_here.
        simpl. rewrite andb_true_r. by apply Hn0.
      * unfold nbit at 1. rewrite Hother by done.
        assert (Hiff : bool_decide (d ∈ l) = bool_decide (d ∈ d0 :: l)).
        { apply bool_decide_ext. rewrite elem_of_cons. tauto. }
        by rewrite Hiff.
    + rewrite He. unfold s3, s2, s1. by destruct (dropped s K d0).
    + rewrite Hl. unfold s3, s2. rewrite !length_depHeap_upd_dep.
      unfold s1. destruct (dropped s K d0); [apply length_depHeap_upd_dep|done].
    + rewrite Ha. unfold s3, s2, s1. by destruct (dropped s K d0).
    + rewrite Hd. unfold s3, s2, s1. by destruct (dropped s K d0).
    + rewrite Hb. unfold s3, s2, s1. by destruct (dropped s K d0).
    + rewrite Ht. unfold s3, s2, s1. by destruct (dropped s K d0).
Qed.

Lemma finalizeDepMarkers_spec e (K : nat) s :
  (K ≤ 30)%nat → trackOpBit s = 2 ^ Z.of_nat K → NoDup (deps (effect_at s e)) →
  let s' := finalizeDepMarkers e s in
  (∀ e', deps (effect_at s' e')
         = if bool_decide (e' = e)
           then filter (λ d, dropped s K d = false) (deps (effect_at s e))
           else deps (effect_at s e'))
  ∧ (∀ d, members (dep_at s' d)
          = if bool_decide (d ∈ deps (effect_at s e)) && dropped s K d
            then set_delete e (members (dep_at s d)) else members (dep_at s d))
  ∧ (∀ d j, (j ≤ 30)%nat →
       wbit s' d j = wbit s d j
                     && negb (bool_decide (d ∈ deps (effect_at s e)) && bool_decide (j = K)))
  ∧ (∀ d j, (j ≤ 30)%nat →
       nbit s' d j = nbit s d j
                     && negb (bool_decide (d ∈ deps (effect_at s e)) && bool_decide (j = K)))
  ∧ (∀ e', parent (effect_at s' e') = parent (effect_at s e'))
  ∧ (∀ e', active (effect_at s' e') = active (effect_at s e'))
  ∧ length (effectHeap s') = length (effectHeap s)
  ∧ length (depHeap s') = length (depHeap s)
  ∧ activeEffect s' = activeEffect s
  ∧ effectTrackDepth s' = effectTrackDepth s
  ∧ trackOpBit s' = trackOpBit s
  ∧ trace s' = trace s.
Proof.
  intros HK Hbit Hnd. unfold finalizeDepMarkers.
  destruct (finalize_loop_spec e K (deps (effect_at s e)) [] s HK Hbit Hnd)
    as (Hk & Hm & Hw & Hn & He & Hl & Ha & Hd & Hb & Ht).
  destruct (finalize_loop _ _ _ _) as [kept s1]. simpl in *. subst kept.
  assert (Heq : ∀ e', effect_at s1 e' = effect_at s e').
  { intros e'. unfold effect_at. by rewrite He. }
  split_and!; try done.
  - intros e'. case_bool_decide as Hee.
    + subst e'. destruct (decide (e < length (effectHeap s1))%nat).
      * by rewrite effect_at_upd_effect_eq.
      * unfold effect_at at 1. rewrite upd_effect_out by lia. fold (effect_at s1 e).
        rewrite Heq. rewrite effect_at_out by (rewrite <- He; lia). done.
    + rewrite effect_at_upd_effect_ne by done. by rewrite Heq.
  - intros e'. rewrite (effect_field_upd_effect parent) by done. by rewrite Heq.
  - intros e'. rewrite (effect_field_upd_effect active) by done. by rewrite Heq.
  - rewrite length_alter. by rewrite He.
Qed.

(** The state in which [run] returns (before a deferred [stop]). *)
Lemma WF_run_leave e b s l :
  WF s → is_stack s (Some e) (e :: l) → activeEffect s = Some e →
  let s' := run_leave e b s in
  WF s' ∧ is_stack s' (head l) l
  ∧ activeEffect s' = head l
  ∧ S (effectTrackDepth s') = effectTrackDepth s
  ∧ length (effectHeap s') = length (effectHeap s)
  ∧ (∀ e', e' ≠ e → parent (effect_at s' e') = parent (effect_at s e')).
Proof.
  intros [Hl Hn Hbit (l0 & Hst0 & Hlen & Hm)] Hst Ha. unfold linked in Hl.
  rewrite Ha in Hst0. assert (l0 = e :: l) by (by eapply is_stack_inj). subst l0.
  inversion Hst as [|e0 l0 Halloc Hst' Hnin]; subst e0 l0.
  pose proof (is_stack_head _ _ _ Hst') as Hhead.
  simpl in Hlen, Hm. destruct Hm as [Hme Hml].
  unfold run_leave. cbv zeta. unfold maxMarkerBits.
  set (s1 := if bool_decide (effectTrackDepth s ≤ 30)%nat then finalizeDepMarkers e s else s).
  assert (H1 :
    (∀ e', e' ≠ e → deps (effect_at s1 e') = deps (effect_at s e'))
    ∧ linked s1 ∧ (∀ e', NoDup (deps (effect_at s1 e')))
    ∧ (∀ d j, (j ≤ 30)%nat → (j ≤ length l)%nat →
         wbit s d j || nbit s d j = true → wbit s1 d j || nbit s1 d j = true)
    ∧ (∀ e', parent (effect_at s1 e') = parent (effect_at s e'))
    ∧ length (effectHeap s1) = length (effectHeap s)
    ∧ effectTrackDepth s1 = effectTrackDepth s).
  { unfold s1. case_bool_decide as HK; [|by split_and!].
    rewrite js_shl_1 in Hbit by done.
    destruct (finalizeDepMarkers_spec e (effectTrackDepth s) s HK Hbit (Hn e))
      as (Hdeps & Hmem & Hw & Hn' & Hpar & _ & Hle & _ & _ & Hd & _ & _).
    split_and!; try done.
    - intros e' Hne. rewrite Hdeps. by rewrite bool_decide_eq_false_2.
    - intros e' d. rewrite Hdeps, Hmem.
      destruct (decide (e' = e)) as [->|Hee].
      + rewrite (bool_decide_eq_true_2 (e = e)) by done.
        rewrite list_elem_of_filter.
        destruct (decide (d ∈ deps (effect_at s e))) as [Hin|Hnin'].
        * rewrite (bool_decide_eq_true_2 _ Hin). simpl.
          destruct (dropped s (effectTrackDepth s) d).
          -- rewrite elem_of_set_delete. split; [tauto|]. by intros [? _].
          -- rewrite Hl. tauto.
        * rewrite (bool_decide_eq_false_2 _ Hnin'). simpl. rewrite Hl. tauto.
      + rewrite (bool_decide_eq_false_2 (e' = e)) by done.
        destruct (bool_decide (d ∈ deps (effect_at s e)) && dropped s (effectTrackDepth s) d);
          [|apply Hl].
        rewrite elem_of_set_delete. rewrite Hl. tauto.
    - intros e'. rewrite Hdeps. case_bool_decide; [|apply Hn].
      apply NoDup_filter, Hn.
    - intros d j Hj Hjl. rewrite Hw, Hn' by done.
      rewrite (bool_decide_eq_false_2 (j = effectTrackDepth s)) by lia.
      by rewrite andb_false_r, !andb_true_r. }
  destruct H1 as (Hdeps1 & Hl1 & Hn1 & Hbits1 & Hpar1 & Hle1 & Hd1).
  set (s4 := set_shouldTrack _ _).
  assert (Hd4 : ∀ d, dep_at (upd_effect e (with_parent None) s4) d = dep_at s1 d) by done.
  assert (He4 : ∀ e', effect_at (upd_effect e (with_parent None) s4) e'
                      = effect_at (upd_effect e (with_parent None) s1) e') by done.
  assert (Hdeps4 : ∀ e', deps (effect_at (upd_effect e (with_parent None) s4) e')
                         = deps (effect_at s1 e')).
  { intros e'. rewrite He4. by rewrite (effect_field_upd_effect deps). }
  assert (Hpar4 : ∀ e', e' ≠ e → parent (effect_at (upd_effect e (with_parent None) s4) e')
                                 = parent (effect_at s e')).
  { intros e' Hne. rewrite He4. rewrite effect_at_upd_effect_ne by done. apply Hpar1. }
  assert (Hle4 : length (effectHeap (upd_effect e (with_parent None) s4))
                 = length (effectHeap s)).
  { rewrite length_effectHeap_upd_effect. done. }
  assert (Ha4 : activeEffect (upd_effect e (with_parent None) s4) = head l).
  { change (activeEffect (upd_effect e (with_parent None) s4))
      with (parent (effect_at s1 e)). rewrite Hpar1. done. }
  assert (Hk4 : effectTrackDepth (upd_effect e (with_parent None) s4)
                = pred (effectTrackDepth s)).
  { change (effectTrackDepth (upd_effect e (with_parent None) s4))
      with (pred (effectTrackDepth s1)). by rewrite Hd1. }
  assert (Hst4 : is_stack (upd_effect e (with_parent None) s4) (head l) l).
  { rewrite <- Hhead. eapply is_stack_ext; [done|lia|].
    intros e' He'. apply Hpar4. congruence. }
  split_and!; try done.
  - split.
    + intros e' d. rewrite Hd4, Hdeps4. apply Hl1.
    + intros e'. rewrite Hdeps4. apply Hn1.
    + rewrite Hk4. change (trackOpBit (upd_effect e (with_parent None) s4))
        with (js_shl 1 (pred (effectTrackDepth s1))). by rewrite Hd1.
    + exists l. rewrite Ha4, Hk4. split_and!; [done|lia|].
      eapply marks_ext; [done| |].
      * intros e' d He'. rewrite Hdeps4. rewrite Hdeps1; [done|congruence].
      * intros e' d j _ _ Hj Hjl. unfold wbit, nbit. rewrite !Hd4. by apply Hbits1.
  - rewrite Hk4. lia.
Qed.

(** ** Every run keeps the invariant *)

Lemma dep_at_heap s s' d : depHeap s' = depHeap s → dep_at s' d = dep_at s d.
Proof. intros H. unfold dep_at. by rewrite H. Qed.

Lemma effect_at_heap s s' e : effectHeap s' = effectHeap s → effect_at s' e = effect_at s e.
Proof. intros H. unfold effect_at. by rewrite H. Qed.

Theorem Exec_WF s s' : Exec s s' → WF s → WF s' ∧ frame s s'.
Proof.
  induction 1 as [s|s1 s2 s3 H12 IH12 H23 IH23|s s' Hsame|e s|e s Hact|s|E s HE1 HE2
                  |d s|e s|e s|e s|e b s s2 Hact Hguard Hin IH]; intros HWF.
  - by apply WF_refl_frame.
  - destruct (IH12 HWF) as [HWF2 Hf12]. destruct (IH23 HWF2) as [HWF3 Hf23].
    split; [done|by eapply frame_trans].
  - destruct Hsame as (Hd & He & Ha & Hk & Hb & _).
    apply WF_ext; try done.
    + intros d. by apply dep_at_heap.
    + intros e. by rewrite (effect_at_heap s s').
    + intros e. by rewrite (effect_at_heap s s').
    + by rewrite He.
  - by apply WF_ext.
  - by apply WF_ext.
  - apply WF_ext; try done. apply dep_at_alloc_dep.
  - by apply WF_alloc_effect.
  - by apply WF_track.
  - by apply WF_cleanup.
  - apply WF_ext; try done.
    + intros e'. by rewrite (effect_field_upd_effect deps).
    + intros e'. by rewrite (effect_field_upd_effect parent).
    + by rewrite length_effectHeap_upd_effect.
  - apply WF_ext; try done.
    + intros e'. by rewrite (effect_field_upd_effect deps).
    + intros e'. by rewrite (effect_field_upd_effect parent).
    + by rewrite length_effectHeap_upd_effect.
  - pose proof HWF as [_ _ _ (l & Hst & Hlen & _)].
    pose proof (active_allocated _ _ Hact) as Halloc.
    pose proof (in_parent_chain_false _ _ _ _ _ Hst Hguard) as Hnin.
    destruct (WF_run_enter e s l HWF Hst Halloc Hnin)
      as (HWF1 & Hst1 & Ha1 & Hk1 & Hle1 & _ & _).
    destruct (IH HWF1) as [HWF2 [Ha2 Hk2 Hle2 Hst2]].
    rewrite Ha1 in Ha2, Hst2. specialize (Hst2 _ Hst1).
    destruct (WF_run_leave e b s2 l HWF2 Hst2 Ha2)
      as (HWF3 & Hst3 & Ha3 & Hk3 & Hle3 & _).
    pose proof (is_stack_head _ _ _ Hst) as Hhead.
    split; [done|]. split.
    + by rewrite Ha3.
    + lia.
    + lia.
    + intros l' Hl'. assert (l' = l) by (by eapply is_stack_inj). subst l'.
      by rewrite Hhead.
Qed.

Lemma WF_initial isDev : WF (initial_state isDev).
Proof.
  split.
  - intros e d. unfold dep_at, effect_at. simpl.
    split; intros H; by apply elem_of_nil in H.
  - intros e. apply NoDup_nil_2.
  - done.
  - exists []. split_and!; [constructor|done|done].
Qed.

(** Whatever a client program does, it leaves the graph well formed. *)
Lemma exec_WF fuel p s v s' : WF s → exec fuel p s = Done v s' → WF s' ∧ frame s s'.
Proof. intros HWF Hexec. eapply Exec_WF; [by eapply exec_Exec|done]. Qed.

(** * Which Deps an effect read during a pass *)

(** [run_enter] touches no new-tracked bit, records nothing and subscribes
    nothing. *)
Lemma run_enter_views e s :
  (∀ d, n (dep_at (run_enter e s) d) = n (dep_at s d))
  ∧ trace (run_enter e s) = trace s
  ∧ (∀ e' d, e' ∈ members (dep_at (run_enter e s) d) → e' ∈ members (dep_at s d))
  ∧ (∀ e', active (effect_at (run_enter e s) e') = active (effect_at s e')).
Proof.
  unfold run_enter. cbv zeta. set (s4 := set_depth _ _ _).
  assert (Hd4 : ∀ d, dep_at s4 d = dep_at s d) by done.
  assert (He4 : ∀ e', effect_at s4 e'
                      = effect_at (upd_effect e (with_parent (activeEffect s)) s) e') by done.
  assert (Hact4 : ∀ e', active (effect_at s4 e') = active (effect_at s e')).
  { intros e'. rewrite He4. by rewrite (effect_field_upd_effect active). }
  change (effectTrackDepth (set_shouldTrack _ _)) with (effectTrackDepth s).
  unfold maxMarkerBits. case_bool_decide as Hk.
  - assert (Hbit4 : trackOpBit s4 = 2 ^ Z.of_nat (S (effectTrackDepth s))).
    { change (trackOpBit s4) with (js_shl 1 (S (effectTrackDepth s))). by apply js_shl_1. }
    unfold initDepMarkers.
    destruct (init_loop_spec (S (effectTrackDepth s)) (deps (effect_at s4 e)) s4 Hk Hbit4)
      as (Hm' & Hn' & _ & _ & He' & _ & _ & _ & _ & Ht').
    split_and!.
    + intros d. by rewrite Hn', Hd4.
    + by rewrite Ht'.
    + intros e' d. by rewrite Hm', Hd4.
    + intros e'. rewrite (effect_at_heap s4) by done. apply Hact4.
  - destruct (cleanupEffect_spec e s4)
      as (Hmem & _ & Hn' & _ & _ & Hact & _ & _ & _ & _ & _ & Ht).
    split_and!.
    + intros d. by rewrite Hn', Hd4.
    + by rewrite Ht.
    + intros e' d. rewrite Hmem, !Hd4. case_bool_decide; [|done].
      rewrite elem_of_set_delete. tauto.
    + intros e'. by rewrite Hact.
Qed.

(** [run_leave] touches the marker bits of its own level only, records
    nothing and subscribes nothing. *)
Lemma run_leave_views e b s :
  WF s →
  (∀ d j, (j ≤ 30)%nat → j ≠ effectTrackDepth s →
          nbit (run_leave e b s) d j = nbit s d j)
  ∧ trace (run_leave e b s) = trace s
  ∧ (∀ e' d, e' ∈ members (dep_at (run_leave e b s) d) → e' ∈ members (dep_at s d))
  ∧ (∀ e', active (effect_at (run_leave e b s) e') = active (effect_at s e')).
Proof.
  intros [_ Hn Hbit _]. unfold run_leave. cbv zeta. unfold maxMarkerBits.
  set (s1 := if bool_decide (effectTrackDepth s ≤ 30)%nat then finalizeDepMarkers e s else s).
  set (s4 := set_shouldTrack _ _).
  assert (Hd4 : ∀ d, dep_at (upd_effect e (with_parent None) s4) d = dep_at s1 d) by done.
  assert (He4 : ∀ e', effect_at (upd_effect e (with_parent None) s4) e'
                      = effect_at (upd_effect e (with_parent None) s1) e') by done.
  assert (Ht4 : trace (upd_effect e (with_parent None) s4) = trace s1) by done.
  assert (H1 :
    (∀ d j, (j ≤ 30)%nat → j ≠ effectTrackDepth s → nbit s1 d j = nbit s d j)
    ∧ trace s1 = trace s
    ∧ (∀ e' d, e' ∈ members (dep_at s1 d) → e' ∈ members (dep_at s d))
    ∧ (∀ e', active (effect_at s1 e') = active (effect_at s e'))).
  { unfold s1. case_bool_decide as HK; [|by split_and!].
    rewrite js_shl_1 in Hbit by done.
    destruct (finalizeDepMarkers_spec e (effectTrackDepth s) s HK Hbit (Hn e))
      as (_ & Hmem & _ & Hn' & _ & Hact & _ & _ & _ & _ & _ & Ht).
    split_and!; try done.
    - intros d j Hj Hne. rewrite Hn' by done.
      rewrite (bool_decide_eq_false_2 (j = _)) by done.
      by rewrite andb_false_r, andb_true_r.
    - intros e' d. rewrite Hmem. destruct (_ && _); [|done].
      rewrite elem_of_set_delete. tauto. }
  destruct H1 as (Hn1 & Ht1 & Hm1 & Hact1).
  split_and!.
  - intros d j Hj Hne. unfold nbit. rewrite Hd4. by apply Hn1.
  - by rewrite Ht4.
  - intros e' d. rewrite Hd4. apply Hm1.
  - intros e'. rewrite He4. rewrite (effect_field_upd_effect active) by done. apply Hact1.
Qed.

Lemma runs_at_frame s s' e K : frame s s' → runs_at s e K → runs_at s' e K.
Proof.
  intros [Ha _ _ Hst] (l & Hl & Hlev & HK). exists l. rewrite Ha. auto.
Qed.

Lemma runs_at_top s e l K :
  is_stack s (activeEffect s) l → length l = K → runs_at s e K → activeEffect s = Some e.
Proof.
  intros Hst Hlen (l' & Hl' & Hlev & HK).
  assert (l' = l) by (by eapply is_stack_inj). subst l'.
  destruct Hst as [|a l Ha Hst Hnin]; simpl in *; [lia|].
  subst K. rewrite lookup_app_r in Hlev by (rewrite length_rev; lia).
  rewrite length_rev in Hlev. replace (S (length l) - 1 - length l)%nat with 0%nat in Hlev by lia.
  simpl in Hlev. congruence.
Qed.

Lemma runs_at_push s s1 e e' l K :
  is_stack s (activeEffect s) l → is_stack s1 (activeEffect s1) (e' :: l) →
  runs_at s e K → runs_at s1 e K.
Proof.
  intros Hst Hst1 (l' & Hl' & Hlev & HK).
  assert (l' = l) by (by eapply is_stack_inj). subst l'.
  exists (e' :: l). split_and!; [done| |done].
  simpl. rewrite lookup_app_l; [done|]. by eapply lookup_lt_Some.
Qed.

Lemma runs_at_level s e l K :
  is_stack s (activeEffect s) l → runs_at s e K → (K ≤ length l)%nat.
Proof.
  intros Hst (l' & Hl' & Hlev & HK).
  assert (l' = l) by (by eapply is_stack_inj). subst l'.
  apply lookup_lt_Some in Hlev. rewrite length_rev in Hlev. lia.
Qed.

Lemma elem_of_drop_app {A} (x : A) T0 l l' : x ∈ drop T0 l → x ∈ drop T0 (l ++ l').
Proof. rewrite drop_app. rewrite elem_of_app. auto. Qed.

Lemma elem_of_drop_snoc {A} (x : A) T0 l : (T0 ≤ length l)%nat → x ∈ drop T0 (l ++ [x]).
Proof.
  intros Hle. rewrite drop_app. rewrite elem_of_app. right.
  replace (T0 - length l)%nat with 0%nat by lia. simpl. apply list_elem_of_here.
Qed.

Lemma Exec_tracked_since T0 e K s s' :
  Exec s s' → (K ≤ 30)%nat → WF s → runs_at s e K →
  tracked_since T0 e K s → tracked_since T0 e K s'.
Proof.
  intros HE HK. 
  induction HE as [s|s1 s2 s3 H12 IH12 H23 IH23|s s' Hsame|e0 s|e0 s Hact|s|E s HE1 HE2
                  |d0 s|e0 s|e0 s|e0 s|e0 b s s2 Hact Hguard Hin IH];
    intros HWF Hrun [HT HJ].
  - done.
  - destruct (Exec_WF _ _ H12 HWF) as [HWF2 Hf]. apply IH23; [done| |by apply IH12].
    by eapply runs_at_frame.
  - destruct Hsame as (Hd & He & Ha & Hk & Hb & Ht). split; [by rewrite Ht|].
    intros d. unfold nbit. rewrite (dep_at_heap s s') by done. rewrite Ht. apply HJ.
  - split; [rewrite trace_record, length_app; lia|].
    intros d Hd. rewrite trace_record. by apply elem_of_drop_app, HJ.
  - split; [rewrite trace_record, length_app; lia|].
    intros d Hd. rewrite trace_record. by apply elem_of_drop_app, HJ.
  - split; [done|]. intros d. unfold nbit. rewrite dep_at_alloc_dep. apply HJ.
  - done.
  - (* trackEffects *)
    destruct (activeEffect s) as [a|] eqn:Ha;
      [|by rewrite trackEffects_noop by auto].
    destruct (depHeap s !! d0) as [D0|] eqn:HD0;
      [|by rewrite trackEffects_noop by auto].
    pose proof HWF as [_ _ Hbit (l & Hst & Hlen & _)].
    pose proof Hst as Hst'. rewrite Ha in Hst'.
    inversion Hst' as [|a' l' Hla _ _]; subst a' l.
    assert (Hld : (d0 < length (depHeap s))%nat) by (by eapply lookup_lt_Some).
    destruct (trackEffects_spec d0 a s Ha Hla Hld Hbit)
      as (setn & added & Hsetn & _ & _ & _ & _ & _ & Hn' & _ & _ & _ & _ & _ & _ & _ & Ht).
    split; [rewrite Ht, length_app; lia|].
    intros d. unfold nbit. rewrite Hn', Ht.
    destruct (setn && bool_decide (d = d0)) eqn:Hc; [|intros; by apply elem_of_drop_app, HJ].
    apply andb_true_iff in Hc as [-> Hdd]. apply bool_decide_eq_true in Hdd. subst d.
    destruct Hsetn as [Hk30 _]; [done|].
    rewrite js_or_pow2_testbit by lia. intros Hb.
    apply orb_true_iff in Hb as [Hb|Hb]; [by apply elem_of_drop_app, HJ|].
    apply bool_decide_eq_true in Hb. apply Nat2Z.inj in Hb.
    assert (activeEffect s = Some e) as Hae.
    { eapply runs_at_top; [done| |done]. lia. }
    assert (a = e) by congruence. subst a. by apply elem_of_drop_snoc.
  - destruct (cleanupEffect_spec e0 s) as (_ & _ & Hn' & _ & _ & _ & _ & _ & _ & _ & _ & Ht).
    split; [by rewrite Ht|]. intros d. unfold nbit. rewrite Hn', Ht. apply HJ.
  - done.
  - done.
  - (* a nested run *)
    pose proof HWF as [_ _ _ (l & Hst & Hlen & _)].
    pose proof (active_allocated _ _ Hact) as Halloc.
    pose proof (in_parent_chain_false _ _ _ _ _ Hst Hguard) as Hnin.
    destruct (WF_run_enter e0 s l HWF Hst Halloc Hnin)
      as (HWF1 & Hst1 & Ha1 & Hk1 & _).
    destruct (run_enter_views e0 s) as (Hn1 & Ht1 & _ & _).
    assert (Hrun1 : runs_at (record (EvRun e0) (run_enter e0 s)) e K).
    { eapply runs_at_push; [done| |done]. by rewrite Ha1. }
    assert (HJ1 : tracked_since T0 e K (record (EvRun e0) (run_enter e0 s))).
    { split; [rewrite trace_record, length_app, Ht1; lia|].
      intros d. unfold nbit. rewrite dep_at_record, Hn1, trace_record, Ht1.
      intros Hd. by apply elem_of_drop_app, HJ. }
    destruct (IH HWF1 Hrun1 HJ1) as [HT2 HJ2].
    destruct (Exec_WF _ _ Hin HWF1) as [HWF2 [_ Hk2 _ _]].
    destruct (run_leave_views e0 b s2 HWF2) as (Hn3 & Ht3 & _ & _).
    pose proof (runs_at_level _ _ _ _ Hst Hrun) as HKl.
    split; [by rewrite Ht3|].
    intros d. rewrite Ht3, Hn3; [apply HJ2|done|].
    rewrite Hk2, Hk1. lia.
Qed.

Lemma Exec_subscribed_since T0 e P s s' :
  Exec s s' → WF s → subscribed_since T0 e P s → subscribed_since T0 e P s'.
Proof.
  induction 1 as [s|s1 s2 s3 H12 IH12 H23 IH23|s s' Hsame|e0 s|e0 s Hact|s|E s HE1 HE2
                  |d0 s|e0 s|e0 s|e0 s|e0 b s s2 Hact Hguard Hin IH];
    intros HWF [HT HJ].
  - done.
  - destruct (Exec_WF _ _ H12 HWF) as [HWF2 Hf]. apply IH23; [done|by apply IH12].
  - destruct Hsame as (Hd & He & Ha & Hk & Hb & Ht). split; [by rewrite Ht|].
    intros d. rewrite (dep_at_heap s s') by done. rewrite Ht. apply HJ.
  - split; [rewrite trace_record, length_app; lia|].
    intros d Hd. rewrite trace_record.
    destruct (HJ d Hd); [by left|right; by apply elem_of_drop_app].
  - split; [rewrite trace_record, length_app; lia|].
    intros d Hd. rewrite trace_record.
    destruct (HJ d Hd); [by left|right; by apply elem_of_drop_app].
  - split; [done|]. intros d. rewrite dep_at_alloc_dep. apply HJ.
  - done.
  - (* trackEffects *)
    destruct (activeEffect s) as [a|] eqn:Ha;
      [|by rewrite trackEffects_noop by auto].
    destruct (depHeap s !! d0) as [D0|] eqn:HD0;
      [|by rewrite trackEffects_noop by auto].
    pose proof HWF as [_ _ Hbit (l & Hst & Hlen & _)].
    pose proof Hst as Hst'. rewrite Ha in Hst'.
    inversion Hst' as [|a' l' Hla _ _]; subst a' l.
    assert (Hld : (d0 < length (depHeap s))%nat) by (by eapply lookup_lt_Some).
    destruct (trackEffects_spec d0 a s Ha Hla Hld Hbit)
      as (setn & added & _ & _ & _ & Hmem & _ & _ & _ & _ & _ & _ & _ & _ & _ & _ & Ht).
    split; [rewrite Ht, length_app; lia|].
    intros d. rewrite Hmem, Ht.
    destruct (added && bool_decide (d = d0)) eqn:Hc.
    + apply andb_true_iff in Hc as [_ Hdd]. apply bool_decide_eq_true in Hdd. subst d.
      rewrite elem_of_set_add. intros [->|Hin].
      * right. by apply elem_of_drop_snoc.
      * destruct (HJ d0 Hin); [by left|right; by apply elem_of_drop_app].
    + intros Hin. destruct (HJ d Hin); [by left|right; by apply elem_of_drop_app].
  - destruct (cleanupEffect_spec e0 s) as (Hmem & _ & _ & _ & _ & _ & _ & _ & _ & _ & _ & Ht).
    split; [by rewrite Ht|]. intros d. rewrite Hmem, Ht.
    case_bool_decide; [|apply HJ]. rewrite elem_of_set_delete. intros [_ Hin]. by apply HJ.
  - done.
  - done.
  - pose proof HWF as [_ _ _ (l & Hst & Hlen & _)].
    pose proof (active_allocated _ _ Hact) as Halloc.
    pose proof (in_parent_chain_false _ _ _ _ _ Hst Hguard) as Hnin.
    destruct (WF_run_enter e0 s l HWF Hst Halloc Hnin) as (HWF1 & _).
    destruct (run_enter_views e0 s) as (_ & Ht1 & Hm1 & _).
    assert (HJ1 : subscribed_since T0 e P (record (EvRun e0) (run_enter e0 s))).
    { split; [rewrite trace_record, length_app, Ht1; lia|].
      intros d. rewrite dep_at_record, trace_record, Ht1. intros Hd%Hm1.
      destruct (HJ d Hd); [by left|right; by apply elem_of_drop_app]. }
    destruct (IH HWF1 HJ1) as [HT2 HJ2].
    destruct (Exec_WF _ _ Hin HWF1) as [HWF2 _].
    destruct (run_leave_views e0 b s2 HWF2) as (_ & Ht3 & Hm3 & _).
    split; [by rewrite Ht3|]. intros d Hd%Hm3. rewrite Ht3. by apply HJ2.
Qed.

Lemma Exec_trace s s' : Exec s s' → WF s → ∃ evs, trace s' = trace s ++ evs.
Proof.
  induction 1 as [s|s1 s2 s3 H12 IH12 H23 IH23|s s' Hsame|e0 s|e0 s Hact|s|E s HE1 HE2
                  |d0 s|e0 s|e0 s|e0 s|e0 b s s2 Hact Hguard Hin IH]; intros HWF.
  - exists []. by rewrite app_nil_r.
  - destruct (Exec_WF _ _ H12 HWF) as [HWF2 _].
    destruct (IH12 HWF) as [x Hx], (IH23 HWF2) as [y Hy].
    exists (x ++ y). by rewrite Hy, Hx, app_assoc.
  - destruct Hsame as (_ & _ & _ & _ & _ & ->). exists []. by rewrite app_nil_r.
  - by eexists.
  - by eexists.
  - exists []. by rewrite app_nil_r.
  - exists []. by rewrite app_nil_r.
  - destruct (activeEffect s) as [a|] eqn:Ha;
      [|rewrite trackEffects_noop by auto; exists []; by rewrite app_nil_r].
    destruct (depHeap s !! d0) as [D0|] eqn:HD0;
      [|rewrite trackEffects_noop by auto; exists []; by rewrite app_nil_r].
    pose proof HWF as [_ _ Hbit (l & Hst & Hlen & _)].
    rewrite Ha in Hst. inversion Hst as [|a' l' Hla _ _]; subst a' l.
    assert (Hld : (d0 < length (depHeap s))%nat) by (by eapply lookup_lt_Some).
    destruct (trackEffects_spec d0 a s Ha Hla Hld Hbit)
      as (setn & added & _ & _ & _ & _ & _ & _ & _ & _ & _ & _ & _ & _ & _ & _ & Ht).
    by eexists.
  - destruct (cleanupEffect_spec e0 s) as (_ & _ & _ & _ & _ & _ & _ & _ & _ & _ & _ & ->).
    exists []. by rewrite app_nil_r.
  - exists []. by rewrite app_nil_r.
  - exists []. by rewrite app_nil_r.
  - pose proof HWF as [_ _ _ (l & Hst & Hlen & _)].
    pose proof (active_allocated _ _ Hact) as Halloc.
    pose proof (in_parent_chain_false _ _ _ _ _ Hst Hguard) as Hnin.
    destruct (WF_run_enter e0 s l HWF Hst Halloc Hnin) as (HWF1 & _).
    destruct (IH HWF1) as [x Hx]. destruct (run_enter_views e0 s) as (_ & Ht1 & _ & _).
    rewrite trace_record, Ht1 in Hx.
    destruct (Exec_WF _ _ Hin HWF1) as [HWF2 _].
    destruct (run_leave_views e0 b s2 HWF2) as (_ & Ht3 & _ & _).
    exists ([EvRun e0] ++ x). rewrite Ht3, Hx. by rewrite <- app_assoc.
Qed.

Lemma in_parent_chain_complete fuel s p l e :
  is_stack s p l → e ∉ l → (length l ≤ fuel)%nat →
  in_parent_chain fuel s p e = Some false.
Proof.
  intros Hst. revert fuel. induction Hst as [|x l Hx Hst IH Hnin]; intros fuel He Hlen.
  - by destruct fuel.
  - apply not_elem_of_cons in He as [Hne He].
    destruct fuel as [|fuel]; simpl in *; [lia|].
    rewrite bool_decide_eq_false_2 by done. apply IH; [done|lia].
Qed.

Lemma runs_at_enter s e l :
  is_stack s (activeEffect s) (e :: l) → runs_at s e (S (length l)).
Proof.
  intros Hst. exists (e :: l). split_and!; [done| |lia].
  simpl. replace (length l - 0)%nat with (length (rev l)) by (rewrite length_rev; lia).
  apply list_lookup_middle. done.
Qed.

(** When [run] leaves, the effect is no member of a Dep whose new-tracked
    bit of this level is not set. *)
Lemma run_leave_unsubscribes e b s l d :
  WF s → is_stack s (Some e) (e :: l) → activeEffect s = Some e →
  (effectTrackDepth s ≤ 30)%nat → nbit s d (effectTrackDepth s) = false →
  e ∉ members (dep_at (run_leave e b s) d).
Proof.
  intros HWF Hst Ha HK Hnb.
  pose proof HWF as [Hl Hn Hbit (l0 & Hst0 & Hlen & Hm)]. unfold linked in Hl.
  rewrite Ha in Hst0. assert (l0 = e :: l) by (by eapply is_stack_inj). subst l0.
  simpl in Hm. destruct Hm as [Hme _]. simpl in Hlen. rewrite Hlen in Hme.
  unfold run_leave. cbv zeta. unfold maxMarkerBits.
  rewrite bool_decide_eq_true_2 by done.
  change (dep_at (upd_effect _ _ _) d) with (dep_at (finalizeDepMarkers e s) d).
  rewrite js_shl_1 in Hbit by done.
  destruct (finalizeDepMarkers_spec e (effectTrackDepth s) s HK Hbit (Hn e))
    as (_ & Hmem & _).
  rewrite Hmem. case_bool_decide as Hin; simpl.
  - unfold dropped. rewrite Hnb. specialize (Hme HK d Hin). rewrite Hnb in Hme.
    rewrite orb_false_r in Hme. rewrite Hme. simpl.
    rewrite elem_of_set_delete. tauto.
  - by rewrite Hl.
Qed.

(** X25.  Incremental re-tracking, where the markers are clean: when
    [run] of an active effect [e] that is not already running returns, at
    a level that has marker bits, from a well-formed graph in which no Dep
    carries a new-tracked bit of the level the pass runs at, [e] is a
    member of no Dep that it did not read ([trackEffects]) in this pass,
    whatever [fn] did and whichever Deps [e] was subscribed to before; a
    later write to such a Dep hands [triggerEffects] a list without [e]. *)
Theorem run_drops_unread_deps fuel e s v s' :
  WF s → active (effect_at s e) = true → (¬ running s e) →
  (effectTrackDepth s < 30)%nat →
  (∀ d, nbit s d (S (effectTrackDepth s)) = false) →
  run_effect fuel e s = Done v s' →
  ∀ d, EvTrack e d ∉ drop (length (trace s)) (trace s') →
       (e ∉ members (dep_at s' d)) ∧ (d ∉ deps (effect_at s' e)).
Proof.
  intros HWF Hact Hnrun Hdepth Hclean Hrun d Hnot.
  pose proof HWF as [_ _ _ (l & Hst & Hlen & _)].
  assert (Hnin : e ∉ l) by (intros Hin; apply Hnrun; by exists l).
  pose proof (active_allocated _ _ Hact) as Halloc.
  unfold run_effect, run in Hrun. rewrite Hact in Hrun. simpl in Hrun.
  rewrite (in_parent_chain_complete _ _ _ l) in Hrun;
    [|done|done|by eapply is_stack_length].
  inv_bind Hrun. rename s0 into s2. apply exec_Exec in Hrun0.
  destruct (WF_run_enter e s l HWF Hst Halloc Hnin)
    as (HWF1 & Hst1 & Ha1 & Hk1 & _).
  destruct (run_enter_views e s) as (Hn1 & Ht1 & _ & _).
  set (s1 := record (EvRun e) (run_enter e s)) in *.
  set (T0 := length (trace s)) in *.
  assert (HJ1 : tracked_since T0 e (S (effectTrackDepth s)) s1).
  { split; [unfold s1; rewrite trace_record, length_app, Ht1; lia|].
    intros d'. unfold s1, nbit. rewrite dep_at_record, Hn1.
    fold (nbit s d' (S (effectTrackDepth s))). by rewrite Hclean. }
  assert (Hrun1 : runs_at s1 e (S (effectTrackDepth s))).
  { rewrite <- Hlen. apply runs_at_enter. by rewrite Ha1. }
  assert (HK : (S (effectTrackDepth s) ≤ 30)%nat) by lia.
  destruct (Exec_tracked_since T0 e _ _ _ Hrun0 HK HWF1 Hrun1 HJ1) as [HT2 HJ2].
  destruct (Exec_WF _ _ Hrun0 HWF1) as [HWF2 [Ha2 Hk2 _ Hst2]].
  rewrite Ha1 in Ha2, Hst2. specialize (Hst2 _ Hst1).
  destruct (WF_run_leave e (shouldTrack s) s2 l HWF2 Hst2 Ha2)
    as (HWF3 & Hst3 & Ha3 & Hk3 & _).
  destruct (run_leave_views e (shouldTrack s) s2 HWF2) as (_ & Ht3 & _ & _).
  set (s3 := run_leave e (shouldTrack s) s2) in *.
  assert (Hfinal : ∀ s4, Exec s3 s4 →
            (∀ d', e ∈ members (dep_at s4 d') → e ∈ members (dep_at s3 d')
                   ∨ EvTrack e d' ∈ drop T0 (trace s4))).
  { intros s4 H34 d'.
    assert (Hs : subscribed_since T0 e (λ d', e ∈ members (dep_at s3 d')) s3).
    { split; [by rewrite Ht3|]. auto. }
    destruct (Exec_subscribed_since T0 e _ _ _ H34 HWF3 Hs) as [_ Hs4]. apply Hs4. }
  assert (Hend : ∀ s4, Exec s3 s4 → s4 = s' →
            (e ∉ members (dep_at s' d)) ∧ (d ∉ deps (effect_at s' e))).
  { intros s4 H34 ->.
    destruct (Exec_WF _ _ H34 HWF3) as [[Hl4 _ _ _] _].
    assert (e ∉ members (dep_at s' d)) as Hm.
    { intros Hin. destruct (Hfinal s' H34 d Hin) as [Hin3|Hev]; [|done].
      revert Hin3. apply run_leave_unsubscribes with (l := l); try done; [lia|].
      destruct (nbit s2 d (effectTrackDepth s2)) eqn:Hnb; [|done].
      rewrite Hk2, Hk1 in Hnb. apply HJ2 in Hnb.
      destruct (Exec_trace _ _ H34 HWF3) as [evs Hevs].
      exfalso. apply Hnot. rewrite Hevs, Ht3. by apply elem_of_drop_app. }
    split; [done|]. by rewrite <- (Hl4 e d). }
  destruct (deferStop (effect_at s3 e)).
  - inv_bind Hrun. inv_done. eapply Hend; [|done].
    eapply stop_Exec; [|done]. apply exec_Exec.
  - inv_done. eapply Hend; [apply Exec_refl|done].
Qed.

(** * Scenarios *)

Example dynamic_deps_log :
  out (final_of (exec 30 dynamic_deps (initial_state false))) = [VNum 1; VNum 2].
Proof. vm_compute. reflexivity. Qed.

Lemma not_running_idle s e : activeEffect s = None → ¬ running s e.
Proof.
  intros Ha (l & Hst & Hin). rewrite Ha in Hst. inversion Hst; subst.
  by apply elem_of_nil in Hin.
Qed.

Lemma run_drops_unread_deps_witness :
  (0%nat ∉ members (dep_at dynamic_deps_after_rerun 1))
  ∧ (1%nat ∉ deps (effect_at dynamic_deps_after_rerun 0)).
Proof.
  apply (run_drops_unread_deps 20 0 dynamic_deps_before_rerun VUndefined
           dynamic_deps_after_rerun).
  - apply (exec_WF 20 dynamic_deps_raw_write (initial_state false) VUndefined);
      [apply WF_initial|].
    vm_compute. reflexivity.
  - vm_compute. reflexivity.
  - apply not_running_idle. vm_compute. reflexivity.
  - vm_compute. lia.
  - intros d. do 4 (destruct d as [|d]; [vm_compute; reflexivity|]).
    vm_compute. reflexivity.
  - vm_compute. reflexivity.
  - apply (bool_decide_unpack _). vm_compute. reflexivity.
Defined.

(** * C2: membership is bidirectional *)

(** C2.  In every state in which a client program can leave the library,
    started from the initial module state, no effect is active and, for
    every Dep [d] and every effect [e], [e] is a member of [d] if and only
    if [d] is listed in [e.deps]. *)
Theorem membership_is_bidirectional isDev fuel p v s :
  exec fuel p (initial_state isDev) = Done v s →
  activeEffect s = None ∧ effectTrackDepth s = 0%nat
  ∧ ∀ e d, e ∈ members (dep_at s d) ↔ d ∈ deps (effect_at s e).
Proof.
  intros Hexec.
  destruct (exec_WF _ _ _ _ _ (WF_initial isDev) Hexec) as [[Hl _ _ _] [Ha Hk _ _]].
  split_and!; [done|done|apply Hl].
Qed.

Lemma membership_is_bidirectional_witness :
  activeEffect (final_of (exec 30 dynamic_deps (initial_state false))) = None
  ∧ effectTrackDepth (final_of (exec 30 dynamic_deps (initial_state false))) = 0%nat
  ∧ ∀ e d, e ∈ members (dep_at (final_of (exec 30 dynamic_deps (initial_state false))) d)
           ↔ d ∈ deps (effect_at (final_of (exec 30 dynamic_deps (initial_state false))) e).
Proof.
  apply (membership_is_bidirectional false 30 dynamic_deps VUndefined).
  vm_compute. reflexivity.
Defined.

(** * What no run changes in an effect *)

Lemma keeps_refl s : keeps s s.
Proof. split; [lia|]. intros e _. by split. Qed.

Lemma keeps_trans s1 s2 s3 : keeps s1 s2 → keeps s2 s3 → keeps s1 s3.
Proof.
  intros [Hl1 H1] [Hl2 H2]. split; [lia|]. intros e He.
  destruct (H1 e He) as [Hs1 Ha1]. destruct (H2 e ltac:(lia)) as [Hs2 Ha2].
  split; [congruence|auto].
Qed.

Lemma keeps_heap s s' : effectHeap s' = effectHeap s → keeps s s'.
Proof.
  intros H. split; [by rewrite H|]. intros e _. by rewrite (effect_at_heap s s').
Qed.

Lemma keeps_upd_effect e f s :
  (∀ E, static (f E) = static E) →
  (∀ E, active (f E) = true → active E = true) →
  keeps s (upd_effect e f s).
Proof.
  intros Hs Ha. split; [by rewrite length_effectHeap_upd_effect|]. intros e' _. split.
  - by rewrite (effect_field_upd_effect static).
  - destruct (decide (e' = e)) as [->|Hne]; [|by rewrite effect_at_upd_effect_ne].
    destruct (decide (e < length (effectHeap s))%nat).
    + rewrite effect_at_upd_effect_eq by done. apply Ha.
    + unfold effect_at at 1. rewrite upd_effect_out by lia. done.
Qed.

Lemma finalize_loop_effectHeap e l : ∀ kept s,
  effectHeap (snd (finalize_loop e l kept s)) = effectHeap s.
Proof.
  induction l as [|d l IH]; intros kept s; simpl; [done|].
  destruct (_ && _); by rewrite IH.
Qed.

Lemma keeps_trackEffects d s : keeps s (trackEffects d s).
Proof.
  unfold trackEffects. destruct (activeEffect s) as [a|]; [|apply keeps_refl].
  destruct (depHeap s !! d); [|apply keeps_refl].
  repeat (case_bool_decide || destruct (negb _) || destruct (newTracked _ _)
          || destruct (wasTracked _ _));
    try (by apply keeps_heap);
    (eapply keeps_trans; [|by apply keeps_upd_effect]); by apply keeps_heap.
Qed.

Lemma keeps_cleanupEffect e s : keeps s (cleanupEffect e s).
Proof.
  unfold cleanupEffect.
  destruct (cleanup_loop_spec e (deps (effect_at s e)) s) as (_ & _ & _ & He & _).
  eapply keeps_trans; [by apply keeps_heap|]. by apply keeps_upd_effect.
Qed.

Lemma keeps_run_enter e s : keeps s (run_enter e s).
Proof.
  unfold run_enter. cbv zeta.
  eapply keeps_trans; [apply (keeps_upd_effect e (with_parent (activeEffect s)))|]; try done.
  set (s1 := upd_effect _ _ s). set (s4 := set_depth _ _ _).
  eapply (keeps_trans _ s4); [by apply keeps_heap|].
  case_bool_decide.
  - apply keeps_heap. unfold initDepMarkers. generalize (deps (effect_at s4 e)).
    intros l. generalize s4. induction l as [|d l IH]; intros s5; simpl; [done|].
    by rewrite IH.
  - apply keeps_cleanupEffect.
Qed.

Lemma keeps_run_leave e b s : keeps s (run_leave e b s).
Proof.
  unfold run_leave. cbv zeta.
  set (s1 := if bool_decide _ then finalizeDepMarkers e s else s).
  assert (keeps s s1) as H1.
  { unfold s1. case_bool_decide; [|apply keeps_refl]. unfold finalizeDepMarkers.
    pose proof (finalize_loop_effectHeap e (deps (effect_at s e)) [] s) as He.
    destruct (finalize_loop _ _ _ _) as [kept s']. simpl in He.
    eapply keeps_trans; [by apply keeps_heap|]. by apply keeps_upd_effect. }
  eapply keeps_trans; [done|]. set (s4 := set_shouldTrack _ _).
  eapply (keeps_trans _ s4); [by apply keeps_heap|]. by apply keeps_upd_effect.
Qed.

Lemma Exec_keeps s s' : Exec s s' → keeps s s'.
Proof.
  induction 1 as [s|s1 s2 s3 H12 IH12 H23 IH23|s s' Hsame|e0 s|e0 s Hact|s|E s HE1 HE2
                  |d0 s|e0 s|e0 s|e0 s|e0 b s s2 Hact Hguard Hin IH].
  - apply keeps_refl.
  - by eapply keeps_trans.
  - destruct Hsame as (_ & He & _). by apply keeps_heap.
  - by apply keeps_heap.
  - by apply keeps_heap.
  - by apply keeps_heap.
  - split; [simpl; rewrite length_app; lia|]. intros e He.
    rewrite effect_at_alloc by lia. done.
  - apply keeps_trackEffects.
  - apply keeps_cleanupEffect.
  - by apply keeps_upd_effect.
  - by apply keeps_upd_effect.
  - eapply keeps_trans; [apply (keeps_run_enter e0)|].
    eapply keeps_trans; [|apply keeps_run_leave].
    eapply keeps_trans; [|done]. by apply keeps_heap.
Qed.

(** * C3: the order in which [triggerEffects] fires *)

Lemma fire_in_order_app fire l1 l2 s :
  fire_in_order fire (l1 ++ l2) s
  = bind (fire_in_order fire l1 s) (λ _ s1, fire_in_order fire l2 s1).
Proof.
  revert s. induction l1 as [|e l1 IH]; intros s; simpl; [done|].
  destruct (fire e s) as [[] s1|f]; simpl; [apply IH|done].
Qed.

Lemma owns_computed_keeps s0 s e :
  keeps s0 s → (e < length (effectHeap s0))%nat → owns_computed s e = owns_computed s0 e.
Proof.
  intros [_ Hk] He. destruct (Hk e He) as [Hs _]. unfold owns_computed.
  unfold static in Hs. injection Hs as -> _ _ _ _. done.
Qed.

Lemma fire_loop_in_order (fire : nat → state → res unit) want s0 effects :
  (∀ e s u s', fire e s = Done u s' → keeps s s') →
  Forall (λ e, (e < length (effectHeap s0))%nat) effects →
  ∀ s, keeps s0 s →
  fire_loop fire want effects s
  = fire_in_order fire (filter (λ e, owns_computed s0 e = want) effects) s.
Proof.
  intros Hfire. induction effects as [|e rest IH]; intros Hall s Hk; simpl; [done|].
  apply Forall_cons in Hall as [He Hall]. rewrite filter_cons.
  fold (owns_computed s e). rewrite (owns_computed_keeps s0 s e) by done.
  case_bool_decide as Hw.
  - rewrite decide_True by done. simpl.
    destruct (fire e s) as [[] s1|f] eqn:Hf; simpl; [|done].
    apply IH; [done|]. eapply keeps_trans; [done|]. by eapply Hfire.
  - rewrite decide_False by done. by apply IH.
Qed.

Lemma fire_in_order_keeps (fire : nat → state → res unit) effects :
  (∀ e s u s', fire e s = Done u s' → keeps s s') →
  ∀ s u s', fire_in_order fire effects s = Done u s' → keeps s s'.
Proof.
  intros Hfire. induction effects as [|e rest IH]; simpl; intros s u s' H.
  - inv_done. apply keeps_refl.
  - inv_bind H. eapply keeps_trans; eauto.
Qed.

(** C3.  One call of [triggerEffects] on the effects [effects] (in the
    iteration order of the Dep, whatever it is) does exactly what firing
    them one by one does in this order: first those that own a computed,
    then those that do not. *)
Theorem triggerEffects_fires_computed_first fuel effects s :
  Forall (λ e, (e < length (effectHeap s))%nat) effects →
  fire_effects fuel effects s
  = fire_in_order (fire_effect fuel)
      (filter (λ e, owns_computed s e = true) effects
       ++ filter (λ e, owns_computed s e = false) effects) s.
Proof.
  intros Hall.
  assert (Hfire : ∀ e s u s', fire_effect fuel e s = Done u s' → keeps s s').
  { intros e s1 u s2 H. apply Exec_keeps. eapply triggerEffect_Exec; [|done].
    apply exec_Exec. }
  unfold fire_effects, triggerEffects, triggerEffects_with.
  fold (fire_effect fuel). rewrite fire_in_order_app.
  rewrite (fire_loop_in_order _ true s) by (done || apply keeps_refl).
  destruct (fire_in_order _ _ s) as [[] s1|f] eqn:H1; simpl; [|done].
  apply fire_loop_in_order; [done|done|]. by eapply fire_in_order_keeps.
Qed.

Example plain_then_computed_members :
  members (dep_at plain_then_computed_state 0) = [0; 1]%nat
  ∧ owns_computed plain_then_computed_state 0 = false
  ∧ owns_computed plain_then_computed_state 1 = true.
Proof. vm_compute. done. Qed.

Lemma triggerEffects_fires_computed_first_witness :
  fire_effects 20 [0; 1]%nat plain_then_computed_state
  = fire_in_order (fire_effect 20) [1; 0]%nat plain_then_computed_state.
Proof.
  apply (triggerEffects_fires_computed_first 20 [0; 1]%nat plain_then_computed_state).
  repeat constructor; vm_compute; lia.
Defined.

(** * C4: an effect does not re-enter itself *)

(** C4, as the code has it.  An effect [e] that is running and has not been
    stopped does not run again: [run] returns at once, leaving the state as
    it is, so that [fn] is not called.  And [triggerEffect] leaves the
    active effect alone, neither recording a call nor changing the state,
    unless its [allowRecurse] is set. *)
Theorem running_effect_is_not_reentered fuel e s :
  WF s →
  (running s e → active (effect_at s e) = true →
   run_effect fuel e s = Done VUndefined s)
  ∧ (activeEffect s = Some e → allowRecurse (effect_at s e) = false →
     fire_effect fuel e s = Done tt s).
Proof.
  intros HWF. split.
  - intros (l & Hst & Hin) Hact. unfold run_effect, run. rewrite Hact. simpl.
    rewrite (in_parent_chain_true _ _ _ l); [done|done|done|].
    pose proof (is_stack_length _ _ _ Hst). lia.
  - intros Ha Hrec. unfold fire_effect, triggerEffect. rewrite Ha, Hrec.
    by rewrite bool_decide_eq_true_2.
Qed.

Lemma WF_two_lazy_effects :
  WF (final_of (exec 5 two_lazy_effects (initial_state false))).
Proof.
  apply (exec_WF 5 two_lazy_effects (initial_state false) VUndefined);
    [apply WF_initial|]. vm_compute. reflexivity.
Qed.

Lemma WF_record ev s : WF (record ev s) → WF s.
Proof.
  intros H. apply (WF_ext (record ev s) s); done.
Qed.

Lemma WF_outer_running : WF outer_running ∧ is_stack outer_running (Some 0%nat) [0%nat].
Proof.
  destruct (WF_run_enter 0 _ [] WF_two_lazy_effects) as (HWF & Hst & _).
  - vm_compute. constructor.
  - vm_compute. lia.
  - apply not_elem_of_nil.
  - split; [by eapply WF_record|].
    eapply is_stack_ext; [done|done|done].
Qed.

Lemma WF_inner_running :
  WF inner_running ∧ is_stack inner_running (Some 1%nat) [1; 0]%nat.
Proof.
  destruct WF_outer_running as [HWF0 Hst0].
  destruct (WF_run_enter 1 outer_running [0%nat] HWF0) as (HWF & Hst & _).
  - exact Hst0.
  - vm_compute. lia.
  - apply (bool_decide_unpack _). vm_compute. reflexivity.
  - split; [by eapply WF_record|].
    eapply is_stack_ext; [done|done|done].
Qed.

Lemma WF_outer_stopped_while_running :
  WF outer_stopped_while_running
  ∧ is_stack outer_stopped_while_running (Some 1%nat) [1; 0]%nat.
Proof.
  destruct WF_inner_running as [HWF Hst].
  assert (Hstop : stop_effect 5 0 inner_running = Done tt outer_stopped_while_running)
    by (vm_compute; reflexivity).
  assert (Exec inner_running outer_stopped_while_running) as HE.
  { eapply stop_Exec; [|exact Hstop]. apply exec_Exec. }
  destruct (Exec_WF _ _ HE HWF) as [HWF' [Ha _ _ Hfr]].
  split; [done|]. apply Hfr. exact Hst.
Qed.

Lemma running_effect_is_not_reentered_witness :
  run_effect 5 0 outer_running = Done VUndefined outer_running
  ∧ fire_effect 5 0 outer_running = Done tt outer_running.
Proof.
  destruct (running_effect_is_not_reentered 5 0 outer_running (proj1 WF_outer_running))
    as [Hrun Hfire].
  split.
  - apply Hrun; [|vm_compute; reflexivity].
    exists [0%nat]. split; [apply WF_outer_running|apply list_elem_of_here].
  - apply Hfire; vm_compute; reflexivity.
Defined.

(** C4 as stated fails for an effect that was stopped while it runs: it is
    in the parent chain of the active effect, and [run] calls its [fn]
    again. *)
Lemma stopped_effect_is_reentered :
  WF outer_stopped_while_running
  ∧ running outer_stopped_while_running 0
  ∧ ∃ s', run_effect 5 0 outer_stopped_while_running = Done VUndefined s'
          ∧ trace s' = trace outer_stopped_while_running ++ [EvRun 0]
          ∧ out s' = out outer_stopped_while_running ++ [VStr "fn"].
Proof.
  destruct WF_outer_stopped_while_running as [HWF Hst].
  split_and!; [done| |].
  - exists [1; 0]%nat. split; [exact Hst|]. apply (bool_decide_unpack _). vm_compute. reflexivity.
  - eexists. split_and!; [vm_compute; reflexivity| |]; vm_compute; reflexivity.
Qed.

Example stop_then_rerun_log :
  out (final_of (exec 30 stop_then_rerun (initial_state false))) = [VStr "fn"; VStr "fn"]
  ∧ filter (λ ev, ev = EvRun 0 ∨ ev = EvRun 1)
      (trace (final_of (exec 30 stop_then_rerun (initial_state false))))
    = [EvRun 0; EvRun 1; EvRun 0].
Proof. vm_compute. done. Qed.

(** * Readonly proxies *)

Lemma warned_refl s : warned s s.
Proof. by destruct s. Qed.

Lemma warned_warn msg s : warned s (warn msg s).
Proof. by destruct s. Qed.

Lemma warned_graph s s' :
  warned s s' →
  objHeap s' = objHeap s ∧ targetMap s' = targetMap s ∧ depHeap s' = depHeap s
  ∧ effectHeap s' = effectHeap s ∧ trace s' = trace s.
Proof. intros ->. by destruct s. Qed.

(** C8: on a readonly proxy (deep or shallow) the [set] trap and the
    [deleteProperty] trap, called directly or through an assignment or a
    [delete] on the proxy, return [true]; the state they leave differs from
    the one they found in the warnings only, so the target, the registry of
    Deps and the record of triggered effects are as before; a production
    build changes nothing at all and a development build writes exactly
    one warning. *)
Theorem readonly_writes_are_noops fuel kind target k v s :
  kindReadonly kind = true →
  ∃ s1 s2,
    (proxy_set (exec fuel) kind target k v s = Done true s1
     ∧ set_property (exec fuel) (VProxy kind target) k v s = Done true s1)
    ∧ (proxy_deleteProperty (exec fuel) kind target k s = Done true s2
       ∧ delete_property (exec fuel) (VProxy kind target) k s = Done true s2)
    ∧ (warned s s1 ∧ warned s s2)
    ∧ (objHeap s1 = objHeap s ∧ objHeap s2 = objHeap s)
    ∧ (targetMap s1 = targetMap s ∧ targetMap s2 = targetMap s)
    ∧ (trace s1 = trace s ∧ trace s2 = trace s)
    ∧ (dev s = false → s1 = s ∧ s2 = s)
    ∧ (dev s = true →
       length (warnings s1) = S (length (warnings s))
       ∧ length (warnings s2) = S (length (warnings s))).
Proof.
  intros Hro.
  assert (Hset : proxy_set (exec fuel) kind target k v s = readonly_set target k s)
    by (by destruct kind).
  assert (Hdel : proxy_deleteProperty (exec fuel) kind target k s
                 = readonly_deleteProperty target k s) by (by destruct kind).
  unfold readonly_set in Hset. unfold readonly_deleteProperty in Hdel.
  eexists _, _. split; [split; [exact Hset|exact Hset]|].
  split; [split; [exact Hdel|exact Hdel]|].
  destruct (dev s) eqn:Hdev.
  - pose proof (warned_warn ("Set operation on key " ++ dquote ++ key_to_string k
                             ++ dquote ++ " failed: target is readonly.") s) as W1.
    pose proof (warned_warn ("Delete operation on key " ++ dquote ++ key_to_string k
                             ++ dquote ++ " failed: target is readonly.") s) as W2.
    destruct (warned_graph _ _ W1) as (? & ? & ? & ? & ?).
    destruct (warned_graph _ _ W2) as (? & ? & ? & ? & ?).
    repeat split; try done.
    all: unfold warn; destruct s; simpl; rewrite length_app; simpl; lia.
  - pose proof (warned_refl s). repeat split; done.
Qed.

Lemma readonly_writes_are_noops_witness :
  ∃ s1 s2,
    (proxy_set (exec 3) Readonly 0 (KStr "0") (VNum 8) readonly_array_state = Done true s1
     ∧ set_property (exec 3) (VProxy Readonly 0) (KStr "0") (VNum 8) readonly_array_state
       = Done true s1)
    ∧ (proxy_deleteProperty (exec 3) Readonly 0 (KStr "0") readonly_array_state = Done true s2
       ∧ delete_property (exec 3) (VProxy Readonly 0) (KStr "0") readonly_array_state
         = Done true s2)
    ∧ (warned readonly_array_state s1 ∧ warned readonly_array_state s2)
    ∧ (objHeap s1 = objHeap readonly_array_state
       ∧ objHeap s2 = objHeap readonly_array_state)
    ∧ (targetMap s1 = targetMap readonly_array_state
       ∧ targetMap s2 = targetMap readonly_array_state)
    ∧ (trace s1 = trace readonly_array_state ∧ trace s2 = trace readonly_array_state)
    ∧ (dev readonly_array_state = false
       → s1 = readonly_array_state ∧ s2 = readonly_array_state)
    ∧ (dev readonly_array_state = true →
       length (warnings s1) = S (length (warnings readonly_array_state))
       ∧ length (warnings s2) = S (length (warnings readonly_array_state))).
Proof.
  apply (readonly_writes_are_noops 3 Readonly 0 (KStr "0") (VNum 8) readonly_array_state).
  reflexivity.
Defined.

(** The same assignment on the reactive proxy of the array does write. *)
Example reactive_write_mutates :
  ∃ s1, set_property (exec 3) (VProxy Reactive 0) (KStr "0") (VNum 8) readonly_array_state
        = Done true s1
        ∧ raw_get s1 0 (KStr "0") = VNum 8
        ∧ raw_get readonly_array_state 0 (KStr "0") = VNum 7.
Proof. eexists. repeat split; vm_compute; reflexivity. Qed.

(** * [proxyRefs] *)

(** C10: [proxyRefs] returns a reactive object itself and leaves the state
    as it is; an object that is not reactive gets a new ref-unwrapping
    proxy, distinct from the object and from every such proxy made before,
    whose [get] trap reads the object and unwraps a ref found there. *)
Theorem proxyRefs_returns_reactive_objects x s :
  (isReactive x = true → proxyRefs x s = Done x s)
  ∧ (isReactive x = false → isObject x = true →
     ∃ w s',
       proxyRefs x s = Done w s'
       ∧ w = VUnwrapProxy (proxySerial s) x ∧ w ≠ x
       ∧ proxySerial s' = S (proxySerial s)
       ∧ ∀ call k, get_property call w k s'
                   = bind (Reflect_get call x k w s') (unref call)).
Proof.
  unfold proxyRefs. split.
  - by intros ->.
  - intros -> ->. eexists _, _. split; [done|]. split; [done|].
    split; [|split; [by destruct s|done]].
    intros Heq. induction x; try discriminate.
    injection Heq as Hserial Hx. apply IHx. by rewrite Hserial.
Qed.

Lemma proxyRefs_returns_reactive_objects_witness :
  proxyRefs (VProxy Reactive 0) readonly_array_state
  = Done (VProxy Reactive 0) readonly_array_state
  ∧ ∃ w s',
      proxyRefs (VObject 0) readonly_array_state = Done w s'
      ∧ w = VUnwrapProxy (proxySerial readonly_array_state) (VObject 0) ∧ w ≠ VObject 0
      ∧ proxySerial s' = S (proxySerial readonly_array_state)
      ∧ ∀ call k, get_property call w k s'
                  = bind (Reflect_get call (VObject 0) k w s') (unref call).
Proof.
  split.
  - apply (proj1 (proxyRefs_returns_reactive_objects (VProxy Reactive 0) readonly_array_state)).
    reflexivity.
  - apply (proj2 (proxyRefs_returns_reactive_objects (VObject 0) readonly_array_state));
      reflexivity.
Defined.

(** A readonly proxy is not reactive, so it is wrapped. *)
Example proxyRefs_wraps_readonly :
  proxyRefs (VProxy Readonly 0) readonly_array_state
  = Done (VUnwrapProxy 0 (VProxy Readonly 0))
         (set_proxySerial 1 readonly_array_state).
Proof. reflexivity. Qed.

(** * [trigger] on the [length] of an array *)

(** ** [ToNumber] on the numeral of an integer *)

Lemma digit_val_decimal a d : digit_val a = Some d → digit_in 10 a = Some d.
Proof.
  unfold digit_val, digit_in. cbv zeta. case_bool_decide as Hc; [|done].
  intros [= <-]. rewrite bool_decide_eq_true_2 by lia. done.
Qed.

Lemma digit_val_ascii a d :
  digit_val a = Some d → (nat_of_ascii a < 128)%nat ∧ is_white_space a = false.
Proof.
  unfold digit_val, is_white_space. cbv zeta. case_bool_decide as Hc; [|done].
  intros _. split; [lia|]. apply bool_decide_eq_false_2.
  rewrite !elem_of_cons, elem_of_nil. lia.
Qed.

Lemma digit_val_differs a d c : digit_val a = Some d → digit_val c = None → a ≠ c.
Proof. intros Ha Hc ->. congruence. Qed.

Lemma digits_val_nonneg s : ∀ acc v, digits_val s acc = Some v → 0 ≤ acc → 0 ≤ v.
Proof.
  induction s as [|a s IH]; simpl; intros acc v H Hacc; [by simplify_eq|].
  destruct (digit_val a) as [d|] eqn:Hd; [|done].
  apply (IH _ _ H). unfold digit_val in Hd. cbv zeta in Hd.
  case_bool_decide; simplify_eq. lia.
Qed.

Lemma digits_val_digits s : ∀ acc v,
  digits_val s acc = Some v →
  Forall (λ a, is_Some (digit_val a)) (list_ascii_of_string s).
Proof.
  induction s as [|a s IH]; simpl; intros acc v H; [constructor|].
  destruct (digit_val a) as [d|] eqn:Hd; [|done].
  constructor; [by rewrite Hd|by eapply IH].
Qed.

Lemma span_digits_digits_val s : ∀ acc count v,
  digits_val s acc = Some v →
  span_digits 10 (list_ascii_of_string s) acc count
  = (v, (count + String.length s)%nat, []).
Proof.
  induction s as [|a s IH]; simpl; intros acc count v H.
  - simplify_eq. by rewrite Nat.add_0_r.
  - destruct (digit_val a) as [d|] eqn:Hd; [|done].
    rewrite (digit_val_decimal _ _ Hd), (IH _ (S count) _ H). f_equal. f_equal. lia.
Qed.

(** A numeral has no white space around it. *)
Lemma trim_digits l :
  Forall (λ a, is_Some (digit_val a)) l → trim l = l.
Proof.
  intros Hl. unfold trim.
  assert (Hs : ∀ l', Forall (λ a, is_Some (digit_val a)) l' → trim_start l' = l').
  { intros [|a l'] H; [done|]. apply Forall_cons in H as [[d Hd] _]. simpl.
    by rewrite (proj2 (digit_val_ascii _ _ Hd)). }
  rewrite (Hs l Hl), (Hs (rev l)) by (by apply List.Forall_rev).
  apply rev_involutive.
Qed.

Lemma strip_zeros_bound fuel : ∀ m, 0 ≤ m → 0 ≤ strip_zeros fuel m ≤ m.
Proof.
  induction fuel as [|fuel IH]; simpl; intros m Hm; [lia|].
  destruct (_ && _); [|lia].
  assert (0 ≤ m `div` 10 ≤ m).
  { split; [by apply Z.div_pos|]. apply Z.div_le_upper_bound; lia. }
  specialize (IH (m `div` 10)). lia.
Qed.

Lemma count_digits_bound (k : nat) : ∀ fuel m,
  0 ≤ m < 10 ^ Z.of_nat k → (count_digits fuel m ≤ k)%nat.
Proof.
  induction k as [|k IH]; intros [|fuel] m Hm; simpl; try lia.
  - rewrite bool_decide_eq_true_2; [lia|]. change (10 ^ Z.of_nat 0) with 1 in Hm. lia.
  - case_bool_decide; [lia|]. apply le_n_S, IH.
    rewrite Nat2Z.inj_succ, Z.pow_succ_r in Hm by lia.
    split; [apply Z.div_pos; lia|]. apply Z.div_lt_upper_bound; lia.
Qed.

(** An integer of at most 53 bits is a double: it is compared as it
    is. *)
Lemma round_to_double_integer i z :
  0 ≤ i < 2 ^ 53 → double_ge (round_to_double false i 1) z = bool_decide (z ≤ i).
Proof.
  intros Hi. unfold round_to_double. case_bool_decide as H0.
  - subst i. simpl. f_equal.
  - assert (Hpos : 0 < i) by lia.
    pose proof (Z.log2_spec i Hpos) as [Hlo Hhi].
    pose proof (Z.log2_nonneg i) as Hnn.
    assert (He : Z.log2 i < 53).
    { apply Z.log2_lt_pow2; lia. }
    assert (Hexp : binary_exponent i 1 = Z.log2 i).
    { unfold binary_exponent, below_pow2. change (Z.log2 1) with 0.
      rewrite Z.sub_0_r, bool_decide_eq_true_2 by done.
      rewrite bool_decide_eq_false_2 by lia. done. }
    rewrite Hexp. cbv zeta.
    assert (Hround : ∀ n, round_half_even n 1 = n).
    { intros n. unfold round_half_even. cbv zeta.
      rewrite Z.div_1_r, Z.mod_1_r. by rewrite bool_decide_eq_true_2 by lia. }
    rewrite Z.max_l by lia.
    destruct (decide (0 ≤ Z.log2 i - 52)) as [Hge|Hlt].
    + assert (Z.log2 i = 52) as Heq by lia. rewrite Heq. simpl.
      change (1 * 2 ^ 0) with 1. rewrite Hround.
      rewrite (bool_decide_eq_false_2 (2 ^ 1024 ≤ i * 2 ^ 0)).
      * simpl. by rewrite Z.mul_1_r.
      * rewrite Z.mul_1_r. assert (2 ^ 53 < 2 ^ 1024) by done. lia.
    + rewrite (bool_decide_eq_false_2 (0 ≤ Z.log2 i - 52)) by done. simpl.
      rewrite Hround. rewrite (bool_decide_eq_false_2 (0 ≤ Z.log2 i - 52)) by done.
      set (p := 2 ^ (- (Z.log2 i - 52))).
      assert (0 < p) by (apply Z.pow_pos_nonneg; lia).
      apply bool_decide_ext. split; intros; nia.
Qed.

Lemma StringToNumber_numeral name i :
  name ≠ EmptyString → digits_val name 0 = Some i → i < 2 ^ 53 →
  StringToNumber name = Some (round_to_double false i 1).
Proof.
  intros Hne Hd Hi.
  pose proof (digits_val_nonneg _ _ _ Hd (Z.le_refl 0)) as Hnn.
  pose proof (digits_val_digits _ _ _ Hd) as Hdig.
  pose proof (span_digits_digits_val _ _ 0 _ Hd) as Hspan.
  unfold StringToNumber. cbv zeta.
  rewrite bool_decide_eq_true_2.
  2:{ eapply Forall_impl; [exact Hdig|]. intros a [d Ha].
      apply (digit_val_ascii _ _ Ha). }
  rewrite (trim_digits _ Hdig).
  destruct name as [|a s]; [done|]. clear Hne.
  cbn [list_ascii_of_string] in *.
  apply Forall_cons in Hdig as [[d Ha] Hrest].
  assert (Hradix : match list_ascii_of_string s with
            | b :: _ =>
                if bool_decide (a = "0"%char) then
                  if bool_decide (b = "x"%char) || bool_decide (b = "X"%char) then Some 16
                  else if bool_decide (b = "o"%char) || bool_decide (b = "O"%char) then Some 8
                  else if bool_decide (b = "b"%char) || bool_decide (b = "B"%char) then Some 2
                  else None
                else None
            | [] => None
            end = None).
  { destruct (list_ascii_of_string s) as [|b l]; [done|].
    apply Forall_cons in Hrest as [[db Hb] _].
    destruct (bool_decide (a = "0"%char)); [|done].
    by rewrite !(bool_decide_eq_false_2 (b = _))
      by (by apply (digit_val_differs _ _ _ Hb)). }
  rewrite Hradix.
  rewrite !(bool_decide_eq_false_2 (a = _)) by (by apply (digit_val_differs _ _ _ Ha)).
  unfold unsigned_decimal.
  rewrite bool_decide_eq_false_2.
  2:{ intros [= -> _]. vm_compute in Ha. discriminate. }
  rewrite Hspan. cbn [String.length Nat.add].
  rewrite bool_decide_eq_false_2 by done.
  unfold decimal_value. rewrite bool_decide_eq_true_2.
  - simpl. by rewrite Z.mul_1_r.
  - unfold significant_digits.
    apply count_digits_bound.
    pose proof (strip_zeros_bound (S (String.length s)) i Hnn).
    assert (2 ^ 53 < 10 ^ Z.of_nat 20) by done. lia.
Qed.

Lemma index_of_key_digits k i :
  index_of_key k = Some i →
  ∃ name, k = KStr name ∧ name ≠ EmptyString ∧ name ≠ "length"%string
          ∧ digits_val name 0 = Some i.
Proof.
  destruct k as [name|]; [|done]. unfold index_of_key.
  destruct (isIntegerKey (KStr name)) eqn:Hint; [|done]. intros Hd.
  exists name. repeat split; try done.
  - intros ->. discriminate.
  - intros ->. vm_compute in Hd. discriminate.
Qed.

(** ** The Deps collected *)

(** On integer index keys the test of the code and the rule of the
    specification agree. *)
Lemma length_or_at_least_index newLength k i :
  index_of_key k = Some i → i < 2 ^ 53 →
  length_or_at_least newLength k = bool_decide (newLength ≤ i)
  ∧ length_or_index_at_least newLength k = bool_decide (newLength ≤ i).
Proof.
  intros Hi Hlt. destruct (index_of_key_digits _ _ Hi) as (name & -> & Hne & Hlen & Hd).
  pose proof (digits_val_nonneg _ _ _ Hd (Z.le_refl 0)) as Hnn.
  unfold length_or_at_least, length_or_index_at_least. rewrite Hi.
  rewrite bool_decide_eq_false_2 by congruence. simpl.
  rewrite (StringToNumber_numeral _ _ Hne Hd Hlt).
  by rewrite round_to_double_integer by lia.
Qed.

Lemma key_ge_string newLength name :
  - 2 ^ 53 ≤ newLength ≤ 2 ^ 53 →
  name ≠ "length"%string → is_Some (StringToNumber name) →
  key_ge (KStr name) (VNum newLength) = inr (length_or_at_least newLength (KStr name)).
Proof.
  intros Hz Hne [x Hx]. unfold key_ge, length_or_at_least.
  rewrite (bool_decide_eq_false_2 (KStr name = KStr "length")) by congruence.
  rewrite (bool_decide_eq_true_2 (- 2 ^ 53 ≤ newLength ≤ 2 ^ 53)) by done.
  by rewrite Hx.
Qed.

Lemma collect_length_filter newLength depsMap :
  - 2 ^ 53 ≤ newLength ≤ 2 ^ 53 →
  Forall (λ kd, ∃ name, fst kd = KStr name ∧ is_Some (StringToNumber name)) depsMap →
  collect_length (VNum newLength) depsMap
  = inr (collected_by (length_or_at_least newLength) depsMap).
Proof.
  intros Hz. induction 1 as [|[k d] m (name & Hk & Hnum) _ IH]; [done|].
  simpl in Hk. subst k. cbn [collect_length]. rewrite IH. unfold collected_by.
  rewrite filter_cons. cbn [fst snd].
  destruct (decide (name = "length"%string)) as [->|Hne].
  - rewrite bool_decide_eq_true_2 by done.
    rewrite decide_True by done. done.
  - rewrite bool_decide_eq_false_2 by congruence.
    rewrite key_ge_string by done.
    destruct (length_or_at_least newLength (KStr name)) eqn:Hge.
    + rewrite decide_True by done. done.
    + rewrite decide_False by done. done.
Qed.

(** X24.  What [trigger] collects for key ["length"] on an array.  For an
    operation other than [CLEAR] and a new length of at most 53 bits,
    where the keys of the Deps are strings that [ToNumber] is modelled
    for, [trigger] collects, in the order of the map, exactly the Dep
    under ["length"] and the Deps whose key, converted to a number, is
    not below the new length.  For a key that is the numeral of an
    integer [i] below [2 ^ 53] this is [newLength ≤ i]: the Deps of the
    indices from the new length on are collected, those of smaller
    indices are not; a key that converts to NaN is not collected. *)
Theorem length_trigger_collects_numeric_keys s target type newLength depsMap :
  type ≠ CLEAR → isArray s target = true → - 2 ^ 53 ≤ newLength ≤ 2 ^ 53 →
  Forall (λ kd, ∃ name, fst kd = KStr name ∧ is_Some (StringToNumber name)) depsMap →
  trigger_deps s target type (Some (KStr "length")) (VNum newLength) depsMap
  = inr (collected_by (length_or_at_least newLength) depsMap)
  ∧ (∀ d, Some d ∈ collected_by (length_or_at_least newLength) depsMap
          ↔ ∃ k, (k, d) ∈ depsMap ∧ length_or_at_least newLength k = true)
  ∧ (∀ k i, index_of_key k = Some i → i < 2 ^ 53 →
            length_or_at_least newLength k = bool_decide (newLength ≤ i))
  ∧ (∀ name, StringToNumber name = Some DNaN → name ≠ "length"%string →
             length_or_at_least newLength (KStr name) = false).
Proof.
  intros Htype Harr Hz Hkeys.
  assert (Hmem : ∀ d, Some d ∈ collected_by (length_or_at_least newLength) depsMap
                      ↔ ∃ k', (k', d) ∈ depsMap ∧ length_or_at_least newLength k' = true).
  { intros d. unfold collected_by. rewrite list_elem_of_fmap. split.
    - intros ([k' d'] & Heq & Hin). simpl in Heq. injection Heq as ->.
      apply list_elem_of_filter in Hin as [Ht Hin]. by exists k'.
    - intros (k' & Hin & Ht). exists (k', d). split; [done|].
      by apply list_elem_of_filter. }
  split; [|split; [|split]].
  - unfold trigger_deps. rewrite Harr, bool_decide_eq_true_2 by done. simpl.
    rewrite collect_length_filter by done. by destruct type.
  - exact Hmem.
  - intros k i Hi Hlt. apply (length_or_at_least_index newLength k i Hi Hlt).
  - intros name Hnan Hne. unfold length_or_at_least.
    rewrite bool_decide_eq_false_2 by congruence. by rewrite Hnan.
Qed.

Example depsMap_read_keys :
  depsMap_read [KStr "length"; KStr "0"; KStr "1"; KStr "2"; KStr "foo"]
  = [(KStr "length", 0%nat); (KStr "0", 1%nat); (KStr "1", 2%nat); (KStr "2", 3%nat);
     (KStr "foo", 4%nat)].
Proof. vm_compute. reflexivity. Qed.

Lemma length_trigger_collects_numeric_keys_witness :
  trigger_deps (array_read [KStr "length"; KStr "0"; KStr "1"; KStr "2"; KStr "foo"])
    0 SET (Some (KStr "length")) (VNum 1)
    (depsMap_read [KStr "length"; KStr "0"; KStr "1"; KStr "2"; KStr "foo"])
  = inr [Some 0%nat; Some 2%nat; Some 3%nat].
Proof.
  pose proof (λ H1 H2 H3 H4, proj1 (length_trigger_collects_numeric_keys
    (array_read [KStr "length"; KStr "0"; KStr "1"; KStr "2"; KStr "foo"])
    0 SET 1
    (depsMap_read [KStr "length"; KStr "0"; KStr "1"; KStr "2"; KStr "foo"])
    H1 H2 H3 H4)) as H.
  rewrite H.
  - vm_compute. reflexivity.
  - discriminate.
  - vm_compute. reflexivity.
  - vm_compute. split; discriminate.
  - rewrite depsMap_read_keys.
    repeat (apply Forall_cons; split;
            [eexists; split; [reflexivity|vm_compute; eauto]|]).
    by apply Forall_nil.
Defined.

(** C7.  The effect reads [arr["1.5"]], which is no integer index;
    [arr.length = 1] makes [trigger] collect the Dep of that key, where
    the rule of the specification (the Dep under ["length"] and the Deps
    of the integer indices not below the new length) collects nothing,
    and the effect runs again. *)
Lemma length_trigger_collects_fractional_key :
  depsMap_read [KStr "1.5"] = [(KStr "1.5", 0%nat)]
  ∧ index_of_key (KStr "1.5") = None
  ∧ trigger_deps (array_read [KStr "1.5"]) 0 SET (Some (KStr "length")) (VNum 1)
      (depsMap_read [KStr "1.5"]) = inr [Some 0%nat]
  ∧ collected_by (length_or_index_at_least 1) (depsMap_read [KStr "1.5"]) = []
  ∧ trigger_deps (array_read [KStr "1.5"]) 0 SET (Some (KStr "length")) (VNum 1)
      (depsMap_read [KStr "1.5"])
    ≠ inr (collected_by (length_or_index_at_least 1) (depsMap_read [KStr "1.5"]))
  ∧ out (final_of (exec 20
           (array_reader [KStr "1.5"]
              (λ arr, Set_ arr (KStr "length") (VNum 1) (λ _, Return VUndefined)))
           (initial_state false)))
    = [VStr "read"; VStr "read"].
Proof. repeat split; try (vm_compute; reflexivity). vm_compute. discriminate. Qed.

(** A key such as ["01"] names a property other than the index [1], and is
    collected like it. *)
Example length_trigger_collects_padded_key :
  trigger_deps (array_read [KStr "01"]) 0 SET (Some (KStr "length")) (VNum 1)
    (depsMap_read [KStr "01"]) = inr [Some 0%nat]
  ∧ isIntegerKey (KStr "01") = false.
Proof. split; vm_compute; reflexivity. Qed.

(** The comparison is one of doubles: a key that rounds up to the new
    length is collected, as are a key with an exponent and ["Infinity"];
    a negative key is not. *)
Example length_trigger_collects_rounded_key :
  StringToNumber "0.99999999999999999999" = Some (DFin false (2 ^ 53) (- 53))
  ∧ trigger_deps (array_read [KStr "0.99999999999999999999"]) 0 SET
      (Some (KStr "length")) (VNum 1)
      (depsMap_read [KStr "0.99999999999999999999"]) = inr [Some 0%nat]
  ∧ trigger_deps (array_read [KStr "1e3"; KStr "Infinity"; KStr "-1"]) 0 SET
      (Some (KStr "length")) (VNum 1)
      (depsMap_read [KStr "1e3"; KStr "Infinity"; KStr "-1"])
    = inr [Some 0%nat; Some 1%nat].
Proof. repeat split; vm_compute; reflexivity. Qed.

(** Values of [ToNumber] at the edges of the doubles: a tie goes to the
    even significand, the smallest subnormal, the largest double and the
    first literal that gives an infinity. *)
Example StringToNumber_edges :
  StringToNumber "9007199254740993" = Some (DFin false (2 ^ 52) 1)
  ∧ StringToNumber "5e-324" = Some (DFin false 1 (- 1074))
  ∧ StringToNumber "2.4703282292062327e-324" = Some (DFin false 0 (- 1074))
  ∧ StringToNumber "1.7976931348623158e308" = Some (DFin false (2 ^ 53 - 1) 971)
  ∧ StringToNumber "1.7976931348623159e308" = Some (DInf false)
  ∧ StringToNumber " 0x1F " = Some (DFin false (31 * 2 ^ 48) (- 48))
  ∧ StringToNumber "" = Some (DFin false 0 0)
  ∧ StringToNumber "length" = Some DNaN.
Proof. repeat split; vm_compute; reflexivity. Qed.

(** A Dep under a symbol key: the comparison of the symbol with the
    number raises a TypeError, and [trigger] collects nothing. *)
Example length_trigger_symbol_key :
  depsMap_read [KSym false 7] = [(KSym false 7, 0%nat)]
  ∧ trigger_deps (array_read [KSym false 7]) 0 SET (Some (KStr "length")) (VNum 1)
      (depsMap_read [KSym false 7]) = inl TypeError
  ∧ exec 20 (array_reader [KSym false 7]
               (λ arr, Set_ arr (KStr "length") (VNum 1) (λ _, Return VUndefined)))
         (initial_state false) = Fail TypeError.
Proof. repeat split; vm_compute; reflexivity. Qed.

(** An index at or past the new length is collected, a smaller one is not. *)
Example length_trigger_indices :
  out (final_of (exec 20
         (array_reader [KStr "2"]
            (λ arr, Set_ arr (KStr "length") (VNum 2) (λ _, Return VUndefined)))
         (initial_state false))) = [VStr "read"; VStr "read"]
  ∧ out (final_of (exec 20
           (array_reader [KStr "0"]
              (λ arr, Set_ arr (KStr "length") (VNum 2) (λ _, Return VUndefined)))
           (initial_state false))) = [VStr "read"].
Proof. split; vm_compute; reflexivity. Qed.

(** A key that is the numeral of [2 ^ 32 - 1] or more is no array index:
    an assignment under it leaves [length] alone. *)
Example raw_set_beyond_the_indices :
  let s := final_of (exec 20 (NewObject true false [(KStr "0", VNum 1)]
                                (λ _, Return VUndefined)) (initial_state false)) in
  (∃ s1, raw_set 0 (KStr "4294967295") (VNum 5) s = Some s1 ∧ len (object_at s1 0) = 1)
  ∧ (∃ s2, raw_set 0 (KStr "4294967294") (VNum 5) s = Some s2
           ∧ len (object_at s2 0) = 4294967295).
Proof. split; eexists; split; vm_compute; reflexivity. Qed.

(** * Effects created inside an effect *)

Lemma hasChanged_VNum x y : x ≠ y → hasChanged (VNum y) (VNum x) = true.
Proof.
  intros Hne. unfold hasChanged. rewrite bool_decide_eq_false_2; [done|].
  intros [= ->]. done.
Qed.

Lemma RefImpl_set_changed call r x y s :
  __v_isShallow (ref_at s r) = false → _rawValue (ref_at s r) = VNum x → x ≠ y →
  RefImpl_set call r (VNum y) s
  = triggerRefValue call (OfRef r) (upd_ref r (with_ref_values (VNum y) (VNum y)) s).
Proof.
  intros Hsh Hraw Hne. unfold RefImpl_set. rewrite Hsh, Hraw. simpl.
  by rewrite hasChanged_VNum.
Qed.

Lemma write_ref_changed fuel r x y s :
  __v_isShallow (ref_at s r) = false → _rawValue (ref_at s r) = VNum x → x ≠ y →
  write_ref (S fuel) r (VNum y) s
  = bind (triggerRefValue (exec fuel) (OfRef r)
            (upd_ref r (with_ref_values (VNum y) (VNum y)) s))
         (λ _ s1, exec fuel (Return VUndefined) s1).
Proof.
  intros Hsh Hraw Hne. unfold write_ref. simpl.
  by rewrite (RefImpl_set_changed _ _ x y).
Qed.

(** C9, amended: with [r1 = ref(a)], [r2 = ref(b)], an outer effect that
    reads [r1] and creates an inner effect reading [r2], a write of a new
    value to [r1] runs the outer effect again, which creates a second inner
    effect; the first inner effect stays subscribed to the Dep of [r2], and
    a following write of a new value to [r2] fires and runs both inner
    effects, the old one first. *)
Theorem stale_inner_effect_stays_subscribed a b a' b' :
  a ≠ a' → b ≠ b' →
  ∃ s1 s2,
    write_ref 30 0 (VNum a') (nested_effects_created a b) = Done VUndefined s1
    ∧ write_ref 30 1 (VNum b') s1 = Done VUndefined s2
    ∧ trace (nested_effects_created a b) = [EvRun 0; EvTrack 0 0; EvRun 1; EvTrack 1 1]
    ∧ trace s1 = trace (nested_effects_created a b)
                 ++ [EvFire 0; EvRun 0; EvTrack 0 0; EvRun 2; EvTrack 2 1]
    ∧ (fn (effect_at s1 1) = inner_fn (VRef 1) ∧ fn (effect_at s1 2) = inner_fn (VRef 1))
    ∧ (ref_dep (ref_at s1 1) = Some 1%nat ∧ members (dep_at s1 1) = [1%nat; 2%nat])
    ∧ trace s2 = trace s1 ++ [EvFire 1; EvRun 1; EvTrack 1 1; EvFire 2; EvRun 2; EvTrack 2 1]
    ∧ out s2 = out s1 ++ [VStr "inner"; VStr "inner"]
    ∧ members (dep_at s2 1) = [1%nat; 2%nat].
Proof.
  intros Ha Hb. eexists _, _. split.
  { rewrite (write_ref_changed _ _ a a'); [|vm_compute; reflexivity..|done].
    vm_compute. reflexivity. }
  split.
  { rewrite (write_ref_changed _ _ b b'); [|vm_compute; reflexivity..|done].
    vm_compute. reflexivity. }
  repeat split; vm_compute; reflexivity.
Qed.

Lemma stale_inner_effect_stays_subscribed_witness :
  ∃ s1 s2,
    write_ref 30 0 (VNum 10) (nested_effects_created 1 2) = Done VUndefined s1
    ∧ write_ref 30 1 (VNum 20) s1 = Done VUndefined s2
    ∧ trace (nested_effects_created 1 2) = [EvRun 0; EvTrack 0 0; EvRun 1; EvTrack 1 1]
    ∧ trace s1 = trace (nested_effects_created 1 2)
                 ++ [EvFire 0; EvRun 0; EvTrack 0 0; EvRun 2; EvTrack 2 1]
    ∧ (fn (effect_at s1 1) = inner_fn (VRef 1) ∧ fn (effect_at s1 2) = inner_fn (VRef 1))
    ∧ (ref_dep (ref_at s1 1) = Some 1%nat ∧ members (dep_at s1 1) = [1%nat; 2%nat])
    ∧ trace s2 = trace s1 ++ [EvFire 1; EvRun 1; EvTrack 1 1; EvFire 2; EvRun 2; EvTrack 2 1]
    ∧ out s2 = out s1 ++ [VStr "inner"; VStr "inner"]
    ∧ members (dep_at s2 1) = [1%nat; 2%nat].
Proof. apply (stale_inner_effect_stays_subscribed 1 2 10 20); lia. Defined.

(** The first inner effect is effect 1, the one created by the second run
    of the outer effect is effect 2.  The write to [r2] is the last
    command; it runs effect 1 again, which is still a member of the Dep of
    [r2], and the inner closure logs twice. *)
Lemma stale_inner_effect_is_refired :
  ∃ s, exec 30 nested_effects_rerun (initial_state false) = Done VUndefined s
       ∧ trace s = [EvRun 0; EvTrack 0 0; EvRun 1; EvTrack 1 1;
                    EvFire 0; EvRun 0; EvTrack 0 0; EvRun 2; EvTrack 2 1;
                    EvFire 1; EvRun 1; EvTrack 1 1; EvFire 2; EvRun 2; EvTrack 2 1]
       ∧ EvRun 1 ∈ drop 9 (trace s)
       ∧ out s = [VStr "outer"; VStr "inner"; VStr "outer"; VStr "inner";
                  VStr "inner"; VStr "inner"]
       ∧ ¬ (1%nat ∉ members (dep_at s 1)).
Proof.
  eexists. split; [vm_compute; reflexivity|].
  split; [vm_compute; reflexivity|].
  split; [|split; [vm_compute; reflexivity|]].
  - vm_compute. apply list_elem_of_further, list_elem_of_here.
  - intros Hnot. apply Hnot. vm_compute. apply list_elem_of_here.
Qed.

(** * What no run changes in a computed *)

Lemma computedHeap_upd_dep d f s : computedHeap (upd_dep d f s) = computedHeap s.
Proof. by destruct s. Qed.

Lemma computedHeap_upd_effect e f s : computedHeap (upd_effect e f s) = computedHeap s.
Proof. by destruct s. Qed.

Lemma computedHeap_record ev s : computedHeap (record ev s) = computedHeap s.
Proof. by destruct s. Qed.

Lemma computedHeap_fold_upd_dep (f : state → nat → Dep → Dep) l : ∀ s,
  computedHeap (foldl (λ s d, upd_dep d (f s d) s) s l) = computedHeap s.
Proof.
  induction l as [|d l IH]; intros s; simpl; [done|].
  by rewrite IH, computedHeap_upd_dep.
Qed.

Lemma computedHeap_trackEffects d s : computedHeap (trackEffects d s) = computedHeap s.
Proof.
  unfold trackEffects. destruct (activeEffect s) as [a|]; [|done].
  destruct (depHeap s !! d); [|done].
  repeat (case_bool_decide || destruct (negb _) || destruct (newTracked _ _)
          || destruct (wasTracked _ _));
    by rewrite ?computedHeap_upd_effect, ?computedHeap_upd_dep, ?computedHeap_record.
Qed.

Lemma computedHeap_cleanupEffect e s : computedHeap (cleanupEffect e s) = computedHeap s.
Proof.
  unfold cleanupEffect. rewrite computedHeap_upd_effect.
  apply (computedHeap_fold_upd_dep (λ _ _ D, with_members (set_delete e (members D)) D)).
Qed.

Lemma computedHeap_finalize_loop e l : ∀ kept s,
  computedHeap (snd (finalize_loop e l kept s)) = computedHeap s.
Proof.
  induction l as [|d l IH]; intros kept s; simpl; [done|].
  destruct (_ && _); rewrite IH; by rewrite ?computedHeap_upd_dep.
Qed.

Lemma computedHeap_run_enter e s : computedHeap (run_enter e s) = computedHeap s.
Proof.
  unfold run_enter. cbv zeta. case_bool_decide.
  - unfold initDepMarkers.
    rewrite (computedHeap_fold_upd_dep (λ s _ D, with_w (js_or (w D) (trackOpBit s)) D)).
    by destruct s.
  - rewrite computedHeap_cleanupEffect. by destruct s.
Qed.

Lemma computedHeap_run_leave e b s : computedHeap (run_leave e b s) = computedHeap s.
Proof.
  unfold run_leave. cbv zeta. rewrite computedHeap_upd_effect.
  set (s1 := if bool_decide _ then finalizeDepMarkers e s else s).
  assert (computedHeap s1 = computedHeap s) as <-; [|by destruct s1].
  unfold s1. case_bool_decide; [|done]. unfold finalizeDepMarkers.
  pose proof (computedHeap_finalize_loop e (deps (effect_at s e)) [] s) as Hc.
  destruct (finalize_loop _ _ _ _) as [kept s']. simpl in Hc.
  by rewrite computedHeap_upd_effect.
Qed.

Lemma Exec_keeps_computed s s' : Exec s s' → keeps_computed s s'.
Proof.
  induction 1 as [s|s1 s2 s3 H12 IH12 H23 IH23|s s' Hsame Hcomp|e0 s|e0 s Hact|s|E s HE1 HE2
                  |d0 s|e0 s|e0 s|e0 s|e0 b s s2 Hact Hguard Hin IH].
  - apply keeps_computed_refl.
  - by eapply keeps_computed_trans.
  - done.
  - by apply keeps_computed_heap.
  - by apply keeps_computed_heap.
  - by apply keeps_computed_heap.
  - by apply keeps_computed_heap.
  - apply keeps_computed_heap, computedHeap_trackEffects.
  - apply keeps_computed_heap, computedHeap_cleanupEffect.
  - by apply keeps_computed_heap.
  - by apply keeps_computed_heap.
  - eapply keeps_computed_trans; [|apply keeps_computed_heap, computedHeap_run_leave].
    eapply keeps_computed_trans; [|done].
    apply keeps_computed_heap. by rewrite computedHeap_record, computedHeap_run_enter.
Qed.

(** * Counting the calls of an effect's function *)

Lemma run_count_trace e s s' : trace s' = trace s → run_count e s' = run_count e s.
Proof. unfold run_count. by intros ->. Qed.

Lemma run_count_app e s s' evs :
  trace s' = trace s ++ evs →
  run_count e s' = (run_count e s + length (filter (λ ev, ev = EvRun e) evs))%nat.
Proof. unfold run_count. intros ->. by rewrite filter_app, length_app. Qed.

Lemma run_count_record_ne e ev s : ev ≠ EvRun e → run_count e (record ev s) = run_count e s.
Proof.
  intros Hne. rewrite (run_count_app e s _ [ev]) by apply trace_record.
  rewrite filter_cons, decide_False by done. simpl. lia.
Qed.

Lemma run_count_record_eq e s : run_count e (record (EvRun e) s) = S (run_count e s).
Proof.
  rewrite (run_count_app e s _ [EvRun e]) by apply trace_record.
  rewrite filter_cons, decide_True by done. simpl. lia.
Qed.

Lemma trace_trackEffects d s :
  trace (trackEffects d s) = trace s
  ∨ ∃ a, trace (trackEffects d s) = trace s ++ [EvTrack a d].
Proof.
  unfold trackEffects. destruct (activeEffect s) as [a|]; [|by left].
  destruct (depHeap s !! d); [|by left]. right. exists a.
  repeat (case_bool_decide || destruct (negb _) || destruct (newTracked _ _)
          || destruct (wasTracked _ _)); by destruct s.
Qed.

Lemma run_count_trackEffects e d s : run_count e (trackEffects d s) = run_count e s.
Proof.
  destruct (trace_trackEffects d s) as [H|[a H]]; [by apply run_count_trace|].
  rewrite (run_count_app e s _ _ H). rewrite filter_cons, decide_False by done. simpl. lia.
Qed.

Lemma is_stack_allocated s p l e :
  is_stack s p l → e ∈ l → (e < length (effectHeap s))%nat.
Proof.
  induction 1 as [|x l Hx Hst IH Hnin]; intros Hin.
  - by apply elem_of_nil in Hin.
  - apply elem_of_cons in Hin as [->|Hin]; auto.
Qed.

Lemma running_allocated s e : running s e → (e < length (effectHeap s))%nat.
Proof. intros (l & Hst & Hin). by eapply is_stack_allocated. Qed.

Lemma running_frame s s' e : frame s s' → running s e → running s' e.
Proof.
  intros [Ha _ _ Hst] (l & Hl & Hin). exists l. split; [|done].
  rewrite Ha. by apply Hst.
Qed.

Lemma keeps_active s s' e :
  keeps s s' → (e < length (effectHeap s))%nat →
  active (effect_at s' e) = true → active (effect_at s e) = true.
Proof. intros [_ Hk] He. by apply Hk. Qed.

(** While an effect is running and is not stopped, its function is not
    called again: [run] finds it on the parent chain. *)
Lemma Exec_no_rerun e s s' :
  Exec s s' → WF s → running s e → active (effect_at s' e) = true →
  run_count e s' = run_count e s.
Proof.
  induction 1 as [s|s1 s2 s3 H12 IH12 H23 IH23|s s' Hsame Hcomp|e0 s|e0 s Hact|s|E s HE1 HE2
                  |d0 s|e0 s|e0 s|e0 s|e0 b s s2 Hact Hguard Hin IH];
    intros HWF Hrun Hactive.
  - done.
  - destruct (Exec_WF _ _ H12 HWF) as [HWF2 Hf].
    pose proof (running_frame _ _ _ Hf Hrun) as Hrun2.
    pose proof (keeps_active _ _ e (Exec_keeps _ _ H23) (running_allocated _ _ Hrun2) Hactive).
    rewrite IH23, IH12 by done. done.
  - destruct Hsame as (_ & _ & _ & _ & _ & Ht). by apply run_count_trace.
  - by apply run_count_record_ne.
  - apply run_count_record_ne. intros [= ->].
    rewrite effect_at_record in Hactive. congruence.
  - by apply run_count_trace.
  - by apply run_count_trace.
  - apply run_count_trackEffects.
  - destruct (cleanupEffect_spec e0 s) as (_ & _ & _ & _ & _ & _ & _ & _ & _ & _ & _ & Ht).
    by apply run_count_trace.
  - by apply run_count_trace.
  - by apply run_count_trace.
  - pose proof HWF as [_ _ _ (l & Hst & Hlen & _)].
    pose proof (active_allocated _ _ Hact) as Halloc.
    pose proof (in_parent_chain_false _ _ _ _ _ Hst Hguard) as Hnin.
    destruct Hrun as (l' & Hst' & Hel).
    assert (l' = l) by (by eapply is_stack_inj). subst l'.
    assert (Hne : e0 ≠ e) by (intros ->; done).
    destruct (WF_run_enter e0 s l HWF Hst Halloc Hnin) as (HWF1 & Hst1 & Ha1 & _).
    destruct (run_enter_views e0 s) as (_ & Ht1 & _ & _).
    destruct (Exec_WF _ _ Hin HWF1) as [HWF2 _].
    destruct (run_leave_views e0 b s2 HWF2) as (_ & Ht3 & _ & Hact3).
    rewrite (run_count_trace e s2 _ Ht3).
    rewrite IH; [| done | | by rewrite <- Hact3].
    + rewrite run_count_record_ne by congruence. by apply run_count_trace.
    + exists (e0 :: l). rewrite Ha1. split; [done|]. by apply list_elem_of_further.
Qed.

Lemma running_frame_inv s s' e : WF s → frame s s' → running s' e → running s e.
Proof.
  intros [_ _ _ (l & Hst & _)] [Ha _ _ Hfr] (l' & Hst' & Hin).
  exists l. split; [done|]. rewrite Ha in Hst'.
  by rewrite (is_stack_inj _ _ _ _ (Hfr l Hst) Hst').
Qed.

(** A call of [run] on an effect that is active, is not running and is not
    stopped meanwhile calls its function once. *)
Lemma run_effect_once fuel e s v s' :
  WF s → active (effect_at s e) = true → (¬ running s e) →
  run_effect fuel e s = Done v s' → active (effect_at s' e) = true →
  run_count e s' = S (run_count e s).
Proof.
  intros HWF Hact Hnrun Hrun Hact'. unfold run_effect, run in Hrun.
  rewrite Hact in Hrun. simpl in Hrun.
  pose proof HWF as [_ _ _ (l & Hst & Hlen & _)].
  pose proof (active_allocated _ _ Hact) as Halloc.
  assert (Hnin : e ∉ l) by (intros Hin; apply Hnrun; by exists l).
  rewrite (in_parent_chain_complete _ _ _ l) in Hrun;
    [|done|done|by eapply is_stack_length].
  inv_bind Hrun. rename a into v0. rename s0 into s2.
  destruct (WF_run_enter e s l HWF Hst Halloc Hnin) as (HWF1 & Hst1 & Ha1 & _).
  destruct (run_enter_views e s) as (_ & Ht1 & _ & _).
  pose proof (exec_Exec _ _ _ _ _ Hrun0) as HE.
  destruct (Exec_WF _ _ HE HWF1) as [HWF2 Hf2].
  destruct (run_leave_views e (shouldTrack s) s2 HWF2) as (_ & Ht3 & _ & Hact3).
  set (s3 := run_leave e (shouldTrack s) s2) in *.
  assert (Hrun1 : running (record (EvRun e) (run_enter e s)) e).
  { exists (e :: l). rewrite Ha1. split; [done|]. apply list_elem_of_here. }
  assert (Hcount : active (effect_at s3 e) = true → run_count e s3 = S (run_count e s)).
  { intros Hact3'. rewrite (run_count_trace e s2 s3 Ht3).
    rewrite (Exec_no_rerun e _ s2 HE HWF1 Hrun1) by (by rewrite <- Hact3).
    rewrite run_count_record_eq. f_equal. by apply run_count_trace. }
  destruct (deferStop (effect_at s3 e)); [|inv_done; by apply Hcount].
  inv_bind Hrun. inv_done. unfold stop in Hrun2. case_bool_decide.
  - inv_done. rewrite (effect_field_upd_effect active) in Hact' by done.
    rewrite <- (Hcount Hact'). by apply run_count_trace.
  - destruct (active (effect_at s3 e)) eqn:Hact3'; [|inv_done; congruence].
    inv_bind Hrun2. inv_done.
    pose proof (active_allocated _ _ Hact') as Halloc'.
    rewrite length_effectHeap_upd_effect in Halloc'.
    rewrite effect_at_upd_effect_eq in Hact' by done. discriminate.
Qed.

(** * Computed values *)

Lemma computed_at_heap s s' c : computedHeap s' = computedHeap s → computed_at s' c = computed_at s c.
Proof. unfold computed_at. by intros ->. Qed.

Lemma computed_field_upd_computed {A} (proj : ComputedRefImpl → A) c f s c' :
  (∀ C, proj (f C) = proj C) →
  proj (computed_at (upd_computed c f s) c') = proj (computed_at s c').
Proof.
  intros Hf.
  assert (Hh : computedHeap (upd_computed c f s) = alter f c (computedHeap s))
    by (by destruct s).
  unfold computed_at. rewrite Hh. destruct (decide (c' = c)) as [->|Hne].
  - rewrite list_lookup_alter_eq. destruct (computedHeap s !! c); simpl; [apply Hf|done].
  - by rewrite list_lookup_alter_ne.
Qed.

Lemma trackRefValue_cached rb s c :
  cached (computed_at (trackRefValue rb s) c) = cached (computed_at s c).
Proof.
  unfold trackRefValue. destruct (_ && _); [|done].
  destruct (dep_of s rb); [by rewrite (computed_at_heap s) by apply computedHeap_trackEffects|].
  simpl. rewrite (computed_at_heap (set_dep_of rb _ (set_depHeap _ s)))
    by apply computedHeap_trackEffects.
  destruct rb as [r|c0]; simpl.
  - apply f_equal, computed_at_heap. by destruct s.
  - rewrite (computed_field_upd_computed cached) by done.
    apply f_equal, computed_at_heap. by destruct s.
Qed.

Lemma run_count_trackRefValue e rb s : run_count e (trackRefValue rb s) = run_count e s.
Proof.
  unfold trackRefValue. destruct (_ && _); [|done].
  destruct (dep_of s rb); [apply run_count_trackEffects|]. simpl.
  rewrite run_count_trackEffects. apply run_count_trace. by destruct rb, s.
Qed.

(** A clean, cacheable computed answers any number of reads from its
    cache: no closure is called. *)
Lemma read_again_cached fuel c times : ∀ s,
  _dirty (computed_at s c) = false → _cacheable (computed_at s c) = true →
  ∃ s', read_again fuel c times s = Done (replicate times (c_value (computed_at s c))) s'
        ∧ (∀ e, run_count e s' = run_count e s)
        ∧ cached (computed_at s' c) = cached (computed_at s c).
Proof.
  induction times as [|m IH]; intros s Hd Hc; simpl.
  - by exists s.
  - unfold read_computed, ComputedRefImpl_get.
    pose proof (trackRefValue_cached (OfComputed c) s c) as Hk.
    set (s1 := trackRefValue (OfComputed c) s) in *.
    unfold cached in Hk. injection Hk as Hv Hd1 Hc1 He1.
    rewrite Hd1, Hc1, Hd, Hc. simpl.
    destruct (IH s1) as (s' & Hr & Hn & Hk'); [congruence..|].
    rewrite Hr. simpl. exists s'. rewrite Hv. split; [done|]. split.
    + intros e. rewrite Hn. apply run_count_trackRefValue.
    + rewrite Hk'. unfold cached. congruence.
Qed.

(** C5.  Building a computed runs nothing: the record of calls and the
    log are as before, the getter is stored in the effect and the computed
    is dirty.  And for a cacheable (non-SSR) computed that is dirty, as
    after its construction or an invalidation: the first read calls the
    getter exactly once, and any number of further reads with nothing in
    between return the same value without calling it again.  The premises
    say that the computed is not read from inside its own getter, that the
    evaluation itself did not invalidate it, and that its effect was not
    stopped. *)
Theorem computed_is_lazy_and_cached fuel c s v s1 :
  (∀ getter setter isSSR c' s',
     computed_ getter setter isSSR s = (c', s') →
     trace s' = trace s ∧ out s' = out s
     ∧ _dirty (computed_at s' c') = true
     ∧ _cacheable (computed_at s' c') = negb isSSR
     ∧ fn (effect_at s' (effect (computed_at s' c'))) = getter
     ∧ active (effect_at s' (effect (computed_at s' c'))) = negb isSSR)
  ∧ (WF s → (c < length (computedHeap s))%nat →
     _cacheable (computed_at s c) = true → _dirty (computed_at s c) = true →
     active (effect_at s (effect (computed_at s c))) = true →
     (¬ running s (effect (computed_at s c))) →
     read_computed fuel c s = Done v s1 →
     _dirty (computed_at s1 c) = false →
     active (effect_at s1 (effect (computed_at s c))) = true →
     run_count (effect (computed_at s c)) s1 = S (run_count (effect (computed_at s c)) s)
     ∧ ∀ times, ∃ s2,
         read_again fuel c times s1 = Done (replicate times v) s2
         ∧ run_count (effect (computed_at s c)) s2
           = run_count (effect (computed_at s c)) s1).
Proof.
  split.
  - intros getter setter isSSR c' s'. unfold computed_, new_ComputedRefImpl.
    intros [= <- <-].
    set (E := mkEffect _ _ _ _ _ _ _ _ _). set (C := mkComputed _ _ _ _ _ _ _).
    assert (HC : computed_at (set_computedHeap (computedHeap s ++ [C])
                                (set_effectHeap (effectHeap s ++ [E]) s))
                             (length (computedHeap s)) = C).
    { unfold computed_at.
      replace (computedHeap (set_computedHeap _ _)) with (computedHeap s ++ [C])
        by (by destruct s).
      by rewrite list_lookup_middle. }
    assert (HE : effect_at (set_computedHeap (computedHeap s ++ [C])
                              (set_effectHeap (effectHeap s ++ [E]) s))
                           (length (effectHeap s)) = E).
    { rewrite (effect_at_heap (set_effectHeap (effectHeap s ++ [E]) s)) by (by destruct s).
      apply effect_at_alloc_new. }
    rewrite HC. simpl. rewrite HE. simpl. by destruct s.
  - intros HWF Hc Hcache Hdirty Hact Hnrun Hread Hclean Hact1.
    set (ce := effect (computed_at s c)) in *.
    pose proof (ComputedRefImpl_get_Exec _ (exec_Exec fuel) _ _ _ _ Hread) as HE01.
    unfold read_computed, ComputedRefImpl_get in Hread.
    pose proof (trackRefValue_cached (OfComputed c) s c) as Hk.
    pose proof (run_count_trackRefValue ce (OfComputed c) s) as Hn1.
    pose proof (trackRefValue_Exec (OfComputed c) s) as HE1.
    set (s1' := trackRefValue (OfComputed c) s) in *.
    unfold cached in Hk. injection Hk as Hv1 Hd1 Hc1 He1.
    rewrite Hd1, Hdirty in Hread. simpl in Hread.
    set (s2 := upd_computed c (with_dirty false) s1') in *.
    assert (He2 : effect (computed_at s2 c) = ce).
    { unfold s2. by rewrite (computed_field_upd_computed effect). }
    rewrite He2 in Hread. inv_bind Hread. inv_done. rename a into v0. rename s0 into s3.
    assert (HE2 : Exec s1' s2) by (unfold s2; other).
    pose proof (Exec_trans _ _ _ HE1 HE2) as HE02.
    destruct (Exec_WF _ _ HE02 HWF) as [HWF2 Hf2].
    pose proof (run_Exec _ (exec_Exec fuel) _ _ _ _ Hread0) as HE23.
    assert (Halloc2 : (ce < length (effectHeap s2))%nat).
    { pose proof (active_allocated _ _ Hact). destruct Hf2 as [_ _ Hh _]. lia. }
    rewrite (effect_at_heap s3) in Hact1 by (by destruct s3).
    pose proof (keeps_active _ _ ce (Exec_keeps _ _ HE23) Halloc2 Hact1) as Hact2.
    assert (Hnrun2 : ¬ running s2 ce).
    { intros Hr. apply Hnrun. by eapply running_frame_inv. }
    pose proof (run_effect_once fuel ce s2 v0 s3 HWF2 Hact2 Hnrun2 Hread0 Hact1) as Hn3.
    set (s4 := upd_computed c (with_c_value v0) s3) in *.
    assert (Hn4 : run_count ce s4 = S (run_count ce s)).
    { rewrite (run_count_trace ce s3 s4) by (by destruct s3).
      rewrite Hn3, <- Hn1. reflexivity. }
    split; [done|]. intros times.
    destruct (Exec_keeps_computed _ _ HE01) as [_ Hkc].
    specialize (Hkc c Hc). unfold cstatic in Hkc. injection Hkc as _ Hc4 _ _.
    destruct (read_again_cached fuel c times s4) as (s5 & Hr & Hn5 & _);
      [done|congruence|].
    exists s5. split; [done|apply Hn5].
Qed.

Example computed_created_is_lazy :
  out computed_created = [] ∧ trace computed_created = []
  ∧ _dirty (computed_at computed_created 0) = true
  ∧ effect (computed_at computed_created 0) = 0%nat.
Proof. vm_compute. done. Qed.

Lemma computed_is_lazy_and_cached_witness :
  run_count 0 computed_read_once = S (run_count 0 computed_created)
  ∧ ∀ times, ∃ s2,
      read_again 20 0 times computed_read_once = Done (replicate times (VNum 2)) s2
      ∧ run_count 0 s2 = run_count 0 computed_read_once.
Proof.
  apply (proj2 (computed_is_lazy_and_cached 20 0 computed_created (VNum 2)
                  computed_read_once)).
  - apply (exec_WF 20 (computed_setup (λ _ _, Return VUndefined)) (initial_state false)
             VUndefined computed_created (WF_initial false)).
    vm_compute. reflexivity.
  - vm_compute. lia.
  - vm_compute. reflexivity.
  - vm_compute. reflexivity.
  - vm_compute. reflexivity.
  - apply not_running_idle. vm_compute. reflexivity.
  - vm_compute. reflexivity.
  - vm_compute. reflexivity.
  - vm_compute. reflexivity.
Defined.

(** Three reads call the getter once; after [r.value = 5] the next read
    calls it again, and once. *)
Example computed_reads_log :
  out (final_of (exec 30
         (computed_setup (λ r c,
            GetValue c (λ v1, GetValue c (λ v2, GetValue c (λ v3,
            Log v1 (Log v2 (Log v3
            (SetValue r (VNum 5)
            (GetValue c (λ v4, GetValue c (λ v5,
            Log v4 (Log v5 (Return VUndefined)))))))))))))
         (initial_state false)))
  = [VStr "call"; VNum 2; VNum 2; VNum 2; VStr "call"; VNum 5; VNum 5].
Proof. vm_compute. reflexivity. Qed.

(** In SSR mode the computed is not cacheable and every read calls the
    getter. *)
Example computed_ssr_reads_log :
  out (final_of (exec 30
         (Ref (VNum 2) false (λ r, Computed (logging_getter r) None true (λ c,
            GetValue c (λ _, GetValue c (λ _, Return VUndefined)))))
         (initial_state false)))
  = [VStr "call"; VStr "call"].
Proof. vm_compute. reflexivity. Qed.

(** * Writes to a ref *)

Lemma fires_on_keeps s s' e :
  frame s s' → keeps s s' → (e < length (effectHeap s))%nat →
  fires_on s e → fires_on s' e.
Proof.
  intros [Ha _ _ _] [_ Hk] He. destruct (Hk e He) as [Hs _].
  unfold static in Hs. injection Hs as _ Hrec _ _ _.
  unfold fires_on. by rewrite Ha, Hrec.
Qed.

Lemma fire_effect_fires fuel e s u s' :
  WF s → fire_effect fuel e s = Done u s' →
  WF s' ∧ frame s s' ∧ keeps s s'
  ∧ ∃ evs, trace s' = trace s ++ evs ∧ (fires_on s e → EvFire e ∈ evs).
Proof.
  intros HWF H.
  pose proof (triggerEffect_Exec _ (exec_Exec fuel) _ _ _ _ H) as HE.
  destruct (Exec_WF _ _ HE HWF) as [HWF' Hf].
  split; [done|]. split; [done|]. split; [by apply Exec_keeps|].
  unfold fire_effect, triggerEffect in H.
  destruct (negb _ || _) eqn:Hguard.
  - destruct (Exec_WF _ _ (Exec_fire e s) HWF) as [HWF1 _].
    assert (HE1 : Exec (record (EvFire e) s) s').
    { destruct (scheduler _); inv_bind H; inv_done.
      - by eapply exec_Exec.
      - by eapply (run_Exec _ (exec_Exec fuel)). }
    destruct (Exec_trace _ _ HE1 HWF1) as [evs Ht]. rewrite trace_record in Ht.
    exists (EvFire e :: evs). split; [by rewrite Ht, <- app_assoc|].
    intros _. apply list_elem_of_here.
  - inv_done. exists []. split; [by rewrite app_nil_r|].
    intros [Hne|Hrec].
    + rewrite bool_decide_eq_false_2 in Hguard by done. done.
    + rewrite Hrec in Hguard. by destruct (negb _).
Qed.

Lemma fire_loop_fires fuel want effects : ∀ s u s',
  WF s → fire_loop (fire_effect fuel) want effects s = Done u s' →
  WF s' ∧ frame s s' ∧ keeps s s'
  ∧ ∃ evs, trace s' = trace s ++ evs
           ∧ ∀ e, e ∈ effects → (e < length (effectHeap s))%nat →
                  owns_computed s e = want → fires_on s e → EvFire e ∈ evs.
Proof.
  induction effects as [|e0 rest IH]; intros s u s' HWF H; simpl in H.
  - inv_done. split; [done|]. split; [apply frame_refl|]. split; [apply keeps_refl|].
    exists []. split; [by rewrite app_nil_r|]. intros e Hin. by apply elem_of_nil in Hin.
  - fold (owns_computed s e0) in H. case_bool_decide as Hw.
    + inv_bind H. rename s0 into s1.
      destruct (fire_effect_fires _ _ _ _ _ HWF H0) as (HWF1 & Hf1 & Hk1 & evs1 & Ht1 & Hfire1).
      destruct (IH _ _ _ HWF1 H) as (HWF' & Hf2 & Hk2 & evs2 & Ht2 & Hfire2).
      split; [done|]. split; [by eapply frame_trans|]. split; [by eapply keeps_trans|].
      exists (evs1 ++ evs2). split; [by rewrite Ht2, Ht1, app_assoc|].
      intros e Hin He Hown Hguard. apply elem_of_app.
      destruct (decide (e = e0)) as [->|Hne]; [left; by apply Hfire1|].
      apply elem_of_cons in Hin as [?|Hin]; [done|]. right.
      apply Hfire2; [done| | |by eapply fires_on_keeps].
      * destruct Hf1 as [_ _ Hh _]. lia.
      * by rewrite (owns_computed_keeps s s1).
    + destruct (IH _ _ _ HWF H) as (HWF' & Hf2 & Hk2 & evs2 & Ht2 & Hfire2).
      split; [done|]. split; [done|]. split; [done|].
      exists evs2. split; [done|]. intros e Hin He Hown Hguard.
      apply elem_of_cons in Hin as [->|Hin]; [done|]. by apply Hfire2.
Qed.

(** [triggerEffects] goes on with every effect of the list that passes the
    test of [triggerEffect]. *)
Lemma triggerEffects_fires fuel effects s u s' :
  WF s → fire_effects fuel effects s = Done u s' →
  ∃ evs, trace s' = trace s ++ evs
         ∧ ∀ e, e ∈ effects → (e < length (effectHeap s))%nat →
                fires_on s e → EvFire e ∈ evs.
Proof.
  intros HWF H. unfold fire_effects, triggerEffects, triggerEffects_with in H.
  fold (fire_effect fuel) in H. inv_bind H. rename s0 into s1.
  destruct (fire_loop_fires _ _ _ _ _ _ HWF H0) as (HWF1 & Hf1 & Hk1 & evs1 & Ht1 & Hfire1).
  destruct (fire_loop_fires _ _ _ _ _ _ HWF1 H) as (_ & _ & _ & evs2 & Ht2 & Hfire2).
  exists (evs1 ++ evs2). split; [by rewrite Ht2, Ht1, app_assoc|].
  intros e Hin He Hguard. apply elem_of_app.
  destruct (owns_computed s e) eqn:Hown; [left; by apply Hfire1|].
  right. apply Hfire2; [done| | |by eapply fires_on_keeps].
  - destruct Hf1 as [_ _ Hh _]. lia.
  - by rewrite (owns_computed_keeps s s1).
Qed.

Lemma ref_dep_upd_values r v raw s r' :
  ref_dep (ref_at (upd_ref r (with_ref_values v raw) s) r') = ref_dep (ref_at s r').
Proof.
  assert (Hh : refHeap (upd_ref r (with_ref_values v raw) s)
               = alter (with_ref_values v raw) r (refHeap s)) by (by destruct s).
  unfold ref_at. rewrite Hh. destruct (decide (r' = r)) as [->|Hne].
  - rewrite list_lookup_alter_eq. by destruct (refHeap s !! r).
  - by rewrite list_lookup_alter_ne.
Qed.

(** C6.  A write to [r.value] whose value, taken raw unless the ref is
    shallow, is the stored [_rawValue] (the same value, or NaN for NaN)
    returns with the state as it was: no effect is fired and [_rawValue]
    and [_value] are as before.  A write of a different value stores it and
    calls [triggerRefValue]; when that call returns, [triggerEffect] has gone
    on with every effect subscribed to the Dep of [r], the active effect
    excepted unless it allows recursion. *)
Theorem ref_write_fires_iff_changed fuel r newVal s :
  (hasChanged (assigned_raw s r newVal) (_rawValue (ref_at s r)) = false
   ↔ assigned_raw s r newVal = _rawValue (ref_at s r))
  ∧ (hasChanged (assigned_raw s r newVal) (_rawValue (ref_at s r)) = false →
     RefImpl_set (exec fuel) r newVal s = Done tt s)
  ∧ (hasChanged (assigned_raw s r newVal) (_rawValue (ref_at s r)) = true →
     (∀ stored,
        (if __v_isShallow (ref_at s r) then Some newVal
         else toReactive (assigned_raw s r newVal)) = Some stored →
        RefImpl_set (exec fuel) r newVal s
        = triggerRefValue (exec fuel) (OfRef r)
            (upd_ref r (with_ref_values stored (assigned_raw s r newVal)) s))
     ∧ (WF s → ∀ u s',
          RefImpl_set (exec fuel) r newVal s = Done u s' →
          ∃ evs, trace s' = trace s ++ evs
                 ∧ ∀ d e, ref_dep (ref_at s r) = Some d → e ∈ members (dep_at s d) →
                          fires_on s e → EvFire e ∈ evs)).
Proof.
  split; [|split].
  - unfold hasChanged. rewrite negb_false_iff. apply bool_decide_eq_true.
  - intros Hsame. unfold RefImpl_set, assigned_raw in *. cbv zeta. by rewrite Hsame.
  - intros Hchanged.
    assert (Heq : ∀ stored,
      (if __v_isShallow (ref_at s r) then Some newVal
       else toReactive (assigned_raw s r newVal)) = Some stored →
      RefImpl_set (exec fuel) r newVal s
      = triggerRefValue (exec fuel) (OfRef r)
          (upd_ref r (with_ref_values stored (assigned_raw s r newVal)) s)).
    { intros stored Hst. unfold RefImpl_set, assigned_raw in *. cbv zeta.
      destruct (__v_isShallow (ref_at s r)); simpl in *; rewrite Hchanged;
        [by injection Hst as ->|by rewrite Hst]. }
    split; [exact Heq|]. intros HWF u s' H.
    destruct (if __v_isShallow (ref_at s r) then Some newVal
              else toReactive (assigned_raw s r newVal)) as [stored|] eqn:Hst.
    2:{ unfold RefImpl_set, assigned_raw in *. cbv zeta in H.
        destruct (__v_isShallow (ref_at s r)); simpl in *; [done|].
        by rewrite Hchanged, Hst in H. }
    rewrite (Heq stored eq_refl) in H.
    set (s1 := upd_ref r (with_ref_values stored (assigned_raw s r newVal)) s) in *.
    assert (HE1 : Exec s s1) by (unfold s1; other).
    destruct (Exec_WF _ _ HE1 HWF) as [HWF1 Hf1].
    assert (Ht1 : trace s1 = trace s) by (by destruct s).
    unfold triggerRefValue in H. simpl in H. unfold s1 in H at 1.
    rewrite ref_dep_upd_values in H. fold s1 in H.
    destruct (ref_dep (ref_at s r)) as [d|] eqn:Hd.
    + destruct (triggerEffects_fires fuel _ _ _ _ HWF1 H) as (evs & Ht & Hfire).
      exists evs. split; [by rewrite Ht, Ht1|].
      intros d' e [= <-] Hin Hguard.
      assert (Hm : members (dep_at s1 d) = members (dep_at s d))
        by (by rewrite (dep_at_heap s s1) by (by destruct s)).
      pose proof HWF as [Hl _ _ _]. unfold linked in Hl.
      pose proof (deps_allocated _ _ _ (proj1 (Hl e d) Hin)) as He.
      apply Hfire.
      * by rewrite Hm.
      * destruct Hf1 as [_ _ Hh _]. lia.
      * eapply fires_on_keeps; [done|by apply Exec_keeps|done..].
    + inv_done. exists []. split; [by rewrite app_nil_r|]. intros d e Hd'. discriminate.
Qed.

Lemma WF_ref_logged : WF ref_logged.
Proof.
  apply (exec_WF 20 (ref_logger (VNum 1) (λ _, Return VUndefined)) (initial_state false)
           VUndefined ref_logged (WF_initial false)).
  vm_compute. reflexivity.
Qed.

Lemma ref_write_fires_iff_changed_witness :
  RefImpl_set (exec 20) 0 (VNum 1) ref_logged = Done tt ref_logged
  ∧ ∃ s', RefImpl_set (exec 20) 0 (VNum 2) ref_logged = Done tt s'
          ∧ ∃ evs, trace s' = trace ref_logged ++ evs
                   ∧ ∀ d e, ref_dep (ref_at ref_logged 0) = Some d →
                            e ∈ members (dep_at ref_logged d) →
                            fires_on ref_logged e → EvFire e ∈ evs.
Proof.
  split.
  - apply (proj1 (proj2 (ref_write_fires_iff_changed 20 0 (VNum 1) ref_logged))).
    vm_compute. reflexivity.
  - eexists. split; [vm_compute; reflexivity|].
    destruct (proj2 (proj2 (ref_write_fires_iff_changed 20 0 (VNum 2) ref_logged)))
      as [_ Hfire]; [vm_compute; reflexivity|].
    apply (Hfire WF_ref_logged tt). vm_compute. reflexivity.
Defined.

(** The effect of the scenario is a member of the Dep of the ref, and is
    fired by the write of [2]. *)
Example ref_logged_subscribed :
  ref_dep (ref_at ref_logged 0) = Some 0%nat
  ∧ members (dep_at ref_logged 0) = [0%nat]
  ∧ activeEffect ref_logged = None.
Proof. vm_compute. done. Qed.

(** [r.value = 1] again logs nothing; [r.value = 2] logs [2]; a second
    [r.value = 2] logs nothing. *)
Example ref_writes_log :
  out (final_of (exec 30
         (ref_logger (VNum 1) (λ r,
            SetValue r (VNum 1) (SetValue r (VNum 2) (SetValue r (VNum 2)
            (Return VUndefined)))))
         (initial_state false)))
  = [VNum 1; VNum 2].
Proof. vm_compute. reflexivity. Qed.

(** NaN written over NaN is no change. *)
Example ref_write_NaN_log :
  out (final_of (exec 30
         (ref_logger VNaN (λ r, SetValue r VNaN (Return VUndefined)))
         (initial_state false)))
  = [VNaN].
Proof. vm_compute. reflexivity. Qed.

(** The reactive proxy of the object stored is the same value as the
    object, once it is taken raw. *)
Example ref_write_proxy_of_same_object_log :
  out (final_of (exec 30
         (NewObject false false [] (λ o,
          MakeProxy Reactive o (λ p,
          ref_logger o (λ r, SetValue r p (Return VUndefined)))))
         (initial_state false)))
  = [VProxy Reactive 0].
Proof. vm_compute. reflexivity. Qed.

(** * A new-tracked marker left behind by [stop] *)

(** C1.  A pass that does not drop a Dep it did not read.  After [a()]
    the Dep of [r1] (Dep 1) carries the new-tracked bit of level 1, left
    behind by the [stop] of [a] while it was running, and effect 0 is
    subscribed to it from its first pass.  [flag.value = false] runs
    effect 0 again; this pass reads the Dep of [flag] only, yet effect 0
    is still a member of the Dep of [r1] when [run] has returned, and
    [r1.value = 5] fires it once more. *)
Lemma stale_marker_keeps_unread_dep :
  ∃ s1 s2 s3,
    exec 40 (stale_marker true (λ _ _, Return VUndefined)) (initial_state false)
    = Done VUndefined s1
    ∧ write_ref 40 1 (VBool false) s1 = Done VUndefined s2
    ∧ write_ref 40 0 (VNum 5) s2 = Done VUndefined s3
    ∧ (activeEffect s1 = None ∧ 0%nat ∈ members (dep_at s1 1) ∧ n (dep_at s1 1) = 2)
    ∧ drop (length (trace s1)) (trace s2) = [EvFire 0; EvRun 0; EvTrack 0 0]
    ∧ (0%nat ∈ members (dep_at s2 1) ∧ 1%nat ∈ deps (effect_at s2 0))
    ∧ drop (length (trace s2)) (trace s3) = [EvFire 0; EvRun 0; EvTrack 0 0]
    ∧ out s3 = [VStr "C"; VStr "C"; VStr "C"].
Proof.
  eexists _, _, _.
  split; [vm_compute; reflexivity|].
  split; [vm_compute; reflexivity|].
  split; [vm_compute; reflexivity|].
  split; [split; [vm_compute; reflexivity|split; [|vm_compute; reflexivity]]|].
  { vm_compute. apply list_elem_of_here. }
  split; [vm_compute; reflexivity|].
  split; [split; vm_compute; [apply list_elem_of_here|apply list_elem_of_further, list_elem_of_here]|].
  split; vm_compute; reflexivity.
Qed.

(** Without the [stop] the markers are clear after [a()], the pass drops
    the Dep of [r1], and [r1.value = 5] fires nothing. *)
Example clear_marker_drops_unread_dep :
  ∃ s1 s2 s3,
    exec 40 (stale_marker false (λ _ _, Return VUndefined)) (initial_state false)
    = Done VUndefined s1
    ∧ write_ref 40 1 (VBool false) s1 = Done VUndefined s2
    ∧ write_ref 40 0 (VNum 5) s2 = Done VUndefined s3
    ∧ n (dep_at s1 1) = 0
    ∧ drop (length (trace s1)) (trace s2) = [EvFire 0; EvRun 0; EvTrack 0 0]
    ∧ members (dep_at s2 1) = [2%nat] ∧ deps (effect_at s2 0) = [0%nat]
    ∧ drop (length (trace s2)) (trace s3) = [EvFire 2; EvRun 2; EvTrack 2 1]
    ∧ out s3 = [VStr "C"; VStr "C"].
Proof.
  eexists _, _, _.
  split; [vm_compute; reflexivity|].
  split; [vm_compute; reflexivity|].
  split; [vm_compute; reflexivity|].
  repeat split; vm_compute; reflexivity.
Qed.

(** * Where subscriptions come from *)

Lemma subscribed_since_now e s :
  subscribed_since (length (trace s)) e (λ d, e ∈ members (dep_at s d)) s.
Proof. split; [done|]. auto. Qed.

(** X1.  Whatever a program does, an effect is a member of a Dep afterwards
    only if it was one before or if [trackEffects] was called on that Dep
    while the effect was the active one: the library subscribes no effect
    to a Dep that it did not read. *)
Theorem subscriptions_come_from_tracking fuel p s v s' :
  WF s → exec fuel p s = Done v s' →
  ∀ e d, e ∈ members (dep_at s' d) →
         e ∈ members (dep_at s d) ∨ EvTrack e d ∈ drop (length (trace s)) (trace s').
Proof.
  intros HWF H e d Hin. apply exec_Exec in H.
  destruct (Exec_subscribed_since _ e _ _ _ H HWF (subscribed_since_now e s)) as [_ Hs].
  by apply Hs.
Qed.

Lemma subscriptions_come_from_tracking_witness :
  0%nat ∈ members (dep_at dynamic_deps_before_rerun 2)
  ∨ EvTrack 0 2 ∈ drop (length (trace dynamic_deps_before_rerun))
                       (trace dynamic_deps_after_rerun).
Proof.
  apply (subscriptions_come_from_tracking 20 (CallRunner 0 (λ v, Return v))
           dynamic_deps_before_rerun VUndefined dynamic_deps_after_rerun).
  - apply (exec_WF 20 dynamic_deps_raw_write (initial_state false) VUndefined
             dynamic_deps_before_rerun (WF_initial false)).
    vm_compute. reflexivity.
  - vm_compute. reflexivity.
  - apply (bool_decide_unpack _). vm_compute. reflexivity.
Defined.

(** * Passes beyond the marker levels *)

(** Past [maxMarkerBits] levels [run] starts with [cleanupEffect]: the
    effect enters its function as a member of no Dep. *)
Lemma run_enter_deep_unsubscribes e s d :
  WF s → (30 ≤ effectTrackDepth s)%nat → e ∉ members (dep_at (run_enter e s) d).
Proof.
  intros [Hl _ _ _] Hdeep. unfold linked in Hl. unfold run_enter. cbv zeta.
  unfold maxMarkerBits. set (s4 := set_depth _ _ _).
  change (effectTrackDepth (set_shouldTrack _ _)) with (effectTrackDepth s).
  rewrite bool_decide_eq_false_2 by lia.
  destruct (cleanupEffect_spec e s4) as (Hmem & _). rewrite Hmem.
  assert (Hd4 : dep_at s4 d = dep_at s d) by done.
  assert (He4 : deps (effect_at s4 e) = deps (effect_at s e)).
  { change (effect_at s4 e)
      with (effect_at (upd_effect e (with_parent (activeEffect s)) s) e).
    by rewrite (effect_field_upd_effect deps). }
  rewrite Hd4, He4. case_bool_decide as Hin.
  - rewrite elem_of_set_delete. tauto.
  - by rewrite Hl.
Qed.

(** At a level without marker bits [run] leaves the memberships as [fn]
    left them. *)
Lemma run_leave_deep_members e b s e' d :
  (30 < effectTrackDepth s)%nat →
  e' ∈ members (dep_at (run_leave e b s) d) ↔ e' ∈ members (dep_at s d).
Proof.
  intros Hdeep. unfold run_leave. cbv zeta. unfold maxMarkerBits.
  rewrite bool_decide_eq_false_2 by lia. done.
Qed.

(** X2.  The fallback for deep recursion.  When [run] of an active effect
    [e] that is not already running is called inside 30 or more running
    effects, so that no marker bit is left for its level, and returns, [e]
    is a member of exactly the Deps it read in this pass: of no Dep
    without a [trackEffects] of [e] in the pass.  No condition on the
    marker bits is needed here. *)
Theorem deep_run_drops_unread_deps fuel e s v s' :
  WF s → active (effect_at s e) = true → (¬ running s e) →
  (30 ≤ effectTrackDepth s)%nat →
  run_effect fuel e s = Done v s' →
  ∀ d, EvTrack e d ∉ drop (length (trace s)) (trace s') →
       (e ∉ members (dep_at s' d)) ∧ (d ∉ deps (effect_at s' e)).
Proof.
  intros HWF Hact Hnrun Hdeep Hrun d Hnot.
  pose proof HWF as [_ _ _ (l & Hst & Hlen & _)].
  assert (Hnin : e ∉ l) by (intros Hin; apply Hnrun; by exists l).
  pose proof (active_allocated _ _ Hact) as Halloc.
  unfold run_effect, run in Hrun. rewrite Hact in Hrun. simpl in Hrun.
  rewrite (in_parent_chain_complete _ _ _ l) in Hrun;
    [|done|done|by eapply is_stack_length].
  inv_bind Hrun. rename s0 into s2. apply exec_Exec in Hrun0.
  destruct (WF_run_enter e s l HWF Hst Halloc Hnin)
    as (HWF1 & Hst1 & Ha1 & Hk1 & _).
  destruct (run_enter_views e s) as (_ & Ht1 & _ & _).
  set (s1 := record (EvRun e) (run_enter e s)) in *.
  set (T0 := length (trace s)) in *.
  assert (HJ1 : subscribed_since T0 e (λ _, False) s1).
  { split; [unfold s1; rewrite trace_record, length_app, Ht1; lia|].
    intros d' Hin. unfold s1 in Hin. rewrite dep_at_record in Hin.
    by apply run_enter_deep_unsubscribes in Hin. }
  destruct (Exec_subscribed_since T0 e _ _ _ Hrun0 HWF1 HJ1) as [HT2 HJ2].
  destruct (Exec_WF _ _ Hrun0 HWF1) as [HWF2 [Ha2 Hk2 _ Hst2]].
  rewrite Ha1 in Ha2, Hst2. specialize (Hst2 _ Hst1).
  destruct (WF_run_leave e (shouldTrack s) s2 l HWF2 Hst2 Ha2)
    as (HWF3 & Hst3 & Ha3 & Hk3 & _).
  destruct (run_leave_views e (shouldTrack s) s2 HWF2) as (_ & Ht3 & _ & _).
  set (s3 := run_leave e (shouldTrack s) s2) in *.
  assert (HJ3 : subscribed_since T0 e (λ _, False) s3).
  { split; [by rewrite Ht3|]. intros d' Hin. rewrite Ht3. apply HJ2.
    unfold s3 in Hin. rewrite run_leave_deep_members in Hin; [done|lia]. }
  assert (Hend : ∀ s4, Exec s3 s4 → s4 = s' →
            (e ∉ members (dep_at s' d)) ∧ (d ∉ deps (effect_at s' e))).
  { intros s4 H34 ->.
    destruct (Exec_WF _ _ H34 HWF3) as [[Hl4 _ _ _] _].
    destruct (Exec_subscribed_since T0 e _ _ _ H34 HWF3 HJ3) as [_ HJ4].
    assert (e ∉ members (dep_at s' d)) as Hm.
    { intros Hin. destruct (HJ4 d Hin) as [[]|Hev]. by apply Hnot. }
    split; [done|]. by rewrite <- (Hl4 e d). }
  destruct (deferStop (effect_at s3 e)).
  - inv_bind Hrun. inv_done. eapply Hend; [|done].
    eapply stop_Exec; [|done]. apply exec_Exec.
  - inv_done. eapply Hend; [apply Exec_refl|done].
Qed.

Lemma WF_enter_all es : ∀ s l,
  WF s → is_stack s (activeEffect s) l →
  Forall (λ e, (e < length (effectHeap s))%nat) es → NoDup es →
  (∀ e, e ∈ es → e ∉ l) →
  WF (enter_all es s)
  ∧ is_stack (enter_all es s) (activeEffect (enter_all es s)) (rev es ++ l)
  ∧ effectTrackDepth (enter_all es s) = (length es + effectTrackDepth s)%nat.
Proof.
  induction es as [|e es IH]; intros s l HWF Hst Hall Hnd Hdisj; simpl.
  - done.
  - apply Forall_cons in Hall as [He Hall]. apply NoDup_cons in Hnd as [Hne Hnd].
    destruct (WF_run_enter e s l HWF Hst He) as (HWF1 & Hst1 & Ha1 & Hk1 & Hh1 & _).
    { apply Hdisj, list_elem_of_here. }
    destruct (IH (record (EvRun e) (run_enter e s)) (e :: l)) as (HWF' & Hst' & Hk').
    + done.
    + by rewrite Ha1.
    + rewrite Hh1. done.
    + done.
    + intros e' Hin. apply not_elem_of_cons. split; [by intros ->|].
      by apply Hdisj, list_elem_of_further.
    + split; [done|]. split; [by rewrite <- app_assoc|]. rewrite Hk', Hk1. lia.
Qed.

Lemma WF_deep_state :
  WF deep_state ∧ is_stack deep_state (activeEffect deep_state) (rev (seq 0 30)).
Proof.
  destruct (WF_enter_all (seq 0 30) (final_of (exec 40 deep_setup (initial_state false))) [])
    as (HWF & Hst & _).
  - apply (exec_WF 40 deep_setup (initial_state false) VUndefined _ (WF_initial false)).
    vm_compute. reflexivity.
  - vm_compute. constructor.
  - apply Forall_forall. intros e He%elem_of_seq. vm_compute. lia.
  - apply NoDup_seq.
  - intros e _. apply not_elem_of_nil.
  - rewrite app_nil_r in Hst. done.
Qed.

Lemma deep_run_drops_unread_deps_witness :
  (30%nat ∉ members (dep_at deep_final 1)) ∧ (1%nat ∉ deps (effect_at deep_final 30)).
Proof.
  apply (deep_run_drops_unread_deps 10 30 deep_state (VNum 1) deep_final).
  - apply WF_deep_state.
  - vm_compute. reflexivity.
  - intros (l & Hst & Hin).
    rewrite (is_stack_inj _ _ _ _ Hst (proj2 WF_deep_state)) in Hin.
    revert Hin. apply (bool_decide_eq_true_1 (30%nat ∉ rev (seq 0 30))).
    vm_compute. reflexivity.
  - vm_compute. lia.
  - vm_compute. reflexivity.
  - apply (bool_decide_unpack _). vm_compute. reflexivity.
Defined.

(** In the pass of the scenario effect 30 reads the Dep of [r], and is a
    member of it afterwards. *)
Example deep_final_members :
  effectTrackDepth deep_state = 30%nat
  ∧ drop (length (trace deep_state)) (trace deep_final) = [EvRun 30; EvTrack 30 0]
  ∧ members (dep_at deep_final 0) = [30%nat].
Proof. vm_compute. done. Qed.

(** * Stopping an effect *)

Lemma cleanupEffect_no_member e s :
  WF s → ∀ d, e ∉ members (dep_at (cleanupEffect e s) d).
Proof.
  intros [Hl _ _ _] d. unfold linked in Hl.
  destruct (cleanupEffect_spec e s) as (Hmem & _).
  rewrite Hmem. case_bool_decide as Hin.
  - rewrite elem_of_set_delete. tauto.
  - by rewrite Hl.
Qed.

(** X3.  [cleanupEffect(e)] removes [e] from every Dep and empties
    [e.deps]; the memberships and the [deps] of the other effects and the
    marker bits of every Dep stay as they are. *)
Theorem cleanupEffect_unsubscribes e s :
  WF s →
  (∀ d, e ∉ members (dep_at (cleanupEffect e s) d))
  ∧ deps (effect_at (cleanupEffect e s) e) = []
  ∧ (∀ e' d, e' ≠ e →
       (e' ∈ members (dep_at (cleanupEffect e s) d) ↔ e' ∈ members (dep_at s d))
       ∧ deps (effect_at (cleanupEffect e s) e') = deps (effect_at s e'))
  ∧ (∀ d, w (dep_at (cleanupEffect e s) d) = w (dep_at s d)
          ∧ n (dep_at (cleanupEffect e s) d) = n (dep_at s d))
  ∧ (∀ e', active (effect_at (cleanupEffect e s) e') = active (effect_at s e')).
Proof.
  intros HWF.
  destruct (cleanupEffect_spec e s) as (Hmem & Hw & Hn & Hdeps & _ & Hact & _).
  split_and!.
  - by apply cleanupEffect_no_member.
  - rewrite Hdeps. by rewrite bool_decide_eq_true_2.
  - intros e' d Hne. split.
    + rewrite Hmem. case_bool_decide; [|done]. rewrite elem_of_set_delete. tauto.
    + rewrite Hdeps. by rewrite bool_decide_eq_false_2.
  - intros d. by rewrite Hw, Hn.
  - exact Hact.
Qed.

Lemma cleanupEffect_unsubscribes_witness :
  (∀ d, 0%nat ∉ members (dep_at (cleanupEffect 0 ref_logged) d))
  ∧ deps (effect_at (cleanupEffect 0 ref_logged) 0) = []
  ∧ (∀ e' d, e' ≠ 0%nat →
       (e' ∈ members (dep_at (cleanupEffect 0 ref_logged) d)
        ↔ e' ∈ members (dep_at ref_logged d))
       ∧ deps (effect_at (cleanupEffect 0 ref_logged) e') = deps (effect_at ref_logged e'))
  ∧ (∀ d, w (dep_at (cleanupEffect 0 ref_logged) d) = w (dep_at ref_logged d)
          ∧ n (dep_at (cleanupEffect 0 ref_logged) d) = n (dep_at ref_logged d))
  ∧ (∀ e', active (effect_at (cleanupEffect 0 ref_logged) e')
           = active (effect_at ref_logged e')).
Proof. apply (cleanupEffect_unsubscribes 0 ref_logged), WF_ref_logged. Defined.

(** X4.  [stop] on an effect other than the active one.  With no
    [onStop] hook it returns the state in which the effect is inactive and
    a member of no Dep; in any case the effect is inactive when [stop]
    returns.  On an effect that is inactive already [stop] changes
    nothing, so a second [stop] is harmless. *)
Theorem stop_unsubscribes_and_deactivates fuel e s :
  WF s → activeEffect s ≠ Some e →
  (active (effect_at s e) = true →
   (onStop (effect_at s e) = None →
    stop_effect fuel e s = Done tt (upd_effect e (with_active false) (cleanupEffect e s))
    ∧ (∀ d, e ∉ members (dep_at (upd_effect e (with_active false) (cleanupEffect e s)) d))
    ∧ stop_effect fuel e (upd_effect e (with_active false) (cleanupEffect e s))
      = Done tt (upd_effect e (with_active false) (cleanupEffect e s)))
   ∧ (∀ s', stop_effect fuel e s = Done tt s' → active (effect_at s' e) = false))
  ∧ (active (effect_at s e) = false → stop_effect fuel e s = Done tt s).
Proof.
  intros HWF Hna. split.
  - intros Hact. pose proof (active_allocated _ _ Hact) as Halloc.
    destruct (cleanupEffect_spec e s)
      as (_ & _ & _ & _ & _ & Hact1 & Hlen1 & _ & Ha1 & _).
    assert (Hon : onStop (effect_at (cleanupEffect e s) e) = onStop (effect_at s e)).
    { destruct (keeps_cleanupEffect e s) as [_ Hk]. destruct (Hk e Halloc) as [Hs _].
      unfold static in Hs. by injection Hs as _ _ _ _ ->. }
    split.
    + intros Hnone. set (s2 := upd_effect e (with_active false) (cleanupEffect e s)).
      assert (Hstop : stop_effect fuel e s = Done tt s2).
      { unfold stop_effect, stop. rewrite bool_decide_eq_false_2 by done.
        by rewrite Hact, Hon, Hnone. }
      split; [done|]. split.
      * intros d. unfold s2. rewrite dep_at_upd_effect.
        by apply cleanupEffect_no_member.
      * unfold stop_effect, stop.
        assert (activeEffect s2 = activeEffect s) as -> by (unfold s2; by rewrite <- Ha1).
        rewrite bool_decide_eq_false_2 by done.
        unfold s2. rewrite effect_at_upd_effect_eq by lia. done.
    + intros s' H. unfold stop_effect, stop in H.
      rewrite bool_decide_eq_false_2, Hact in H by done.
      inv_bind H. inv_done. rename s0 into s2.
      destruct (decide (e < length (effectHeap s2))%nat) as [Hlt|Hge].
      * by rewrite effect_at_upd_effect_eq.
      * destruct (active (effect_at (upd_effect e (with_active false) s2) e)) eqn:Hc;
          [|done].
        apply active_allocated in Hc. rewrite length_effectHeap_upd_effect in Hc. lia.
  - intros Hina. unfold stop_effect, stop.
    rewrite bool_decide_eq_false_2 by done. by rewrite Hina.
Qed.

Lemma stop_unsubscribes_and_deactivates_witness :
  stop_effect 5 0 ref_logged
  = Done tt (upd_effect 0 (with_active false) (cleanupEffect 0 ref_logged))
  ∧ (∀ d, 0%nat ∉ members
            (dep_at (upd_effect 0 (with_active false) (cleanupEffect 0 ref_logged)) d))
  ∧ stop_effect 5 0 (upd_effect 0 (with_active false) (cleanupEffect 0 ref_logged))
    = Done tt (upd_effect 0 (with_active false) (cleanupEffect 0 ref_logged)).
Proof.
  apply (stop_unsubscribes_and_deactivates 5 0 ref_logged WF_ref_logged).
  - vm_compute. discriminate.
  - vm_compute. reflexivity.
  - vm_compute. reflexivity.
Defined.

Lemma trace_trackEffects_active d s :
  trace (trackEffects d s) = trace s
  ∨ ∃ a, activeEffect s = Some a ∧ trace (trackEffects d s) = trace s ++ [EvTrack a d].
Proof.
  unfold trackEffects. destruct (activeEffect s) as [a|]; [|by left].
  destruct (depHeap s !! d); [|by left]. right. exists a. split; [done|].
  repeat (case_bool_decide || destruct (negb _) || destruct (newTracked _ _)
          || destruct (wasTracked _ _)); by destruct s.
Qed.

Lemma running_active_effect s a : WF s → activeEffect s = Some a → running s a.
Proof.
  intros [_ _ _ (l & Hst & _)] Ha. exists l. split; [done|].
  rewrite Ha in Hst. inversion Hst; subst. apply list_elem_of_here.
Qed.

(** An effect that is inactive and not running is never the active
    effect, so that no [trackEffects] is made on its behalf. *)
Lemma Exec_inactive_untracked e s s' :
  Exec s s' → WF s → (e < length (effectHeap s))%nat →
  active (effect_at s e) = false → (¬ running s e) →
  ∃ evs, trace s' = trace s ++ evs ∧ ∀ d, EvTrack e d ∉ evs.
Proof.
  induction 1 as [s|s1 s2 s3 H12 IH12 H23 IH23|s s' Hsame Hcomp|e0 s|e0 s Hact|s|E s HE1 HE2
                  |d0 s|e0 s|e0 s|e0 s|e0 b s s2 Hact Hguard Hin IH];
    intros HWF Halloc Hina Hnrun.
  - exists []. split; [by rewrite app_nil_r|]. intros d. apply not_elem_of_nil.
  - destruct (Exec_WF _ _ H12 HWF) as [HWF2 Hf].
    destruct (IH12 HWF Halloc Hina Hnrun) as (evs1 & Ht1 & Hn1).
    destruct IH23 as (evs2 & Ht2 & Hn2).
    + done.
    + destruct Hf as [_ _ Hh _]. lia.
    + destruct (active (effect_at s2 e)) eqn:Hc; [|done].
      by rewrite (keeps_active _ _ e (Exec_keeps _ _ H12) Halloc Hc) in Hina.
    + intros Hr. apply Hnrun. by eapply running_frame_inv.
    + exists (evs1 ++ evs2). split; [by rewrite Ht2, Ht1, app_assoc|].
      intros d [?|?]%elem_of_app; [by eapply Hn1|by eapply Hn2].
  - destruct Hsame as (_ & _ & _ & _ & _ & Ht). exists []. rewrite app_nil_r.
    split; [done|]. intros d. apply not_elem_of_nil.
  - exists [EvFire e0]. split; [apply trace_record|].
    intros d [=]%list_elem_of_singleton.
  - exists [EvRun e0]. split; [apply trace_record|].
    intros d [=]%list_elem_of_singleton.
  - exists []. split; [by rewrite app_nil_r|]. intros d. apply not_elem_of_nil.
  - exists []. split; [by rewrite app_nil_r|]. intros d. apply not_elem_of_nil.
  - destruct (trace_trackEffects_active d0 s) as [Ht|(a & Ha & Ht)].
    + exists []. rewrite app_nil_r. split; [done|]. intros d. apply not_elem_of_nil.
    + exists [EvTrack a d0]. split; [done|].
      intros d [= -> ->]%list_elem_of_singleton.
      apply Hnrun. by apply running_active_effect.
  - destruct (cleanupEffect_spec e0 s) as (_ & _ & _ & _ & _ & _ & _ & _ & _ & _ & _ & Ht).
    exists []. rewrite app_nil_r. split; [done|]. intros d. apply not_elem_of_nil.
  - exists []. split; [by rewrite app_nil_r|]. intros d. apply not_elem_of_nil.
  - exists []. split; [by rewrite app_nil_r|]. intros d. apply not_elem_of_nil.
  - pose proof HWF as [_ _ _ (l & Hst & Hlen & _)].
    pose proof (active_allocated _ _ Hact) as Halloc0.
    pose proof (in_parent_chain_false _ _ _ _ _ Hst Hguard) as Hnin.
    assert (Hne : e ≠ e0) by (intros ->; congruence).
    destruct (WF_run_enter e0 s l HWF Hst Halloc0 Hnin) as (HWF1 & Hst1 & Ha1 & _ & Hh1 & _).
    destruct (run_enter_views e0 s) as (_ & Ht1 & _ & Hact1).
    destruct IH as (evs & Ht2 & Hn2).
    + done.
    + by rewrite Hh1.
    + by rewrite effect_at_record, Hact1.
    + intros (l' & Hst' & Hin'). rewrite Ha1 in Hst'.
      rewrite (is_stack_inj _ _ _ _ Hst' Hst1) in Hin'.
      apply elem_of_cons in Hin' as [?|Hin']; [done|].
      apply Hnrun. by exists l.
    + destruct (Exec_WF _ _ Hin HWF1) as [HWF2 _].
      destruct (run_leave_views e0 b s2 HWF2) as (_ & Ht3 & _ & _).
      exists (EvRun e0 :: evs). split.
      * rewrite Ht3, Ht2, trace_record, Ht1. by rewrite <- app_assoc.
      * intros d [[=]|?]%elem_of_cons. by eapply Hn2.
Qed.

(** X5.  A stopped effect stays out of the graph.  From a state in which
    the effect [e] is inactive and not running, whatever a program does,
    also calling the runner of [e]: [e] is inactive afterwards, no
    [trackEffects] was made with [e] as the active effect, and [e] is a
    member of no Dep of which it was not a member before. *)
Theorem stopped_effect_subscribes_nothing fuel p e s v s' :
  WF s → (e < length (effectHeap s))%nat →
  active (effect_at s e) = false → (¬ running s e) →
  exec fuel p s = Done v s' →
  active (effect_at s' e) = false
  ∧ (∀ d, EvTrack e d ∉ drop (length (trace s)) (trace s'))
  ∧ (∀ d, e ∈ members (dep_at s' d) → e ∈ members (dep_at s d)).
Proof.
  intros HWF Halloc Hina Hnrun H. apply exec_Exec in H.
  destruct (Exec_inactive_untracked e _ _ H HWF Halloc Hina Hnrun) as (evs & Ht & Hn).
  assert (Hdrop : drop (length (trace s)) (trace s') = evs).
  { by rewrite Ht, drop_app_length. }
  split_and!.
  - destruct (active (effect_at s' e)) eqn:Hc; [|done].
    by rewrite (keeps_active _ _ e (Exec_keeps _ _ H) Halloc Hc) in Hina.
  - intros d. rewrite Hdrop. apply Hn.
  - intros d Hin.
    destruct (Exec_subscribed_since _ e _ _ _ H HWF (subscribed_since_now e s)) as [_ Hs].
    destruct (Hs d Hin) as [?|Hev]; [done|].
    rewrite Hdrop in Hev. by apply Hn in Hev.
Qed.

Lemma stopped_effect_subscribes_nothing_witness :
  active (effect_at (final_of (exec 20 write_then_call_runner logger_stopped)) 0) = false
  ∧ (∀ d, EvTrack 0 d ∉ drop (length (trace logger_stopped))
                           (trace (final_of (exec 20 write_then_call_runner logger_stopped))))
  ∧ (∀ d, 0%nat ∈ members
            (dep_at (final_of (exec 20 write_then_call_runner logger_stopped)) d) →
          0%nat ∈ members (dep_at logger_stopped d)).
Proof.
  apply (stopped_effect_subscribes_nothing 20 write_then_call_runner 0 logger_stopped
           VUndefined).
  - apply (exec_WF 20 (stop_logger (λ _, Return VUndefined)) (initial_state false)
             VUndefined logger_stopped (WF_initial false)).
    vm_compute. reflexivity.
  - vm_compute. lia.
  - vm_compute. reflexivity.
  - apply not_running_idle. vm_compute. reflexivity.
  - vm_compute. reflexivity.
Defined.

(** The write fires nothing; the call of the runner calls the function,
    which logs the new value, and subscribes nothing. *)
Example stopped_logger_log :
  out (final_of (exec 20 write_then_call_runner logger_stopped)) = [VNum 1; VNum 2]
  ∧ drop (length (trace logger_stopped))
         (trace (final_of (exec 20 write_then_call_runner logger_stopped))) = [EvRun 0]
  ∧ members (dep_at (final_of (exec 20 write_then_call_runner logger_stopped)) 0) = [].
Proof. vm_compute. done. Qed.

(** X6.  An effect that stops itself.  [stop] on the active effect only
    sets [deferStop]: the effect stays active and subscribed while its
    function runs.  When [run] returns with the flag set, the effect is
    inactive. *)
Theorem self_stop_is_deferred fuel e s :
  WF s →
  (activeEffect s = Some e →
   stop_effect fuel e s = Done tt (upd_effect e (with_deferStop true) s)
   ∧ active (effect_at (upd_effect e (with_deferStop true) s) e) = active (effect_at s e)
   ∧ ∀ e' d, e' ∈ members (dep_at (upd_effect e (with_deferStop true) s) d)
             ↔ e' ∈ members (dep_at s d))
  ∧ (active (effect_at s e) = true → (¬ running s e) →
     ∀ v s', run_effect fuel e s = Done v s' →
             deferStop (effect_at s' e) = true → active (effect_at s' e) = false).
Proof.
  intros HWF. split.
  - intros Ha. split_and!.
    + unfold stop_effect, stop. by rewrite bool_decide_eq_true_2.
    + by rewrite (effect_field_upd_effect active).
    + intros e' d. by rewrite dep_at_upd_effect.
  - intros Hact Hnrun v s' Hrun Hdefer.
    pose proof HWF as [_ _ _ (l & Hst & Hlen & _)].
    assert (Hnin : e ∉ l) by (intros Hin; apply Hnrun; by exists l).
    pose proof (active_allocated _ _ Hact) as Halloc.
    unfold run_effect, run in Hrun. rewrite Hact in Hrun. simpl in Hrun.
    rewrite (in_parent_chain_complete _ _ _ l) in Hrun;
      [|done|done|by eapply is_stack_length].
    inv_bind Hrun. rename s0 into s2. apply exec_Exec in Hrun0.
    destruct (WF_run_enter e s l HWF Hst Halloc Hnin) as (HWF1 & Hst1 & Ha1 & _).
    destruct (Exec_WF _ _ Hrun0 HWF1) as [HWF2 [Ha2 _ _ Hst2]].
    rewrite Ha1 in Ha2, Hst2. specialize (Hst2 _ Hst1).
    destruct (WF_run_leave e (shouldTrack s) s2 l HWF2 Hst2 Ha2)
      as (HWF3 & Hst3 & Ha3 & _).
    set (s3 := run_leave e (shouldTrack s) s2) in *.
    destruct (deferStop (effect_at s3 e)) eqn:Hd3; [|inv_done; congruence].
    inv_bind Hrun. inv_done. unfold stop in Hrun1.
    assert (Hna3 : activeEffect s3 ≠ Some e).
    { rewrite Ha3. destruct l as [|x l']; [done|]. simpl. intros [= ->].
      apply Hnin, list_elem_of_here. }
    rewrite bool_decide_eq_false_2 in Hrun1 by done.
    destruct (active (effect_at s3 e)) eqn:Hact3; [|by inv_done].
    inv_bind Hrun1. inv_done. rename s0 into s4.
    destruct (active (effect_at (upd_effect e (with_active false) s4) e)) eqn:Hc; [|done].
    pose proof (active_allocated _ _ Hc) as Hlt.
    rewrite length_effectHeap_upd_effect in Hlt.
    by rewrite effect_at_upd_effect_eq in Hc.
Qed.

Lemma self_stop_is_deferred_witness :
  active (effect_at (final_of (run_effect 10 0 self_stopper_created)) 0) = false.
Proof.
  assert (HWF : WF self_stopper_created).
  { apply (exec_WF 20 self_stopper (initial_state false) VUndefined
             self_stopper_created (WF_initial false)).
    vm_compute. reflexivity. }
  apply (proj2 (self_stop_is_deferred 10 0 self_stopper_created HWF)) with (v := VUndefined).
  - vm_compute. reflexivity.
  - apply not_running_idle. vm_compute. reflexivity.
  - vm_compute. reflexivity.
  - vm_compute. reflexivity.
Defined.

(** The pass of the scenario reads [r] before the effect stops itself; the
    effect is a member of no Dep when [run] has returned. *)
Example self_stopper_unsubscribed :
  trace (final_of (run_effect 10 0 self_stopper_created)) = [EvRun 0; EvTrack 0 0]
  ∧ members (dep_at (final_of (run_effect 10 0 self_stopper_created)) 0) = [].
Proof. vm_compute. done. Qed.

(** X7.  [run] is balanced.  When it returns, the active effect, the depth
    of recursion and the marker bit of the level are those of the call,
    the effects on the stack are the same, no [deps] lists a Dep twice,
    and membership and [deps] agree. *)
Theorem run_restores_the_stack fuel e s v s' :
  WF s → run_effect fuel e s = Done v s' →
  activeEffect s' = activeEffect s
  ∧ effectTrackDepth s' = effectTrackDepth s
  ∧ trackOpBit s' = js_shl 1 (effectTrackDepth s)
  ∧ (∀ l, is_stack s (activeEffect s) l → is_stack s' (activeEffect s') l)
  ∧ (∀ e', NoDup (deps (effect_at s' e')))
  ∧ (∀ e' d, e' ∈ members (dep_at s' d) ↔ d ∈ deps (effect_at s' e')).
Proof.
  intros HWF H. apply (run_Exec _ (exec_Exec fuel)) in H.
  destruct (Exec_WF _ _ H HWF) as [[Hl Hn Hbit _] [Ha Hk _ Hst]].
  split_and!; try done.
  - by rewrite Hbit, Hk.
  - intros l. rewrite Ha. apply Hst.
Qed.

Lemma run_restores_the_stack_witness :
  activeEffect (final_of (run_effect 10 30 deep_state)) = activeEffect deep_state
  ∧ effectTrackDepth (final_of (run_effect 10 30 deep_state)) = effectTrackDepth deep_state
  ∧ trackOpBit (final_of (run_effect 10 30 deep_state))
    = js_shl 1 (effectTrackDepth deep_state)
  ∧ (∀ l, is_stack deep_state (activeEffect deep_state) l →
          is_stack (final_of (run_effect 10 30 deep_state))
                   (activeEffect (final_of (run_effect 10 30 deep_state))) l)
  ∧ (∀ e', NoDup (deps (effect_at (final_of (run_effect 10 30 deep_state)) e')))
  ∧ (∀ e' d, e' ∈ members (dep_at (final_of (run_effect 10 30 deep_state)) d)
             ↔ d ∈ deps (effect_at (final_of (run_effect 10 30 deep_state)) e')).
Proof.
  apply (run_restores_the_stack 10 30 deep_state (VNum 1)).
  - apply WF_deep_state.
  - vm_compute. reflexivity.
Defined.

(** * The marker bits of dep.ts *)

Lemma wasTracked_at_level k s D :
  (k ≤ 30)%nat → wasTracked (at_level k s) D = Z.testbit (w D) (Z.of_nat k).
Proof. intros Hk. by apply wasTracked_wbit. Qed.

Lemma newTracked_at_level k s D :
  (k ≤ 30)%nat → newTracked (at_level k s) D = Z.testbit (n D) (Z.of_nat k).
Proof. intros Hk. by apply newTracked_nbit. Qed.

Lemma trackOpBit_at_level k s : (k ≤ 30)%nat → trackOpBit (at_level k s) = 2 ^ Z.of_nat k.
Proof. intros Hk. unfold at_level. simpl. by apply js_shl_1. Qed.

(** The sign bit: [x & (1 << 31)] is never positive. *)
Lemma js_and_sign_bit m : js_and m (js_shl 1 31) ≤ 0.
Proof.
  assert (Hs : js_shl 1 31 = - 2 ^ 31) by (vm_compute; reflexivity).
  rewrite Hs. unfold js_and, to_int32.
  assert (Hl : Z.land m (- 2 ^ 31) = Z.shiftl (Z.shiftr m 31) 31).
  { rewrite <- Z.ldiff_ones_r by lia. rewrite Z.ldiff_land. f_equal. }
  rewrite Hl, Z.shiftl_mul_pow2 by lia.
  set (q := Z.shiftr m 31).
  assert (Hq : (q * 2 ^ 31 + 2 ^ 31) `mod` 2 ^ 32 = ((q + 1) `mod` 2) * 2 ^ 31).
  { replace (q * 2 ^ 31 + 2 ^ 31) with ((q + 1) * 2 ^ 31) by lia.
    change (2 ^ 32) with (2 * 2 ^ 31). by rewrite Z.mul_mod_distr_r by lia. }
  rewrite Hq. pose proof (Z.mod_pos_bound (q + 1) 2). nia.
Qed.

(** X8.  One marker bit per level.  For a level [k ≤ 30]: after
    [dep.w |= trackOpBit] at level [k], [wasTracked] answers [true] at
    level [k]; after [dep.w &= ~trackOpBit] it answers [false]; and
    neither changes the answer at another level [j ≤ 30].  The same holds
    for [dep.n] and [newTracked].  At level 31 the bit is the sign bit and
    [wasTracked] and [newTracked] answer [false] whatever the markers
    are. *)
Theorem marker_bits_are_independent (k j : nat) s D :
  ((k ≤ 30)%nat →
   wasTracked (at_level k s) (mark_w (at_level k s) D) = true
   ∧ wasTracked (at_level k s) (clear_w (at_level k s) D) = false
   ∧ newTracked (at_level k s) (mark_n (at_level k s) D) = true
   ∧ newTracked (at_level k s) (clear_n (at_level k s) D) = false
   ∧ ((j ≤ 30)%nat → j ≠ k →
      wasTracked (at_level j s) (mark_w (at_level k s) D) = wasTracked (at_level j s) D
      ∧ wasTracked (at_level j s) (clear_w (at_level k s) D) = wasTracked (at_level j s) D
      ∧ newTracked (at_level j s) (mark_n (at_level k s) D) = newTracked (at_level j s) D
      ∧ newTracked (at_level j s) (clear_n (at_level k s) D)
        = newTracked (at_level j s) D))
  ∧ wasTracked (at_level 31 s) D = false
  ∧ newTracked (at_level 31 s) D = false.
Proof.
  split; [|split].
  - intros Hk. unfold mark_w, clear_w, mark_n, clear_n.
    rewrite !trackOpBit_at_level by done.
    rewrite !wasTracked_at_level, !newTracked_at_level by done. simpl.
    rewrite !js_or_pow2_testbit, !js_and_not_pow2_testbit by lia.
    rewrite !bool_decide_eq_true_2 by done.
    rewrite !orb_true_r, !andb_false_r. split_and!; try done.
    intros Hj Hne. rewrite !wasTracked_at_level, !newTracked_at_level by done. simpl.
    rewrite !js_or_pow2_testbit, !js_and_not_pow2_testbit by lia.
    rewrite !bool_decide_eq_false_2 by lia.
    by rewrite !orb_false_r, !andb_true_r.
  - unfold wasTracked. apply bool_decide_eq_false_2.
    pose proof (js_and_sign_bit (w D)). unfold at_level. simpl. lia.
  - unfold newTracked. apply bool_decide_eq_false_2.
    pose proof (js_and_sign_bit (n D)). unfold at_level. simpl. lia.
Qed.

Lemma marker_bits_are_independent_witness :
  wasTracked (at_level 3 (initial_state false))
             (mark_w (at_level 3 (initial_state false)) (createDep [])) = true
  ∧ wasTracked (at_level 5 (initial_state false))
               (mark_w (at_level 3 (initial_state false)) (createDep []))
    = wasTracked (at_level 5 (initial_state false)) (createDep []).
Proof.
  destruct (proj1 (marker_bits_are_independent 3 5 (initial_state false) (createDep [])))
    as (H1 & _ & _ & _ & H2); [lia|].
  split; [exact H1|]. apply H2; lia.
Defined.

(** * Pausing the tracking *)

Lemma last_snoc_bool (l : list bool) b : last (l ++ [b]) = Some b.
Proof. by rewrite last_snoc. Qed.

(** X9.  [pauseTracking] and [enableTracking] are undone by
    [resetTracking]: the state is the one before, also when the calls
    nest.  While the tracking is paused [track] and [trackRefValue] leave
    the state alone.  [resetTracking] on an empty stack sets [shouldTrack]
    to [true]. *)
Theorem resetTracking_undoes_pause target type k rb s :
  resetTracking (pauseTracking s) = s
  ∧ resetTracking (enableTracking s) = s
  ∧ resetTracking (resetTracking (enableTracking (pauseTracking s))) = s
  ∧ track target type k (pauseTracking s) = pauseTracking s
  ∧ trackRefValue rb (pauseTracking s) = pauseTracking s
  ∧ (trackStack s = [] →
     shouldTrack (resetTracking s) = true ∧ trackStack (resetTracking s) = []).
Proof.
  assert (Hp : ∀ s, resetTracking (pauseTracking s) = s).
  { intros s0. unfold resetTracking, pauseTracking. simpl. rewrite last_snoc_bool.
    rewrite length_app. simpl. replace (length (trackStack s0) + 1 - 1)%nat
      with (length (trackStack s0)) by lia.
    rewrite take_app_length. by destruct s0. }
  assert (He : ∀ s, resetTracking (enableTracking s) = s).
  { intros s0. unfold resetTracking, enableTracking. simpl. rewrite last_snoc_bool.
    rewrite length_app. simpl. replace (length (trackStack s0) + 1 - 1)%nat
      with (length (trackStack s0)) by lia.
    rewrite take_app_length. by destruct s0. }
  split_and!.
  - apply Hp.
  - apply He.
  - by rewrite He, Hp.
  - done.
  - done.
  - intros Hempty. unfold resetTracking. by rewrite Hempty.
Qed.

Lemma resetTracking_undoes_pause_witness :
  shouldTrack (resetTracking (initial_state false)) = true
  ∧ trackStack (resetTracking (initial_state false)) = [].
Proof.
  apply (resetTracking_undoes_pause 0 GET (KStr "a") (OfRef 0) (initial_state false)).
  reflexivity.
Defined.

(** An effect that reads [r] between [pauseTracking()] and
    [resetTracking()] is not subscribed: the write does not run it
    again. *)
Example paused_read_log :
  out (final_of (exec 30
         (Ref (VNum 1) false (λ r,
          Effect (PauseTracking (GetValue r (λ v, ResetTracking (Log v (Return VUndefined)))))
                 false None false None (λ _,
          SetValue r (VNum 2) (Return VUndefined))))
         (initial_state false)))
  = [VNum 1].
Proof. vm_compute. reflexivity. Qed.

(** * The registry of Deps *)

Lemma map_get_app_None k m k' d :
  map_get k m = None → map_get k' (m ++ [(k, d)]) = if bool_decide (k = k') then Some d else map_get k' m.
Proof.
  induction m as [|[k0 d0] m IH]; simpl; intros Hnone.
  - done.
  - case_bool_decide as H0; [done|]. rewrite IH by done.
    case_bool_decide as H1; [|done]. subst k'.
    rewrite bool_decide_eq_false_2 by done. done.
Qed.

Lemma targetMap_trackEffects d s : targetMap (trackEffects d s) = targetMap s.
Proof.
  unfold trackEffects. destruct (activeEffect s) as [a|]; [|done].
  destruct (depHeap s !! d); [|done].
  repeat (case_bool_decide || destruct (negb _) || destruct (newTracked _ _)
          || destruct (wasTracked _ _)); by destruct s.
Qed.

Lemma length_depHeap_trackEffects d s :
  length (depHeap (trackEffects d s)) = length (depHeap s).
Proof.
  unfold trackEffects. destruct (activeEffect s) as [a|]; [|done].
  destruct (depHeap s !! d); [|done].
  repeat (case_bool_decide || destruct (negb _) || destruct (newTracked _ _)
          || destruct (wasTracked _ _));
    unfold upd_effect, upd_dep, record; simpl; by rewrite ?length_alter.
Qed.

Lemma activeEffect_trackEffects d s : activeEffect (trackEffects d s) = activeEffect s.
Proof.
  unfold trackEffects. destruct (activeEffect s) as [a|] eqn:Ha; [|done].
  destruct (depHeap s !! d); [|done].
  repeat (case_bool_decide || destruct (negb _) || destruct (newTracked _ _)
          || destruct (wasTracked _ _)); by destruct s.
Qed.

Lemma shouldTrack_trackEffects d s : shouldTrack (trackEffects d s) = shouldTrack s.
Proof.
  unfold trackEffects. destruct (activeEffect s) as [a|] eqn:Ha; [|done].
  destruct (depHeap s !! d); [|done].
  repeat (case_bool_decide || destruct (negb _) || destruct (newTracked _ _)
          || destruct (wasTracked _ _)); by destruct s.
Qed.

(** The registry after [track(target, type, key)] with tracking on:
    the Dep of the key is the one registered before, or a new one put at
    the end of the map of the target. *)
Lemma track_targetMap target type k s :
  shouldTrack s = true → is_Some (activeEffect s) →
  targetMap (track target type k s)
  = <[target := match map_get k (default [] (depsMap_of s target)) with
                | Some _ => default [] (depsMap_of s target)
                | None => default [] (depsMap_of s target) ++ [(k, length (depHeap s))]
                end]> (targetMap s)
  ∧ length (depHeap (track target type k s))
    = match map_get k (default [] (depsMap_of s target)) with
      | Some _ => length (depHeap s)
      | None => S (length (depHeap s))
      end
  ∧ activeEffect (track target type k s) = activeEffect s
  ∧ shouldTrack (track target type k s) = shouldTrack s.
Proof.
  intros Hst Hact. unfold track. rewrite Hst, bool_decide_eq_true_2 by done. simpl.
  destruct (map_get k (default [] (depsMap_of s target))) as [d|].
  - rewrite targetMap_trackEffects, length_depHeap_trackEffects,
      activeEffect_trackEffects, shouldTrack_trackEffects.
    split_and!; by destruct s.
  - rewrite targetMap_trackEffects, length_depHeap_trackEffects,
      activeEffect_trackEffects, shouldTrack_trackEffects.
    split_and!; try (by destruct s).
    + destruct s; simpl. by rewrite insert_insert_eq.
    + destruct s; simpl. rewrite length_app. simpl. lia.
Qed.

(** X10.  [track(target, type, key)] with tracking on and an active
    effect registers exactly one Dep for the pair: afterwards the map of
    the target has a Dep under the key, the one it had before if there
    was one and a new one, put at the end of the heap, otherwise; the Deps under the other
    keys and the maps of the other targets are as before; and a second
    [track] of the same pair, of whatever type, changes nothing in the
    registry and creates no Dep.  Without an active effect, or with
    [shouldTrack] off, [track] changes nothing at all. *)
Theorem track_registers_one_dep target type type' k s :
  (shouldTrack s = true → is_Some (activeEffect s) →
   (∃ d, map_get k (default [] (depsMap_of (track target type k s) target)) = Some d
         ∧ match map_get k (default [] (depsMap_of s target)) with
           | Some d0 => d = d0 ∧ length (depHeap (track target type k s)) = length (depHeap s)
           | None => d = length (depHeap s)
                     ∧ length (depHeap (track target type k s)) = S (length (depHeap s))
           end)
   ∧ (∀ k', k' ≠ k →
        map_get k' (default [] (depsMap_of (track target type k s) target))
        = map_get k' (default [] (depsMap_of s target)))
   ∧ (∀ target', target' ≠ target →
        depsMap_of (track target type k s) target' = depsMap_of s target')
   ∧ targetMap (track target type' k (track target type k s))
     = targetMap (track target type k s)
   ∧ length (depHeap (track target type' k (track target type k s)))
     = length (depHeap (track target type k s)))
  ∧ (shouldTrack s = false ∨ activeEffect s = None → track target type k s = s).
Proof.
  split.
  - intros Hst Hact.
    destruct (track_targetMap target type k s Hst Hact) as (Htm & Hlen & Ha & Hs).
    set (s1 := track target type k s) in *.
    set (m := default [] (depsMap_of s target)) in *.
    assert (Hm1 : default [] (depsMap_of s1 target)
                  = match map_get k m with Some _ => m | None => m ++ [(k, length (depHeap s))] end).
    { unfold depsMap_of. rewrite Htm, lookup_insert_eq. done. }
    assert (Hget : ∃ d, map_get k (default [] (depsMap_of s1 target)) = Some d
         ∧ match map_get k m with
           | Some d0 => d = d0
           | None => d = length (depHeap s)
           end).
    { rewrite Hm1. destruct (map_get k m) as [d0|] eqn:Hk.
      - exists d0. by rewrite Hk.
      - exists (length (depHeap s)). rewrite map_get_app_None by done.
        by rewrite bool_decide_eq_true_2. }
    destruct Hget as (d & Hd & Hd').
    split_and!.
    + exists d. split; [done|]. rewrite Hlen.
      by destruct (map_get k m) as [d0|] eqn:Hk.
    + intros k' Hne. rewrite Hm1. destruct (map_get k m) eqn:Hk; [done|].
      rewrite map_get_app_None by done. by rewrite bool_decide_eq_false_2.
    + intros target' Hne. unfold depsMap_of. rewrite Htm. by rewrite lookup_insert_ne.
    + destruct (track_targetMap target type' k s1) as (Htm2 & _); [congruence|by rewrite Ha|].
      rewrite Htm2, Hd. apply insert_id. unfold depsMap_of.
      by rewrite Htm, lookup_insert_eq.
    + destruct (track_targetMap target type' k s1) as (_ & Hlen2 & _); [congruence|by rewrite Ha|].
      by rewrite Hlen2, Hd.
  - intros [Hst|Ha]; unfold track; [by rewrite Hst|].
    rewrite Ha. by rewrite andb_false_r.
Qed.

Lemma track_registers_one_dep_witness :
  (∃ d, map_get (KStr "a")
          (default [] (depsMap_of (track 7 GET (KStr "a") tracking_state) 7)) = Some d
        ∧ match map_get (KStr "a") (default [] (depsMap_of tracking_state 7)) with
          | Some d0 => d = d0
                       ∧ length (depHeap (track 7 GET (KStr "a") tracking_state))
                         = length (depHeap tracking_state)
          | None => d = length (depHeap tracking_state)
                    ∧ length (depHeap (track 7 GET (KStr "a") tracking_state))
                      = S (length (depHeap tracking_state))
          end)
  ∧ (∀ k', k' ≠ KStr "a" →
       map_get k' (default [] (depsMap_of (track 7 GET (KStr "a") tracking_state) 7))
       = map_get k' (default [] (depsMap_of tracking_state 7)))
  ∧ (∀ target', target' ≠ 7%nat →
       depsMap_of (track 7 GET (KStr "a") tracking_state) target'
       = depsMap_of tracking_state target')
  ∧ targetMap (track 7 HAS (KStr "a") (track 7 GET (KStr "a") tracking_state))
    = targetMap (track 7 GET (KStr "a") tracking_state)
  ∧ length (depHeap (track 7 HAS (KStr "a") (track 7 GET (KStr "a") tracking_state)))
    = length (depHeap (track 7 GET (KStr "a") tracking_state)).
Proof.
  apply (proj1 (track_registers_one_dep 7 GET HAS (KStr "a") tracking_state)).
  - vm_compute. reflexivity.
  - vm_compute. eauto.
Defined.

(** * The members of a Dep are a set *)

Lemma members_nodup_at s d : members_nodup s → NoDup (members (dep_at s d)).
Proof.
  intros H. unfold dep_at. destruct (depHeap s !! d) as [D|] eqn:HD; simpl.
  - by eapply (Forall_lookup_1 _ _ _ _ H).
  - apply NoDup_nil_2.
Qed.

Lemma members_nodup_heap s s' : depHeap s' = depHeap s → members_nodup s → members_nodup s'.
Proof. unfold members_nodup. by intros ->. Qed.

Lemma members_nodup_upd_dep d f s :
  (∀ D, NoDup (members D) → NoDup (members (f D))) →
  members_nodup s → members_nodup (upd_dep d f s).
Proof.
  intros Hf H. unfold members_nodup.
  replace (depHeap (upd_dep d f s)) with (alter f d (depHeap s)) by (by destruct s).
  apply Forall_alter; [done|]. intros D _. apply Hf.
Qed.

Lemma NoDup_set_add x l : NoDup l → NoDup (set_add x l).
Proof.
  intros H. unfold set_add. case_bool_decide as Hin; [done|].
  apply NoDup_app. split_and!; [done| |apply NoDup_singleton].
  intros y Hy ->%list_elem_of_singleton. done.
Qed.

Lemma NoDup_set_delete x l : NoDup l → NoDup (set_delete x l).
Proof. intros H. unfold set_delete. by apply NoDup_filter. Qed.

Lemma members_nodup_fold_upd_dep (f : state → nat → Dep → Dep) l :
  (∀ s d D, NoDup (members D) → NoDup (members (f s d D))) →
  ∀ s, members_nodup s → members_nodup (foldl (λ s d, upd_dep d (f s d) s) s l).
Proof.
  intros Hf. induction l as [|d l IH]; intros s H; simpl; [done|].
  apply IH. apply members_nodup_upd_dep; [apply Hf|done].
Qed.

Lemma members_nodup_trackEffects d s : members_nodup s → members_nodup (trackEffects d s).
Proof.
  intros H. unfold trackEffects. destruct (activeEffect s) as [a|]; [|done].
  destruct (depHeap s !! d); [|done].
  assert (H0 : members_nodup (record (EvTrack a d) s)) by (by eapply members_nodup_heap).
  repeat (case_bool_decide || destruct (negb _) || destruct (newTracked _ _)
          || destruct (wasTracked _ _));
    repeat first [ assumption
                 | apply (members_nodup_heap (upd_dep _ _ _) (upd_effect _ _ _)); [done|]
                 | apply members_nodup_upd_dep;
                   [intros D HD; simpl; first [by apply NoDup_set_add|done]|] ].
Qed.

Lemma depHeap_upd_effect e f s : depHeap (upd_effect e f s) = depHeap s.
Proof. by destruct s. Qed.

Lemma members_nodup_cleanupEffect e s : members_nodup s → members_nodup (cleanupEffect e s).
Proof.
  intros H. unfold cleanupEffect.
  eapply members_nodup_heap; [apply depHeap_upd_effect|].
  apply (members_nodup_fold_upd_dep (λ _ _ D, with_members (set_delete e (members D)) D));
    [|done].
  intros _ _ D HD. by apply NoDup_set_delete.
Qed.

Lemma members_nodup_finalize_loop e l : ∀ kept s,
  members_nodup s → members_nodup (snd (finalize_loop e l kept s)).
Proof.
  induction l as [|d l IH]; intros kept s H; simpl; [done|].
  destruct (_ && _); apply IH;
    repeat (apply members_nodup_upd_dep;
            [intros D HD; simpl; first [by apply NoDup_set_delete|done]|]);
    done.
Qed.

Lemma members_nodup_run_enter e s : members_nodup s → members_nodup (run_enter e s).
Proof.
  intros H. unfold run_enter. cbv zeta. set (s4 := set_depth _ _ _).
  assert (H4 : members_nodup s4) by (by eapply members_nodup_heap).
  case_bool_decide.
  - unfold initDepMarkers.
    by apply (members_nodup_fold_upd_dep (λ s _ D, with_w (js_or (w D) (trackOpBit s)) D)).
  - by apply members_nodup_cleanupEffect.
Qed.

Lemma members_nodup_run_leave e b s : members_nodup s → members_nodup (run_leave e b s).
Proof.
  intros H. unfold run_leave. cbv zeta.
  set (s1 := if bool_decide _ then finalizeDepMarkers e s else s).
  assert (H1 : members_nodup s1).
  { unfold s1. case_bool_decide; [|done]. unfold finalizeDepMarkers.
    pose proof (members_nodup_finalize_loop e (deps (effect_at s e)) [] s H) as Hf.
    destruct (finalize_loop _ _ _ _) as [kept s']. simpl in Hf.
    eapply members_nodup_heap; [apply depHeap_upd_effect|done]. }
  eapply members_nodup_heap; [|exact H1]. by destruct s1.
Qed.

Lemma Exec_members_nodup s s' : Exec s s' → members_nodup s → members_nodup s'.
Proof.
  induction 1 as [s|s1 s2 s3 H12 IH12 H23 IH23|s s' Hsame Hcomp|e0 s|e0 s Hact|s|E s HE1 HE2
                  |d0 s|e0 s|e0 s|e0 s|e0 b s s2 Hact Hguard Hin IH]; intros H.
  - done.
  - auto.
  - destruct Hsame as (Hd & _). by eapply members_nodup_heap.
  - by eapply members_nodup_heap.
  - by eapply members_nodup_heap.
  - unfold members_nodup. simpl. apply Forall_app. split; [done|].
    apply Forall_singleton. apply NoDup_nil_2.
  - by eapply members_nodup_heap.
  - by apply members_nodup_trackEffects.
  - by apply members_nodup_cleanupEffect.
  - eapply members_nodup_heap; [apply depHeap_upd_effect|done].
  - eapply members_nodup_heap; [apply depHeap_upd_effect|done].
  - apply members_nodup_run_leave, IH.
    eapply members_nodup_heap; [apply depHeap_record|].
    by apply members_nodup_run_enter.
Qed.

Lemma members_nodup_initial isDev : members_nodup (initial_state isDev).
Proof. apply Forall_nil_2. Qed.

(** * What [trigger] fires *)

Lemma elem_of_createDep x l : x ∈ members (createDep l) ↔ x ∈ l.
Proof.
  unfold createDep. simpl.
  assert (H : ∀ acc, x ∈ foldl (λ acc e, set_add e acc) acc l ↔ x ∈ acc ∨ x ∈ l).
  { induction l as [|y l IH]; intros acc; simpl.
    - rewrite elem_of_nil. tauto.
    - rewrite IH, elem_of_set_add, elem_of_cons. tauto. }
  rewrite H, elem_of_nil. tauto.
Qed.

Lemma NoDup_createDep l : NoDup (members (createDep l)).
Proof.
  unfold createDep. simpl.
  assert (H : ∀ acc, NoDup acc → NoDup (foldl (λ acc e, set_add e acc) acc l)).
  { induction l as [|y l IH]; intros acc Hacc; simpl; [done|].
    by apply IH, NoDup_set_add. }
  apply H, NoDup_nil_2.
Qed.

(** The effects that [trigger] hands to [triggerEffects] are the members
    of the Deps collected, each once. *)
Lemma trigger_effects_spec s deps :
  members_nodup s →
  NoDup (default [] (trigger_effects s deps))
  ∧ ∀ e, e ∈ default [] (trigger_effects s deps)
         ↔ ∃ d, Some d ∈ deps ∧ e ∈ members (dep_at s d).
Proof.
  intros Hnd.
  assert (Hmulti :
    NoDup (members (createDep
            (flat_map (λ od, match od with Some d => members (dep_at s d) | None => [] end)
                      deps)))
    ∧ ∀ e, e ∈ members (createDep
            (flat_map (λ od, match od with Some d => members (dep_at s d) | None => [] end)
                      deps))
           ↔ ∃ d, Some d ∈ deps ∧ e ∈ members (dep_at s d)).
  { split; [apply NoDup_createDep|]. intros e. rewrite elem_of_createDep.
    rewrite list_elem_of_In, in_flat_map. split.
    - intros ([d|] & Hin & He); [|done]. exists d.
      by rewrite !list_elem_of_In.
    - intros (d & Hin & He). exists (Some d). by rewrite <- !list_elem_of_In. }
  unfold trigger_effects. destruct deps as [|[d|] [|od deps]]; try exact Hmulti.
  - simpl. split; [by apply members_nodup_at|]. intros e. split.
    + intros He. exists d. split; [apply list_elem_of_here|done].
    + intros (d' & Hd%list_elem_of_singleton & He). by injection Hd as ->.
Qed.

Lemma exec_members_nodup fuel p s v s' :
  members_nodup s → exec fuel p s = Done v s' → members_nodup s'.
Proof. intros H Hrun. apply exec_Exec in Hrun. by eapply Exec_members_nodup. Qed.

(** X11.  [trigger] on a target that was never tracked does nothing.
    Otherwise it hands to [triggerEffects] the members of the Deps it
    collected, each effect once also when it is a member of several of
    them; and when [trigger] returns, [triggerEffect] has gone on with
    every one of them that passes its test. *)
Theorem trigger_fires_each_subscriber_once fuel target type k newValue s depsMap deps :
  (depsMap_of s target = None → trigger (exec fuel) target type k newValue s = Done tt s)
  ∧ (WF s → members_nodup s →
     depsMap_of s target = Some depsMap →
     trigger_deps s target type k newValue depsMap = inr deps →
     trigger (exec fuel) target type k newValue s
     = fire_effects fuel (default [] (trigger_effects s deps)) s
     ∧ NoDup (default [] (trigger_effects s deps))
     ∧ (∀ e, e ∈ default [] (trigger_effects s deps)
             ↔ ∃ d, Some d ∈ deps ∧ e ∈ members (dep_at s d))
     ∧ (∀ u s', trigger (exec fuel) target type k newValue s = Done u s' →
          ∃ evs, trace s' = trace s ++ evs
                 ∧ ∀ e d, Some d ∈ deps → e ∈ members (dep_at s d) →
                          fires_on s e → EvFire e ∈ evs)).
Proof.
  split.
  - intros Hnone. unfold trigger. by rewrite Hnone.
  - intros HWF Hnd Hmap Hdeps.
    destruct (trigger_effects_spec s deps Hnd) as [Hnodup Hmem].
    assert (Heq : trigger (exec fuel) target type k newValue s
                  = fire_effects fuel (default [] (trigger_effects s deps)) s).
    { unfold trigger. rewrite Hmap, Hdeps. by destruct (trigger_effects s deps). }
    split_and!; try done.
    intros u s' H. rewrite Heq in H.
    destruct (triggerEffects_fires fuel _ _ _ _ HWF H) as (evs & Ht & Hfire).
    exists evs. split; [done|]. intros e d Hd He Hguard. apply Hfire; [|  |done].
    + apply Hmem. by exists d.
    + pose proof HWF as [Hl _ _ _]. unfold linked in Hl.
      by eapply deps_allocated, Hl.
Qed.

Lemma keys_read_invariants : WF keys_read ∧ members_nodup keys_read.
Proof.
  assert (H : exec 20 (keys_reader (λ _, Return VUndefined)) (initial_state false)
              = Done VUndefined keys_read) by (vm_compute; reflexivity).
  split.
  - by apply (exec_WF _ _ _ _ _ (WF_initial false) H).
  - by apply (exec_members_nodup _ _ _ _ _ (members_nodup_initial false) H).
Qed.

Example keys_read_registry :
  depsMap_of keys_read 0 = Some [(ITERATE_KEY, 0%nat); (KStr "a", 1%nat)]
  ∧ members (dep_at keys_read 0) = [0%nat] ∧ members (dep_at keys_read 1) = [0%nat].
Proof. vm_compute. done. Qed.

(** [trigger(target, DELETE, "a")] collects the Dep of ["a"] and the Dep
    of the iteration key; the effect is a member of both and is handed
    over once. *)
Lemma trigger_fires_each_subscriber_once_witness :
  trigger (exec 20) 0 DELETE (Some (KStr "a")) VUndefined keys_read
  = fire_effects 20 (default [] (trigger_effects keys_read [Some 1%nat; Some 0%nat])) keys_read
  ∧ NoDup (default [] (trigger_effects keys_read [Some 1%nat; Some 0%nat]))
  ∧ (∀ e, e ∈ default [] (trigger_effects keys_read [Some 1%nat; Some 0%nat])
          ↔ ∃ d, Some d ∈ [Some 1%nat; Some 0%nat] ∧ e ∈ members (dep_at keys_read d))
  ∧ (∀ u s', trigger (exec 20) 0 DELETE (Some (KStr "a")) VUndefined keys_read = Done u s' →
       ∃ evs, trace s' = trace keys_read ++ evs
              ∧ ∀ e d, Some d ∈ [Some 1%nat; Some 0%nat] → e ∈ members (dep_at keys_read d) →
                       fires_on keys_read e → EvFire e ∈ evs).
Proof.
  apply (proj2 (trigger_fires_each_subscriber_once 20 0 DELETE (Some (KStr "a")) VUndefined
                  keys_read [(ITERATE_KEY, 0%nat); (KStr "a", 1%nat)]
                  [Some 1%nat; Some 0%nat])).
  - apply keys_read_invariants.
  - apply keys_read_invariants.
  - vm_compute. reflexivity.
  - vm_compute. reflexivity.
Defined.

Example trigger_hands_over_once :
  trigger_effects keys_read [Some 1%nat; Some 0%nat] = Some [0%nat].
Proof. vm_compute. reflexivity. Qed.

(** * Writes through a reactive proxy *)

Lemma trigger_fires fuel target type k newValue s u s' depsMap deps :
  WF s → members_nodup s →
  depsMap_of s target = Some depsMap →
  trigger_deps s target type k newValue depsMap = inr deps →
  trigger (exec fuel) target type k newValue s = Done u s' →
  ∃ evs, trace s' = trace s ++ evs
         ∧ ∀ e d, Some d ∈ deps → e ∈ members (dep_at s d) → fires_on s e → EvFire e ∈ evs.
Proof.
  intros HWF Hnd Hmap Hdeps H.
  destruct (trigger_effects_spec s deps Hnd) as [_ Hmem].
  assert (Heq : trigger (exec fuel) target type k newValue s
                = fire_effects fuel (default [] (trigger_effects s deps)) s).
  { unfold trigger. rewrite Hmap, Hdeps. by destruct (trigger_effects s deps). }
  rewrite Heq in H.
  destruct (triggerEffects_fires fuel _ _ _ _ HWF H) as (evs & Ht & Hfire).
  exists evs. split; [done|]. intros e d Hd He Hguard. apply Hfire; [| |done].
  - apply Hmem. by exists d.
  - pose proof HWF as [Hl _ _ _]. unfold linked in Hl. by eapply deps_allocated, Hl.
Qed.

Lemma object_kind_upd_object o f s o' :
  (∀ O, isArr (f O) = isArr O ∧ isMp (f O) = isMp O) →
  isArr (object_at (upd_object o f s) o') = isArr (object_at s o')
  ∧ isMp (object_at (upd_object o f s) o') = isMp (object_at s o').
Proof.
  intros Hf. unfold object_at.
  replace (objHeap (upd_object o f s)) with (alter f o (objHeap s)) by (by destruct s).
  destruct (decide (o' = o)) as [->|Hne].
  - rewrite list_lookup_alter_eq. destruct (objHeap s !! o); simpl; [apply Hf|done].
  - by rewrite list_lookup_alter_ne.
Qed.

Lemma only_objects_upd_object o f s :
  (∀ O, isArr (f O) = isArr O ∧ isMp (f O) = isMp O) →
  only_objects s (upd_object o f s).
Proof.
  intros Hf. split; [by destruct s|]. intros o'. by apply object_kind_upd_object.
Qed.

Lemma only_objects_trans s1 s2 s3 : only_objects s1 s2 → only_objects s2 s3 → only_objects s1 s3.
Proof.
  intros [H1 K1] [H2 K2]. split.
  - rewrite H2, H1. by destruct s1.
  - intros o. destruct (K1 o), (K2 o). split; congruence.
Qed.

Lemma raw_set_only_objects o k v s s1 : raw_set o k v s = Some s1 → only_objects s s1.
Proof.
  unfold raw_set. intros H. destruct (_ && _).
  - destruct v; try done. case_bool_decide; [|done]. simplify_eq.
    by apply only_objects_upd_object.
  - destruct (array_index k); [destruct (_ && _)|]; simplify_eq.
    + eapply only_objects_trans; by apply only_objects_upd_object.
    + by apply only_objects_upd_object.
    + by apply only_objects_upd_object.
Qed.

Lemma raw_delete_only_objects o k s : only_objects s (snd (raw_delete o k s)).
Proof.
  unfold raw_delete. destruct (_ && _); simpl.
  - split; [by destruct s|done].
  - by apply only_objects_upd_object.
Qed.

(** What a change of the raw objects alone leaves as it is. *)
Lemma only_objects_views s s1 :
  only_objects s s1 →
  (∀ d, dep_at s1 d = dep_at s d) ∧ (∀ e, effect_at s1 e = effect_at s e)
  ∧ targetMap s1 = targetMap s ∧ activeEffect s1 = activeEffect s
  ∧ trace s1 = trace s ∧ depHeap s1 = depHeap s ∧ effectHeap s1 = effectHeap s
  ∧ (∀ o, isArray s1 o = isArray s o ∧ isMap s1 o = isMap s o)
  ∧ (∀ e, fires_on s1 e ↔ fires_on s e)
  ∧ (members_nodup s → members_nodup s1)
  ∧ Exec s s1.
Proof.
  intros [Heq Hkind].
  assert (Hd : depHeap s1 = depHeap s) by (rewrite Heq; by destruct s).
  assert (He : effectHeap s1 = effectHeap s) by (rewrite Heq; by destruct s).
  assert (Hm : targetMap s1 = targetMap s) by (rewrite Heq; by destruct s).
  assert (Ha : activeEffect s1 = activeEffect s) by (rewrite Heq; by destruct s).
  assert (Ht : trace s1 = trace s) by (rewrite Heq; by destruct s).
  assert (Hc : computedHeap s1 = computedHeap s) by (rewrite Heq; by destruct s).
  assert (Hk : effectTrackDepth s1 = effectTrackDepth s) by (rewrite Heq; by destruct s).
  assert (Hb : trackOpBit s1 = trackOpBit s) by (rewrite Heq; by destruct s).
  split_and!; try done.
  - intros d. by apply dep_at_heap.
  - intros e. by apply effect_at_heap.
  - intros e. unfold fires_on. by rewrite Ha, (effect_at_heap s s1).
  - by apply members_nodup_heap.
  - apply Exec_other; [by repeat split|]. by apply keeps_computed_heap.
Qed.

(** The [set] trap for a new value that is no object, on a property that
    holds no ref. *)
Lemma createSetter_plain call shallow target k v s :
  isObject v = false → isRef (raw_get s target k) = false →
  createSetter call shallow target k v s
  = match raw_set target k v s with
    | None => Fail Unmodelled
    | Some s1 =>
        if negb (hadKey s target k) then
          bind (trigger call target ADD (Some k) v s1) (λ _ s2, Done true s2)
        else if hasChanged v (compared_old shallow s target k) then
          bind (trigger call target SET (Some k) v s1) (λ _ s2, Done true s2)
        else Done true s1
    end.
Proof.
  intros Hv Hold. unfold createSetter, hadKey, compared_old. rewrite Hold.
  rewrite andb_false_r. simpl.
  assert (Hraw : isRef (toRaw (raw_get s target k)) = false)
    by (by destruct (raw_get s target k)).
  destruct shallow; simpl.
  - by rewrite ?andb_false_r.
  - destruct v; try discriminate; simpl; rewrite Hraw, ?andb_false_r; done.
Qed.

(** The Deps that the [set] trap has [trigger] collect for a key other
    than the [length] of an array. *)
Lemma trigger_deps_set_or_add s target k newValue depsMap (isAdd : bool) :
  ¬ (k = KStr "length" ∧ isArray s target = true) →
  ∃ deps, trigger_deps s target (if isAdd then ADD else SET) (Some k) newValue depsMap
          = inr deps
          ∧ (∀ d, map_get k depsMap = Some d → Some d ∈ deps)
          ∧ (∀ d, isAdd = true → isArray s target = false →
                  map_get ITERATE_KEY depsMap = Some d → Some d ∈ deps)
          ∧ (∀ d, isAdd = true → isArray s target = true → isIntegerKey k = true →
                  map_get (KStr "length") depsMap = Some d → Some d ∈ deps).
Proof.
  intros Hnl.
  assert (Hc : bool_decide (Some k = Some (KStr "length")) && isArray s target = false).
  { destruct (isArray s target) eqn:Harr; [|by rewrite andb_false_r].
    rewrite andb_true_r. apply bool_decide_eq_false_2. intros [= ->]. by apply Hnl. }
  unfold trigger_deps. destruct isAdd; rewrite Hc; eexists; (split; [reflexivity|]).
  - split_and!.
    + intros d ->. apply list_elem_of_here.
    + intros d _ -> ->. simpl. apply list_elem_of_further, list_elem_of_here.
    + intros d _ -> -> ->. simpl. apply list_elem_of_further, list_elem_of_here.
  - split_and!; [|done|done]. intros d ->. apply list_elem_of_here.
Qed.

(** X12.  The [set] trap of a reactive proxy, for a new value that is no
    object and a property that holds no ref.  Writing to an existing key
    the value it has fires nothing: only the raw objects may differ
    afterwards.  Writing a different value, or a new key, fires every
    effect subscribed to the Dep of the key; a new key of a plain object
    also fires the effects subscribed to the iteration key, and a new
    index of an array those subscribed to [length]. *)
Theorem set_trap_fires_subscribers fuel shallow target k v s :
  isObject v = false → isRef (raw_get s target k) = false →
  WF s → members_nodup s →
  (hadKey s target k = true → hasChanged v (compared_old shallow s target k) = false →
   ∀ b s', createSetter (exec fuel) shallow target k v s = Done b s' →
           b = true ∧ only_objects s s')
  ∧ (hadKey s target k = false ∨ hasChanged v (compared_old shallow s target k) = true →
     ¬ (k = KStr "length" ∧ isArray s target = true) →
     ∀ b s', createSetter (exec fuel) shallow target k v s = Done b s' →
       b = true
       ∧ ∃ evs, trace s' = trace s ++ evs
          ∧ ∀ depsMap d e,
              depsMap_of s target = Some depsMap →
              e ∈ members (dep_at s d) → fires_on s e →
              map_get k depsMap = Some d
              ∨ (hadKey s target k = false ∧ isArray s target = false
                 ∧ map_get ITERATE_KEY depsMap = Some d)
              ∨ (hadKey s target k = false ∧ isArray s target = true
                 ∧ isIntegerKey k = true ∧ map_get (KStr "length") depsMap = Some d) →
              EvFire e ∈ evs).
Proof.
  intros Hv Hold HWF Hnd. split.
  - intros Hhad Hsame b s' H. rewrite createSetter_plain in H by done.
    destruct (raw_set target k v s) as [s1|] eqn:Hset; [|done].
    rewrite Hhad, Hsame in H. simpl in H. inv_done.
    split; [done|]. by eapply raw_set_only_objects.
  - intros Hfire Hnl b s' H. rewrite createSetter_plain in H by done.
    destruct (raw_set target k v s) as [s1|] eqn:Hset; [|done].
    destruct (only_objects_views s s1 (raw_set_only_objects _ _ _ _ _ Hset))
      as (Hd1 & He1 & Hm1 & Ha1 & Ht1 & _ & _ & Hk1 & Hf1 & Hn1 & HE1).
    destruct (Exec_WF _ _ HE1 HWF) as [HWF1 _].
    assert (Hnl1 : ¬ (k = KStr "length" ∧ isArray s1 target = true)).
    { intros [-> Harr]. apply Hnl. split; [done|]. by rewrite <- (proj1 (Hk1 target)). }
    assert (Hgo : ∀ (isAdd : bool) u,
      trigger (exec fuel) target (if isAdd then ADD else SET) (Some k) v s1 = Done u s' →
      negb (hadKey s target k) = isAdd →
      ∃ evs, trace s' = trace s ++ evs
        ∧ ∀ depsMap d e,
            depsMap_of s target = Some depsMap →
            e ∈ members (dep_at s d) → fires_on s e →
            map_get k depsMap = Some d
            ∨ (hadKey s target k = false ∧ isArray s target = false
               ∧ map_get ITERATE_KEY depsMap = Some d)
            ∨ (hadKey s target k = false ∧ isArray s target = true
               ∧ isIntegerKey k = true ∧ map_get (KStr "length") depsMap = Some d) →
            EvFire e ∈ evs).
    { intros isAdd u Htr Hadd.
      destruct (depsMap_of s target) as [depsMap|] eqn:Hmap.
      - destruct (trigger_deps_set_or_add s1 target k v depsMap isAdd Hnl1)
          as (deps & Hdeps & Hkey & Hiter & Hlen).
        assert (Hmap1 : depsMap_of s1 target = Some depsMap)
          by (unfold depsMap_of in *; by rewrite Hm1).
        destruct (trigger_fires fuel _ _ _ _ _ _ _ _ _ HWF1 (Hn1 Hnd) Hmap1 Hdeps Htr)
          as (evs & Ht & Hev).
        exists evs. split; [by rewrite Ht, Ht1|].
        intros depsMap' d e [= <-] Hin Hguard Hcase.
        apply (Hev e d); [|by rewrite Hd1|by apply Hf1].
        destruct Hcase as [Hk|[(Hh & Harr & Hi)|(Hh & Harr & Hint & Hl)]].
        + by apply Hkey.
        + apply Hiter; [by rewrite <- Hadd, Hh|by rewrite (proj1 (Hk1 target))|done].
        + apply Hlen; [by rewrite <- Hadd, Hh|by rewrite (proj1 (Hk1 target))|done|done].
      - unfold trigger in Htr.
        assert (Hmap1 : depsMap_of s1 target = None)
          by (unfold depsMap_of in *; by rewrite Hm1).
        rewrite Hmap1 in Htr. inv_done. exists []. rewrite app_nil_r.
        split; [done|]. intros depsMap d e [=]. }
    destruct (hadKey s target k) eqn:Hhad; simpl in H.
    + destruct Hfire as [?|Hch]; [done|]. rewrite Hch in H.
      inv_bind H. inv_done. split; [done|]. by apply (Hgo false a).
    + inv_bind H. inv_done. split; [done|]. by apply (Hgo true a).
Qed.

Lemma set_trap_fires_subscribers_witness :
  ∃ s', createSetter (exec 20) false 0 (KStr "b") (VNum 2) keys_read = Done true s'
        ∧ ∃ evs, trace s' = trace keys_read ++ evs
           ∧ ∀ depsMap d e,
               depsMap_of keys_read 0 = Some depsMap →
               e ∈ members (dep_at keys_read d) → fires_on keys_read e →
               map_get (KStr "b") depsMap = Some d
               ∨ (hadKey keys_read 0 (KStr "b") = false ∧ isArray keys_read 0 = false
                  ∧ map_get ITERATE_KEY depsMap = Some d)
               ∨ (hadKey keys_read 0 (KStr "b") = false ∧ isArray keys_read 0 = true
                  ∧ isIntegerKey (KStr "b") = true
                  ∧ map_get (KStr "length") depsMap = Some d) →
               EvFire e ∈ evs.
Proof.
  eexists. split; [vm_compute; reflexivity|].
  destruct (set_trap_fires_subscribers 20 false 0 (KStr "b") (VNum 2) keys_read)
    as [_ Hfire].
  - reflexivity.
  - vm_compute. reflexivity.
  - apply keys_read_invariants.
  - apply keys_read_invariants.
  - eapply Hfire.
    + left. vm_compute. reflexivity.
    + intros [[=] _].
    + vm_compute. reflexivity.
Defined.

(** [o.b = 2] runs the effect that enumerated the keys of [o], [o.a = 1]
    does not run it, [o.a = 3] does. *)
Example keys_reader_log :
  out (final_of (exec 30
         (keys_reader (λ o,
            Set_ o (KStr "b") (VNum 2) (λ _,
            Set_ o (KStr "a") (VNum 1) (λ _,
            Set_ o (KStr "a") (VNum 3) (λ _, Return VUndefined)))))
         (initial_state false)))
  = [VNum 1; VNum 1; VNum 3].
Proof. vm_compute. reflexivity. Qed.

(** An effect that reads [arr.length] runs again when an index past the
    end is assigned, and not when an element is overwritten. *)
Example length_reader_log :
  out (final_of (exec 30
         (array_reader [KStr "length"] (λ arr,
            Set_ arr (KStr "0") (VNum 11) (λ _,
            Set_ arr (KStr "3") (VNum 40) (λ _, Return VUndefined))))
         (initial_state false)))
  = [VStr "read"; VStr "read"].
Proof. vm_compute. reflexivity. Qed.

(** * Deleting through a reactive proxy *)

Lemma alist_get_delete k l : alist_get k (alist_delete k l) = None.
Proof.
  unfold alist_delete. induction l as [|[k' v'] l IH]; [done|].
  rewrite filter_cons. simpl. destruct (decide (k' ≠ k)) as [Hne|Heq].
  - simpl. by rewrite bool_decide_eq_false_2.
  - done.
Qed.

Lemma object_at_upd_object_eq o f s :
  (o < length (objHeap s))%nat → object_at (upd_object o f s) o = f (object_at s o).
Proof.
  intros Hlt. unfold object_at.
  replace (objHeap (upd_object o f s)) with (alter f o (objHeap s)) by (by destruct s).
  rewrite list_lookup_alter_eq. by destruct (lookup_lt_is_Some_2 _ _ Hlt) as [O ->].
Qed.

(** After [Reflect.deleteProperty] the target has no such own property. *)
Lemma raw_delete_removes target k s :
  (target < length (objHeap s))%nat →
  fst (raw_delete target k s) = true →
  hasOwn (snd (raw_delete target k s)) target k = false
  ∧ raw_get (snd (raw_delete target k s)) target k = VUndefined.
Proof.
  intros Hlt. unfold raw_delete.
  destruct (isArr (object_at s target) && bool_decide (k = KStr "length")) eqn:Hc;
    simpl; [done|]. intros _.
  unfold hasOwn, raw_get. rewrite object_at_upd_object_eq by done. simpl.
  rewrite Hc, alist_get_delete. by simpl.
Qed.

Lemma trigger_deps_delete s target k depsMap :
  ¬ (k = KStr "length" ∧ isArray s target = true) →
  ∃ deps, trigger_deps s target DELETE (Some k) VUndefined depsMap = inr deps
          ∧ (∀ d, map_get k depsMap = Some d → Some d ∈ deps)
          ∧ (∀ d, isArray s target = false →
                  map_get ITERATE_KEY depsMap = Some d → Some d ∈ deps).
Proof.
  intros Hnl.
  assert (Hc : bool_decide (Some k = Some (KStr "length")) && isArray s target = false).
  { destruct (isArray s target) eqn:Harr; [|by rewrite andb_false_r].
    rewrite andb_true_r. apply bool_decide_eq_false_2. intros [= ->]. by apply Hnl. }
  unfold trigger_deps. rewrite Hc. eexists. split; [reflexivity|]. split.
  - intros d ->. apply list_elem_of_here.
  - intros d -> ->. simpl. apply list_elem_of_further, list_elem_of_here.
Qed.

(** X13.  The [deleteProperty] trap of a reactive proxy.  Deleting a key
    the target does not have returns [true] and fires nothing; deleting
    the [length] of an array returns [false] and changes nothing.
    Deleting an own property returns [true]; the property is gone when
    [trigger] is called, and when the trap returns every effect subscribed
    to the Dep of the key, and for a target that is no array to the
    iteration key, has been fired. *)
Theorem deleteProperty_fires_subscribers fuel target k s :
  WF s → members_nodup s → (target < length (objHeap s))%nat →
  (hasOwn s target k = false →
   ∃ s1, deleteProperty (exec fuel) target k s = Done true s1 ∧ only_objects s s1)
  ∧ (isArray s target = true →
     deleteProperty (exec fuel) target (KStr "length") s = Done false s)
  ∧ (hasOwn s target k = true → ¬ (k = KStr "length" ∧ isArray s target = true) →
     hasOwn (snd (raw_delete target k s)) target k = false
     ∧ raw_get (snd (raw_delete target k s)) target k = VUndefined
     ∧ deleteProperty (exec fuel) target k s
       = bind (trigger (exec fuel) target DELETE (Some k) VUndefined
                 (snd (raw_delete target k s)))
              (λ _ s2, Done true s2)
     ∧ ∀ b s', deleteProperty (exec fuel) target k s = Done b s' →
         b = true
         ∧ ∃ evs, trace s' = trace s ++ evs
            ∧ ∀ depsMap d e,
                depsMap_of s target = Some depsMap →
                e ∈ members (dep_at s d) → fires_on s e →
                map_get k depsMap = Some d
                ∨ (isArray s target = false ∧ map_get ITERATE_KEY depsMap = Some d) →
                EvFire e ∈ evs).
Proof.
  intros HWF Hnd Hlt.
  assert (Hres : ¬ (k = KStr "length" ∧ isArray s target = true) →
                 fst (raw_delete target k s) = true).
  { intros Hnl. unfold raw_delete.
    destruct (isArr (object_at s target) && bool_decide (k = KStr "length")) eqn:Hc; [|done].
    apply andb_true_iff in Hc as [Harr Hk%bool_decide_eq_true]. by destruct Hnl. }
  split_and!.
  - intros Hno. unfold deleteProperty. rewrite Hno.
    pose proof (raw_delete_only_objects target k s) as Ho.
    assert (Hfst : fst (raw_delete target k s) = true).
    { apply Hres. intros [-> Harr]. unfold hasOwn, isArray in *. by rewrite Harr in Hno. }
    destruct (raw_delete target k s) as [r s1]. simpl in *. subst r.
    exists s1. by rewrite andb_false_r.
  - intros Harr. unfold deleteProperty, raw_delete. unfold isArray in Harr.
    rewrite Harr. by rewrite bool_decide_eq_true_2.
  - intros Hown Hnl. specialize (Hres Hnl).
    destruct (raw_delete_removes target k s Hlt Hres) as [Hgone Hundef].
    pose proof (raw_delete_only_objects target k s) as Ho.
    assert (Heq : deleteProperty (exec fuel) target k s
       = bind (trigger (exec fuel) target DELETE (Some k) VUndefined
                 (snd (raw_delete target k s)))
              (λ _ s2, Done true s2)).
    { unfold deleteProperty. rewrite Hown.
      destruct (raw_delete target k s) as [r s1]. simpl in *. by subst r. }
    split_and!; try done.
    intros b s' H. rewrite Heq in H. inv_bind H. inv_done. split; [done|].
    set (s1 := snd (raw_delete target k s)) in *.
    destruct (only_objects_views s s1 Ho)
      as (Hd1 & He1 & Hm1 & Ha1 & Ht1 & _ & _ & Hk1 & Hf1 & Hn1 & HE1).
    destruct (Exec_WF _ _ HE1 HWF) as [HWF1 _].
    destruct (depsMap_of s target) as [depsMap|] eqn:Hmap.
    + destruct (trigger_deps_delete s1 target k depsMap) as (deps & Hdeps & Hkey & Hiter).
      { intros [-> Harr]. apply Hnl. split; [done|]. by rewrite <- (proj1 (Hk1 target)). }
      assert (Hmap1 : depsMap_of s1 target = Some depsMap)
        by (unfold depsMap_of in *; by rewrite Hm1).
      destruct (trigger_fires fuel _ _ _ _ _ _ _ _ _ HWF1 (Hn1 Hnd) Hmap1 Hdeps H0)
        as (evs & Ht & Hev).
      exists evs. split; [by rewrite Ht, Ht1|].
      intros depsMap' d e [= <-] Hin Hguard Hcase.
      apply (Hev e d); [|by rewrite Hd1|by apply Hf1].
      destruct Hcase as [Hk|[Harr Hi]]; [by apply Hkey|].
      apply Hiter; [by rewrite (proj1 (Hk1 target))|done].
    + unfold trigger in H0.
      assert (Hmap1 : depsMap_of s1 target = None)
        by (unfold depsMap_of in *; by rewrite Hm1).
      rewrite Hmap1 in H0. inv_done. exists []. rewrite app_nil_r.
      split; [done|]. intros depsMap d e [=].
Qed.

Lemma deleteProperty_fires_subscribers_witness :
  (∃ s1, deleteProperty (exec 20) 0 (KStr "b") keys_read = Done true s1
         ∧ only_objects keys_read s1)
  ∧ ∃ s', deleteProperty (exec 20) 0 (KStr "a") keys_read = Done true s'
          ∧ ∃ evs, trace s' = trace keys_read ++ evs
             ∧ ∀ depsMap d e,
                 depsMap_of keys_read 0 = Some depsMap →
                 e ∈ members (dep_at keys_read d) → fires_on keys_read e →
                 map_get (KStr "a") depsMap = Some d
                 ∨ (isArray keys_read 0 = false ∧ map_get ITERATE_KEY depsMap = Some d) →
                 EvFire e ∈ evs.
Proof.
  split.
  - destruct (deleteProperty_fires_subscribers 20 0 (KStr "b") keys_read)
      as (Hmissing & _); [apply keys_read_invariants..|vm_compute; lia|].
    apply Hmissing. vm_compute. reflexivity.
  - eexists. split; [vm_compute; reflexivity|].
    destruct (deleteProperty_fires_subscribers 20 0 (KStr "a") keys_read)
      as (_ & _ & Hown); [apply keys_read_invariants..|vm_compute; lia|].
    destruct Hown as (_ & _ & _ & Hfire).
    + vm_compute. reflexivity.
    + intros [[=] _].
    + eapply Hfire. vm_compute. reflexivity.
Defined.

(** [delete o.a] runs the effect of the scenario again, which logs
    [undefined]; [delete o.b], for a key that [o] does not have, does
    not. *)
Example keys_reader_delete_log :
  out (final_of (exec 30
         (keys_reader (λ o,
            DeleteProperty o (KStr "b") (λ _,
            DeleteProperty o (KStr "a") (λ _, Return VUndefined))))
         (initial_state false)))
  = [VNum 1; VUndefined].
Proof. vm_compute. reflexivity. Qed.

(** * Notifying the subscribers of a ref or a computed *)

Lemma triggerRefValue_fires fuel rb s u s' :
  WF s → triggerRefValue (exec fuel) rb s = Done u s' →
  ∃ evs, trace s' = trace s ++ evs
         ∧ ∀ d e, dep_of s rb = Some d → e ∈ members (dep_at s d) →
                  fires_on s e → EvFire e ∈ evs.
Proof.
  intros HWF H. unfold triggerRefValue in H.
  destruct (dep_of s rb) as [d|] eqn:Hd.
  - destruct (triggerEffects_fires fuel _ _ _ _ HWF H) as (evs & Ht & Hfire).
    exists evs. split; [done|]. intros d' e [= <-] Hin Hguard.
    apply Hfire; [done| |done].
    pose proof HWF as [Hl _ _ _]. unfold linked in Hl.
    by eapply deps_allocated, Hl.
  - inv_done. exists []. split; [by rewrite app_nil_r|]. intros d e [=].
Qed.

Lemma c_dep_with_dirty c b s c' :
  c_dep (computed_at (upd_computed c (with_dirty b) s) c') = c_dep (computed_at s c').
Proof. by apply (computed_field_upd_computed c_dep). Qed.

(** X14.  The scheduler of a computed's effect.  On a computed whose
    cached value is valid it sets [_dirty] and then calls
    [triggerRefValue]: when it returns, every effect subscribed to the
    Dep of the computed has been fired.  On a computed that is dirty
    already it does nothing, so that the changes of its sources between
    two reads notify the subscribers once. *)
Theorem computed_scheduler_notifies_once fuel c s :
  WF s →
  (_dirty (computed_at s c) = true → computed_scheduler (exec fuel) c s = Done tt s)
  ∧ (_dirty (computed_at s c) = false → (c < length (computedHeap s))%nat →
     _dirty (computed_at (upd_computed c (with_dirty true) s) c) = true
     ∧ computed_scheduler (exec fuel) c s
       = triggerRefValue (exec fuel) (OfComputed c) (upd_computed c (with_dirty true) s)
     ∧ ∀ u s', computed_scheduler (exec fuel) c s = Done u s' →
         ∃ evs, trace s' = trace s ++ evs
                ∧ ∀ d e, c_dep (computed_at s c) = Some d → e ∈ members (dep_at s d) →
                         fires_on s e → EvFire e ∈ evs).
Proof.
  intros HWF. split.
  - intros Hd. unfold computed_scheduler. by rewrite Hd.
  - intros Hd Hc.
    assert (Heq : computed_scheduler (exec fuel) c s
       = triggerRefValue (exec fuel) (OfComputed c) (upd_computed c (with_dirty true) s))
      by (unfold computed_scheduler; by rewrite Hd).
    split_and!; [|done|].
    + unfold computed_at.
      replace (computedHeap (upd_computed c (with_dirty true) s))
        with (alter (with_dirty true) c (computedHeap s)) by (by destruct s).
      rewrite list_lookup_alter_eq.
      by destruct (lookup_lt_is_Some_2 _ _ Hc) as [C ->].
    + intros u s' H. rewrite Heq in H.
      set (s1 := upd_computed c (with_dirty true) s) in *.
      assert (HE1 : Exec s s1) by (unfold s1; other).
      destruct (Exec_WF _ _ HE1 HWF) as [HWF1 Hf1].
      destruct (triggerRefValue_fires fuel _ _ _ _ HWF1 H) as (evs & Ht & Hfire).
      exists evs. split; [rewrite Ht; by destruct s|].
      intros d e Hdep Hin Hguard.
      pose proof HWF as [Hl _ _ _]. unfold linked in Hl.
      pose proof (deps_allocated _ _ _ (proj1 (Hl e d) Hin)) as He.
      apply (Hfire d e).
      * simpl. unfold s1. by rewrite c_dep_with_dirty.
      * by rewrite (dep_at_heap s s1) by (by destruct s).
      * eapply fires_on_keeps; [done|by apply Exec_keeps|done..].
Qed.

Lemma WF_computed_watched : WF computed_watched.
Proof.
  assert (H : exec 20 (computed_watcher (λ _ _, Return VUndefined)) (initial_state false)
              = Done VUndefined computed_watched) by (vm_compute; reflexivity).
  by apply (exec_WF _ _ _ _ _ (WF_initial false) H).
Qed.

Lemma computed_scheduler_notifies_once_witness :
  ∃ s', computed_scheduler (exec 20) 0 computed_watched = Done tt s'
        ∧ ∃ evs, trace s' = trace computed_watched ++ evs
                 ∧ ∀ d e, c_dep (computed_at computed_watched 0) = Some d →
                          e ∈ members (dep_at computed_watched d) →
                          fires_on computed_watched e → EvFire e ∈ evs.
Proof.
  eexists. split; [vm_compute; reflexivity|].
  destruct (computed_scheduler_notifies_once 20 0 computed_watched WF_computed_watched)
    as [_ Hclean].
  destruct Hclean as (_ & _ & Hfire); [vm_compute; reflexivity|vm_compute; lia|].
  eapply Hfire. vm_compute. reflexivity.
Defined.

(** The effect of the scenario is subscribed to the computed, whose own
    effect is subscribed to the ref: a write to the ref makes the effect
    log the new value. *)
Example computed_watcher_log :
  out (final_of (exec 30
         (computed_watcher (λ r c, SetValue r (VNum 5) (Return VUndefined)))
         (initial_state false)))
  = [VNum 1; VNum 5].
Proof. vm_compute. reflexivity. Qed.

(** * [triggerRef] *)

Lemma refHeap_trackEffects d s : refHeap (trackEffects d s) = refHeap s.
Proof.
  unfold trackEffects. destruct (activeEffect s) as [a|]; [|done].
  destruct (depHeap s !! d); [|done].
  repeat (case_bool_decide || destruct (negb _) || destruct (newTracked _ _)
          || destruct (wasTracked _ _)); by destruct s.
Qed.

Lemma members_upd_dep_mono d f s d' e :
  (∀ D, e ∈ members D → e ∈ members (f D)) →
  e ∈ members (dep_at s d') → e ∈ members (dep_at (upd_dep d f s) d').
Proof.
  intros Hf Hin. destruct (decide (d' = d)) as [->|Hne].
  - pose proof (members_allocated _ _ _ Hin) as Hlt.
    rewrite dep_at_upd_dep_eq by done. by apply Hf.
  - by rewrite dep_at_upd_dep_ne.
Qed.

(** [trackEffects] takes no effect out of a Dep. *)
Lemma members_trackEffects_mono d s d' e :
  e ∈ members (dep_at s d') → e ∈ members (dep_at (trackEffects d s) d').
Proof.
  intros Hin. unfold trackEffects. destruct (activeEffect s) as [a|]; [|done].
  destruct (depHeap s !! d); [|done].
  assert (H0 : e ∈ members (dep_at (record (EvTrack a d) s) d'))
    by (by rewrite dep_at_record).
  repeat (case_bool_decide || destruct (negb _) || destruct (newTracked _ _)
          || destruct (wasTracked _ _));
    repeat first [ assumption
                 | rewrite dep_at_upd_effect
                 | apply members_upd_dep_mono;
                   [intros D HD; simpl; first [apply elem_of_set_add; by right|done]|] ].
Qed.

(** X15.  [triggerRef(r)] fires the subscribers of a ref whether or not
    its value has changed: when it returns, [triggerEffect] has gone on
    with every effect that was subscribed to the Dep of [r], the active
    effect excepted unless it allows recursion. *)
Theorem triggerRef_fires_subscribers fuel r s u s' :
  WF s → triggerRef (exec fuel) (VRef r) s = Done u s' →
  ∃ evs, trace s' = trace s ++ evs
         ∧ ∀ d e, ref_dep (ref_at s r) = Some d → e ∈ members (dep_at s d) →
                  fires_on s e → EvFire e ∈ evs.
Proof.
  intros HWF H. unfold triggerRef in H. simpl in H.
  set (s1 := if dev s then trackRefValue (OfRef r) s else s).
  assert (H1 : triggerRefValue (exec fuel) (OfRef r) s1 = Done u s').
  { unfold s1. destruct (dev s); [|done]. unfold RefImpl_get in H. by simpl in H. }
  assert (HE1 : Exec s s1).
  { unfold s1. destruct (dev s); [apply trackRefValue_Exec|apply Exec_refl]. }
  destruct (Exec_WF _ _ HE1 HWF) as [HWF1 Hf1].
  destruct (Exec_trace _ _ HE1 HWF) as [evs0 Ht0].
  destruct (triggerRefValue_fires fuel _ _ _ _ HWF1 H1) as (evs & Ht & Hfire).
  exists (evs0 ++ evs). split; [by rewrite Ht, Ht0, app_assoc|].
  intros d e Hdep Hin Hguard. apply elem_of_app. right.
  pose proof HWF as [Hl _ _ _]. unfold linked in Hl.
  pose proof (deps_allocated _ _ _ (proj1 (Hl e d) Hin)) as He.
  apply (Hfire d e).
  - simpl. unfold s1. destruct (dev s); [|done].
    unfold trackRefValue. destruct (_ && _); [|done]. simpl. rewrite Hdep.
    unfold ref_at. by rewrite refHeap_trackEffects.
  - unfold s1. destruct (dev s); [|done].
    unfold trackRefValue. destruct (_ && _); [|done]. simpl. rewrite Hdep.
    by apply members_trackEffects_mono.
  - eapply fires_on_keeps; [done|by apply Exec_keeps|done..].
Qed.

Lemma triggerRef_fires_subscribers_witness :
  ∃ s', triggerRef (exec 20) (VRef 0) ref_logged = Done tt s'
        ∧ ∃ evs, trace s' = trace ref_logged ++ evs
                 ∧ ∀ d e, ref_dep (ref_at ref_logged 0) = Some d →
                          e ∈ members (dep_at ref_logged d) →
                          fires_on ref_logged e → EvFire e ∈ evs.
Proof.
  eexists. split; [vm_compute; reflexivity|].
  eapply (triggerRef_fires_subscribers 20 0 ref_logged); [apply WF_ref_logged|].
  vm_compute. reflexivity.
Defined.

(** A write of the value the ref holds is dropped, [triggerRef] is not:
    the effect of the scenario logs the value a second time. *)
Example triggerRef_log :
  out (final_of (exec 30
        (ref_logger (VNum 1) (λ r, SetValue r (VNum 1) (TriggerRef r (Return VUndefined))))
        (initial_state false)))
  = [VNum 1; VNum 1]
  ∧ out (final_of (exec 30
        (ref_logger (VNum 1) (λ r, SetValue r (VNum 1) (Return VUndefined)))
        (initial_state false)))
    = [VNum 1].
Proof. vm_compute. split; reflexivity. Qed.

(** * [effect]: the first run *)

(** X16.  [effect(fn, options)] allocates a new effect.  With [lazy] it
    returns without calling [fn]: the graph of Deps and the trace are as
    before.  Without [lazy] it has called [run] before it returns, and
    [fn] has been called exactly once unless it stopped its own effect. *)
Theorem effect_runs_once_unless_lazy fuel fn sched rec onStop s :
  WF s →
  (∃ s1, effect_ (exec fuel) fn true sched rec onStop s = Done (length (effectHeap s)) s1
         ∧ depHeap s1 = depHeap s ∧ trace s1 = trace s
         ∧ deps (effect_at s1 (length (effectHeap s))) = []
         ∧ active (effect_at s1 (length (effectHeap s))) = true)
  ∧ (∀ e s', effect_ (exec fuel) fn false sched rec onStop s = Done e s' →
       e = length (effectHeap s)
       ∧ (active (effect_at s' e) = true → run_count e s' = S (run_count e s))).
Proof.
  intros HWF. unfold effect_, new_ReactiveEffect.
  set (E := mkEffect true [] None None rec false onStop fn sched).
  set (s1 := set_effectHeap (effectHeap s ++ [E]) s).
  destruct (WF_alloc_effect E s eq_refl eq_refl HWF) as [HWF1 Hf1]. fold s1 in HWF1, Hf1.
  assert (HE : effect_at s1 (length (effectHeap s)) = E) by apply effect_at_alloc_new.
  split.
  - exists s1. simpl. rewrite HE. by destruct s.
  - intros e s' H. simpl in H. inv_bind H. inv_done. split; [done|].
    intros Hact.
    assert (Hnrun : ¬ running s1 (length (effectHeap s))).
    { intros Hrun. apply (running_frame_inv s s1) in Hrun; [|done..].
      apply running_allocated in Hrun. lia. }
    assert (Hact1 : active (effect_at s1 (length (effectHeap s))) = true)
      by (by rewrite HE).
    rewrite (run_effect_once fuel _ s1 a s' HWF1 Hact1 Hnrun H0 Hact).
    reflexivity.
Qed.

Lemma effect_runs_once_unless_lazy_witness :
  ∃ s', effect_ (exec 20) (GetValue (VRef 0) (λ v, Log v (Return VUndefined)))
                false None false None ref_logged = Done 1%nat s'
        ∧ run_count 1 s' = S (run_count 1 ref_logged).
Proof.
  eexists. split; [vm_compute; reflexivity|].
  destruct (effect_runs_once_unless_lazy 20
              (GetValue (VRef 0) (λ v, Log v (Return VUndefined)))
              None false None ref_logged WF_ref_logged) as [_ Heager].
  refine (proj2 (Heager 1%nat _ _) _); vm_compute; reflexivity.
Defined.

(** A lazy effect logs nothing until its runner is called. *)
Example lazy_effect_log :
  out (final_of (exec 20
        (Effect (Log (VStr "run") (Return VUndefined)) true None false None
                (λ _, Return VUndefined)) (initial_state false))) = []
  ∧ out (final_of (exec 20
        (Effect (Log (VStr "run") (Return VUndefined)) true None false None
                (λ e, CallRunner e (λ _, Return VUndefined))) (initial_state false)))
    = [VStr "run"].
Proof. vm_compute. split; reflexivity. Qed.

(** * [trigger] on a collection *)

Lemma trigger_deps_map s target type k newValue depsMap :
  isArray s target = false → isMap s target = true → type ≠ CLEAR →
  ∃ deps, trigger_deps s target type (Some k) newValue depsMap = inr deps
          ∧ (∀ d, map_get k depsMap = Some d → Some d ∈ deps)
          ∧ (∀ d, map_get ITERATE_KEY depsMap = Some d → Some d ∈ deps)
          ∧ (∀ d, type ≠ SET → map_get MAP_KEY_ITERATE_KEY depsMap = Some d → Some d ∈ deps).
Proof.
  intros Harr Hmap Hty. unfold trigger_deps. rewrite Harr, Hmap, andb_false_r. simpl.
  destruct type; [| | |done]; (eexists; split; [reflexivity|]); split_and!.
  all: try (intros d ->; apply list_elem_of_here).
  all: try (intros d ->; apply list_elem_of_further, list_elem_of_here).
  all: try (intros d Hne; try done; intros ->;
            apply list_elem_of_further, list_elem_of_further, list_elem_of_here).
Qed.

(** X17.  [trigger] for the operations of a collection.  [CLEAR] fires the
    subscribers of every Dep registered for the target.  On a [Map], [ADD]
    and [DELETE] fire the subscribers of the key, of the iteration key
    and of the key-iteration key; [SET] fires those of the key and of
    the iteration key, and not on account of the key-iteration key. *)
Theorem trigger_on_a_collection fuel target type k newValue s depsMap :
  WF s → members_nodup s → depsMap_of s target = Some depsMap →
  (∀ ok u s', trigger (exec fuel) target CLEAR ok newValue s = Done u s' →
     ∃ evs, trace s' = trace s ++ evs
            ∧ ∀ key d e, (key, d) ∈ depsMap → e ∈ members (dep_at s d) →
                         fires_on s e → EvFire e ∈ evs)
  ∧ (isArray s target = false → isMap s target = true → type ≠ CLEAR →
     (∀ u s', trigger (exec fuel) target type (Some k) newValue s = Done u s' →
        ∃ evs, trace s' = trace s ++ evs
               ∧ ∀ d e, map_get k depsMap = Some d
                        ∨ map_get ITERATE_KEY depsMap = Some d
                        ∨ (type ≠ SET ∧ map_get MAP_KEY_ITERATE_KEY depsMap = Some d) →
                        e ∈ members (dep_at s d) → fires_on s e → EvFire e ∈ evs)
     ∧ ∀ deps, trigger_deps s target SET (Some k) newValue depsMap = inr deps →
               deps = [map_get k depsMap; map_get ITERATE_KEY depsMap]).
Proof.
  intros HWF Hnd Hmap. split.
  - intros ok u s' H.
    destruct (trigger_fires fuel target CLEAR ok newValue s u s' depsMap _
                HWF Hnd Hmap eq_refl H) as (evs & Ht & Hfire).
    exists evs. split; [done|]. intros key d e Hin Hmem Hguard.
    apply (Hfire e d); [|done..].
    apply list_elem_of_fmap. by exists (key, d).
  - intros Harr HisMap Hty. split.
    + intros u s' H.
      destruct (trigger_deps_map s target type k newValue depsMap Harr HisMap Hty)
        as (deps & Hdeps & Hkey & Hiter & Hkeys).
      destruct (trigger_fires fuel _ _ _ _ _ _ _ _ _ HWF Hnd Hmap Hdeps H)
        as (evs & Ht & Hfire).
      exists evs. split; [done|]. intros d e Hcase Hmem Hguard.
      apply (Hfire e d); [|done..].
      destruct Hcase as [Hk|[Hi|[Hne Hm]]]; auto.
    + intros deps Hdeps. unfold trigger_deps in Hdeps.
      rewrite Harr, HisMap, andb_false_r in Hdeps. simpl in Hdeps. by injection Hdeps as <-.
Qed.

Lemma map_size_read_invariants : WF map_size_read ∧ members_nodup map_size_read.
Proof.
  assert (H : exec 20 (map_size_reader (Return VUndefined)) (initial_state false)
              = Done VUndefined map_size_read) by (vm_compute; reflexivity).
  split.
  - by apply (exec_WF _ _ _ _ _ (WF_initial false) H).
  - by apply (exec_members_nodup _ _ _ _ _ (members_nodup_initial false) H).
Qed.

Lemma trigger_on_a_collection_witness :
  ∃ s', trigger (exec 20) 0 ADD (Some (KStr "x")) (VNum 1) map_size_read = Done tt s'
        ∧ ∃ evs, trace s' = trace map_size_read ++ evs
           ∧ ∀ d e, map_get (KStr "x") [(ITERATE_KEY, 0%nat)] = Some d
                    ∨ map_get ITERATE_KEY [(ITERATE_KEY, 0%nat)] = Some d
                    ∨ (ADD ≠ SET ∧ map_get MAP_KEY_ITERATE_KEY [(ITERATE_KEY, 0%nat)] = Some d) →
                    e ∈ members (dep_at map_size_read d) →
                    fires_on map_size_read e → EvFire e ∈ evs.
Proof.
  eexists. split; [vm_compute; reflexivity|].
  destruct (trigger_on_a_collection 20 0 ADD (KStr "x") (VNum 1) map_size_read
              [(ITERATE_KEY, 0%nat)])
    as [_ Hmap]; [apply map_size_read_invariants..|vm_compute; reflexivity|].
  destruct Hmap as [Hfire _]; [vm_compute; reflexivity..|done|].
  eapply Hfire. vm_compute. reflexivity.
Defined.

(** An entry added to the map and a [clear] both run the effect again. *)
Example map_size_reader_log :
  out (final_of (exec 30
        (map_size_reader (Trigger 0 ADD (Some (KStr "x")) (VNum 1)
                         (Trigger 0 CLEAR None VUndefined (Return VUndefined))))
        (initial_state false)))
  = [VStr "size"; VStr "size"; VStr "size"].
Proof. vm_compute. reflexivity. Qed.

(** * A tracked read subscribes the running effect *)

(** [trackEffects] leaves the active effect a member of the Dep, provided
    a marker bit found set at its level belongs to it. *)
Lemma trackEffects_subscribes d a s :
  activeEffect s = Some a → (d < length (depHeap s))%nat →
  trackOpBit s = js_shl 1 (effectTrackDepth s) →
  ((effectTrackDepth s ≤ 30)%nat →
   wbit s d (effectTrackDepth s) || nbit s d (effectTrackDepth s) = true →
   a ∈ members (dep_at s d)) →
  a ∈ members (dep_at (trackEffects d s) d).
Proof.
  intros Ha Hld Hbit Hown. unfold trackEffects. rewrite Ha.
  destruct (lookup_lt_is_Some_2 _ _ Hld) as [D0 HD0]. rewrite HD0.
  set (s0 := record (EvTrack a d) s).
  assert (Hd0 : ∀ d', dep_at s0 d' = dep_at s d') by done.
  assert (Hbit0 : trackOpBit s0 = js_shl 1 (effectTrackDepth s0)) by done.
  assert (Hld0 : (d < length (depHeap s0))%nat) by done.
  assert (Hk0 : effectTrackDepth s0 = effectTrackDepth s) by done.
  assert (Hadd : ∀ s1, (d < length (depHeap s1))%nat →
    a ∈ members (dep_at
          (upd_effect a (λ E, with_deps (deps E ++ [d]) E)
             (upd_dep d (λ D, with_members (set_add a (members D)) D) s1)) d)).
  { intros s1 Hld1. rewrite dep_at_upd_effect, dep_at_upd_dep_eq by done. simpl.
    apply elem_of_set_add. by left. }
  unfold maxMarkerBits. rewrite Hk0. case_bool_decide as Hk.
  - rewrite newTracked_nbit by (by rewrite ?Hk0). rewrite Hd0, Hk0.
    destruct (Z.testbit (n (dep_at s d)) (Z.of_nat (effectTrackDepth s))) eqn:Hn; simpl.
    + rewrite Hd0. apply Hown; [done|]. unfold nbit. rewrite Hn. apply orb_true_r.
    + set (s1 := upd_dep d _ s0).
      assert (Hw1 : ∀ d', w (dep_at s1 d') = w (dep_at s d')).
      { intros d'. unfold s1. by rewrite (dep_field_upd_dep w). }
      assert (Hm1 : ∀ d', members (dep_at s1 d') = members (dep_at s d')).
      { intros d'. unfold s1. by rewrite (dep_field_upd_dep members). }
      rewrite wasTracked_wbit by done. change (effectTrackDepth s1) with (effectTrackDepth s).
      rewrite Hw1.
      destruct (Z.testbit (w (dep_at s d)) (Z.of_nat (effectTrackDepth s))) eqn:Hw; simpl.
      * rewrite Hm1. apply Hown; [done|]. unfold wbit. by rewrite Hw.
      * apply Hadd. unfold s1. by rewrite length_depHeap_upd_dep.
  - unfold set_has. rewrite Hd0. case_bool_decide as Hin; simpl.
    + by rewrite Hd0.
    + by apply Hadd.
Qed.

Lemma active_effect_allocated s a :
  WF s → activeEffect s = Some a → (a < length (effectHeap s))%nat.
Proof.
  intros [_ _ _ (l & Hst & _)] Ha. rewrite Ha in Hst. by inversion Hst.
Qed.

(** X18.  [track(target, type, key)] with tracking on subscribes the
    active effect to the Dep of the pair: afterwards the effect is a
    member of that Dep and the Dep is in its [deps].  For a Dep that was
    registered before, this needs that a marker bit found set on it at
    the level of the active effect belongs to that effect. *)
Theorem track_subscribes_active_effect target type k s a :
  WF s → shouldTrack s = true → activeEffect s = Some a →
  (∀ d, map_get k (default [] (depsMap_of s target)) = Some d →
        (d < length (depHeap s))%nat
        ∧ ((effectTrackDepth s ≤ 30)%nat →
           wbit s d (effectTrackDepth s) || nbit s d (effectTrackDepth s) = true →
           a ∈ members (dep_at s d))) →
  ∃ d, map_get k (default [] (depsMap_of (track target type k s) target)) = Some d
       ∧ a ∈ members (dep_at (track target type k s) d)
       ∧ d ∈ deps (effect_at (track target type k s) a).
Proof.
  intros HWF Hst Ha Hreg.
  destruct (Exec_WF _ _ (track_Exec target type k s) HWF) as [[Hl' _ _ _] _].
  assert (Hsome : is_Some (activeEffect s)) by (by rewrite Ha).
  destruct (track_targetMap target type k s Hst Hsome) as (Htm & _).
  pose proof HWF as [_ _ Hbit _].
  assert (Hmem : ∃ d, map_get k (default [] (depsMap_of (track target type k s) target)) = Some d
                      ∧ a ∈ members (dep_at (track target type k s) d)).
  { unfold depsMap_of at 1. rewrite Htm, lookup_insert_eq. simpl.
    unfold track. rewrite Hst, bool_decide_eq_true_2 by done. simpl.
    destruct (map_get k (default [] (depsMap_of s target))) as [d|] eqn:Hget.
    - exists d. split; [done|]. destruct (Hreg d eq_refl) as [Hld Hown].
      apply trackEffects_subscribes; by destruct s.
    - exists (length (depHeap s)). split.
      + rewrite map_get_app_None by done. simpl. by rewrite bool_decide_eq_true_2.
      + simpl.
        set (s3 := set_targetMap _ (set_depHeap _ _)).
        assert (HD : dep_at s3 (length (depHeap s)) = createDep []).
        { unfold dep_at, s3. destruct s; simpl. by rewrite list_lookup_middle. }
        apply trackEffects_subscribes.
        * by destruct s.
        * unfold s3. destruct s; simpl. rewrite length_app. simpl. lia.
        * by destruct s.
        * intros _. unfold wbit, nbit. rewrite HD. simpl.
          by rewrite !Z.testbit_0_l. }
  destruct Hmem as (d & Hget & Hin). exists d. split_and!; [done..|].
  by apply Hl'.
Qed.

Lemma track_subscribes_active_effect_witness :
  ∃ d, map_get (KStr "a")
         (default [] (depsMap_of (track 0 GET (KStr "a") keys_rerun) 0)) = Some d
       ∧ 0%nat ∈ members (dep_at (track 0 GET (KStr "a") keys_rerun) d)
       ∧ d ∈ deps (effect_at (track 0 GET (KStr "a") keys_rerun) 0).
Proof.
  apply (track_subscribes_active_effect 0 GET (KStr "a") keys_rerun 0).
  - destruct (WF_run_enter 0 keys_read [] (proj1 keys_read_invariants)) as (HWF & _).
    + vm_compute. constructor.
    + vm_compute. lia.
    + apply not_elem_of_nil.
    + exact HWF.
  - vm_compute. reflexivity.
  - vm_compute. reflexivity.
  - intros d Hd. vm_compute in Hd. injection Hd as <-. split; [vm_compute; lia|].
    intros _ _. vm_compute. apply list_elem_of_here.
Defined.

(** After the [stop] of the scenario above the Dep of [r1] carries the
    new-tracked bit of level 1, which belongs to no effect.  An effect
    created then reads [r1.value] and is not subscribed: [r1.value = 5]
    runs effect 0 and not the new effect.  Without the [stop] the new
    effect logs [5]. *)
Example stale_marker_blocks_subscription :
  let reader r1 :=
    Effect (GetValue r1 (λ v, Log v (Return VUndefined))) false None false None
           (λ _, SetValue r1 (VNum 5) (Return VUndefined)) in
  ∃ s s',
    exec 40 (stale_marker true (λ r1 _, reader r1)) (initial_state false) = Done VUndefined s
    ∧ exec 40 (stale_marker false (λ r1 _, reader r1)) (initial_state false)
      = Done VUndefined s'
    ∧ EvTrack 3 1 ∈ trace s ∧ members (dep_at s 1) = [0%nat]
    ∧ out s = [VStr "C"; VNum 1; VStr "C"]
    ∧ members (dep_at s' 1) = [0; 2; 3]%nat
    ∧ out s' = [VStr "C"; VNum 1; VStr "C"; VNum 5].
Proof.
  eexists _, _.
  split; [vm_compute; reflexivity|].
  split; [vm_compute; reflexivity|].
  split; [apply list_elem_of_In; vm_compute; repeat (first [left; reflexivity|right])|].
  split; [vm_compute; reflexivity|].
  split; [vm_compute; reflexivity|].
  split; vm_compute; reflexivity.
Qed.

(** * A computed that does not cache *)

Lemma active_trackEffects d s e :
  active (effect_at (trackEffects d s) e) = active (effect_at s e).
Proof.
  unfold trackEffects. destruct (activeEffect s) as [a|]; [|done].
  destruct (depHeap s !! d); [|done].
  repeat (case_bool_decide || destruct (negb _) || destruct (newTracked _ _)
          || destruct (wasTracked _ _));
    by rewrite ?(effect_field_upd_effect active), ?effect_at_upd_dep.
Qed.

Lemma active_trackRefValue rb s e :
  active (effect_at (trackRefValue rb s) e) = active (effect_at s e).
Proof.
  unfold trackRefValue. destruct (_ && _); [|done].
  destruct (dep_of s rb); simpl; rewrite active_trackEffects; [done|].
  by destruct rb.
Qed.

(** X19.  A computed built for server-side rendering does not cache: its
    effect is inactive and [_cacheable] is off, and every read of
    [c.value] calls the getter again, whatever [_dirty] says. *)
Theorem ssr_computed_recomputes fuel c s v s1 :
  WF s → _cacheable (computed_at s c) = false →
  active (effect_at s (effect (computed_at s c))) = false →
  read_computed fuel c s = Done v s1 →
  (run_count (effect (computed_at s c)) s < run_count (effect (computed_at s c)) s1)%nat
  ∧ activeEffect s1 = activeEffect s.
Proof.
  intros HWF Hcache Hinactive Hread.
  pose proof (ComputedRefImpl_get_Exec _ (exec_Exec fuel) _ _ _ _ Hread) as HE.
  destruct (Exec_WF _ _ HE HWF) as [_ [Ha _ _ _]]. split; [|done].
  set (ce := effect (computed_at s c)) in *.
  unfold read_computed, ComputedRefImpl_get in Hread. cbv zeta in Hread.
  set (s0 := trackRefValue (OfComputed c) s) in *.
  pose proof (trackRefValue_cached (OfComputed c) s c) as Hk. fold s0 in Hk.
  unfold cached in Hk. injection Hk as _ _ Hc0 He0.
  rewrite Hc0, Hcache, orb_true_r in Hread.
  set (s2 := upd_computed c (with_dirty false) s0) in *.
  assert (He2 : effect (computed_at s2 c) = ce).
  { unfold s2. by rewrite (computed_field_upd_computed effect). }
  rewrite He2 in Hread. inv_bind Hread. inv_done. rename a into v0, s3 into s3.
  assert (Hin2 : active (effect_at s2 ce) = false).
  { rewrite (effect_at_heap s0 s2) by (by destruct s0).
    unfold s0. by rewrite active_trackRefValue. }
  assert (HE2 : Exec s s2).
  { eapply Exec_trans; [apply (trackRefValue_Exec (OfComputed c))|]. unfold s2. other. }
  destruct (Exec_WF _ _ HE2 HWF) as [HWF2 _].
  destruct (Exec_WF _ _ (Exec_plain_call ce s2 Hin2) HWF2) as [HWF2' _].
  unfold run in Hread0. rewrite Hin2 in Hread0. simpl in Hread0.
  apply exec_Exec in Hread0.
  destruct (Exec_trace _ _ Hread0 HWF2') as [evs Ht].
  assert (Hcount : run_count ce s2 = run_count ce s).
  { rewrite (run_count_trace ce s0 s2) by (by destruct s0).
    apply run_count_trackRefValue. }
  rewrite (run_count_trace ce s3 (upd_computed c (with_c_value v0) s3))
    by (by destruct s3).
  rewrite (run_count_app ce _ _ evs Ht), run_count_record_eq, Hcount. lia.
Qed.

Lemma ssr_computed_recomputes_witness :
  ∃ s1, read_computed 20 0 ssr_computed_created = Done (VNum 2) s1
        ∧ (run_count (effect (computed_at ssr_computed_created 0)) ssr_computed_created
           < run_count (effect (computed_at ssr_computed_created 0)) s1)%nat
        ∧ activeEffect s1 = activeEffect ssr_computed_created.
Proof.
  eexists. split; [vm_compute; reflexivity|].
  apply (ssr_computed_recomputes 20 0 ssr_computed_created (VNum 2)).
  - assert (H : exec 20 (ssr_computed_setup (λ _ _, Return VUndefined)) (initial_state false)
                = Done VUndefined ssr_computed_created) by (vm_compute; reflexivity).
    by apply (exec_WF _ _ _ _ _ (WF_initial false) H).
  - vm_compute. reflexivity.
  - vm_compute. reflexivity.
  - vm_compute. reflexivity.
Defined.

(** Two reads in a row call the getter twice; those of the cacheable
    computed of the other scenario call it once. *)
Example ssr_computed_log :
  out (final_of (exec 30
        (ssr_computed_setup (λ _ c, GetValue c (λ _, GetValue c (λ _, Return VUndefined))))
        (initial_state false)))
  = [VStr "call"; VStr "call"]
  ∧ out (final_of (exec 30
        (computed_setup (λ _ c, GetValue c (λ _, GetValue c (λ _, Return VUndefined))))
        (initial_state false)))
    = [VStr "call"].
Proof. vm_compute. split; reflexivity. Qed.

(** * Writing to a computed *)

(** X20.  A computed built from a getter alone stays read-only whatever
    runs afterwards: a write to [c.value] calls nothing and changes
    nothing, but for the warning it adds in a development build.  A
    computed built with a setter hands the new value to that setter. *)
Theorem computed_write_goes_to_the_setter fuel fuel' getter setter isSSR p s c s1 v s2
    newValue :
  computed_ getter setter isSSR s = (c, s1) →
  exec fuel' p s1 = Done v s2 →
  ComputedRefImpl_set (exec fuel) c newValue s2
  = match setter with
    | None =>
        Done tt (if dev s2
                 then set_warnings
                        (warnings s2
                         ++ ["Write operation failed: computed value is readonly"%string]) s2
                 else s2)
    | Some f => bind (exec fuel (f newValue) s2) (λ _ s3, Done tt s3)
    end.
Proof.
  intros Hc Hrun. apply exec_Exec, Exec_keeps_computed in Hrun as [_ Hk].
  unfold computed_, new_ComputedRefImpl in Hc. injection Hc as <- <-.
  set (E := mkEffect _ _ _ _ _ _ _ _ _) in *. set (C := mkComputed _ _ _ _ _ _ _) in *.
  set (s1 := set_computedHeap _ _) in *.
  assert (HC : computed_at s1 (length (computedHeap s)) = C).
  { unfold computed_at, s1.
    replace (computedHeap (set_computedHeap _ _)) with (computedHeap s ++ [C])
      by (by destruct s).
    by rewrite list_lookup_middle. }
  assert (Hlt : (length (computedHeap s) < length (computedHeap s1))%nat).
  { unfold s1. destruct s; simpl. rewrite length_app. simpl. lia. }
  specialize (Hk _ Hlt). rewrite HC in Hk.
  assert (Hset : _setter (computed_at s2 (length (computedHeap s))) = setter).
  { unfold cstatic in Hk. by injection Hk as _ _ _ Hs. }
  unfold ComputedRefImpl_set. by rewrite Hset.
Qed.

Lemma computed_write_goes_to_the_setter_witness :
  ∃ s2, exec 20 (GetValue (VComputed 0) (λ _, Return VUndefined)) computed_created
        = Done VUndefined s2
        ∧ ComputedRefImpl_set (exec 20) 0 (VNum 7) s2
          = Done tt (if dev s2
                     then set_warnings
                            (warnings s2
                             ++ ["Write operation failed: computed value is readonly"%string])
                            s2
                     else s2).
Proof.
  eexists. split; [vm_compute; reflexivity|].
  eapply (computed_write_goes_to_the_setter 20 20
            (logging_getter (VRef 0)) None false
            (GetValue (VComputed 0) (λ _, Return VUndefined))
            (final_of (exec 20 (Ref (VNum 2) false (λ _, Return VUndefined))
                               (initial_state false)))).
  - vm_compute. reflexivity.
  - vm_compute. reflexivity.
Defined.

(** With a setter that writes the ref behind it, [c.value = 7] is seen by
    the next read of the computed. *)
Example computed_with_setter_log :
  out (final_of (exec 30
        (Ref (VNum 2) false (λ r,
         Computed (GetValue r (λ v, Return v))
                  (Some (λ v, SetValue r v (Return VUndefined))) false (λ c,
         SetValue c (VNum 7) (GetValue c (λ v, Log v (Return VUndefined))))))
        (initial_state false)))
  = [VNum 7].
Proof. vm_compute. reflexivity. Qed.

(** * ref.ts: [toRef] and [ObjectRefImpl] *)






(** * Creating and reading a ref *)

(** X22.  [ref(x)] and [shallowRef(x)].  For a value that is a ref
    already they return that ref and allocate nothing.  For a primitive,
    or with [shallow], they allocate a ref that has no Dep yet; a read of
    its [.value] returns [x], and, made while an effect is running with
    tracking on, creates the Dep and subscribes the effect to it. *)
Theorem ref_read_returns_and_subscribes v shallow s :
  (isRef v = true → createRef v shallow s = Done v s)
  ∧ (isRef v = false → shallow = true ∨ isObject v = false →
     ∃ s1, createRef v shallow s = Done (VRef (length (refHeap s))) s1
           ∧ ref_dep (ref_at s1 (length (refHeap s))) = None
           ∧ depHeap s1 = depHeap s
           ∧ ∃ s2, RefImpl_get (length (refHeap s)) s1 = Done v s2
               ∧ ∀ a, WF s → shouldTrack s = true → activeEffect s = Some a →
                   ref_dep (ref_at s2 (length (refHeap s))) = Some (length (depHeap s))
                   ∧ a ∈ members (dep_at s2 (length (depHeap s)))).
Proof.
  split.
  - intros Href. unfold createRef. by rewrite Href.
  - intros Href Hprim. unfold createRef. rewrite Href.
    assert (Hre : (if shallow then Some v else toReactive v) = Some v).
    { destruct shallow; [done|]. destruct Hprim as [|Hprim]; [done|].
      unfold toReactive. by rewrite Hprim. }
    rewrite Hre.
    set (R := mkRef v _ None shallow).
    set (s1 := set_refHeap (refHeap s ++ [R]) s).
    set (r := length (refHeap s)).
    assert (HR : ref_at s1 r = R).
    { unfold ref_at, s1, r. destruct s; simpl. by rewrite list_lookup_middle. }
    exists s1. split_and!; [done|by rewrite HR|by destruct s|].
    assert (Hval : ∀ d s', refHeap s' = refHeap s1 →
              ref_at (trackEffects d (upd_ref r (with_ref_dep (Some d)) s')) r
              = with_ref_dep (Some d) R).
    { intros d s' Hs'. unfold ref_at. rewrite refHeap_trackEffects.
      replace (refHeap (upd_ref r (with_ref_dep (Some d)) s'))
        with (alter (with_ref_dep (Some d)) r (refHeap s')) by (by destruct s').
      rewrite Hs', list_lookup_alter_eq. unfold s1, r. destruct s; simpl.
      by rewrite list_lookup_middle. }
    eexists. split.
    + unfold RefImpl_get. f_equal.
      unfold trackRefValue. destruct (_ && _); [|by rewrite HR].
      simpl. rewrite HR. simpl.
      by rewrite Hval.
    + intros a HWF Hst Ha. pose proof HWF as [_ _ Hbit _].
      unfold trackRefValue.
      replace (shouldTrack s1) with (shouldTrack s) by (by destruct s).
      replace (activeEffect s1) with (activeEffect s) by (by destruct s).
      rewrite Hst, Ha. simpl. rewrite HR. simpl.
      replace (length (depHeap s1)) with (length (depHeap s)) by (by destruct s).
      set (s' := upd_ref r _ _).
      split.
      * unfold s'. rewrite Hval by done. done.
      * assert (HD : dep_at s' (length (depHeap s)) = createDep []).
        { unfold dep_at, s', s1. destruct s; simpl. by rewrite list_lookup_middle. }
        apply trackEffects_subscribes.
        -- unfold s', s1. by destruct s.
        -- unfold s', s1. destruct s; simpl. rewrite length_app. simpl. lia.
        -- unfold s', s1. by destruct s.
        -- intros _. unfold wbit, nbit. rewrite HD. simpl. by rewrite !Z.testbit_0_l.
Qed.

Lemma ref_read_returns_and_subscribes_witness :
  ∃ s1, createRef (VNum 4) false keys_rerun = Done (VRef 0) s1
        ∧ ∃ s2, RefImpl_get 0 s1 = Done (VNum 4) s2
                ∧ ref_dep (ref_at s2 0) = Some 2%nat
                ∧ 0%nat ∈ members (dep_at s2 2).
Proof.
  destruct (ref_read_returns_and_subscribes (VNum 4) false keys_rerun) as [_ H].
  destruct H as (s1 & Hc & _ & _ & s2 & Hg & Hsub); [reflexivity|by right|].
  exists s1. split; [exact Hc|]. exists s2. split; [exact Hg|].
  apply (Hsub 0%nat).
  - destruct (WF_run_enter 0 keys_read [] (proj1 keys_read_invariants)) as (HWF & _).
    + vm_compute. constructor.
    + vm_compute. lia.
    + apply not_elem_of_nil.
    + exact HWF.
  - vm_compute. reflexivity.
  - vm_compute. reflexivity.
Defined.

(** * The [get] trap *)

(** Read through [reactive], the ref comes back from the array and its
    value from an object. *)
Example ref_in_array_log :
  out (final_of (exec 30
        (Ref (VNum 1) false (λ r,
         NewObject true false [(KStr "0", r)] (λ a,
         NewObject false false [(KStr "x", r)] (λ o,
         MakeProxy Reactive a (λ pa, MakeProxy Reactive o (λ po,
         Get pa (KStr "0") (λ v, Log v
         (Get po (KStr "x") (λ v', Log v' (Return VUndefined))))))))))
        (initial_state false)))
  = [VRef 0; VNum 1].
Proof. vm_compute. reflexivity. Qed.
